(** * Amamoto traffic simulation: the WebAssembly ECS core

    A shallow embedding of the entity store (WasmECS.h / WasmECS.cpp), the
    road network (WasmRoadNetwork.h / .cpp) and the simulation facade with
    its systems and A* route search (WasmTrafficSimulation.h / .cpp),
    followed by the properties of the specification that concern them.

    Conventions of the embedding.
    - [float] is IEEE-754 binary32.  The code is written once over the
      interface [FloatOps]; [binary32] instantiates it with the executable
      operations of [SpecFloat] (precision 24, emax 128).
    - [uint32_t] identifiers are [N].  Identifier counters only grow by one
      per stored object, so they stay far below 2^32 and are not wrapped;
      [m_entityCount], which is decremented, wraps as [size_t] does.
    - Pointers into an owning container become the key of the pointee
      ([option] for a nullable pointer).
    - [assert] is that of <cassert>: checked unless the build defines
      NDEBUG ([BuildConfig]).  A failed assertion and undefined behaviour
      (null dereference, index out of range) are both the result [None]. *)

From Stdlib Require Import ZArith NArith List Bool Lia Ascii Sorted
  Floats.SpecFloat.
From stdpp Require Import base option list gmap strings pretty.

Local Open Scope N_scope.

(** ** Arithmetic of [float] *)

Class FloatOps (F : Type) := {
  f_lit : Z -> Z -> F;          (* the literal num/den, e.g. 0.5f = f_lit 1 2 *)
  fadd : F -> F -> F;
  fsub : F -> F -> F;
  fmul : F -> F -> F;
  fdiv : F -> F -> F;
  fneg : F -> F;
  fabs : F -> F;
  fsqrt : F -> F;
  flt : F -> F -> bool;         (* a < b *)
  fle : F -> F -> bool;         (* a <= b *)
  feq : F -> F -> bool          (* a == b *)
}.

Module Binary32.
Definition prec : Z := 24.
Definition emax : Z := 128.
Definition of_Z (z : Z) : spec_float := binary_normalize prec emax z 0 false.
Definition lit (num den : Z) : spec_float :=
  if (den =? 1)%Z then of_Z num else SFdiv prec emax (of_Z num) (of_Z den).
End Binary32.

#[export] Instance binary32 : FloatOps spec_float := {
  f_lit := Binary32.lit;
  fadd := SFadd Binary32.prec Binary32.emax;
  fsub := SFsub Binary32.prec Binary32.emax;
  fmul := SFmul Binary32.prec Binary32.emax;
  fdiv := SFdiv Binary32.prec Binary32.emax;
  fneg := SFopp;
  fabs := SFabs;
  fsqrt := SFsqrt Binary32.prec Binary32.emax;
  flt := SFltb;
  fle := SFleb;
  feq := SFeqb
}.

(** [std::min] and [std::max] of <algorithm>:
    min(a,b) = (b < a) ? b : a and max(a,b) = (a < b) ? b : a. *)
Definition fmin {F} {fl : FloatOps F} (a b : F) : F := if flt b a then b else a.
Definition fmax {F} {fl : FloatOps F} (a b : F) : F := if flt a b then b else a.

(** ** Build configuration and the option monad of traps *)

Class BuildConfig := { NDEBUG : bool }.
Definition release_build : BuildConfig := {| NDEBUG := true |}.
Definition debug_build : BuildConfig := {| NDEBUG := false |}.

Definition check (b : bool) : option unit := if b then Some tt else None.
Definition assert {cfg : BuildConfig} (b : bool) : option unit :=
  if NDEBUG then Some tt else check b.

Fixpoint foldM {A S : Type} (f : S -> A -> option S) (s : S) (l : list A) : option S :=
  match l with
  | [] => Some s
  | a :: l' => match f s a with Some s' => foldM f s' l' | None => None end
  end.

(** The identifiers [0, 1, ..., n-1], the range of [for (id = 0; id < n; id++)]. *)
Definition idsBelow (n : N) : list N := N.of_nat <$> seq 0 (N.to_nat n).

(** [size_t] is 32 bits wide on wasm32. *)
Definition wrap32 (n : N) : N := n mod 2 ^ 32.
Definition size_incr (n : N) : N := wrap32 (n + 1).
Definition size_decr (n : N) : N := wrap32 (n + (2 ^ 32 - 1)).

(** ** Components (WasmComponents.h) *)

Inductive ComponentKind :=
  | KTransform | KVehicle | KPathFollowing | KBounds
  | KCollision | KRenderable | KTrafficSignal | KSelectable.

#[export] Instance ComponentKind_eq_dec : EqDecision ComponentKind.
Proof. solve_decision. Defined.

Definition allKinds : list ComponentKind :=
  [KTransform; KVehicle; KPathFollowing; KBounds;
   KCollision; KRenderable; KTrafficSignal; KSelectable].

Definition MAX_COMPONENTS : N := 32.

(** [WasmComponentRegistry::getComponentID<T>()] numbers the component types
    in the order of their first use in a run; a type keeps its number, two
    types never share one, and the assertion bounds it by MAX_COMPONENTS. *)
Class ComponentRegistry := {
  getComponentID : ComponentKind -> N;
  getComponentID_inj : forall a b, getComponentID a = getComponentID b -> a = b;
  getComponentID_lt : forall k, getComponentID k < MAX_COMPONENTS
}.

(** The numbering of a run that starts with initialize, createVehicle,
    update, createPath. *)
Definition firstUseID (k : ComponentKind) : N :=
  match k with
  | KBounds => 0 | KTransform => 1 | KVehicle => 2 | KCollision => 3
  | KRenderable => 4 | KTrafficSignal => 5 | KPathFollowing => 6 | KSelectable => 7
  end.

Definition firstUseRegistry : ComponentRegistry.
Proof.
  refine {| getComponentID := firstUseID |}.
  - intros [] []; simpl; intros E; try reflexivity; discriminate E.
  - intros []; reflexivity.
Defined.

Section Components.
Context {F : Type} {fl : FloatOps F}.

Record WasmVector2D := mkVec { vx : F; vy : F }.

(** [rotation] is only ever 0.0f or the value of std::atan2, which is
    kept as the call it came from. *)
Inductive Angle := AngleZero | Atan2 (y x : F).

Record WasmTransformComponent := mkTransform {
  position : WasmVector2D;
  velocity : WasmVector2D;
  rotation : Angle
}.

Inductive VehicleType := Car | Truck | Bus | Motorcycle.

Record WasmVehicleComponent := mkVehicle {
  maxSpeed : F;
  currentSpeed : F;
  targetSpeed : F;
  vehicle_length : F;
  vehicle_width : F;
  acceleration : F;
  braking : F;
  vehicle_type : VehicleType
}.

Record WasmPathFollowingComponent := mkPathFollowing {
  path : list (N * N);
  currentPathIndex : N;
  distanceAlongCurrentSegment : F
}.

Record WasmBoundsComponent := mkBounds {
  bounds_width : F;
  bounds_height : F;
  keepInBounds : bool
}.

Record WasmCollisionComponent := mkCollision {
  radius : F;
  colliding : bool;
  collidingWith : list N
}.

Inductive Shape := Circle | Rectangle | Triangle | Custom.

Record WasmRenderableComponent := mkRenderable {
  shape : Shape;
  color : F * F * F * F;
  scale : F;
  visible : bool;
  vertices : list WasmVector2D
}.

Inductive SignalState := Green | Yellow | Red.

Record WasmTrafficSignalComponent := mkSignal {
  state : SignalState;
  timeRemaining : F;
  greenDuration : F;
  yellowDuration : F;
  redDuration : F
}.

Record WasmSelectableComponent := mkSelectable { selected : bool }.

(** A pool stores its components behind the base class [WasmComponent]. *)
Inductive WasmComponent :=
  | TransformC (c : WasmTransformComponent)
  | VehicleC (c : WasmVehicleComponent)
  | PathFollowingC (c : WasmPathFollowingComponent)
  | BoundsC (c : WasmBoundsComponent)
  | CollisionC (c : WasmCollisionComponent)
  | RenderableC (c : WasmRenderableComponent)
  | TrafficSignalC (c : WasmTrafficSignalComponent)
  | SelectableC (c : WasmSelectableComponent).

Definition kindOf (c : WasmComponent) : ComponentKind :=
  match c with
  | TransformC _ => KTransform | VehicleC _ => KVehicle
  | PathFollowingC _ => KPathFollowing | BoundsC _ => KBounds
  | CollisionC _ => KCollision | RenderableC _ => KRenderable
  | TrafficSignalC _ => KTrafficSignal | SelectableC _ => KSelectable
  end.

(** Constructors with the default arguments of the header. *)
Definition f0 : F := f_lit 0 1.
Definition newVector2D : WasmVector2D := mkVec f0 f0.
Definition newTransform (p v : WasmVector2D) : WasmTransformComponent :=
  mkTransform p v AngleZero.
Definition newVehicle : WasmVehicleComponent :=
  mkVehicle (f_lit 100 1) f0 f0 (f_lit 4 1) (f_lit 2 1) f0 f0 Car.
Definition newPathFollowing : WasmPathFollowingComponent :=
  mkPathFollowing [] 0 f0.
Definition newBounds (w h : F) : WasmBoundsComponent := mkBounds w h true.
Definition newCollision (r : F) : WasmCollisionComponent := mkCollision r false [].
Definition newRenderable : WasmRenderableComponent :=
  mkRenderable Rectangle (f_lit 2 10, f_lit 6 10, f_lit 8 10, f_lit 1 1)
               (f_lit 1 1) true [].
Definition newTrafficSignal : WasmTrafficSignalComponent :=
  mkSignal Red f0 (f_lit 30 1) (f_lit 5 1) (f_lit 30 1).

Definition setPath (c : WasmPathFollowingComponent) (newPath : list (N * N))
  : WasmPathFollowingComponent :=
  mkPathFollowing newPath 0 f0.

Definition hasReachedDestination (c : WasmPathFollowingComponent) : bool :=
  bool_decide (path c = []) || (N.of_nat (length (path c)) <=? currentPathIndex c).

Definition calculateSteeringForce (currentPos currentVel targetPos : WasmVector2D)
    (maxSpeed : F) : WasmVector2D :=
  let dx := fsub (vx targetPos) (vx currentPos) in
  let dy := fsub (vy targetPos) (vy currentPos) in
  let distance := fsqrt (fadd (fmul dx dx) (fmul dy dy)) in
  if flt distance (f_lit 1 10000) then newVector2D
  else
    let dx := fdiv dx distance in
    let dy := fdiv dy distance in
    let desiredVelocity := mkVec (fmul dx maxSpeed) (fmul dy maxSpeed) in
    mkVec (fsub (vx desiredVelocity) (vx currentVel))
          (fsub (vy desiredVelocity) (vy currentVel)).

Definition signal_update (c : WasmTrafficSignalComponent) (dt : F)
  : WasmTrafficSignalComponent :=
  let t := fsub (timeRemaining c) dt in
  if fle t f0 then
    match state c with
    | Green => mkSignal Yellow (yellowDuration c)
                 (greenDuration c) (yellowDuration c) (redDuration c)
    | Yellow => mkSignal Red (redDuration c)
                 (greenDuration c) (yellowDuration c) (redDuration c)
    | Red => mkSignal Green (greenDuration c)
                 (greenDuration c) (yellowDuration c) (redDuration c)
    end
  else mkSignal (state c) t (greenDuration c) (yellowDuration c) (redDuration c).
End Components.

Arguments WasmVector2D : clear implicits.
Arguments Angle : clear implicits.
Arguments WasmTransformComponent : clear implicits.
Arguments WasmVehicleComponent : clear implicits.
Arguments WasmPathFollowingComponent : clear implicits.
Arguments WasmBoundsComponent : clear implicits.
Arguments WasmCollisionComponent : clear implicits.
Arguments WasmRenderableComponent : clear implicits.
Arguments WasmTrafficSignalComponent : clear implicits.
Arguments WasmComponent : clear implicits.

(** ** The entity store (WasmECS.h, WasmECS.cpp) *)

(** A registered system.  The code stores closures; the four systems of
    [setupSystems] capture nothing the tick can observe, the path-following
    closure captures the road-network pointer it was created with. *)
Inductive System :=
  | MovementSystem
  | BoundsSystem
  | CollisionSystem
  | TrafficSignalSystem
  | PathFollowingSystem (roadNetwork : option N).

(** [WasmTypedComponentPool<T>]: the parallel vectors [m_components] and
    [m_componentExists], indexed by entity. *)
Abbreviation ComponentPool F := (list (option (WasmComponent F))).

Section World.
Context {F : Type} {fl : FloatOps F} {reg : ComponentRegistry} {cfg : BuildConfig}.

Definition pool_createComponent (p : ComponentPool F) (entity : N) (c : WasmComponent F)
  : ComponentPool F :=
  let p := if N.of_nat (length p) <=? entity
           then resize (N.to_nat entity + 1) None p else p in
  <[N.to_nat entity := Some c]> p.

Definition pool_getComponent (p : ComponentPool F) (entity : N) : option (WasmComponent F) :=
  mjoin (p !! N.to_nat entity).

Definition pool_removeComponent (p : ComponentPool F) (entity : N) : ComponentPool F :=
  <[N.to_nat entity := None]> p.

Record WasmWorld := mkWorld {
  m_entities : list N;
  m_entityMasks : list N;
  m_freeEntities : list N;
  m_entityCount : N;
  m_componentPools : list (option (ComponentPool F));
  m_systems : list System
}.

Definition WasmWorld_new : WasmWorld := mkWorld [] [] [] 0 [] [].

Definition mask_at (w : WasmWorld) (id : N) : option N :=
  m_entityMasks w !! N.to_nat id.

Definition entityExists (w : WasmWorld) (id : N) : bool :=
  (id <? N.of_nat (length (m_entities w)))
  && match mask_at w id with
     | Some m => negb (m =? 0)
     | None => false
     end.

Definition createEntity (w : WasmWorld) : N * WasmWorld :=
  match last (m_freeEntities w) with
  | Some id =>
      (id, mkWorld (m_entities w)
                   (<[N.to_nat id := 0]> (m_entityMasks w))
                   (removelast (m_freeEntities w))
                   (size_incr (m_entityCount w))
                   (m_componentPools w) (m_systems w))
  | None =>
      let id := N.of_nat (length (m_entities w)) in
      (id, mkWorld (m_entities w ++ [id])
                   (m_entityMasks w ++ [0])
                   (m_freeEntities w)
                   (size_incr (m_entityCount w))
                   (m_componentPools w) (m_systems w))
  end.

Definition destroyEntity (w : WasmWorld) (id : N) : WasmWorld :=
  if negb (entityExists w id) then w
  else
    let mask := default 0 (mask_at w id) in
    let pools :=
      imap (fun componentId pool =>
              match pool with
              | Some p => if N.testbit mask (N.of_nat componentId)
                          then Some (pool_removeComponent p id) else pool
              | None => None
              end) (m_componentPools w) in
    mkWorld (m_entities w)
            (<[N.to_nat id := 0]> (m_entityMasks w))
            (m_freeEntities w ++ [id])
            (size_decr (m_entityCount w))
            pools (m_systems w).

Definition set_pools (w : WasmWorld) (pools : list (option (ComponentPool F))) : WasmWorld :=
  mkWorld (m_entities w) (m_entityMasks w) (m_freeEntities w) (m_entityCount w)
          pools (m_systems w).

Definition set_masks (w : WasmWorld) (masks : list N) : WasmWorld :=
  mkWorld (m_entities w) masks (m_freeEntities w) (m_entityCount w)
          (m_componentPools w) (m_systems w).

(** [addComponent<T>(entity, args...)], with the constructed component
    [c] in place of T and its arguments. *)
Definition addComponent (w : WasmWorld) (entity : N) (c : WasmComponent F)
  : option WasmWorld :=
  let componentID := getComponentID (kindOf c) in
  _ ← assert (entityExists w entity);
  let pools := m_componentPools w in
  let pools := if N.of_nat (length pools) <=? componentID
               then resize (N.to_nat componentID + 1) None pools else pools in
  let pool := default [] (mjoin (pools !! N.to_nat componentID)) in
  mask ← mask_at w entity;
  let masks := <[N.to_nat entity := N.setbit mask componentID]> (m_entityMasks w) in
  let pool := pool_createComponent pool entity c in
  Some (mkWorld (m_entities w) masks (m_freeEntities w) (m_entityCount w)
                (<[N.to_nat componentID := Some pool]> pools) (m_systems w)).

(** [getComponent<T>(entity)]: the pool of T is dereferenced without a
    check, and so is the pointer it returns. *)
Definition lookupComponent (w : WasmWorld) (k : ComponentKind) (entity : N)
  : option (WasmComponent F) :=
  pool ← mjoin (m_componentPools w !! N.to_nat (getComponentID k));
  pool_getComponent pool entity.

Definition getComponent (w : WasmWorld) (k : ComponentKind) (entity : N)
  : option (WasmComponent F) :=
  let componentID := getComponentID k in
  _ ← assert (entityExists w entity);
  _ ← assert (match mask_at w entity with
               | Some m => N.testbit m componentID | None => false end);
  c ← lookupComponent w k entity;
  _ ← check (bool_decide (kindOf c = k));
  Some c.

(** Writing through the reference that [getComponent<T>] returned. *)
Definition storeComponent (w : WasmWorld) (entity : N) (c : WasmComponent F)
  : WasmWorld :=
  let componentID := N.to_nat (getComponentID (kindOf c)) in
  match mjoin (m_componentPools w !! componentID) with
  | Some pool =>
      set_pools w (<[componentID := Some (<[N.to_nat entity := Some c]> pool)]>
                     (m_componentPools w))
  | None => w
  end.

Definition removeComponent (w : WasmWorld) (k : ComponentKind) (entity : N)
  : WasmWorld :=
  let componentID := getComponentID k in
  if negb (entityExists w entity) then w
  else
    let mask := default 0 (mask_at w entity) in
    let w := set_masks w (<[N.to_nat entity := N.clearbit mask componentID]>
                            (m_entityMasks w)) in
    match mjoin (m_componentPools w !! N.to_nat componentID) with
    | Some pool =>
        set_pools w (<[N.to_nat componentID := Some (pool_removeComponent pool entity)]>
                       (m_componentPools w))
    | None => w
    end.

Definition hasComponent (w : WasmWorld) (k : ComponentKind) (entity : N) : bool :=
  if negb (entityExists w entity) then false
  else match mask_at w entity with
       | Some m => N.testbit m (getComponentID k)
       | None => false
       end.

Definition requiredMask (ks : list ComponentKind) : N :=
  foldl (fun m k => N.setbit m (getComponentID k)) 0 ks.

Definition getEntitiesWith (w : WasmWorld) (ks : list ComponentKind) : list N :=
  let required := requiredMask ks in
  List.filter (fun i => match mask_at w i with
                        | Some m => N.land m required =? required
                        | None => false
                        end)
              (idsBelow (N.of_nat (length (m_entityMasks w)))).

Definition registerSystem (w : WasmWorld) (s : System) : WasmWorld :=
  mkWorld (m_entities w) (m_entityMasks w) (m_freeEntities w) (m_entityCount w)
          (m_componentPools w) (m_systems w ++ [s]).

Definition getEntityCount (w : WasmWorld) : N := m_entityCount w.

(** [WasmWorld::update]: the registered systems in registration order;
    [run] is what invoking a stored closure does. *)
Definition WasmWorld_update (run : System -> WasmWorld -> F -> option WasmWorld)
    (w : WasmWorld) (dt : F) : option WasmWorld :=
  foldM (fun w s => run s w dt) w (m_systems w).

(** Typed access. *)
Definition getTransform (w : WasmWorld) (e : N) : option (WasmTransformComponent F) :=
  c ← getComponent w KTransform e; match c with TransformC t => Some t | _ => None end.
Definition getVehicle (w : WasmWorld) (e : N) : option (WasmVehicleComponent F) :=
  c ← getComponent w KVehicle e; match c with VehicleC t => Some t | _ => None end.
Definition getPathFollowing (w : WasmWorld) (e : N)
  : option (WasmPathFollowingComponent F) :=
  c ← getComponent w KPathFollowing e;
  match c with PathFollowingC t => Some t | _ => None end.
Definition getBounds (w : WasmWorld) (e : N) : option (WasmBoundsComponent F) :=
  c ← getComponent w KBounds e; match c with BoundsC t => Some t | _ => None end.
Definition getCollision (w : WasmWorld) (e : N) : option (WasmCollisionComponent F) :=
  c ← getComponent w KCollision e; match c with CollisionC t => Some t | _ => None end.
Definition getTrafficSignal (w : WasmWorld) (e : N)
  : option (WasmTrafficSignalComponent F) :=
  c ← getComponent w KTrafficSignal e;
  match c with TrafficSignalC t => Some t | _ => None end.
End World.

Arguments WasmWorld : clear implicits.

(** ** The road network (WasmRoadNetwork.h, WasmRoadNetwork.cpp) *)

Inductive WasmLaneType := LaneDriving | LaneParking | LaneBike | LaneBus.

Record WasmLaneConnection := mkConnection { conn_roadId : N; conn_laneId : N }.

(** The sentinel [static_cast<uint32_t>(-1)]. *)
Definition INVALID_ID : N := 2 ^ 32 - 1.

(** The key [std::to_string(inRoadId) + "_" + std::to_string(inLaneId)]. *)
Definition connectionKey (inRoadId inLaneId : N) : string :=
  pretty inRoadId +:+ "_" +:+ pretty inLaneId.

Section RoadNetwork.
Context {F : Type} {fl : FloatOps F}.

(** Conversion of an unsigned integer to [float]. *)
Definition f_of_N (n : N) : F := f_lit (Z.of_N n) 1.

Record WasmLane := mkLane {
  lane_m_id : N;
  lane_m_parent : N;
  lane_m_width : F;
  lane_m_type : WasmLaneType
}.

Record WasmRoadSegment := mkSegment {
  segment_m_id : N;
  m_startPoint : WasmVector2D F;
  m_endPoint : WasmVector2D F;
  m_length : F;
  m_lanes : list WasmLane;
  m_startIntersection : option N;
  m_endIntersection : option N
}.

Definition newRoadSegment (id : N) (startPoint endPoint : WasmVector2D F)
  : WasmRoadSegment :=
  let dx := fsub (vx endPoint) (vx startPoint) in
  let dy := fsub (vy endPoint) (vy startPoint) in
  mkSegment id startPoint endPoint (fsqrt (fadd (fmul dx dx) (fmul dy dy)))
            [] None None.

Definition getLaneCount (s : WasmRoadSegment) : N := N.of_nat (length (m_lanes s)).

Definition getWidth (s : WasmRoadSegment) : F :=
  foldl (fun total lane => fadd total (lane_m_width lane)) f0 (m_lanes s).

Definition addLane (s : WasmRoadSegment) (width : F) (type : WasmLaneType)
  : N * WasmRoadSegment :=
  let laneId := getLaneCount s in
  (laneId,
   mkSegment (segment_m_id s) (m_startPoint s) (m_endPoint s) (m_length s)
             (m_lanes s ++ [mkLane laneId (segment_m_id s) width type])
             (m_startIntersection s) (m_endIntersection s)).

Definition getPointAtDistance (s : WasmRoadSegment) (distance : F) : WasmVector2D F :=
  let distance := fmax f0 (fmin distance (m_length s)) in
  let t := fdiv distance (m_length s) in
  mkVec (fadd (vx (m_startPoint s))
              (fmul (fsub (vx (m_endPoint s)) (vx (m_startPoint s))) t))
        (fadd (vy (m_startPoint s))
              (fmul (fsub (vy (m_endPoint s)) (vy (m_startPoint s))) t)).

Definition getDirectionAtDistance (s : WasmRoadSegment) (distance : F)
  : WasmVector2D F :=
  let dx := fsub (vx (m_endPoint s)) (vx (m_startPoint s)) in
  let dy := fsub (vy (m_endPoint s)) (vy (m_startPoint s)) in
  let length := fsqrt (fadd (fmul dx dx) (fmul dy dy)) in
  if flt (f_lit 1 10000) length
  then mkVec (fdiv dx length) (fdiv dy length)
  else mkVec dx dy.

(** The lane index is unsigned, so the negation in the odd branch is
    taken modulo 2^32 before the conversion to [float]. *)
Definition getLanePositionAtDistance (s : WasmRoadSegment) (laneId : N) (distance : F)
  : WasmVector2D F :=
  match m_lanes s !! N.to_nat laneId with
  | None => getPointAtDistance s distance
  | Some lane =>
      let point := getPointAtDistance s distance in
      let direction := getDirectionAtDistance s distance in
      let normal := mkVec (fneg (vy direction)) (vx direction) in
      let laneWidth := lane_m_width lane in
      let offset :=
        if laneId mod 2 =? 0
        then fadd (fmul (f_of_N (laneId / 2)) laneWidth) (fdiv laneWidth (f_lit 2 1))
        else fsub (fmul (f_of_N (wrap32 (2 ^ 32 - wrap32 (laneId + 1) / 2))) laneWidth)
                  (fdiv laneWidth (f_lit 2 1)) in
      mkVec (fadd (vx point) (fmul (vx normal) offset))
            (fadd (vy point) (fmul (vy normal) offset))
  end.

Record WasmIntersection := mkIntersection {
  intersection_m_id : N;
  m_position : WasmVector2D F;
  m_connectedRoads : list N;
  m_connections : gmap string (list WasmLaneConnection)
}.

Definition newIntersection (id : N) (position : WasmVector2D F) : WasmIntersection :=
  mkIntersection id position [] ∅.

Definition defineConnection (i : WasmIntersection)
    (inRoadId inLaneId outRoadId outLaneId : N) : WasmIntersection :=
  let key := connectionKey inRoadId inLaneId in
  let connection := mkConnection outRoadId outLaneId in
  mkIntersection (intersection_m_id i) (m_position i) (m_connectedRoads i)
    (<[key := default [] (m_connections i !! key) ++ [connection]]> (m_connections i)).

Record WasmRoadNetwork := mkNetwork {
  m_roadSegments : gmap N WasmRoadSegment;
  m_intersections : gmap N WasmIntersection;
  m_nextRoadId : N;
  m_nextIntersectionId : N
}.

Definition WasmRoadNetwork_new : WasmRoadNetwork := mkNetwork ∅ ∅ 0 0.

Definition getRoadSegment (net : WasmRoadNetwork) (id : N) : option WasmRoadSegment :=
  m_roadSegments net !! id.

Definition getIntersection (net : WasmRoadNetwork) (id : N) : option WasmIntersection :=
  m_intersections net !! id.

Definition createRoadSegment (net : WasmRoadNetwork) (startX startY endX endY : F)
  : N * WasmRoadNetwork :=
  let id := m_nextRoadId net in
  let roadSegment := newRoadSegment id (mkVec startX startY) (mkVec endX endY) in
  let roadSegment := snd (addLane roadSegment (f_lit 35 10) LaneDriving) in
  (id, mkNetwork (<[id := roadSegment]> (m_roadSegments net)) (m_intersections net)
                 (id + 1) (m_nextIntersectionId net)).

Definition createIntersection (net : WasmRoadNetwork) (x y : F) : N * WasmRoadNetwork :=
  let id := m_nextIntersectionId net in
  (id, mkNetwork (m_roadSegments net)
                 (<[id := newIntersection id (mkVec x y)]> (m_intersections net))
                 (m_nextRoadId net) (id + 1)).

(** [WasmIntersection::connectRoad], called on the intersection
    [intersectionId] of the network with a pointer to its segment
    [roadId]: both objects are written. *)
Definition connectRoad (net : WasmRoadNetwork) (intersectionId roadId : N)
    (isStart : bool) : WasmRoadNetwork :=
  let intersections :=
    alter (fun i => mkIntersection (intersection_m_id i) (m_position i)
                      (m_connectedRoads i ++ [roadId]) (m_connections i))
          intersectionId (m_intersections net) in
  let segments :=
    alter (fun s => mkSegment (segment_m_id s) (m_startPoint s) (m_endPoint s)
                      (m_length s) (m_lanes s)
                      (if isStart then Some intersectionId else m_startIntersection s)
                      (if isStart then m_endIntersection s else Some intersectionId))
          roadId (m_roadSegments net) in
  mkNetwork segments intersections (m_nextRoadId net) (m_nextIntersectionId net).

Definition defineConnectionIn (net : WasmRoadNetwork) (intersectionId : N)
    (inRoadId inLaneId outRoadId outLaneId : N) : WasmRoadNetwork :=
  mkNetwork (m_roadSegments net)
            (alter (fun i => defineConnection i inRoadId inLaneId outRoadId outLaneId)
                   intersectionId (m_intersections net))
            (m_nextRoadId net) (m_nextIntersectionId net).

Definition connectWithIntersection (net : WasmRoadNetwork)
    (road1Id : N) (road1End : bool) (road2Id : N) (road2End : bool)
  : N * WasmRoadNetwork :=
  match getRoadSegment net road1Id, getRoadSegment net road2Id with
  | Some road1, Some road2 =>
      let p1 := if road1End then m_endPoint road1 else m_startPoint road1 in
      let p2 := if road2End then m_endPoint road2 else m_startPoint road2 in
      let midpoint := mkVec (fdiv (fadd (vx p1) (vx p2)) (f_lit 2 1))
                            (fdiv (fadd (vy p1) (vy p2)) (f_lit 2 1)) in
      let '(intersectionId, net) := createIntersection net (vx midpoint) (vy midpoint) in
      let net := connectRoad net intersectionId road1Id (negb road1End) in
      let net := connectRoad net intersectionId road2Id (negb road2End) in
      let net :=
        foldl (fun net lane1 =>
                 foldl (fun net lane2 =>
                          let net := defineConnectionIn net intersectionId
                                       road1Id lane1 road2Id lane2 in
                          defineConnectionIn net intersectionId
                            road2Id lane2 road1Id lane1)
                       net (idsBelow (getLaneCount road2)))
              net (idsBelow (getLaneCount road1)) in
      (intersectionId, net)
  | _, _ => (INVALID_ID, net)
  end.

(** The distance from the point to one segment, as computed in the body
    of the loop of [findNearestRoadSegment]. *)
Definition distanceToSegment (road : WasmRoadSegment) (x y : F) : F :=
  let start := m_startPoint road in
  let end_ := m_endPoint road in
  let roadVec := mkVec (fsub (vx end_) (vx start)) (fsub (vy end_) (vy start)) in
  let roadLength := fsqrt (fadd (fmul (vx roadVec) (vx roadVec))
                                (fmul (vy roadVec) (vy roadVec))) in
  let dist (px py : F) :=
    fsqrt (fadd (fmul (fsub x px) (fsub x px)) (fmul (fsub y py) (fsub y py))) in
  if flt roadLength (f_lit 1 10000) then dist (vx start) (vy start)
  else
    let roadDir := mkVec (fdiv (vx roadVec) roadLength) (fdiv (vy roadVec) roadLength) in
    let pointVec := mkVec (fsub x (vx start)) (fsub y (vy start)) in
    let projection := fadd (fmul (vx pointVec) (vx roadDir))
                           (fmul (vy pointVec) (vy roadDir)) in
    if flt projection f0 then dist (vx start) (vy start)
    else if flt roadLength projection then dist (vx end_) (vy end_)
    else dist (fadd (vx start) (fmul (vx roadDir) projection))
              (fadd (vy start) (fmul (vy roadDir) projection)).

(** The unordered map is visited in the order of [map_to_list]; the order
    matters only between segments at exactly the same distance. *)
Definition findNearestRoadSegment (net : WasmRoadNetwork) (x y maxDistance : F) : N :=
  snd (foldl (fun '(nearestDistance, nearestId) '(id, road) =>
                let distance := distanceToSegment road x y in
                if flt distance nearestDistance then (distance, id)
                else (nearestDistance, nearestId))
             (maxDistance, INVALID_ID) (map_to_list (m_roadSegments net))).

Definition findNearestIntersection (net : WasmRoadNetwork) (x y maxDistance : F) : N :=
  snd (foldl (fun '(nearestDistance, nearestId) '(id, intersection) =>
                let pos := m_position intersection in
                let distance :=
                  fsqrt (fadd (fmul (fsub x (vx pos)) (fsub x (vx pos)))
                              (fmul (fsub y (vy pos)) (fsub y (vy pos)))) in
                if flt distance nearestDistance then (distance, id)
                else (nearestDistance, nearestId))
             (maxDistance, INVALID_ID) (map_to_list (m_intersections net))).

Definition WasmRoadNetwork_clear (net : WasmRoadNetwork) : WasmRoadNetwork :=
  mkNetwork ∅ ∅ 0 0.

(** [getRoadSegment(id)->addLane(width, type)]; nothing happens here when
    the segment is unknown, where the code dereferences a null pointer. *)
Definition addLaneAt (net : WasmRoadNetwork) (id : N) (width : F) (type : WasmLaneType)
  : WasmRoadNetwork :=
  mkNetwork (alter (fun s => snd (addLane s width type)) id (m_roadSegments net))
            (m_intersections net) (m_nextRoadId net) (m_nextIntersectionId net).
End RoadNetwork.

Arguments WasmLane : clear implicits.
Arguments WasmRoadSegment : clear implicits.
Arguments WasmIntersection : clear implicits.
Arguments WasmRoadNetwork : clear implicits.

(** ** The simulation facade and its systems (WasmTrafficSimulation.h, .cpp) *)

(** The road networks live outside the facade, which holds a pointer to
    one of them. *)
Abbreviation Heap F := (gmap N (WasmRoadNetwork F)).

Section Simulation.
Context {F : Type} {fl : FloatOps F} {reg : ComponentRegistry} {cfg : BuildConfig}.

Record WasmTrafficSimulation := mkSimulation {
  m_world : WasmWorld F;
  m_roadNetwork : option N;
  m_width : F;
  m_height : F;
  m_keepInBounds : bool
}.

Definition set_world (sim : WasmTrafficSimulation) (w : WasmWorld F)
  : WasmTrafficSimulation :=
  mkSimulation w (m_roadNetwork sim) (m_width sim) (m_height sim) (m_keepInBounds sim).

(** *** Systems *)

Definition movementStep (w : WasmWorld F) (dt : F) (id : N) : option (WasmWorld F) :=
  transform ← getTransform w id;
  let p := position transform in
  let v := velocity transform in
  let p := mkVec (fadd (vx p) (fmul (vx v) dt)) (fadd (vy p) (fmul (vy v) dt)) in
  let r := if flt (f_lit 1 10) (fabs (vx v)) || flt (f_lit 1 10) (fabs (vy v))
           then Atan2 (vy v) (vx v) else rotation transform in
  Some (storeComponent w id (TransformC (mkTransform p v r))).

Definition movementSystem (w : WasmWorld F) (dt : F) : option (WasmWorld F) :=
  foldM (fun w id => movementStep w dt id) w (getEntitiesWith w [KTransform]).

(** The first loop of [boundsSystem]. *)
Definition findGlobalBounds (w : WasmWorld F) : option (option (WasmBoundsComponent F)) :=
  match List.find (fun id => entityExists w id && hasComponent w KBounds id)
                  (idsBelow (getEntityCount w)) with
  | Some id => b ← getBounds w id; Some (Some b)
  | None => Some None
  end.

Definition boundsAxis (p v limit : F) : F * F :=
  if flt p f0 then (f0, fmul (fneg v) (f_lit 1 2))
  else if flt limit p then (limit, fmul (fneg v) (f_lit 1 2))
  else (p, v).

Definition boundsStep (globalBounds : WasmBoundsComponent F) (w : WasmWorld F) (id : N)
  : option (WasmWorld F) :=
  transform ← getTransform w id;
  _ ← getVehicle w id;
  let '(px, velx) := boundsAxis (vx (position transform)) (vx (velocity transform))
                                (bounds_width globalBounds) in
  let '(py, vely) := boundsAxis (vy (position transform)) (vy (velocity transform))
                                (bounds_height globalBounds) in
  Some (storeComponent w id
          (TransformC (mkTransform (mkVec px py) (mkVec velx vely)
                                   (rotation transform)))).

Definition boundsSystem (w : WasmWorld F) (dt : F) : option (WasmWorld F) :=
  globalBounds ← findGlobalBounds w;
  match globalBounds with
  | None => Some w
  | Some b =>
      if negb (keepInBounds b) then Some w
      else foldM (boundsStep b) w (getEntitiesWith w [KTransform; KVehicle])
  end.

Definition pathFollowingStep (roadNetwork : WasmRoadNetwork F) (dt : F)
    (w : WasmWorld F) (id : N) : option (WasmWorld F) :=
  transform ← getTransform w id;
  vehicle ← getVehicle w id;
  pathFollowing ← getPathFollowing w id;
  let stop (w : WasmWorld F) :=
    storeComponent w id
      (VehicleC (mkVehicle (maxSpeed vehicle) (currentSpeed vehicle) f0
                           (vehicle_length vehicle) (vehicle_width vehicle)
                           (acceleration vehicle) (braking vehicle)
                           (vehicle_type vehicle))) in
  let storePath (idx : N) (dist : F) (w : WasmWorld F) :=
    storeComponent w id (PathFollowingC (mkPathFollowing (path pathFollowing) idx dist)) in
  if hasReachedDestination pathFollowing then Some (stop w)
  else
    '(roadID, laneID) ← path pathFollowing !! N.to_nat (currentPathIndex pathFollowing);
    match getRoadSegment roadNetwork roadID with
    | None =>
        Some (storePath (currentPathIndex pathFollowing + 1)
                        (distanceAlongCurrentSegment pathFollowing) w)
    | Some road =>
        let lookAheadDistance :=
          fadd (fmul (currentSpeed vehicle) (f_lit 2 1)) (f_lit 5 1) in
        let targetDistance :=
          fadd (distanceAlongCurrentSegment pathFollowing) lookAheadDistance in
        let steer (road : WasmRoadSegment F) (idx : N) (dist targetDistance : F) :=
          let targetPosition := getPointAtDistance road targetDistance in
          let steeringForce :=
            calculateSteeringForce (position transform) (velocity transform)
                                   targetPosition (maxSpeed vehicle) in
          let velx := fadd (vx (velocity transform)) (fmul (vx steeringForce) dt) in
          let vely := fadd (vy (velocity transform)) (fmul (vy steeringForce) dt) in
          let speed := fsqrt (fadd (fmul velx velx) (fmul vely vely)) in
          let '(velx, vely) :=
            if flt (maxSpeed vehicle) speed
            then let scale := fdiv (maxSpeed vehicle) speed in
                 (fmul velx scale, fmul vely scale)
            else (velx, vely) in
          let w := storeComponent w id
                     (TransformC (mkTransform (position transform) (mkVec velx vely)
                                              (rotation transform))) in
          let w := storeComponent w id
                     (VehicleC (mkVehicle (maxSpeed vehicle) speed (maxSpeed vehicle)
                                  (vehicle_length vehicle) (vehicle_width vehicle)
                                  (acceleration vehicle) (braking vehicle)
                                  (vehicle_type vehicle))) in
          storePath idx (fadd dist (fmul speed dt)) w in
        if flt (m_length road) targetDistance then
          let idx := currentPathIndex pathFollowing + 1 in
          if hasReachedDestination
               (mkPathFollowing (path pathFollowing) idx
                                (distanceAlongCurrentSegment pathFollowing))
          then Some (stop (storePath idx (distanceAlongCurrentSegment pathFollowing) w))
          else
            '(nextRoadID, nextLaneID) ← path pathFollowing !! N.to_nat idx;
            match getRoadSegment roadNetwork nextRoadID with
            | None => Some (storePath idx f0 w)
            | Some road => Some (steer road idx f0 lookAheadDistance)
            end
        else Some (steer road (currentPathIndex pathFollowing)
                         (distanceAlongCurrentSegment pathFollowing) targetDistance)
    end.

Definition pathFollowingSystem (w : WasmWorld F) (dt : F)
    (roadNetwork : option (WasmRoadNetwork F)) : option (WasmWorld F) :=
  match roadNetwork with
  | None => Some w
  | Some net =>
      foldM (pathFollowingStep net dt) w
            (getEntitiesWith w [KTransform; KVehicle; KPathFollowing])
  end.

Definition resetCollision (w : WasmWorld F) (id : N) : option (WasmWorld F) :=
  collision ← getCollision w id;
  Some (storeComponent w id (CollisionC (mkCollision (radius collision) false []))).

(** The body of the inner loop of [collisionSystem] for the pair of
    entities [a = entities[i]] and [b = entities[j]]. *)
Definition collidePair (a : N) (w : WasmWorld F) (b : N) : option (WasmWorld F) :=
  transformA ← getTransform w a;
  transformB ← getTransform w b;
  collisionA ← getCollision w a;
  collisionB ← getCollision w b;
  let dx := fsub (vx (position transformB)) (vx (position transformA)) in
  let dy := fsub (vy (position transformB)) (vy (position transformA)) in
  let distanceSquared := fadd (fmul dx dx) (fmul dy dy) in
  let minDistance := fadd (radius collisionA) (radius collisionB) in
  let minDistanceSquared := fmul minDistance minDistance in
  if flt distanceSquared minDistanceSquared then
    let collisionA := mkCollision (radius collisionA) true
                                  (collidingWith collisionA ++ [b]) in
    let collisionB := mkCollision (radius collisionB) true
                                  (collidingWith collisionB ++ [a]) in
    let distance := fsqrt distanceSquared in
    let overlap := fsub minDistance distance in
    let nx := fdiv dx distance in
    let ny := fdiv dy distance in
    let separationX := fmul (fmul nx overlap) (f_lit 1 2) in
    let separationY := fmul (fmul ny overlap) (f_lit 1 2) in
    let posA := mkVec (fsub (vx (position transformA)) separationX)
                      (fsub (vy (position transformA)) separationY) in
    let posB := mkVec (fadd (vx (position transformB)) separationX)
                      (fadd (vy (position transformB)) separationY) in
    let '(velA, velB) :=
      if hasComponent w KVehicle a && hasComponent w KVehicle b
      then (mkVec (fmul (vx (velocity transformB)) (f_lit 9 10))
                  (fmul (vy (velocity transformB)) (f_lit 9 10)),
            mkVec (fmul (vx (velocity transformA)) (f_lit 9 10))
                  (fmul (vy (velocity transformA)) (f_lit 9 10)))
      else (velocity transformA, velocity transformB) in
    let w := storeComponent w a (CollisionC collisionA) in
    let w := storeComponent w b (CollisionC collisionB) in
    let w := storeComponent w a
               (TransformC (mkTransform posA velA (rotation transformA))) in
    Some (storeComponent w b
            (TransformC (mkTransform posB velB (rotation transformB))))
  else Some w.

(** [for i; for j = i + 1]: each entity against the ones after it. *)
Fixpoint collideAll (w : WasmWorld F) (entities : list N) : option (WasmWorld F) :=
  match entities with
  | [] => Some w
  | a :: rest => w ← foldM (collidePair a) w rest; collideAll w rest
  end.

Definition collisionSystem (w : WasmWorld F) (dt : F) : option (WasmWorld F) :=
  let entities := getEntitiesWith w [KTransform; KCollision] in
  w ← foldM resetCollision w entities;
  collideAll w entities.

Definition trafficSignalSystem (w : WasmWorld F) (dt : F) : option (WasmWorld F) :=
  foldM (fun w id =>
           signal ← getTrafficSignal w id;
           Some (storeComponent w id (TrafficSignalC (signal_update signal dt))))
        w (getEntitiesWith w [KTrafficSignal]).

(** Calling a registered closure.  A non-null network pointer is
    dereferenced by the path-following system. *)
Definition runSystem (heap : Heap F) (s : System) (w : WasmWorld F) (dt : F)
  : option (WasmWorld F) :=
  match s with
  | MovementSystem => movementSystem w dt
  | BoundsSystem => boundsSystem w dt
  | CollisionSystem => collisionSystem w dt
  | TrafficSignalSystem => trafficSignalSystem w dt
  | PathFollowingSystem None => pathFollowingSystem w dt None
  | PathFollowingSystem (Some p) =>
      net ← heap !! p; pathFollowingSystem w dt (Some net)
  end.

(** *** The facade *)

Definition setupSystems (sim : WasmTrafficSimulation) : WasmTrafficSimulation :=
  let w := registerSystem (m_world sim) MovementSystem in
  let w := registerSystem w BoundsSystem in
  let w := registerSystem w CollisionSystem in
  let w := registerSystem w TrafficSignalSystem in
  set_world sim w.

Definition WasmTrafficSimulation_new : WasmTrafficSimulation :=
  setupSystems (mkSimulation WasmWorld_new None (f_lit 800 1) (f_lit 600 1) true).

Definition initialize (sim : WasmTrafficSimulation) (width height : F)
  : option WasmTrafficSimulation :=
  let '(id, w) := createEntity (m_world sim) in
  w ← addComponent w id (BoundsC (newBounds width height));
  Some (mkSimulation w (m_roadNetwork sim) width height (m_keepInBounds sim)).

Definition createVehicle (sim : WasmTrafficSimulation) (x y velx vely : F)
  : option (N * WasmTrafficSimulation) :=
  let '(id, w) := createEntity (m_world sim) in
  w ← addComponent w id (TransformC (newTransform (mkVec x y) (mkVec velx vely)));
  w ← addComponent w id (VehicleC newVehicle);
  w ← addComponent w id (CollisionC (newCollision (f_lit 2 1)));
  w ← addComponent w id (RenderableC newRenderable);
  Some (id, set_world sim w).

(** The count is an [int]; it stays below the number of entities. *)
Definition getVehicleCount (sim : WasmTrafficSimulation) : N :=
  let w := m_world sim in
  N.of_nat (length (List.filter
    (fun id => entityExists w id && hasComponent w KTransform id
               && hasComponent w KVehicle id)
    (idsBelow (getEntityCount w)))).

Definition getVehiclePosition (sim : WasmTrafficSimulation) (id : N)
  : option (WasmVector2D F) :=
  let w := m_world sim in
  if entityExists w id && hasComponent w KTransform id
  then transform ← getTransform w id; Some (position transform)
  else Some newVector2D.

Definition getVehicleVelocity (sim : WasmTrafficSimulation) (id : N)
  : option (WasmVector2D F) :=
  let w := m_world sim in
  if entityExists w id && hasComponent w KTransform id
  then transform ← getTransform w id; Some (velocity transform)
  else Some newVector2D.

Definition update (heap : Heap F) (sim : WasmTrafficSimulation) (dt : F)
  : option WasmTrafficSimulation :=
  w ← WasmWorld_update (runSystem heap) (m_world sim) dt;
  Some (set_world sim w).

Definition setKeepInBounds (sim : WasmTrafficSimulation) (keep : bool)
  : option WasmTrafficSimulation :=
  let step (w : WasmWorld F) (id : N) :=
    if entityExists w id && hasComponent w KBounds id
    then bounds ← getBounds w id;
         Some (storeComponent w id
                 (BoundsC (mkBounds (bounds_width bounds) (bounds_height bounds) keep)))
    else Some w in
  w ← foldM step (m_world sim) (idsBelow (getEntityCount (m_world sim)));
  Some (mkSimulation w (m_roadNetwork sim) (m_width sim) (m_height sim) keep).

Definition getKeepInBounds (sim : WasmTrafficSimulation) : bool := m_keepInBounds sim.

Definition setRoadNetwork (sim : WasmTrafficSimulation) (roadNetwork : option N)
  : WasmTrafficSimulation :=
  mkSimulation (registerSystem (m_world sim) (PathFollowingSystem roadNetwork))
               roadNetwork (m_width sim) (m_height sim) (m_keepInBounds sim).

Definition getRoadNetwork (sim : WasmTrafficSimulation) : option N := m_roadNetwork sim.

(** The loop of [clear]: the bound [getEntityCount()] is read again
    before every iteration. *)
Fixpoint clearLoop (fuel : nat) (id : N) (w : WasmWorld F) : WasmWorld F :=
  match fuel with
  | O => w
  | S fuel =>
      if id <? getEntityCount w
      then clearLoop fuel (id + 1) (if entityExists w id then destroyEntity w id else w)
      else w
  end.

(** The loop runs at most [getEntityCount()] times: the identifier grows
    and the count never does. *)
Definition clear (sim : WasmTrafficSimulation) : WasmTrafficSimulation :=
  let w := m_world sim in
  set_world sim (clearLoop (N.to_nat (getEntityCount w)) 0 w).

Definition reserveVehicles (sim : WasmTrafficSimulation) (count : nat)
  : WasmTrafficSimulation :=
  let '(entities, w) :=
    Nat.iter count (fun '(entities, w) =>
                      let '(id, w) := createEntity w in (entities ++ [id], w))
             ([], m_world sim) in
  set_world sim (foldl destroyEntity w entities).
End Simulation.

Arguments WasmTrafficSimulation : clear implicits.

(** ** Route search (WasmTrafficSimulation::findPath, createPath) *)

Section PathFinding.
Context {F : Type} {fl : FloatOps F}.

(** [struct Node]; [parent] points to the node that [nodeMap] holds for a
    segment and is that segment's identifier here. *)
Record Node := mkNode {
  roadId : N;
  gScore : F;
  fScore : F;
  parent : option N
}.

(** [std::priority_queue<Node>]: [top]/[pop] hand out a queued node that
    is greatest for [operator<], i.e. of least [fScore]; which one among
    several is decided by the heap layout of the library.  Nothing proved
    below depends on the choice, so the queue is a list of the pushed
    nodes and the choice is a parameter that removes one of them. *)
Class OpenSetOrder := {
  pq_pop : list Node -> option (Node * list Node);
  pq_pop_nil : pq_pop [] = None;
  pq_pop_cons : forall l, l <> [] ->
    exists n l1 l2, pq_pop l = Some (n, l1 ++ l2) /\ l = l1 ++ n :: l2
}.

(** The first node of least [fScore]: a queue that serves equal scores
    in insertion order. *)
Fixpoint splitLeast (n : Node) (l : list Node) : list Node * Node * list Node :=
  match l with
  | [] => ([], n, [])
  | m :: l' =>
      let '(before, least, after) := splitLeast m l' in
      if flt (fScore least) (fScore n) then (n :: before, least, after)
      else ([], n, m :: l')
  end.

Definition popLeast (l : list Node) : option (Node * list Node) :=
  match l with
  | [] => None
  | n :: l' => let '(before, least, after) := splitLeast n l' in
               Some (least, before ++ after)
  end.

Definition leastFirst : OpenSetOrder.
Proof.
  refine {| pq_pop := popLeast |}.
  - reflexivity.
  - intros [|n l] Hl; [congruence|]. clear Hl. simpl.
    assert (G : forall l n, let '(b, x, a) := splitLeast n l in n :: l = b ++ x :: a).
    { clear. intros l. induction l as [|m l IH]; intros n; simpl; [reflexivity|].
      specialize (IH m). destruct (splitLeast m l) as [[b x] a].
      destruct (flt (fScore x) (fScore n)); [|reflexivity].
      simpl. f_equal. exact IH. }
    specialize (G l n). destruct (splitLeast n l) as [[b x] a].
    exists x, b, a. split; [reflexivity | exact G].
Defined.

Record SearchState := mkSearch {
  openSet : list Node;
  gScores : gmap N F;
  closedSet : gset N;
  nodeMap : gmap N Node
}.

Definition midpoint (road : WasmRoadSegment F) : WasmVector2D F :=
  mkVec (fdiv (fadd (vx (m_startPoint road)) (vx (m_endPoint road))) (f_lit 2 1))
        (fdiv (fadd (vy (m_startPoint road)) (vy (m_endPoint road))) (f_lit 2 1)).

Definition heuristic (endMidpoint : WasmVector2D F) (road : WasmRoadSegment F) : F :=
  let m := midpoint road in
  let dx := fsub (vx m) (vx endMidpoint) in
  let dy := fsub (vy m) (vy endMidpoint) in
  fsqrt (fadd (fmul dx dx) (fmul dy dy)).

Definition samePointer (p q : option N) : bool :=
  match p, q with
  | Some a, Some b => a =? b
  | _, _ => false
  end.

(** "Check if roads share the same intersection". *)
Definition connected (road neighbor : WasmRoadSegment F) : bool :=
  samePointer (m_startIntersection road) (m_startIntersection neighbor)
  || samePointer (m_startIntersection road) (m_endIntersection neighbor)
  || samePointer (m_endIntersection road) (m_startIntersection neighbor)
  || samePointer (m_endIntersection road) (m_endIntersection neighbor).

(** One pass of [for (neighborId = 0; neighborId < 100; neighborId++)]. *)
Definition neighborStep (net : WasmRoadNetwork F) (endMidpoint : WasmVector2D F)
    (current : N) (road : WasmRoadSegment F) (st : SearchState) (neighborId : N)
  : SearchState :=
  if neighborId =? current then st
  else match getRoadSegment net neighborId with
  | None => st
  | Some neighbor =>
      if negb (connected road neighbor) then st
      else if bool_decide (neighborId ∈ closedSet st) then st
      else
        let tentativeGScore := fadd (default f0 (gScores st !! current)) (m_length road) in
        if match gScores st !! neighborId with
           | Some g => fle g tentativeGScore
           | None => false
           end
        then st
        else
          let node := mkNode neighborId tentativeGScore
                             (fadd tentativeGScore (heuristic endMidpoint neighbor))
                             ((fun _ => current) <$> nodeMap st !! current) in
          mkSearch (openSet st ++ [node])
                   (<[neighborId := tentativeGScore]> (gScores st))
                   (closedSet st)
                   (<[neighborId := node]> (nodeMap st))
  end.

(** The [while (!openSet.empty())] loop; the result is [endNode] and the
    node map.  [fuel] bounds the number of iterations. *)
Fixpoint searchLoop {pq : OpenSetOrder} (fuel : nat) (net : WasmRoadNetwork F)
    (endMidpoint : WasmVector2D F) (endRoadId : N) (st : SearchState)
  : option (option Node * gmap N Node) :=
  match fuel with
  | O => None
  | S fuel =>
      match pq_pop (openSet st) with
      | None => Some (None, nodeMap st)
      | Some (current, rest) =>
          let st := mkSearch rest (gScores st) (closedSet st) (nodeMap st) in
          if bool_decide (roadId current ∈ closedSet st)
          then searchLoop fuel net endMidpoint endRoadId st
          else if roadId current =? endRoadId
          then Some (nodeMap st !! roadId current, nodeMap st)
          else
            let st := mkSearch (openSet st) (gScores st)
                               ({[roadId current]} ∪ closedSet st) (nodeMap st) in
            match getRoadSegment net (roadId current) with
            | None => searchLoop fuel net endMidpoint endRoadId st
            | Some road =>
                searchLoop fuel net endMidpoint endRoadId
                  (foldl (neighborStep net endMidpoint (roadId current) road)
                         st (idsBelow 100))
            end
      end
  end.

(** "Reconstruct the path": the parent pointers from [endNode] back to
    the start node, then [std::reverse]. *)
Fixpoint followParents (fuel : nat) (nodes : gmap N Node) (current : option Node)
    (acc : list (N * N)) : option (list (N * N)) :=
  match current with
  | None => Some acc
  | Some node =>
      match fuel with
      | O => None
      | S fuel =>
          followParents fuel nodes (p ← parent node; nodes !! p)
                        (acc ++ [(roadId node, 0)])
      end
  end.

(** Every iteration of the search loop either closes one of the at most
    101 segments that can be queued, after which at most 100 nodes are
    pushed, or only removes a node: 101 * 101 + 2 iterations are never
    exceeded. *)
Definition searchFuel : nat := 101 * 101 + 2.

Definition findPathIn {pq : OpenSetOrder} (net : WasmRoadNetwork F)
    (startX startY endX endY : F) : option (list (N * N)) :=
  let startRoadId := findNearestRoadSegment net startX startY (f_lit 50 1) in
  let endRoadId := findNearestRoadSegment net endX endY (f_lit 50 1) in
  if (startRoadId =? INVALID_ID) || (endRoadId =? INVALID_ID) then Some []
  else if startRoadId =? endRoadId then Some [(startRoadId, 0)]
  else
    match getRoadSegment net startRoadId, getRoadSegment net endRoadId with
    | Some startRoad, Some endRoad =>
        let endMidpoint := midpoint endRoad in
        let startNode := mkNode startRoadId f0 (heuristic endMidpoint startRoad) None in
        let st := mkSearch [startNode] {[startRoadId := f0]} ∅
                           {[startRoadId := startNode]} in
        '(endNode, nodes) ← searchLoop searchFuel net endMidpoint endRoadId st;
        path ← followParents (S (size nodes)) nodes endNode [];
        Some (reverse path)
    | _, _ => Some []
    end.
End PathFinding.

Arguments Node : clear implicits.
Arguments SearchState : clear implicits.
Arguments OpenSetOrder : clear implicits.

Section Routing.
Context {F : Type} {fl : FloatOps F} {reg : ComponentRegistry} {cfg : BuildConfig}
        {pq : OpenSetOrder F}.

Definition findPath (heap : Heap F) (sim : WasmTrafficSimulation F)
    (startX startY endX endY : F) : option (list (N * N)) :=
  match m_roadNetwork sim with
  | None => Some []
  | Some p => net ← heap !! p; findPathIn net startX startY endX endY
  end.

Definition createPath (heap : Heap F) (sim : WasmTrafficSimulation F)
    (vehicleId : N) (startX startY endX endY : F)
  : option (bool * WasmTrafficSimulation F) :=
  match m_roadNetwork sim with
  | None => Some (false, sim)
  | Some _ =>
      if negb (entityExists (m_world sim) vehicleId) then Some (false, sim)
      else
        path ← findPath heap sim startX startY endX endY;
        match path with
        | [] => Some (false, sim)
        | _ =>
            let w := m_world sim in
            w ← (if hasComponent w KPathFollowing vehicleId then Some w
                 else addComponent w vehicleId (PathFollowingC newPathFollowing));
            pathComponent ← getPathFollowing w vehicleId;
            Some (true, set_world sim
                          (storeComponent w vehicleId
                             (PathFollowingC (setPath pathComponent path))))
        end
  end.
End Routing.

(** ** Well-formed worlds and the scenarios of the specification *)

Section WellFormed.
Context {F : Type} {fl : FloatOps F} {reg : ComponentRegistry}.

(** The representation invariant of [WasmWorld]: one mask per identifier,
    recycled identifiers are identifiers that were handed out, and a set
    mask bit has its component in the pool of that type. *)
Definition wf_world (w : WasmWorld F) : bool :=
  (length (m_entities w) =? length (m_entityMasks w))%nat
  && forallb (fun id => id <? N.of_nat (length (m_entities w))) (m_freeEntities w)
  && forallb (fun id =>
       forallb (fun k =>
         match mask_at w id with
         | Some m =>
             implb (N.testbit m (getComponentID k))
                   (match lookupComponent w k id with
                    | Some c => bool_decide (kindOf c = k)
                    | None => false
                    end)
         | None => true
         end) allKinds)
       (idsBelow (N.of_nat (length (m_entityMasks w)))).

(** [n] calls of [createEntity], with the identifiers in call order. *)
Fixpoint createEntities (n : nat) (w : WasmWorld F) : list N * WasmWorld F :=
  match n with
  | O => ([], w)
  | S n => let '(id, w) := createEntity w in
           let '(ids, w) := createEntities n w in
           (id :: ids, w)
  end.

Definition destroyEntities (w : WasmWorld F) (ids : list N) : WasmWorld F :=
  foldl destroyEntity w ids.
End WellFormed.

(** ** The simple simulation (SimpleTrafficSimulation.h, SimpleTrafficSimulation.cpp)

    The facade without the entity store: a vector of vehicles, of which
    the inactive ones are reused.  [m_nextId] is an [int] that only grows
    by one per vehicle added at the end of the vector. *)

Module Simple.
Section Simple.
Context {F : Type} {fl : FloatOps F}.

(** [WasmVector2D::length], [normalize], [operator+] and [operator*]. *)
Definition vec_length (v : WasmVector2D F) : F :=
  fsqrt (fadd (fmul (vx v) (vx v)) (fmul (vy v) (vy v))).

Definition normalize (v : WasmVector2D F) : WasmVector2D F :=
  let len := vec_length v in
  if flt len (f_lit 1 10000) then newVector2D
  else mkVec (fdiv (vx v) len) (fdiv (vy v) len).

Definition vec_add (a b : WasmVector2D F) : WasmVector2D F :=
  mkVec (fadd (vx a) (vx b)) (fadd (vy a) (vy b)).

Definition vec_scale (a : WasmVector2D F) (scalar : F) : WasmVector2D F :=
  mkVec (fmul (vx a) scalar) (fmul (vy a) scalar).

Record WasmVehicle := mkWasmVehicle {
  position : WasmVector2D F;
  velocity : WasmVector2D F;
  maxSpeed : F;
  active : bool
}.

Definition newWasmVehicle : WasmVehicle :=
  mkWasmVehicle newVector2D newVector2D (f_lit 100 1) false.

Record WasmTrafficSimulation := mkSimulation {
  m_vehicles : list WasmVehicle;
  m_width : F;
  m_height : F;
  m_keepInBounds : bool;
  m_nextId : Z
}.

Definition WasmTrafficSimulation_new : WasmTrafficSimulation :=
  mkSimulation [] (f_lit 800 1) (f_lit 600 1) true 0.

Definition initialize (sim : WasmTrafficSimulation) (width height : F)
  : WasmTrafficSimulation :=
  mkSimulation (m_vehicles sim) width height (m_keepInBounds sim) (m_nextId sim).

(** The search loop of [createVehicle]: the least index of an inactive
    vehicle. *)
Fixpoint firstInactive (l : list WasmVehicle) : option nat :=
  match l with
  | [] => None
  | v :: l' => if active v then S <$> firstInactive l' else Some 0%nat
  end.

Definition createVehicle (sim : WasmTrafficSimulation) (x y velx vely : F)
  : Z * WasmTrafficSimulation :=
  let '(id, vehicles, nextId) :=
    match firstInactive (m_vehicles sim) with
    | Some i => (Z.of_nat i, m_vehicles sim, m_nextId sim)
    | None =>
        let id := m_nextId sim in
        let nextId := (id + 1)%Z in
        (id, resize (Z.to_nat nextId) newWasmVehicle (m_vehicles sim), nextId)
    end in
  (id,
   mkSimulation
     (<[Z.to_nat id := mkWasmVehicle (mkVec x y) (mkVec velx vely) (f_lit 100 1) true]>
        vehicles)
     (m_width sim) (m_height sim) (m_keepInBounds sim) nextId).

Definition getVehicleCount (sim : WasmTrafficSimulation) : Z :=
  Z.of_nat (length (List.filter active (m_vehicles sim))).

(** The vehicle that the guard of the two getters lets through. *)
Definition activeVehicle (sim : WasmTrafficSimulation) (id : Z) : option WasmVehicle :=
  if (0 <=? id)%Z && (id <? Z.of_nat (length (m_vehicles sim)))%Z
  then v ← m_vehicles sim !! Z.to_nat id; if active v then Some v else None
  else None.

Definition getVehiclePosition (sim : WasmTrafficSimulation) (id : Z) : WasmVector2D F :=
  match activeVehicle sim id with Some v => position v | None => newVector2D end.

Definition getVehicleVelocity (sim : WasmTrafficSimulation) (id : Z) : WasmVector2D F :=
  match activeVehicle sim id with Some v => velocity v | None => newVector2D end.

(** The body of the loop of [update]; the two bounds checks are those of
    the bounds system. *)
Definition updateVehicle (sim : WasmTrafficSimulation) (dt : F) (v : WasmVehicle)
  : WasmVehicle :=
  if negb (active v) then v
  else
    let p := vec_add (position v) (vec_scale (velocity v) dt) in
    let '(p, vel) :=
      if m_keepInBounds sim then
        let '(px, velx) := boundsAxis (vx p) (vx (velocity v)) (m_width sim) in
        let '(py, vely) := boundsAxis (vy p) (vy (velocity v)) (m_height sim) in
        (mkVec px py, mkVec velx vely)
      else (p, velocity v) in
    let speed := vec_length vel in
    let vel := if flt (maxSpeed v) speed
               then vec_scale (normalize vel) (maxSpeed v) else vel in
    mkWasmVehicle p vel (maxSpeed v) (active v).

Definition update (sim : WasmTrafficSimulation) (dt : F) : WasmTrafficSimulation :=
  mkSimulation (updateVehicle sim dt <$> m_vehicles sim)
               (m_width sim) (m_height sim) (m_keepInBounds sim) (m_nextId sim).

Definition setKeepInBounds (sim : WasmTrafficSimulation) (keepInBounds : bool)
  : WasmTrafficSimulation :=
  mkSimulation (m_vehicles sim) (m_width sim) (m_height sim) keepInBounds (m_nextId sim).

Definition getKeepInBounds (sim : WasmTrafficSimulation) : bool := m_keepInBounds sim.

Definition deactivate (v : WasmVehicle) : WasmVehicle :=
  mkWasmVehicle (position v) (velocity v) (maxSpeed v) false.

Definition clear (sim : WasmTrafficSimulation) : WasmTrafficSimulation :=
  mkSimulation (deactivate <$> m_vehicles sim)
               (m_width sim) (m_height sim) (m_keepInBounds sim) 0.

(** Calls of [createVehicle] one after the other, with the identifiers
    returned. *)
Fixpoint createVehicles (args : list (F * F * F * F)) (sim : WasmTrafficSimulation)
  : list Z * WasmTrafficSimulation :=
  match args with
  | [] => ([], sim)
  | (x, y, velx, vely) :: args =>
      let '(id, sim) := createVehicle sim x y velx vely in
      let '(ids, sim) := createVehicles args sim in
      (id :: ids, sim)
  end.
End Simple.

Arguments WasmVehicle : clear implicits.
Arguments WasmTrafficSimulation : clear implicits.
End Simple.

(** * Terms in which the properties are stated *)

Section RecyclingTerms.
Context {F : Type} {fl : FloatOps F} {reg : ComponentRegistry}.

(** The world after [n] entities were created in an empty store and none
    was given a component. *)
Definition bareWorld (n : nat) : WasmWorld F :=
  mkWorld (idsBelow (N.of_nat n)) (replicate n 0) [] (Nat.iter n size_incr 0) [] [].

End RecyclingTerms.

Section AccessTerms.
Context {F : Type} {fl : FloatOps F} {reg : ComponentRegistry}.

(** Two worlds with the same entities, masks, free list, count and systems. *)
Definition sameEntities (w w' : WasmWorld F) : Prop :=
  m_entities w' = m_entities w /\ m_entityMasks w' = m_entityMasks w
  /\ m_freeEntities w' = m_freeEntities w /\ m_entityCount w' = m_entityCount w
  /\ m_systems w' = m_systems w.

Definition componentsPresent (w : WasmWorld F) : Prop :=
  forall id m k, mask_at w id = Some m -> N.testbit m (getComponentID k) = true ->
                 exists c, lookupComponent w k id = Some c /\ kindOf c = k.

(** Well-formedness as it is used below: the part that the systems rely
    on and that writes through references preserve. *)
Definition readable (w : WasmWorld F) : Prop :=
  length (m_entities w) = length (m_entityMasks w) /\ componentsPresent w.

End AccessTerms.

Section BoundsTerms.
Context {F : Type} {fl : FloatOps F} {reg : ComponentRegistry} {cfg : BuildConfig}.

(** The bounds rule in the words of the specification: a position is
    clamped to an interval, and a velocity is negated and damped by the
    restitution factor when the clamp of its axis triggers. *)
Definition restitution : F := f_lit 1 2.

Definition clampTo (lo hi p : F) : F :=
  if flt p lo then lo else if flt hi p then hi else p.

Definition clampTriggers (lo hi p : F) : bool := flt p lo || flt hi p.

Definition bounce (lo hi p v : F) : F :=
  if clampTriggers lo hi p then fmul (fneg v) restitution else v.

Definition keptInBounds (b : WasmBoundsComponent F) (t : WasmTransformComponent F)
  : WasmTransformComponent F :=
  mkTransform
    (mkVec (clampTo f0 (bounds_width b) (vx (position t)))
           (clampTo f0 (bounds_height b) (vy (position t))))
    (mkVec (bounce f0 (bounds_width b) (vx (position t)) (vx (velocity t)))
           (bounce f0 (bounds_height b) (vy (position t)) (vy (velocity t))))
    (rotation t).

Definition keptInBoundsC (b : WasmBoundsComponent F) (c : WasmComponent F)
  : WasmComponent F :=
  match c with TransformC t => TransformC (keptInBounds b t) | _ => c end.

End BoundsTerms.

Section CollisionTerms.
Context {F : Type} {fl : FloatOps F} {reg : ComponentRegistry} {cfg : BuildConfig}.

Definition collisionOf (w : WasmWorld F) (id : N) : option (WasmCollisionComponent F) :=
  match lookupComponent w KCollision id with
  | Some (CollisionC c) => Some c
  | _ => None
  end.

Definition listOf (w : WasmWorld F) (id : N) : list N :=
  match collisionOf w id with Some c => collidingWith c | None => [] end.

Definition flagOf (w : WasmWorld F) (id : N) : bool :=
  match collisionOf w id with Some c => colliding c | None => false end.

(** What one pair adds to the list of [x]. *)
Definition added (hit : bool) (a b x : N) : list N :=
  if hit then (if decide (x = a) then [b] else if decide (x = b) then [a] else [])
  else [].

(** The test of the inner loop of [collisionSystem] on the entities [a]
    and [b] of the world [w]: distanceSquared < minDistanceSquared. *)
Definition overlapping (w : WasmWorld F) (a b : N) : bool :=
  match getTransform w a, getTransform w b, getCollision w a, getCollision w b with
  | Some transformA, Some transformB, Some collisionA, Some collisionB =>
      let dx := fsub (vx (position transformB)) (vx (position transformA)) in
      let dy := fsub (vy (position transformB)) (vy (position transformA)) in
      let distanceSquared := fadd (fmul dx dx) (fmul dy dy) in
      let minDistance := fadd (radius collisionA) (radius collisionB) in
      let minDistanceSquared := fmul minDistance minDistance in
      flt distanceSquared minDistanceSquared
  | _, _, _, _ => false
  end.

(** The pairs that the pass detects, in the order of the two loops.  Each
    test is made in the world as the pairs before it have left it: a
    detected pair is moved apart before the next test. *)
Fixpoint detectedRow (a : N) (w : WasmWorld F) (rest : list N) : list (N * N) :=
  match rest with
  | [] => []
  | b :: rest' =>
      (if overlapping w a b then [(a, b)] else [])
      ++ match collidePair a w b with
         | Some w' => detectedRow a w' rest'
         | None => []
         end
  end.

Fixpoint detectedAll (w : WasmWorld F) (entities : list N) : list (N * N) :=
  match entities with
  | [] => []
  | a :: rest =>
      detectedRow a w rest
      ++ match foldM (collidePair a) w rest with
         | Some w' => detectedAll w' rest
         | None => []
         end
  end.

Definition detected (w : WasmWorld F) : list (N * N) :=
  let entities := getEntitiesWith w [KTransform; KCollision] in
  match foldM resetCollision w entities with
  | Some w' => detectedAll w' entities
  | None => []
  end.

(** The invariant of the pair loop over the queried entities [L], with
    the pairs [log] detected so far: the lists hold exactly the partners
    of the detected pairs, and the flag is set exactly for the members of
    a detected pair. *)
Definition recorded (L : list N) (log : list (N * N)) (w : WasmWorld F) : Prop :=
  (forall x y, In x L -> In y L ->
     (In y (listOf w x) <-> In (x, y) log \/ In (y, x) log))
  /\ (forall x, In x L ->
        (flagOf w x = true <-> exists y, In (x, y) log \/ In (y, x) log)).

Definition collidable (w : WasmWorld F) (id : N) : Prop :=
  exists m, mask_at w id = Some m
            /\ N.testbit m (getComponentID KTransform) = true
            /\ N.testbit m (getComponentID KCollision) = true.

Definition resetC (c : WasmComponent F) : WasmComponent F :=
  match c with
  | CollisionC c => CollisionC (mkCollision (radius c) false [])
  | _ => c
  end.

End CollisionTerms.

Fixpoint hasChar (c : Ascii.ascii) (s : string) : Prop :=
  match s with
  | EmptyString => False
  | String a s' => a = c \/ hasChar c s'
  end.

Section ConnectTerms.
Context {F : Type} {fl : FloatOps F}.

Definition attach (s : WasmRoadSegment F) (atEnd : bool) (i : N) : WasmRoadSegment F :=
  mkSegment (segment_m_id s) (m_startPoint s) (m_endPoint s) (m_length s) (m_lanes s)
            (if atEnd then m_startIntersection s else Some i)
            (if atEnd then Some i else m_endIntersection s).

Definition endpoint (s : WasmRoadSegment F) (atEnd : bool) : WasmVector2D F :=
  if atEnd then m_endPoint s else m_startPoint s.

(** The number of connections recorded for the lanes [0 .. lanes-1] of [road]. *)
Definition connectionsFrom (x : WasmIntersection F) (road lanes : N) : nat :=
  sum_list ((fun lane => length (default [] (m_connections x !! connectionKey road lane)))
              <$> idsBelow lanes).

End ConnectTerms.

Section ConnectProofTerms.
Context {F : Type} {fl : FloatOps F}.

Definition connectLanes (x : WasmIntersection F) (r1 r2 : N) (l1 l2 : list N)
  : WasmIntersection F :=
  foldl (fun x lane1 =>
           foldl (fun x lane2 =>
                    defineConnection (defineConnection x r1 lane1 r2 lane2)
                                     r2 lane2 r1 lane1) x l2) x l1.

End ConnectProofTerms.

Section RoundingTerms.
Local Open Scope Z_scope.

(** The position of a value in its unit interval, as a number. *)
Definition loc_rank (l : location) : Z :=
  match l with
  | loc_Exact => 0
  | loc_Inexact Lt => 1
  | loc_Inexact Eq => 2
  | loc_Inexact Gt => 3
  end.

(** The position of [r + t] in the interval [0, 2^k), where [0 <= r < 2^k]
    is a number of units and [l] is the position of [t] in its unit. *)
Definition shr_loc (k r : Z) (l : location) : location :=
  if (r =? 0) && (loc_rank l =? 0) then loc_Exact
  else match 2 * r ?= 2 ^ k with
       | Lt => loc_Inexact Lt
       | Eq => if loc_rank l =? 0 then loc_Inexact Eq else loc_Inexact Gt
       | Gt => loc_Inexact Gt
       end.

End RoundingTerms.

Section RoundedValueTerms.
Local Open Scope Z_scope.

(** Exact results are seen at the exponent [E0], below every exponent that
    an operation on valid numbers produces. *)
Definition E0 : Z := -300.

(** The number of bits that rounding removes from a mantissa at [E0]. *)
Definition shift (m : Z) : Z := Z.max (Zdigits2 m - 24) 151.

(** The mantissa after rounding to nearest, ties to even. *)
Definition rounded (m : Z) (l : location) : Z :=
  round_nearest_even (m / 2 ^ shift m) (shr_loc (shift m) (m mod 2 ^ shift m) l).

Definition pack (s : bool) (m e : Z) : spec_float :=
  match m with
  | Z0 => S754_zero s
  | Z.pos p => if e <=? 104 then S754_finite s p e else S754_infinity s
  | Z.neg _ => S754_nan
  end.

End RoundedValueTerms.

Section ValueOrderTerms.
Local Open Scope Z_scope.

(** The magnitude of a number, in units of [2 ^ E0]; an infinity stands
    above every finite number. *)
Definition mag (x : spec_float) : Z :=
  match x with
  | S754_zero _ => 0
  | S754_finite _ p e => Z.pos p * 2 ^ (e - E0)
  | S754_infinity _ => 2 ^ 428
  | S754_nan => 0
  end.

Definition sval (x : spec_float) : Z :=
  match x with
  | S754_zero _ => 0
  | S754_finite s _ _ | S754_infinity s => if s then - mag x else mag x
  | S754_nan => 0
  end.

(** A valid number that is not a NaN. *)
Definition good (x : spec_float) : Prop :=
  valid_binary 24 128 x = true /\ x <> S754_nan.

End ValueOrderTerms.

Section MonotoneTerms.
Local Open Scope Z_scope.

(** The value of a rounded result, in units of [2 ^ E0]. *)
Definition rounded_value (m : Z) (l : location) : Z := rounded m l * 2 ^ shift m.

End MonotoneTerms.

Section OperationsTerms.
Local Open Scope Z_scope.

(** Zero or a finite number: neither an infinity nor a NaN. *)
Definition is_finite (x : spec_float) : bool :=
  match x with
  | S754_zero _ | S754_finite _ _ _ => true
  | _ => false
  end.

(** A valid finite number. *)
Definition number (x : spec_float) : Prop :=
  valid_binary 24 128 x = true /\ is_finite x = true.

(** The value of the number nearest to the exact value [z], both in
    units of [2 ^ E0]. *)
Definition nearest (z : Z) : Z :=
  if z <? 0 then - Z.min (rounded_value (- z) loc_Exact) (2 ^ 428)
  else Z.min (rounded_value z loc_Exact) (2 ^ 428).

End OperationsTerms.

Section DivisionTerms.
Local Open Scope Z_scope.

(** The value of the quotient [n / d] rounded to single precision, where
    [n] is in units of [2 ^ E0]. *)
Definition quotient_value (n d : Z) : Z :=
  Z.min (rounded_value (n / d) (new_location d (n mod d))) (2 ^ 428).

(** The exact numerator of a quotient by a number of exponent [eb]. *)
Definition numerator (a : spec_float) (eb : Z) : Z := sval a * 2 ^ 149 / 2 ^ (eb + 149).

End DivisionTerms.

Section InterpolationTerms.

(** The distance after the clamp of [getPointAtDistance]. *)
Definition clamped {F : Type} {fl : FloatOps F} (s : WasmRoadSegment F) (d : F) : F :=
  fmax f0 (fmin d (m_length s)).

End InterpolationTerms.

Section SearchTerms.
Context {F : Type} {fl : FloatOps F} {pq : OpenSetOrder F}.

(** Two segments of the network that share an intersection. *)
Definition linked (net : WasmRoadNetwork F) (a b : N) : Prop :=
  exists ra rb, getRoadSegment net a = Some ra /\ getRoadSegment net b = Some rb
                /\ connected ra rb = true.

(** A route: a sequence of segments, each linked to the next. *)
Fixpoint chained (net : WasmRoadNetwork F) (l : list N) : Prop :=
  match l with
  | a :: (b :: _) as l' => linked net a b /\ chained net l'
  | _ => True
  end.

Definition routeBetween (net : WasmRoadNetwork F) (a b : N) (l : list N) : Prop :=
  head l = Some a /\ last l = Some b /\ chained net l.

(** What the search can reach: the start segment, and from a reached
    segment every linked segment whose identifier is below 100. *)
Inductive reach (net : WasmRoadNetwork F) (start : N) : N -> Prop :=
  | reach_start : reach net start start
  | reach_step a b : reach net start a -> linked net a b -> b < 100 -> reach net start b.

Definition candidates (startRoadId : N) : gset N :=
  list_to_set (startRoadId :: idsBelow 100).

Definition searchMeasure (startRoadId : N) (st : SearchState F) : nat :=
  101 * size (candidates startRoadId ∖ closedSet st) + length (openSet st).

Definition searchInvariant (net : WasmRoadNetwork F) (startRoadId : N)
    (st : SearchState F) : Prop :=
  Forall (fun node => roadId node ∈ candidates startRoadId
                      /\ reach net startRoadId (roadId node)) (openSet st).

End SearchTerms.

Section BuiltTerms.
Context {F : Type} {fl : FloatOps F}.

Inductive built : WasmRoadNetwork F -> Prop :=
  | built_new : built WasmRoadNetwork_new
  | built_segment net x1 y1 x2 y2 :
      built net -> built (createRoadSegment net x1 y1 x2 y2).2
  | built_intersection net x y :
      built net -> built (createIntersection net x y).2
  | built_connect net a ea b eb :
      built net -> built (connectWithIntersection net a ea b eb).2
  | built_connectRoad net i r isStart :
      built net -> built (connectRoad net i r isStart)
  | built_defineConnection net i r1 l1 r2 l2 :
      built net -> built (defineConnectionIn net i r1 l1 r2 l2)
  | built_addLane net r width type :
      built net ->
      built (addLaneAt net r width type)
  | built_clear net : built net -> built (WasmRoadNetwork_clear net).

(** Segment identifiers are handed out densely from 0. *)
Definition dense (net : WasmRoadNetwork F) : Prop :=
  forall id, id ∈ dom (m_roadSegments net) <-> id < m_nextRoadId net.

End BuiltTerms.

(** ** Concrete runs, in single precision *)

Module Scenario.
#[local] Existing Instance firstUseRegistry.
#[local] Existing Instance release_build.
#[local] Existing Instance leastFirst.

Definition num (z : Z) : spec_float := Binary32.of_Z z.

Definition newSimulation : WasmTrafficSimulation spec_float := WasmTrafficSimulation_new.

(** initialize(100,100); createVehicle(95,50,50,0); setKeepInBounds(true);
    update(1): the x coordinates of the position and of the velocity. *)
Definition boundsRun : option (spec_float * spec_float) :=
  sim ← initialize newSimulation (num 100) (num 100);
  '(id, sim) ← createVehicle sim (num 95) (num 50) (num 50) (num 0);
  sim ← setKeepInBounds sim true;
  sim ← update ∅ sim (num 1);
  p ← getVehiclePosition sim id;
  v ← getVehicleVelocity sim id;
  Some (vx p, vx v).

(** initialize(100,100); createVehicle(10,10,1,0); clear(). *)
Definition afterClear : option (WasmTrafficSimulation spec_float) :=
  sim ← initialize newSimulation (num 100) (num 100);
  '(_, sim) ← createVehicle sim (num 10) (num 10) (num 1) (num 0);
  Some (clear sim).

(** Bounds and two vehicles one unit apart, both of radius 2. *)
Definition twoVehicles : WasmWorld spec_float :=
  default WasmWorld_new
    (sim ← initialize newSimulation (num 100) (num 100);
     '(_, sim) ← createVehicle sim (num 10) (num 10) (num 1) (num 0);
     '(_, sim) ← createVehicle sim (num 11) (num 10) (num (-1)) (num 0);
     Some (m_world sim)).

(** Bounds and a vehicle at x = 145, outside the 100 x 100 area. *)
Definition strayVehicle : WasmWorld spec_float :=
  default WasmWorld_new
    (sim ← initialize newSimulation (num 100) (num 100);
     '(_, sim) ← createVehicle sim (num 145) (num 50) (num 50) (num 0);
     Some (m_world sim)).

(** Segment 0 from (0,0) to (100,0), segment 1 from (100,0) to (200,0),
    joined at the end of 0 and the start of 1. *)
Definition chain : WasmRoadNetwork spec_float :=
  let net := (createRoadSegment WasmRoadNetwork_new (num 0) (num 0) (num 100) (num 0)).2 in
  let net := (createRoadSegment net (num 100) (num 0) (num 200) (num 0)).2 in
  (connectWithIntersection net 0 true 1 false).2.

(** Two segments that are not joined. *)
Definition apart : WasmRoadNetwork spec_float :=
  let net := (createRoadSegment WasmRoadNetwork_new (num 0) (num 0) (num 100) (num 0)).2 in
  (createRoadSegment net (num 100) (num 0) (num 200) (num 0)).2.

(** Segments 0..100, segment k from (200k, 0) to (200k + 100, 0), with
    segment 0 joined to segment 100. *)
Fixpoint row (n : nat) : WasmRoadNetwork spec_float :=
  match n with
  | O => WasmRoadNetwork_new
  | S n => let x := (200 * Z.of_nat n)%Z in
           (createRoadSegment (row n) (num x) (num 0) (num (x + 100)) (num 0)).2
  end.

Definition longRow : WasmRoadNetwork spec_float :=
  (connectWithIntersection (row 101) 0 true 100 false).2.

Definition simulationOn (net : option N) : WasmTrafficSimulation spec_float :=
  setRoadNetwork newSimulation net.

(** Segment 0 with two lanes and segment 1 with three. *)
Definition lanes23 : WasmRoadNetwork spec_float :=
  addLaneAt (addLaneAt (addLaneAt apart 0 (f_lit 35 10) LaneDriving)
                       1 (f_lit 35 10) LaneDriving)
            1 (f_lit 35 10) LaneDriving.

Definition segmentOf (net : WasmRoadNetwork spec_float) (id : N)
  : WasmRoadSegment spec_float :=
  default (newRoadSegment id newVector2D newVector2D) (getRoadSegment net id).

(** From (1,0) to (0.1,0): 0.1 is not a single-precision number. *)
Definition roundedSegment : WasmRoadSegment spec_float :=
  newRoadSegment 0 (mkVec (num 1) (num 0)) (mkVec (f_lit 1 10) (num 0)).

(** From (5,5) to (5,5). *)
Definition pointSegment : WasmRoadSegment spec_float :=
  newRoadSegment 0 (mkVec (num 5) (num 5)) (mkVec (num 5) (num 5)).
End Scenario.

(** ** Further concrete states, in single precision *)

Module Fixtures.
#[local] Existing Instance firstUseRegistry.
#[local] Existing Instance release_build.
#[local] Existing Instance leastFirst.

(** initialize(100,100). *)
Definition initialized : WasmTrafficSimulation spec_float :=
  default Scenario.newSimulation
    (initialize Scenario.newSimulation (Scenario.num 100) (Scenario.num 100)).

(** initialize(100,100); createVehicle(10,10,1,0); createVehicle(11,10,-1,0). *)
Definition twoCars : WasmTrafficSimulation spec_float :=
  default Scenario.newSimulation
    ('(_, sim) ← createVehicle initialized (Scenario.num 10) (Scenario.num 10)
                               (Scenario.num 1) (Scenario.num 0);
     '(_, sim) ← createVehicle sim (Scenario.num 11) (Scenario.num 10)
                               (Scenario.num (-1)) (Scenario.num 0);
     Some sim).

(** The two cars with the network stored at address 0 attached. *)
Definition routed : WasmTrafficSimulation spec_float := setRoadNetwork twoCars (Some 0).

Definition roads : Heap spec_float := {[0 := Scenario.chain]}.

(** createPath(1, 50,0, 150,0) on the chain of two segments. *)
Definition following : WasmTrafficSimulation spec_float :=
  default routed
    ('(_, sim) ← createPath roads routed 1 (Scenario.num 50) (Scenario.num 0)
                            (Scenario.num 150) (Scenario.num 0);
     Some sim).

(** A world with one traffic signal. *)
Definition oneSignal : WasmWorld spec_float :=
  let '(id, w) := createEntity WasmWorld_new in
  default w (addComponent w id (TrafficSignalC newTrafficSignal)).

(** The simple simulation after createVehicle(5,5,1,0) and
    createVehicle(6,6,1,0). *)
Definition simpleFilled : Simple.WasmTrafficSimulation spec_float :=
  (Simple.createVehicles
     [(Scenario.num 5, Scenario.num 5, Scenario.num 1, Scenario.num 0);
      (Scenario.num 6, Scenario.num 6, Scenario.num 1, Scenario.num 0)]
     Simple.WasmTrafficSimulation_new).2.

(** The arguments of two further calls of createVehicle. *)
Definition twoMore : list (spec_float * spec_float * spec_float * spec_float) :=
  [(Scenario.num 1, Scenario.num 1, Scenario.num 0, Scenario.num 0);
   (Scenario.num 2, Scenario.num 2, Scenario.num 0, Scenario.num 0)].

(** One vehicle at (95,50) with velocity (50,0) in an area of 100 by 100. *)
Definition oneVehicle : Simple.WasmTrafficSimulation spec_float :=
  Simple.mkSimulation
    [Simple.mkWasmVehicle (mkVec (Scenario.num 95) (Scenario.num 50))
                          (mkVec (Scenario.num 50) (Scenario.num 0))
                          (Scenario.num 100) true]
    (Scenario.num 100) (Scenario.num 100) true 1%Z.

End Fixtures.

Section PassesTerms.
Context {F : Type} {fl : FloatOps F} {reg : ComponentRegistry} {cfg : BuildConfig}.

(** The transform after one movement step. *)
Definition moved (dt : F) (t : WasmTransformComponent F) : WasmTransformComponent F :=
  mkTransform
    (mkVec (fadd (vx (position t)) (fmul (vx (velocity t)) dt))
           (fadd (vy (position t)) (fmul (vy (velocity t)) dt)))
    (velocity t)
    (if flt (f_lit 1 10) (fabs (vx (velocity t)))
        || flt (f_lit 1 10) (fabs (vy (velocity t)))
     then Atan2 (vy (velocity t)) (vx (velocity t)) else rotation t).

Definition onTransform (f : WasmTransformComponent F -> WasmTransformComponent F)
    (c : WasmComponent F) : WasmComponent F :=
  match c with TransformC t => TransformC (f t) | _ => c end.

Definition onSignal (f : WasmTrafficSignalComponent F -> WasmTrafficSignalComponent F)
    (c : WasmComponent F) : WasmComponent F :=
  match c with TrafficSignalC t => TrafficSignalC (f t) | _ => c end.

(** The successor of a signal state and the duration of a state. *)
Definition nextState (s : SignalState) : SignalState :=
  match s with Green => Yellow | Yellow => Red | Red => Green end.

Definition durationOf (c : WasmTrafficSignalComponent F) (s : SignalState) : F :=
  match s with
  | Green => greenDuration c | Yellow => yellowDuration c | Red => redDuration c
  end.

End PassesTerms.

Section FollowingTerms.
Context {F : Type} {fl : FloatOps F} {reg : ComponentRegistry} {cfg : BuildConfig}.

(** How one path-following step may change the path component: the path
    is kept and the index stays or moves on by one. *)
Definition followed (a b : option (WasmComponent F)) : Prop :=
  match a, b with
  | Some (PathFollowingC p), Some (PathFollowingC q) =>
      path q = path p
      /\ (currentPathIndex q = currentPathIndex p
          \/ currentPathIndex q = currentPathIndex p + 1)
  | _, _ => a = b
  end.

End FollowingTerms.

Section TidyTerms.
Context {F : Type} {fl : FloatOps F}.

(** A segment is stored under its own identifier, has at least one lane,
    and its lanes are numbered by their position and point back to it. *)
Definition tidySegment (id : N) (s : WasmRoadSegment F) : Prop :=
  segment_m_id s = id /\ m_lanes s <> []
  /\ forall i lane, m_lanes s !! i = Some lane ->
                    lane_m_id lane = N.of_nat i /\ lane_m_parent lane = id.

Definition tidy (net : WasmRoadNetwork F) : Prop :=
  (forall id s, getRoadSegment net id = Some s -> tidySegment id s)
  /\ (forall id x, getIntersection net id = Some x -> intersection_m_id x = id)
  /\ (forall id, id ∈ dom (m_intersections net) <-> id < m_nextIntersectionId net).

End TidyTerms.

Section NearestTerms.
Context {F : Type} {fl : FloatOps F}.

(** The distance from a point to the position of an intersection, as
    computed in the loop of [findNearestIntersection]. *)
Definition distanceToPosition (c : WasmIntersection F) (x y : F) : F :=
  fsqrt (fadd (fmul (fsub x (vx (m_position c))) (fsub x (vx (m_position c))))
              (fmul (fsub y (vy (m_position c))) (fsub y (vy (m_position c))))).

End NearestTerms.

Section TickTerms.
Context {F : Type} {fl : FloatOps F} {reg : ComponentRegistry} {cfg : BuildConfig}.

Definition withKeep (keep : bool) (c : WasmComponent F) : WasmComponent F :=
  match c with
  | BoundsC b => BoundsC (mkBounds (bounds_width b) (bounds_height b) keep)
  | _ => c
  end.

End TickTerms.

(** * Properties *)

(** ** Ranges and masks *)

Lemma In_idsBelow (n i : N) : In i (idsBelow n) <-> i < n.
Proof.
  unfold idsBelow. rewrite <- list_elem_of_In, list_elem_of_fmap. split.
  - intros (k & -> & Hk). apply elem_of_seq in Hk. lia.
  - intros Hi. exists (N.to_nat i). split; [lia|]. apply elem_of_seq. lia.
Qed.

Lemma NoDup_idsBelow (n : N) : List.NoDup (idsBelow n).
Proof.
  unfold idsBelow. apply NoDup_ListNoDup.
  apply (NoDup_fmap_2 _). apply NoDup_seq.
Qed.

Lemma idsBelow_succ (n : nat) :
  idsBelow (N.of_nat (S n)) = idsBelow (N.of_nat n) ++ [N.of_nat n].
Proof.
  unfold idsBelow. rewrite !Nat2N.id. rewrite seq_S. rewrite fmap_app. reflexivity.
Qed.

(** ** Freshly created entities *)

Section ECS.
Context {F : Type} {fl : FloatOps F} {reg : ComponentRegistry}.

Lemma requiredMask_bit (ks : list ComponentKind) (i : N) :
  N.testbit (requiredMask ks) i = true <-> exists k, In k ks /\ getComponentID k = i.
Proof.
  unfold requiredMask.
  assert (G : forall m, N.testbit (foldl (fun m k => N.setbit m (getComponentID k)) m ks) i = true
                 <-> N.testbit m i = true \/ exists k, In k ks /\ getComponentID k = i).
  { induction ks as [|k ks IH]; intros m; simpl.
    - split; [auto | intros [?|(k & [] & _)]; auto].
    - rewrite IH. rewrite N.setbit_eqb.
      destruct (N.eqb_spec (getComponentID k) i) as [E|E]; simpl.
      + split; [intros _; right; eauto | auto].
      + split.
        * intros [?|(k' & ? & ?)]; [auto | right; eauto].
        * intros [?|(k' & [->|?] & ?)]; [auto | congruence | right; eauto]. }
  rewrite G. rewrite N.bits_0. split; [intros [?|?]; [discriminate | auto] | auto].
Qed.

Lemma requiredMask_nonzero (ks : list ComponentKind) : ks <> [] -> requiredMask ks <> 0.
Proof.
  destruct ks as [|k ks]; [congruence | intros _ E].
  assert (B : N.testbit (requiredMask (k :: ks)) (getComponentID k) = true).
  { apply requiredMask_bit. exists k. split; [left; reflexivity | reflexivity]. }
  rewrite E, N.bits_0 in B. discriminate.
Qed.

Lemma mask_matches (m : N) (ks : list ComponentKind) :
  N.land m (requiredMask ks) = requiredMask ks
  <-> forall k, In k ks -> N.testbit m (getComponentID k) = true.
Proof.
  split.
  - intros E k Hk.
    assert (B : N.testbit (requiredMask ks) (getComponentID k) = true)
      by (apply requiredMask_bit; eauto).
    rewrite <- E, N.land_spec in B. apply andb_true_iff in B. tauto.
  - intros Hall. apply N.bits_inj. intros i. rewrite N.land_spec.
    destruct (N.testbit (requiredMask ks) i) eqn:B; [|apply andb_false_r].
    apply requiredMask_bit in B as (k & Hk & <-). rewrite (Hall k Hk). reflexivity.
Qed.

Lemma In_getEntitiesWith (w : WasmWorld F) (ks : list ComponentKind) (id : N) :
  In id (getEntitiesWith w ks) <->
  exists m, mask_at w id = Some m /\ N.land m (requiredMask ks) = requiredMask ks.
Proof.
  unfold getEntitiesWith. rewrite filter_In, In_idsBelow. split.
  - intros [_ Hm]. destruct (mask_at w id) as [m|]; [|discriminate].
    exists m. split; [reflexivity | apply N.eqb_eq, Hm].
  - intros (m & Hm & E). split.
    + unfold mask_at in Hm. apply lookup_lt_Some in Hm. lia.
    + rewrite Hm. apply N.eqb_eq, E.
Qed.

Lemma NoDup_getEntitiesWith (w : WasmWorld F) (ks : list ComponentKind) :
  List.NoDup (getEntitiesWith w ks).
Proof. apply List.NoDup_filter, NoDup_idsBelow. Qed.

Lemma createEntity_mask (w : WasmWorld F) :
  wf_world w = true ->
  mask_at (createEntity w).2 (createEntity w).1 = Some 0
  /\ (createEntity w).1 < N.of_nat (length (m_entities (createEntity w).2))
  /\ length (m_entities (createEntity w).2) = length (m_entityMasks (createEntity w).2).
Proof.
  unfold wf_world. rewrite !andb_true_iff. intros [[Hlen Hfree] _].
  apply Nat.eqb_eq in Hlen. rewrite forallb_forall in Hfree.
  unfold createEntity. destruct (last (m_freeEntities w)) as [id|] eqn:L; simpl.
  - apply last_Some in L as (l' & L).
    assert (Hid : id < N.of_nat (length (m_entities w))).
    { apply N.ltb_lt, Hfree. rewrite L. apply in_or_app. right. left. reflexivity. }
    unfold mask_at; simpl. rewrite length_insert.
    split; [|split; [exact Hid | exact Hlen]].
    apply list_lookup_insert_eq. lia.
  - unfold mask_at; simpl. rewrite !length_app; simpl.
    split; [|split; [lia | lia]].
    rewrite Nat2N.id, Hlen. apply list_lookup_middle. reflexivity.
Qed.

Lemma entityExists_zero_mask (w : WasmWorld F) (id : N) :
  mask_at w id = Some 0 -> entityExists w id = false.
Proof. intros E. unfold entityExists. rewrite E. apply andb_false_r. Qed.

Lemma destroyEntity_not_existing (w : WasmWorld F) (id : N) :
  entityExists w id = false -> destroyEntity w id = w.
Proof. intros E. unfold destroyEntity. rewrite E. reflexivity. Qed.

Lemma addComponent_release_exists (w : WasmWorld F) (id m : N) (c : WasmComponent F) :
  mask_at w id = Some m -> id < N.of_nat (length (m_entities w)) ->
  exists w', addComponent (cfg := release_build) w id c = Some w'
             /\ entityExists w' id = true
             /\ hasComponent w' (kindOf c) id = true.
Proof.
  intros Hm Hid. unfold addComponent. simpl. rewrite Hm. simpl.
  eexists. split; [reflexivity|].
  assert (Hlt : (N.to_nat id < length (m_entityMasks w))%nat)
    by (apply lookup_lt_Some in Hm; exact Hm).
  assert (Hex : forall w' : WasmWorld F, m_entities w' = m_entities w ->
      mask_at w' id = Some (N.setbit m (getComponentID (kindOf c))) ->
      entityExists w' id = true /\ hasComponent w' (kindOf c) id = true).
  { intros w' He Hm'. assert (Ex : entityExists w' id = true).
    { unfold entityExists. rewrite He, Hm'. apply andb_true_iff. split; [apply N.ltb_lt, Hid|].
      apply negb_true_iff, N.eqb_neq. intros Z.
      assert (B := N.setbit_eq m (getComponentID (kindOf c))).
      rewrite Z, N.bits_0 in B. discriminate. }
    split; [exact Ex|]. unfold hasComponent. rewrite Ex, Hm'. simpl. apply N.setbit_eq. }
  apply Hex; [reflexivity|]. unfold mask_at; simpl. apply list_lookup_insert_eq. exact Hlt.
Qed.

Lemma addComponent_debug_fresh (w : WasmWorld F) (id : N) (c : WasmComponent F) :
  entityExists w id = false -> addComponent (cfg := debug_build) w id c = None.
Proof. intros E. unfold addComponent, assert. simpl. rewrite E. reflexivity. Qed.

End ECS.

Section Recycling.
Context {F : Type} {fl : FloatOps F} {reg : ComponentRegistry}.

(** C9. An identifier fresh from [createEntity] has an empty mask: it does
    not "exist", no query for a non-empty component set returns it, and
    destroying it changes nothing (the free list and the entity count in
    particular); it exists once a component has been added, which a build
    without assertions allows. *)
Theorem fresh_entity_does_not_exist (w : WasmWorld F) :
  wf_world w = true ->
  let id := (createEntity w).1 in
  let w1 := (createEntity w).2 in
  entityExists w1 id = false
  /\ (forall ks, ks <> [] -> ~ In id (getEntitiesWith w1 ks))
  /\ destroyEntity w1 id = w1
  /\ m_freeEntities (destroyEntity w1 id) = m_freeEntities w1
  /\ m_entityCount (destroyEntity w1 id) = m_entityCount w1
  /\ (forall c, exists w2, addComponent (cfg := release_build) w1 id c = Some w2
                           /\ entityExists w2 id = true).
Proof.
  intros Hwf id w1. destruct (createEntity_mask w Hwf) as (Hm & Hid & _).
  fold id w1 in Hm, Hid.
  assert (Hex : entityExists w1 id = false) by (apply entityExists_zero_mask, Hm).
  assert (Hd : destroyEntity w1 id = w1) by (apply destroyEntity_not_existing, Hex).
  split; [exact Hex|]. split.
  - intros ks Hks Hin. apply In_getEntitiesWith in Hin as (m & Hm' & E).
    rewrite Hm in Hm'. injection Hm' as <-. rewrite N.land_0_l in E.
    apply (requiredMask_nonzero ks Hks). symmetry. exact E.
  - rewrite Hd. repeat split; try reflexivity.
    intros c. destruct (addComponent_release_exists w1 id 0 c Hm Hid) as (w2 & ? & ? & _).
    exists w2. split; assumption.
Qed.
Local Abbreviation bareWorld := (bareWorld (F := F)).

Lemma bareWorld_not_existing (n : nat) (id : N) : entityExists (bareWorld n) id = false.
Proof.
  unfold entityExists, mask_at; simpl.
  destruct (replicate n 0 !! N.to_nat id) as [m|] eqn:E; [|apply andb_false_r].
  apply lookup_replicate in E as [-> _]. apply andb_false_r.
Qed.

Lemma length_idsBelow (n : N) : length (idsBelow n) = N.to_nat n.
Proof. unfold idsBelow. rewrite length_fmap, length_seq. reflexivity. Qed.

Lemma createEntity_bare (k : nat) :
  createEntity (bareWorld k) = (N.of_nat k, bareWorld (S k)).
Proof.
  unfold createEntity, bareWorld. cbn [m_freeEntities last].
  cbn [m_entities m_entityMasks m_entityCount m_componentPools m_systems].
  rewrite length_idsBelow, Nat2N.id, <- idsBelow_succ.
  replace (replicate k 0 ++ [0]) with (replicate (S k) 0)
    by (rewrite replicate_S_end; reflexivity).
  reflexivity.
Qed.

Lemma idsBelow_shift (n : nat) :
  idsBelow (N.of_nat (S n)) = 0 :: (N.succ <$> idsBelow (N.of_nat n)).
Proof.
  unfold idsBelow. rewrite !Nat2N.id. cbn [seq fmap list_fmap]. f_equal.
  rewrite <- seq_shift. change (map S) with (@fmap list _ _ _ S).
  rewrite <- !list_fmap_compose.
  apply list_fmap_ext. intros _ i _. simpl. lia.
Qed.

Lemma createEntities_bare (n k : nat) :
  createEntities n (bareWorld k)
  = ((N.add (N.of_nat k) <$> idsBelow (N.of_nat n)), bareWorld (k + n)).
Proof.
  revert k. induction n as [|n IH]; intros k.
  - simpl. rewrite Nat.add_0_r. reflexivity.
  - cbn [createEntities]. rewrite createEntity_bare, IH, idsBelow_shift.
    replace (k + S n)%nat with (S k + n)%nat by lia. f_equal.
    cbn [fmap list_fmap]. f_equal; [lia|]. rewrite <- list_fmap_compose.
    apply list_fmap_ext. intros _ a _. simpl. lia.
Qed.

Lemma destroyEntities_bare (n : nat) (ids : list N) :
  destroyEntities (bareWorld n) ids = bareWorld n.
Proof.
  unfold destroyEntities. induction ids as [|id ids IH]; [reflexivity|].
  simpl. rewrite destroyEntity_not_existing by apply bareWorld_not_existing. exact IH.
Qed.

(** C2, on the code.  Entities created without a component are not
    "existing", so destroying them recycles nothing: of [n] entities
    created, destroyed and created again in an empty store, the second
    batch gets the identifiers n .. 2n-1, none of the first batch. *)
Theorem bare_entities_are_not_recycled (n : nat) :
  let first := createEntities n (WasmWorld_new (F := F)) in
  let w2 := destroyEntities first.2 first.1 in
  let second := createEntities n w2 in
  first.1 = idsBelow (N.of_nat n)
  /\ second.1 = (N.add (N.of_nat n) <$> idsBelow (N.of_nat n))
  /\ m_freeEntities w2 = []
  /\ m_entityCount w2 = m_entityCount first.2
  /\ (forall id, In id first.1 -> entityExists w2 id = false /\ ~ In id second.1).
Proof.
  intros first w2 second.
  assert (E1 : first = (idsBelow (N.of_nat n), bareWorld n)).
  { unfold first. change WasmWorld_new with (bareWorld 0).
    rewrite createEntities_bare. simpl. f_equal.
    rewrite <- (list_fmap_id (idsBelow (N.of_nat n))) at 2.
    apply list_fmap_ext. intros _ a _. simpl. lia. }
  assert (E2 : w2 = bareWorld n).
  { unfold w2. rewrite E1. simpl. apply destroyEntities_bare. }
  assert (E3 : second.1 = (N.add (N.of_nat n) <$> idsBelow (N.of_nat n))).
  { unfold second. rewrite E2, createEntities_bare. reflexivity. }
  rewrite E2, E3, E1. simpl. repeat split; try reflexivity.
  - apply bareWorld_not_existing.
  - intros Hin. apply list_elem_of_In, list_elem_of_fmap in Hin as (j & Hj & _).
    apply In_idsBelow in H. lia.
Qed.

End Recycling.

(** ** Component access in well-formed worlds *)

Section Access.
Context {F : Type} {fl : FloatOps F} {reg : ComponentRegistry}.

Lemma allKinds_complete (k : ComponentKind) : In k allKinds.
Proof. destruct k; simpl; tauto. Qed.

Lemma wf_world_spec (w : WasmWorld F) :
  wf_world w = true <->
  length (m_entities w) = length (m_entityMasks w)
  /\ (forall id, In id (m_freeEntities w) -> id < N.of_nat (length (m_entities w)))
  /\ componentsPresent w.
Proof.
  unfold wf_world. rewrite !andb_true_iff, Nat.eqb_eq, !forallb_forall.
  split; [intros ((Hl & Hf) & Hc) | intros (Hl & Hf & Hc)].
  - split; [exact Hl|]. split; [intros id Hid; apply N.ltb_lt, Hf, Hid|].
    intros id m k Hm Hb.
    assert (Hid : In id (idsBelow (N.of_nat (length (m_entityMasks w))))).
    { apply In_idsBelow. unfold mask_at in Hm. apply lookup_lt_Some in Hm. lia. }
    specialize (Hc id Hid). rewrite forallb_forall in Hc.
    specialize (Hc k (allKinds_complete k)). rewrite Hm, Hb in Hc. simpl in Hc.
    destruct (lookupComponent w k id) as [c|]; [|discriminate].
    exists c. split; [reflexivity|]. apply bool_decide_eq_true in Hc. exact Hc.
  - split; [split; [exact Hl | intros id Hid; apply N.ltb_lt, Hf, Hid]|].
    intros id _. apply forallb_forall. intros k _.
    destruct (mask_at w id) as [m|] eqn:Hm; [|reflexivity].
    destruct (N.testbit m (getComponentID k)) eqn:Hb; [|reflexivity]. simpl.
    destruct (Hc id m k Hm Hb) as (c & -> & Hk). apply bool_decide_eq_true. exact Hk.
Qed.

Lemma sameEntities_refl (w : WasmWorld F) : sameEntities w w.
Proof. repeat split. Qed.

Lemma sameEntities_trans (w1 w2 w3 : WasmWorld F) :
  sameEntities w1 w2 -> sameEntities w2 w3 -> sameEntities w1 w3.
Proof.
  unfold sameEntities. intros (a1 & a2 & a3 & a4 & a5) (b1 & b2 & b3 & b4 & b5).
  repeat split; congruence.
Qed.

Lemma sameEntities_mask (w w' : WasmWorld F) (id : N) :
  sameEntities w w' -> mask_at w' id = mask_at w id.
Proof. intros (_ & E & _). unfold mask_at. rewrite E. reflexivity. Qed.

Lemma sameEntities_exists (w w' : WasmWorld F) (id : N) :
  sameEntities w w' -> entityExists w' id = entityExists w id.
Proof.
  intros S. unfold entityExists. rewrite (sameEntities_mask _ _ _ S).
  destruct S as (-> & _). reflexivity.
Qed.

Lemma sameEntities_hasComponent (w w' : WasmWorld F) (k : ComponentKind) (id : N) :
  sameEntities w w' -> hasComponent w' k id = hasComponent w k id.
Proof.
  intros S. unfold hasComponent.
  rewrite (sameEntities_exists _ _ _ S), (sameEntities_mask _ _ _ S). reflexivity.
Qed.

Lemma sameEntities_query (w w' : WasmWorld F) (ks : list ComponentKind) :
  sameEntities w w' -> getEntitiesWith w' ks = getEntitiesWith w ks.
Proof.
  intros S. unfold getEntitiesWith. destruct S as (_ & E & _).
  unfold mask_at. rewrite E. reflexivity.
Qed.

(** A set mask bit makes the entity exist and the component readable,
    with or without assertions. *)
Lemma getComponent_present {cfg : BuildConfig} (w : WasmWorld F) (id m : N)
    (k : ComponentKind) :
  length (m_entities w) = length (m_entityMasks w) -> componentsPresent w ->
  mask_at w id = Some m -> N.testbit m (getComponentID k) = true ->
  exists c, lookupComponent w k id = Some c /\ kindOf c = k
            /\ getComponent w k id = Some c.
Proof.
  intros Hl Hc Hm Hb. destruct (Hc id m k Hm Hb) as (c & Hlook & Hk).
  exists c. split; [exact Hlook|]. split; [exact Hk|].
  unfold getComponent, assert. rewrite Hm, Hb, Hlook. simpl.
  assert (Ex : entityExists w id = true).
  { unfold entityExists. rewrite Hm. apply andb_true_iff. split.
    - apply N.ltb_lt. unfold mask_at in Hm. apply lookup_lt_Some in Hm. lia.
    - apply negb_true_iff, N.eqb_neq. intros ->. rewrite N.bits_0 in Hb. discriminate. }
  rewrite Ex. rewrite bool_decide_eq_true_2 by exact Hk.
  destruct NDEBUG; reflexivity.
Qed.

Lemma hasComponent_bit (w : WasmWorld F) (k : ComponentKind) (id : N) :
  hasComponent w k id = true ->
  exists m, mask_at w id = Some m /\ N.testbit m (getComponentID k) = true.
Proof.
  unfold hasComponent. destruct (entityExists w id); [simpl|discriminate].
  destruct (mask_at w id) as [m|]; [|discriminate]. eauto.
Qed.

Lemma bit_hasComponent (w : WasmWorld F) (k : ComponentKind) (id m : N) :
  length (m_entities w) = length (m_entityMasks w) ->
  mask_at w id = Some m -> N.testbit m (getComponentID k) = true ->
  hasComponent w k id = true.
Proof.
  intros Hl Hm Hb. unfold hasComponent, entityExists. rewrite Hm, Hb.
  assert ((id <? N.of_nat (length (m_entities w))) = true) as ->.
  { apply N.ltb_lt. unfold mask_at in Hm. apply lookup_lt_Some in Hm. lia. }
  assert (negb (m =? 0) = true) as ->; [|reflexivity].
  apply negb_true_iff, N.eqb_neq. intros ->. rewrite N.bits_0 in Hb. discriminate.
Qed.

(** The entities of a query are those that have each requested component. *)
Lemma getEntitiesWith_hasComponent (w : WasmWorld F) (ks : list ComponentKind) (id : N) :
  length (m_entities w) = length (m_entityMasks w) -> ks <> [] ->
  (In id (getEntitiesWith w ks) <-> forall k, In k ks -> hasComponent w k id = true).
Proof.
  intros Hl Hks. rewrite In_getEntitiesWith. split.
  - intros (m & Hm & E) k Hk. apply (bit_hasComponent w k id m Hl Hm).
    apply (proj1 (mask_matches m ks) E k Hk).
  - intros Hall. destruct ks as [|k0 ks]; [congruence|].
    destruct (hasComponent_bit w k0 id (Hall k0 (or_introl eq_refl))) as (m & Hm & _).
    exists m. split; [exact Hm|]. apply mask_matches. intros k Hk.
    destruct (hasComponent_bit w k id (Hall k Hk)) as (m' & Hm' & Hb). congruence.
Qed.

(** Writing through a reference to an existing component. *)
Lemma storeComponent_shape (w : WasmWorld F) (id : N) (c : WasmComponent F) :
  sameEntities w (storeComponent w id c).
Proof.
  unfold storeComponent.
  destruct (mjoin (m_componentPools w !! N.to_nat (getComponentID (kindOf c))));
    repeat split.
Qed.

Lemma lookup_storeComponent (w : WasmWorld F) (id : N) (c c0 : WasmComponent F)
    (k : ComponentKind) (id' : N) :
  lookupComponent w (kindOf c) id = Some c0 ->
  lookupComponent (storeComponent w id c) k id'
  = if decide (k = kindOf c /\ id' = id) then Some c else lookupComponent w k id'.
Proof.
  unfold lookupComponent, storeComponent, pool_getComponent.
  destruct (m_componentPools w !! N.to_nat (getComponentID (kindOf c)))
    as [[pool|]|] eqn:Hp; simpl; try discriminate.
  intros Hc0.
  assert (Hin : (N.to_nat id < length pool)%nat).
  { destruct (pool !! N.to_nat id) eqn:E; [|discriminate].
    apply lookup_lt_Some in E. exact E. }
  assert (Hpin : (N.to_nat (getComponentID (kindOf c)) < length (m_componentPools w))%nat)
    by (apply lookup_lt_Some in Hp; exact Hp).
  destruct (decide (k = kindOf c)) as [->|Hk].
  - rewrite list_lookup_insert_eq by exact Hpin. simpl.
    destruct (decide (id' = id)) as [->|Hid].
    + rewrite list_lookup_insert_eq by exact Hin.
      rewrite decide_True by tauto. reflexivity.
    + rewrite list_lookup_insert_ne by lia. rewrite decide_False by tauto.
      rewrite Hp. reflexivity.
  - rewrite list_lookup_insert_ne.
    + rewrite decide_False by tauto. reflexivity.
    + intros E. apply Hk. symmetry. apply getComponentID_inj. lia.
Qed.

Lemma storeComponent_present (w : WasmWorld F) (id : N) (c c0 : WasmComponent F) :
  lookupComponent w (kindOf c) id = Some c0 ->
  componentsPresent w -> componentsPresent (storeComponent w id c).
Proof.
  intros Hc0 Hc id' m k Hm Hb.
  rewrite (sameEntities_mask _ _ _ (storeComponent_shape w id c)) in Hm.
  rewrite (lookup_storeComponent w id c c0 k id' Hc0).
  destruct (decide (k = kindOf c /\ id' = id)) as [[-> ->]|_].
  - exists c. split; reflexivity.
  - apply (Hc id' m k Hm Hb).
Qed.

Lemma wf_readable (w : WasmWorld F) : wf_world w = true -> readable w.
Proof. intros Hw. apply wf_world_spec in Hw. unfold readable. tauto. Qed.

Lemma storeComponent_readable (w : WasmWorld F) (id : N) (c c0 : WasmComponent F) :
  lookupComponent w (kindOf c) id = Some c0 ->
  readable w -> readable (storeComponent w id c).
Proof.
  intros Hc0 [Hl Hc]. split.
  - destruct (storeComponent_shape w id c) as (-> & -> & _). exact Hl.
  - apply (storeComponent_present w id c c0 Hc0 Hc).
Qed.

End Access.

(** ** Loops that rewrite one component per entity *)

Section Pointwise.
Context {F : Type} {fl : FloatOps F} {reg : ComponentRegistry}.

Lemma sameEntities_sym (w w' : WasmWorld F) : sameEntities w w' -> sameEntities w' w.
Proof. unfold sameEntities. intros (a & b & c & d & e). repeat split; congruence. Qed.

Lemma foldM_pointwise (k : ComponentKind) (upd : WasmComponent F -> WasmComponent F)
    (step : WasmWorld F -> N -> option (WasmWorld F)) (L : list N) :
  (forall c, kindOf c = k -> kindOf (upd c) = k) ->
  forall w0 : WasmWorld F,
  (forall w id c, sameEntities w0 w -> readable w -> In id L ->
                  lookupComponent w k id = Some c -> kindOf c = k ->
                  step w id = Some (storeComponent w id (upd c))) ->
  List.NoDup L -> readable w0 ->
  (forall id, In id L -> exists c, lookupComponent w0 k id = Some c /\ kindOf c = k) ->
  exists w', foldM step w0 L = Some w' /\ sameEntities w0 w' /\ readable w'
    /\ forall k' id', lookupComponent w' k' id'
         = if decide (k' = k /\ id' ∈ L) then upd <$> lookupComponent w0 k id'
           else lookupComponent w0 k' id'.
Proof.
  intros Hupd. induction L as [|a L IH]; intros w0 Hstep Hnd Hr Hhas.
  - exists w0. split; [reflexivity|]. split; [apply sameEntities_refl|]. split; [exact Hr|].
    intros k' id'. rewrite decide_False; [reflexivity | rewrite elem_of_nil; tauto].
  - destruct (Hhas a (or_introl eq_refl)) as (c & Hc & Hk).
    simpl. rewrite (Hstep w0 a c (sameEntities_refl w0) Hr (or_introl eq_refl) Hc Hk).
    set (w1 := storeComponent w0 a (upd c)).
    assert (Hkc : kindOf (upd c) = k) by (apply Hupd, Hk).
    assert (Hc' : lookupComponent w0 (kindOf (upd c)) a = Some c) by (rewrite Hkc; exact Hc).
    assert (S1 : sameEntities w0 w1) by apply storeComponent_shape.
    assert (R1 : readable w1) by (apply (storeComponent_readable w0 a (upd c) c Hc' Hr)).
    assert (L1 : forall k' id', lookupComponent w1 k' id'
               = if decide (k' = k /\ id' = a) then Some (upd c)
                 else lookupComponent w0 k' id').
    { intros k' id'. unfold w1. rewrite (lookup_storeComponent w0 a (upd c) c k' id' Hc').
      rewrite Hkc. reflexivity. }
    apply List.NoDup_cons_iff in Hnd as [Hna Hnd'].
    destruct (IH w1) as (w' & Hf & S' & R' & L'); [| exact Hnd' | exact R1 | |].
    + intros w id c1 Sw Rw Hin Hl Hk1.
      apply Hstep; [eapply sameEntities_trans; eassumption | exact Rw
                   | right; exact Hin | exact Hl | exact Hk1].
    + intros id Hin. rewrite L1. rewrite decide_False.
      * apply Hhas. right. exact Hin.
      * intros [_ ->]. contradiction.
    + exists w'. split; [exact Hf|]. split; [eapply sameEntities_trans; eassumption|].
      split; [exact R'|]. intros k' id'. rewrite L'.
      destruct (decide (k' = k /\ id' ∈ L)) as [[-> Hin]|Hn].
      * rewrite decide_True by (split; [reflexivity | right; exact Hin]).
        rewrite L1. rewrite decide_False; [reflexivity|]. intros [_ ->].
        apply list_elem_of_In in Hin. contradiction.
      * rewrite L1. destruct (decide (k' = k /\ id' = a)) as [[-> ->]|Hn'].
        -- rewrite decide_True by (split; [reflexivity | left]).
           rewrite Hc. reflexivity.
        -- rewrite decide_False; [reflexivity|]. rewrite elem_of_cons. tauto.
Qed.

(** Typed reads of a component whose mask bit is set. *)
Lemma getTransform_present {cfg : BuildConfig} (w : WasmWorld F) (id m : N) :
  readable w -> mask_at w id = Some m -> N.testbit m (getComponentID KTransform) = true ->
  exists t, lookupComponent w KTransform id = Some (TransformC t)
            /\ getTransform w id = Some t.
Proof.
  intros [Hl Hc] Hm Hb.
  destruct (getComponent_present w id m KTransform Hl Hc Hm Hb) as (c & Hlook & Hk & Hg).
  destruct c; try discriminate. eexists. split; [exact Hlook|].
  unfold getTransform. rewrite Hg. reflexivity.
Qed.

Lemma getVehicle_present {cfg : BuildConfig} (w : WasmWorld F) (id m : N) :
  readable w -> mask_at w id = Some m -> N.testbit m (getComponentID KVehicle) = true ->
  exists v, lookupComponent w KVehicle id = Some (VehicleC v)
            /\ getVehicle w id = Some v.
Proof.
  intros [Hl Hc] Hm Hb.
  destruct (getComponent_present w id m KVehicle Hl Hc Hm Hb) as (c & Hlook & Hk & Hg).
  destruct c; try discriminate. eexists. split; [exact Hlook|].
  unfold getVehicle. rewrite Hg. reflexivity.
Qed.

Lemma getCollision_present {cfg : BuildConfig} (w : WasmWorld F) (id m : N) :
  readable w -> mask_at w id = Some m -> N.testbit m (getComponentID KCollision) = true ->
  exists v, lookupComponent w KCollision id = Some (CollisionC v)
            /\ getCollision w id = Some v.
Proof.
  intros [Hl Hc] Hm Hb.
  destruct (getComponent_present w id m KCollision Hl Hc Hm Hb) as (c & Hlook & Hk & Hg).
  destruct c; try discriminate. eexists. split; [exact Hlook|].
  unfold getCollision. rewrite Hg. reflexivity.
Qed.

Lemma query_bit (w : WasmWorld F) (ks : list ComponentKind) (id : N) (k : ComponentKind) :
  In id (getEntitiesWith w ks) -> In k ks ->
  exists m, mask_at w id = Some m /\ N.testbit m (getComponentID k) = true.
Proof.
  intros Hin Hk. apply In_getEntitiesWith in Hin as (m & Hm & E).
  exists m. split; [exact Hm|]. apply (proj1 (mask_matches m ks) E k Hk).
Qed.

End Pointwise.

(** ** The bounds system *)

Section Bounds.
Context {F : Type} {fl : FloatOps F} {reg : ComponentRegistry} {cfg : BuildConfig}.

Lemma boundsAxis_spec (p v limit : F) :
  boundsAxis p v limit = (clampTo f0 limit p, bounce f0 limit p v).
Proof.
  unfold boundsAxis, clampTo, bounce, clampTriggers, restitution.
  destruct (flt p f0); [reflexivity|]. destruct (flt limit p); reflexivity.
Qed.

Lemma boundsSystem_spec (w : WasmWorld F) (dt : F) (b : WasmBoundsComponent F) :
  wf_world w = true -> findGlobalBounds w = Some (Some b) -> keepInBounds b = true ->
  exists w', boundsSystem w dt = Some w'
    /\ forall id t, hasComponent w KTransform id = true ->
                    hasComponent w KVehicle id = true ->
                    getTransform w id = Some t ->
                    getTransform w' id = Some (keptInBounds b t).
Proof.
  intros Hwf Hb Hkeep. apply wf_readable in Hwf.
  unfold boundsSystem. rewrite Hb. simpl. rewrite Hkeep. simpl.
  set (L := getEntitiesWith w [KTransform; KVehicle]).
  destruct (foldM_pointwise KTransform (keptInBoundsC b) (boundsStep b) L) with (w0 := w)
    as (w' & Hf & S' & R' & L').
  - intros c Hk. destruct c; try discriminate. reflexivity.
  - intros w1 id c S1 R1 Hin Hl Hk.
    destruct (query_bit w _ id KTransform Hin) as (m & Hm & HbT); [simpl; tauto|].
    destruct (query_bit w _ id KVehicle Hin) as (m' & Hm' & HbV); [simpl; tauto|].
    rewrite <- (sameEntities_mask _ _ _ S1) in Hm, Hm'.
    destruct (getTransform_present w1 id m R1 Hm HbT) as (t & Ht & Hgt).
    destruct (getVehicle_present w1 id m' R1 Hm' HbV) as (v & _ & Hgv).
    unfold boundsStep. rewrite Hgt, Hgv. simpl. rewrite !boundsAxis_spec.
    rewrite Ht in Hl. injection Hl as <-. reflexivity.
  - apply NoDup_getEntitiesWith.
  - exact Hwf.
  - intros id Hin.
    destruct (query_bit w _ id KTransform Hin) as (m & Hm & HbT); [simpl; tauto|].
    destruct (getTransform_present (cfg := cfg) w id m Hwf Hm HbT) as (t & Ht & _).
    eexists. split; [exact Ht | reflexivity].
  - exists w'. split; [exact Hf|]. intros id t HT HV Hgt.
    assert (Hin : In id L).
    { apply getEntitiesWith_hasComponent; [apply Hwf | congruence |].
      intros k [<-|[<-|[]]]; assumption. }
    destruct (query_bit w _ id KTransform Hin) as (m & Hm & HbT); [simpl; tauto|].
    destruct (getTransform_present w id m Hwf Hm HbT) as (t0 & Ht0 & Hgt0).
    assert (t0 = t) as -> by congruence.
    assert (Hm' : mask_at w' id = Some m) by (rewrite (sameEntities_mask _ _ _ S'); exact Hm).
    destruct (getTransform_present w' id m R' Hm' HbT) as (t1 & Ht1 & Hgt1).
    rewrite Hgt1. f_equal.
    rewrite L', decide_True, Ht0 in Ht1 by (split; [reflexivity | apply list_elem_of_In, Hin]).
    simpl in Ht1. congruence.
Qed.

End Bounds.

(** ** The collision system *)

Section Collision.
Context {F : Type} {fl : FloatOps F} {reg : ComponentRegistry} {cfg : BuildConfig}.

Lemma store_chain (w : WasmWorld F) (id : N) (c c0 : WasmComponent F) :
  readable w -> lookupComponent w (kindOf c) id = Some c0 ->
  sameEntities w (storeComponent w id c) /\ readable (storeComponent w id c)
  /\ forall k id', lookupComponent (storeComponent w id c) k id'
       = if decide (k = kindOf c /\ id' = id) then Some c else lookupComponent w k id'.
Proof.
  intros R Hl. split; [apply storeComponent_shape|].
  split; [apply (storeComponent_readable w id c c0 Hl R)|].
  intros k id'. apply (lookup_storeComponent w id c c0 k id' Hl).
Qed.

Lemma collidePair_overlapping (w : WasmWorld F) (a b ma mb : N) :
  readable w -> a <> b ->
  mask_at w a = Some ma -> mask_at w b = Some mb ->
  N.testbit ma (getComponentID KTransform) = true ->
  N.testbit ma (getComponentID KCollision) = true ->
  N.testbit mb (getComponentID KTransform) = true ->
  N.testbit mb (getComponentID KCollision) = true ->
  exists w', collidePair a w b = Some w' /\ sameEntities w w' /\ readable w'
    /\ (overlapping w a b = false -> w' = w)
    /\ forall x, listOf w' x = listOf w x ++ added (overlapping w a b) a b x
                 /\ flagOf w' x
                    = if overlapping w a b && (bool_decide (x = a) || bool_decide (x = b))
                      then true else flagOf w x.
Proof.
  intros R Hab Hma Hmb HaT HaC HbT HbC.
  destruct (getTransform_present w a ma R Hma HaT) as (tA & HtA & HgtA).
  destruct (getTransform_present w b mb R Hmb HbT) as (tB & HtB & HgtB).
  destruct (getCollision_present w a ma R Hma HaC) as (cA & HcA & HgcA).
  destruct (getCollision_present w b mb R Hmb HbC) as (cB & HcB & HgcB).
  unfold collidePair, overlapping. rewrite HgtA, HgtB, HgcA, HgcB. simpl.
  destruct (flt _ _).
  2:{ exists w. split; [reflexivity|]. split; [apply sameEntities_refl|].
      split; [exact R|]. split; [reflexivity|].
      intros x. unfold added. simpl. rewrite app_nil_r. tauto. }
  match goal with
  | |- context [let '(velA, velB) := ?e in _] => destruct e as [velA velB]
  end.
  set (c1 := CollisionC (mkCollision (radius cA) true (collidingWith cA ++ [b]))).
  set (c2 := CollisionC (mkCollision (radius cB) true (collidingWith cB ++ [a]))).
  match goal with
  | |- context [storeComponent _ a (TransformC ?t)] => set (c3 := TransformC t)
  end.
  match goal with
  | |- context [storeComponent _ b (TransformC ?t)] => set (c4 := TransformC t)
  end.
  destruct (store_chain w a c1 _ R HcA) as (S1 & R1 & L1).
  set (w1 := storeComponent w a c1) in *.
  assert (H2 : lookupComponent w1 (kindOf c2) b = Some (CollisionC cB)).
  { rewrite L1, decide_False by (intros [_ E]; congruence). exact HcB. }
  destruct (store_chain w1 b c2 _ R1 H2) as (S2 & R2 & L2).
  set (w2 := storeComponent w1 b c2) in *.
  assert (H3 : lookupComponent w2 (kindOf c3) a = Some (TransformC tA)).
  { rewrite L2, decide_False by (intros [E _]; discriminate).
    rewrite L1, decide_False by (intros [E _]; discriminate). exact HtA. }
  destruct (store_chain w2 a c3 _ R2 H3) as (S3 & R3 & L3).
  set (w3 := storeComponent w2 a c3) in *.
  assert (H4 : lookupComponent w3 (kindOf c4) b = Some (TransformC tB)).
  { rewrite L3, decide_False by (intros [_ E]; congruence).
    rewrite L2, decide_False by (intros [E _]; discriminate).
    rewrite L1, decide_False by (intros [E _]; discriminate). exact HtB. }
  destruct (store_chain w3 b c4 _ R3 H4) as (S4 & R4 & L4).
  exists (storeComponent w3 b c4). split; [reflexivity|].
  split; [apply (sameEntities_trans w w1 _ S1), (sameEntities_trans w1 w2 _ S2),
            (sameEntities_trans w2 w3 _ S3), S4|].
  split; [exact R4|]. split; [discriminate|].
  intros x.
  assert (E : lookupComponent (storeComponent w3 b c4) KCollision x
              = if decide (x = b) then Some c2
                else if decide (x = a) then Some c1
                else lookupComponent w KCollision x).
  { rewrite L4, decide_False by (intros [E _]; discriminate).
    rewrite L3, decide_False by (intros [E _]; discriminate).
    rewrite L2. destruct (decide (x = b)) as [->|Hxb].
    - rewrite decide_True by (split; reflexivity). reflexivity.
    - rewrite decide_False by tauto. rewrite L1.
      destruct (decide (x = a)) as [->|Hxa].
      + rewrite decide_True by (split; reflexivity). reflexivity.
      + rewrite decide_False by tauto. reflexivity. }
  unfold listOf, flagOf, collisionOf, added. rewrite E. simpl.
  destruct (decide (x = b)) as [->|Hxb].
  - rewrite decide_False by congruence. rewrite HcB. simpl.
    rewrite (bool_decide_eq_true_2 (b = b)) by reflexivity.
    rewrite orb_true_r. split; reflexivity.
  - destruct (decide (x = a)) as [->|Hxa].
    + rewrite HcA. simpl. rewrite (bool_decide_eq_true_2 (a = a)) by reflexivity.
      split; reflexivity.
    + rewrite !bool_decide_eq_false_2 by assumption. simpl.
      rewrite app_nil_r. split; reflexivity.
Qed.

Lemma recorded_step (L : list N) (log : list (N * N)) (w w' : WasmWorld F)
    (hit : bool) (a b : N) :
  a <> b ->
  (forall x, listOf w' x = listOf w x ++ added hit a b x
             /\ flagOf w' x
                = if hit && (bool_decide (x = a) || bool_decide (x = b))
                  then true else flagOf w x) ->
  recorded L log w -> recorded L (log ++ (if hit then [(a, b)] else [])) w'.
Proof.
  intros Hab Hw' [Hlist Hflag]. split.
  - intros x y Hx Hy. destruct (Hw' x) as [-> _].
    rewrite !in_app_iff, (Hlist x y Hx Hy). unfold added.
    destruct hit; [|simpl; tauto].
    repeat case_decide; subst; simpl; split;
      intuition (try congruence);
      repeat match goal with
             | H : (_, _) = (_, _) |- _ => injection H as ? ?; subst
             end; try congruence; auto.
  - intros x Hx. destruct (Hw' x) as [_ ->].
    destruct hit; simpl.
    2:{ rewrite (Hflag x Hx). split; intros [y Hy]; exists y;
        rewrite ?in_app_iff in *; simpl in *; tauto. }
    destruct (decide (x = a)) as [->|Ha].
    { rewrite (bool_decide_eq_true_2 (a = a)) by reflexivity. simpl.
      split; [|reflexivity]. intros _. exists b. left. apply in_or_app. right. left.
      reflexivity. }
    rewrite (bool_decide_eq_false_2 _ Ha). simpl.
    destruct (decide (x = b)) as [->|Hb].
    { rewrite (bool_decide_eq_true_2 (b = b)) by reflexivity.
      split; [|reflexivity]. intros _. exists a. right. apply in_or_app. right. left.
      reflexivity. }
    rewrite (bool_decide_eq_false_2 _ Hb). rewrite (Hflag x Hx).
    split; intros [y Hy]; exists y; rewrite !in_app_iff in *; simpl in *.
    + tauto.
    + destruct Hy as [[H|[H|[]]]|[H|[H|[]]]]; try tauto; injection H as ? ?; congruence.
Qed.

Lemma collidable_same (w w' : WasmWorld F) (id : N) :
  sameEntities w w' -> collidable w id -> collidable w' id.
Proof.
  intros S (m & Hm & HT & HC). exists m.
  rewrite (sameEntities_mask _ _ _ S). tauto.
Qed.

Lemma collideRow_detected (L : list N) (a : N) (rest : list N) (log : list (N * N))
    (w : WasmWorld F) :
  In a L -> ~ In a rest -> (forall b, In b rest -> In b L) ->
  (forall x, In x L -> collidable w x) ->
  readable w -> recorded L log w ->
  exists w', foldM (collidePair a) w rest = Some w'
             /\ sameEntities w w' /\ readable w'
             /\ recorded L (log ++ detectedRow a w rest) w'.
Proof.
  intros Ha. revert w log. induction rest as [|b rest IH]; intros w log Hna Hsub Hcol R J.
  - exists w. split; [reflexivity|]. split; [apply sameEntities_refl|].
    split; [exact R|]. cbn [detectedRow]. rewrite app_nil_r. exact J.
  - assert (Hab : a <> b) by (intros ->; apply Hna; left; reflexivity).
    assert (Hb : In b L) by (apply Hsub; left; reflexivity).
    destruct (Hcol a Ha) as (ma & Hma & HaT & HaC).
    destruct (Hcol b Hb) as (mb & Hmb & HbT & HbC).
    destruct (collidePair_overlapping w a b ma mb R Hab Hma Hmb HaT HaC HbT HbC)
      as (w1 & Hp & S1 & R1 & _ & E1).
    cbn [foldM detectedRow]. rewrite Hp.
    destruct (IH w1 (log ++ (if overlapping w a b then [(a, b)] else [])))
      as (w' & Hf & S' & R' & J').
    + intros Hin. apply Hna. right. exact Hin.
    + intros x Hx. apply Hsub. right. exact Hx.
    + intros x Hx. apply (collidable_same w w1 x S1), Hcol, Hx.
    + exact R1.
    + apply (recorded_step L log w w1 _ a b Hab E1 J).
    + exists w'. split; [exact Hf|]. split; [eapply sameEntities_trans; eassumption|].
      split; [exact R'|]. rewrite app_assoc. exact J'.
Qed.

Lemma collideAll_detected (L : list N) (rest : list N) (log : list (N * N))
    (w : WasmWorld F) :
  List.NoDup rest -> (forall b, In b rest -> In b L) ->
  (forall x, In x L -> collidable w x) ->
  readable w -> recorded L log w ->
  exists w', collideAll w rest = Some w'
             /\ sameEntities w w' /\ readable w'
             /\ recorded L (log ++ detectedAll w rest) w'.
Proof.
  revert w log. induction rest as [|a rest IH]; intros w log Hnd Hsub Hcol R J.
  - exists w. split; [reflexivity|]. split; [apply sameEntities_refl|].
    split; [exact R|]. cbn [detectedAll]. rewrite app_nil_r. exact J.
  - apply List.NoDup_cons_iff in Hnd as [Hna Hnd].
    destruct (collideRow_detected L a rest log w) as (w1 & Hf & S1 & R1 & J1);
      try assumption.
    { apply Hsub. left. reflexivity. }
    { intros b Hb. apply Hsub. right. exact Hb. }
    cbn [collideAll detectedAll]. rewrite Hf. cbn [mbind option_bind].
    destruct (IH w1 (log ++ detectedRow a w rest)) as (w' & Hc & S' & R' & J');
      try assumption.
    { intros b Hb. apply Hsub. right. exact Hb. }
    { intros x Hx. apply (collidable_same w w1 x S1), Hcol, Hx. }
    exists w'. split; [exact Hc|]. split; [eapply sameEntities_trans; eassumption|].
    split; [exact R'|]. rewrite app_assoc. exact J'.
Qed.

(** A detected pair is made of an entity and one that comes after it in
    the list. *)
Lemma detectedRow_members (a : N) (rest : list N) (w : WasmWorld F) (x y : N) :
  In (x, y) (detectedRow a w rest) -> x = a /\ In y rest.
Proof.
  revert w. induction rest as [|b rest IH]; intros w; cbn [detectedRow]; [intros []|].
  rewrite in_app_iff. intros [H|H].
  - destruct (overlapping w a b); [|destruct H]. destruct H as [H|[]].
    injection H as <- <-. split; [reflexivity | left; reflexivity].
  - destruct (collidePair a w b) as [w'|]; [|destruct H].
    destruct (IH w' H) as [-> Hy]. split; [reflexivity | right; exact Hy].
Qed.

Lemma detectedAll_members (l : list N) (w : WasmWorld F) (x y : N) :
  In (x, y) (detectedAll w l) -> In x l.
Proof.
  revert w. induction l as [|a rest IH]; intros w; cbn [detectedAll]; [intros []|].
  rewrite in_app_iff. intros [H|H].
  - left. symmetry. apply (detectedRow_members a rest w x y H).
  - destruct (foldM (collidePair a) w rest) as [w'|]; [|destruct H].
    right. apply (IH w' H).
Qed.

(** The pass as a whole: the lists and flags at its end are those of the
    detected pairs. *)
Lemma collisionSystem_detected (w : WasmWorld F) (dt : F) :
  wf_world w = true ->
  exists w', collisionSystem w dt = Some w' /\ sameEntities w w' /\ readable w'
             /\ recorded (getEntitiesWith w [KTransform; KCollision]) (detected w) w'
             /\ forall a b rest,
                  getEntitiesWith w [KTransform; KCollision] = a :: b :: rest ->
                  (In (a, b) (detected w) <-> overlapping w a b = true).
Proof.
  intros Hwf. apply wf_readable in Hwf. unfold collisionSystem, detected.
  set (L := getEntitiesWith w [KTransform; KCollision]).
  assert (Hnd : List.NoDup L) by apply NoDup_getEntitiesWith.
  assert (Hcol : forall x, In x L -> collidable w x).
  { intros x Hx.
    destruct (query_bit w _ x KTransform Hx) as (m & Hm & HT); [simpl; tauto|].
    destruct (query_bit w _ x KCollision Hx) as (m' & Hm' & HC); [simpl; tauto|].
    exists m. split; [exact Hm|]. split; [exact HT|]. congruence. }
  destruct (foldM_pointwise KCollision (resetC (F := F)) resetCollision L) with (w0 := w)
    as (w1 & Hf & S1 & R1 & L1).
  - intros c Hk. destruct c; try discriminate. reflexivity.
  - intros w1 id c S1 R1 Hin Hl Hk.
    destruct (collidable_same w w1 id S1 (Hcol id Hin)) as (m & Hm & _ & HC).
    destruct (getCollision_present w1 id m R1 Hm HC) as (cc & Hcc & Hg).
    unfold resetCollision. rewrite Hg. simpl.
    rewrite Hcc in Hl. injection Hl as <-. reflexivity.
  - exact Hnd.
  - exact Hwf.
  - intros id Hin. destruct (Hcol id Hin) as (m & Hm & _ & HC).
    destruct (getCollision_present w id m Hwf Hm HC) as (cc & Hcc & _).
    eexists. split; [exact Hcc | reflexivity].
  - rewrite Hf. cbn [mbind option_bind].
    assert (Hreset : forall x, In x L ->
              exists c, lookupComponent w KCollision x = Some (CollisionC c)
                /\ lookupComponent w1 KCollision x
                   = Some (CollisionC (mkCollision (radius c) false []))).
    { intros x Hx. destruct (Hcol x Hx) as (m & Hm & _ & HC).
      destruct (getCollision_present w x m Hwf Hm HC) as (cc & Hcc & _).
      exists cc. split; [exact Hcc|].
      rewrite L1, decide_True by (split; [reflexivity | apply list_elem_of_In, Hx]).
      rewrite Hcc. reflexivity. }
    assert (J1 : recorded L [] w1).
    { split.
      - intros x y Hx Hy. destruct (Hreset x Hx) as (c & _ & E).
        unfold listOf, collisionOf. rewrite E. simpl. tauto.
      - intros x Hx. destruct (Hreset x Hx) as (c & _ & E).
        unfold flagOf, collisionOf. rewrite E. simpl.
        split; [discriminate | intros [y [[]|[]]]]. }
    assert (Hcol1 : forall x, In x L -> collidable w1 x).
    { intros x Hx. apply (collidable_same w w1 x S1), Hcol, Hx. }
    destruct (collideAll_detected L L [] w1) as (w' & Hc & S' & R' & J'); try assumption.
    { auto. }
    exists w'. split; [exact Hc|]. split; [eapply sameEntities_trans; eassumption|].
    split; [exact R'|]. split; [exact J'|].
    intros a b rest HL.
    assert (Ha : In a L) by (rewrite HL; left; reflexivity).
    assert (Hb : In b L) by (rewrite HL; right; left; reflexivity).
    assert (Hov : overlapping w1 a b = overlapping w a b).
    { destruct (Hcol a Ha) as (ma & Hma & HaT & HaC).
      destruct (Hcol b Hb) as (mb & Hmb & HbT & HbC).
      destruct (Hcol1 a Ha) as (ma1 & Hma1 & HaT1 & HaC1).
      destruct (Hcol1 b Hb) as (mb1 & Hmb1 & HbT1 & HbC1).
      destruct (getTransform_present w a ma Hwf Hma HaT) as (tA & HtA & HgtA).
      destruct (getTransform_present w b mb Hwf Hmb HbT) as (tB & HtB & HgtB).
      destruct (getCollision_present w a ma Hwf Hma HaC) as (cA & HcA & HgcA).
      destruct (getCollision_present w b mb Hwf Hmb HbC) as (cB & HcB & HgcB).
      destruct (getTransform_present w1 a ma1 R1 Hma1 HaT1) as (tA1 & HtA1 & HgtA1).
      destruct (getTransform_present w1 b mb1 R1 Hmb1 HbT1) as (tB1 & HtB1 & HgtB1).
      destruct (getCollision_present w1 a ma1 R1 Hma1 HaC1) as (cA1 & HcA1 & HgcA1).
      destruct (getCollision_present w1 b mb1 R1 Hmb1 HbC1) as (cB1 & HcB1 & HgcB1).
      rewrite L1, decide_False in HtA1 by (intros [E _]; discriminate).
      rewrite L1, decide_False in HtB1 by (intros [E _]; discriminate).
      destruct (Hreset a Ha) as (ca & Hca & Hca1).
      destruct (Hreset b Hb) as (cb & Hcb & Hcb1).
      assert (tA1 = tA) by congruence. assert (tB1 = tB) by congruence.
      assert (ca = cA) by congruence. assert (cb = cB) by congruence.
      subst tA1 tB1 ca cb.
      assert (EA : cA1 = mkCollision (radius cA) false []) by congruence.
      assert (EB : cB1 = mkCollision (radius cB) false []) by congruence.
      unfold overlapping. rewrite HgtA, HgtB, HgcA, HgcB, HgtA1, HgtB1, HgcA1, HgcB1.
      rewrite EA, EB. reflexivity. }
    fold L in HL. rewrite <- Hov, HL.
    change (detectedAll w1 (a :: b :: rest))
      with (((if overlapping w1 a b then [(a, b)] else [])
             ++ match collidePair a w1 b with
                | Some w' => detectedRow a w' rest
                | None => []
                end)
            ++ match foldM (collidePair a) w1 (b :: rest) with
               | Some w' => detectedAll w' (b :: rest)
               | None => []
               end).
    rewrite !in_app_iff.
    rewrite HL in Hnd.
    apply List.NoDup_cons_iff in Hnd as [Hna Hnd2].
    apply List.NoDup_cons_iff in Hnd2 as [Hnb _].
    split.
    + intros [[H|H]|H].
      * destruct (overlapping w1 a b); [reflexivity | destruct H].
      * destruct (collidePair a w1 b) as [w2|]; [|destruct H].
        apply detectedRow_members in H as [_ H]. contradiction.
      * destruct (foldM (collidePair a) w1 (b :: rest)) as [w2|]; [|destruct H].
        apply detectedAll_members in H. contradiction.
    + intros ->. left. left. left. reflexivity.
Qed.

(** C8. A pass of the collision system over a well-formed world ends.  At
    its end, for any two entities [i], [j] that carry a Transform and a
    Collision component: [j] is in the colliding-with list of [i] exactly
    when [i] is in that of [j], and exactly when the pass has detected the
    pair, that is, when the test distanceSquared < minDistanceSquared
    succeeded for it; then both colliding flags are set, and a flag is set
    only for a member of a detected pair.  For the first pair of the pass
    the test is the one on the positions and radii before the pass. *)
Theorem collision_lists_are_symmetric (w : WasmWorld F) (dt : F) :
  wf_world w = true ->
  exists w', collisionSystem w dt = Some w'
    /\ (forall i j,
         hasComponent w KTransform i = true -> hasComponent w KCollision i = true ->
         hasComponent w KTransform j = true -> hasComponent w KCollision j = true ->
         exists ci cj, getCollision w' i = Some ci /\ getCollision w' j = Some cj
           /\ (In j (collidingWith ci) <-> In i (collidingWith cj))
           /\ (In j (collidingWith ci) <-> In (i, j) (detected w) \/ In (j, i) (detected w))
           /\ (In j (collidingWith ci) -> colliding ci = true /\ colliding cj = true)
           /\ (colliding ci = true <->
               exists k, In (i, k) (detected w) \/ In (k, i) (detected w)))
    /\ (forall a b rest,
          getEntitiesWith w [KTransform; KCollision] = a :: b :: rest ->
          (In (a, b) (detected w) <-> overlapping w a b = true)).
Proof.
  intros Hwf.
  destruct (collisionSystem_detected w dt Hwf) as (w' & Hc & S' & R' & [Jlist Jflag] & Hfirst).
  exists w'. split; [exact Hc|]. split; [|exact Hfirst]. intros i j HiT HiC HjT HjC.
  assert (Hl : length (m_entities w) = length (m_entityMasks w))
    by (apply wf_readable in Hwf; apply Hwf).
  assert (Hin : forall x, hasComponent w KTransform x = true ->
                          hasComponent w KCollision x = true ->
                          In x (getEntitiesWith w [KTransform; KCollision])).
  { intros x HT HC. apply getEntitiesWith_hasComponent; [exact Hl | congruence |].
    intros k [<-|[<-|[]]]; assumption. }
  assert (Hget : forall x, hasComponent w KCollision x = true ->
            exists c, getCollision w' x = Some c /\ listOf w' x = collidingWith c
                      /\ flagOf w' x = colliding c).
  { intros x HC. rewrite <- (sameEntities_hasComponent _ _ _ _ S') in HC.
    destruct (hasComponent_bit w' KCollision x HC) as (m & Hm & Hb).
    destruct (getCollision_present w' x m R' Hm Hb) as (c & Hlook & Hg).
    exists c. split; [exact Hg|]. unfold listOf, flagOf, collisionOf. rewrite Hlook. tauto. }
  destruct (Hget i HiC) as (ci & Hgi & Hli & Hfi).
  destruct (Hget j HjC) as (cj & Hgj & Hlj & Hfj).
  exists ci, cj. split; [exact Hgi|]. split; [exact Hgj|].
  rewrite <- Hli, <- Hlj, <- Hfi, <- Hfj.
  assert (Hi := Hin i HiT HiC). assert (Hj := Hin j HjT HjC).
  split; [rewrite (Jlist i j Hi Hj), (Jlist j i Hj Hi); tauto|].
  split; [apply (Jlist i j Hi Hj)|].
  split; [|apply (Jflag i Hi)].
  intros Hji. apply (Jlist i j Hi Hj) in Hji. split.
  - apply (Jflag i Hi). exists j. exact Hji.
  - apply (Jflag j Hj). exists i. tauto.
Qed.

End Collision.

(** ** Connection keys *)

Lemma pretty_N_char_digit (x : N) : pretty_N_char x <> "_"%char.
Proof. unfold pretty_N_char. repeat case_match; discriminate. Qed.

Lemma pretty_N_go_no_underscore (x : N) (s : string) :
  ~ hasChar "_" s -> ~ hasChar "_" (pretty_N_go x s).
Proof.
  revert s. induction (N.lt_wf_0 x) as [x _ IH]; intros s Hs.
  destruct (N.eq_dec x 0) as [->|Hx].
  - rewrite pretty_N_go_0. exact Hs.
  - rewrite pretty_N_go_step by lia. apply IH.
    + apply N.div_lt; lia.
    + simpl. intros [E|E]; [exact (pretty_N_char_digit _ E) | exact (Hs E)].
Qed.

Lemma pretty_N_no_underscore (x : N) : ~ hasChar "_" (pretty x).
Proof.
  unfold pretty, pretty_N. case_decide.
  - simpl. intros [E|[]]. discriminate E.
  - apply pretty_N_go_no_underscore. simpl. tauto.
Qed.

Lemma append_underscore_inj (s1 s2 t1 t2 : string) :
  ~ hasChar "_" s1 -> ~ hasChar "_" s2 ->
  s1 +:+ "_" +:+ t1 = s2 +:+ "_" +:+ t2 -> s1 = s2 /\ t1 = t2.
Proof.
  revert s2. induction s1 as [|a s1 IH]; intros [|b s2] H1 H2 E; simpl in *.
  - injection E as E. split; [reflexivity | exact E].
  - injection E as E _. exfalso. apply H2. left. symmetry. exact E.
  - injection E as E _. exfalso. apply H1. left. exact E.
  - injection E as Eh E. destruct (IH s2) as [E1 E2]; [tauto | tauto | exact E|].
    split; [f_equal; assumption | exact E2].
Qed.

Lemma connectionKey_inj (r1 l1 r2 l2 : N) :
  connectionKey r1 l1 = connectionKey r2 l2 -> r1 = r2 /\ l1 = l2.
Proof.
  unfold connectionKey. intros E.
  apply append_underscore_inj in E as [E1 E2]; try apply pretty_N_no_underscore.
  split; apply (inj pretty); assumption.
Qed.

(** ** Connecting two segments *)

Section Connect.
Context {F : Type} {fl : FloatOps F}.

Lemma defineConnectionIn_at (net : WasmRoadNetwork F) (i : N) (x : WasmIntersection F)
    (r1 l1 r2 l2 : N) :
  m_intersections net !! i = Some x ->
  defineConnectionIn net i r1 l1 r2 l2
  = mkNetwork (m_roadSegments net)
              (<[i := defineConnection x r1 l1 r2 l2]> (m_intersections net))
              (m_nextRoadId net) (m_nextIntersectionId net).
Proof.
  intros Hx. unfold defineConnectionIn. f_equal.
  apply map_eq. intros j. rewrite lookup_alter, lookup_insert.
  case_decide; subst; [rewrite Hx|]; reflexivity.
Qed.

End Connect.

Section ConnectProof.
Context {F : Type} {fl : FloatOps F}.

Lemma connectLanes_fold (net : WasmRoadNetwork F) (i r1 r2 : N) (l1 l2 : list N)
    (x : WasmIntersection F) :
  m_intersections net !! i = Some x ->
  foldl (fun net lane1 =>
           foldl (fun net lane2 =>
                    let net := defineConnectionIn net i r1 lane1 r2 lane2 in
                    defineConnectionIn net i r2 lane2 r1 lane1) net l2) net l1
  = mkNetwork (m_roadSegments net)
              (<[i := connectLanes x r1 r2 l1 l2]> (m_intersections net))
              (m_nextRoadId net) (m_nextIntersectionId net).
Proof.
  assert (Inner : forall lane1 l2 (net : WasmRoadNetwork F) x,
    m_intersections net !! i = Some x ->
    foldl (fun net lane2 =>
             let net := defineConnectionIn net i r1 lane1 r2 lane2 in
             defineConnectionIn net i r2 lane2 r1 lane1) net l2
    = mkNetwork (m_roadSegments net)
        (<[i := foldl (fun x lane2 =>
                         defineConnection (defineConnection x r1 lane1 r2 lane2)
                                          r2 lane2 r1 lane1) x l2]> (m_intersections net))
        (m_nextRoadId net) (m_nextIntersectionId net)).
  { intros lane1 l. induction l as [|lane2 l IH]; intros n y Hy; cbn [foldl].
    - destruct n; simpl in *. f_equal. symmetry. apply insert_id. exact Hy.
    - cbv zeta. rewrite (defineConnectionIn_at n i y _ _ _ _ Hy).
      erewrite defineConnectionIn_at by (simpl; apply lookup_insert_eq).
      erewrite IH by (simpl; apply lookup_insert_eq). simpl.
      rewrite !insert_insert_eq. reflexivity. }
  cbv zeta in Inner |- *. revert net x. unfold connectLanes.
  induction l1 as [|lane1 l1 IH]; intros net x Hx; cbn [foldl].
  - destruct net; simpl in *. f_equal. symmetry. apply insert_id. exact Hx.
  - rewrite (Inner lane1 l2 net x Hx).
    erewrite IH by (simpl; apply lookup_insert_eq). simpl.
    rewrite insert_insert_eq. reflexivity.
Qed.

(** C6. Connecting a segment [A] with two lanes and a segment [B] with
    three: the new intersection sits at the midpoint of the chosen
    endpoints, lists both segments, each segment records it at the chosen
    end, and its connection table holds, for each of the two lanes of [A],
    the three lanes of [B] (6 entries) and, for each of the three lanes of
    [B], the two lanes of [A] (6 entries), under five keys and no other. *)
Theorem connectWithIntersection_two_and_three_lanes
    (net : WasmRoadNetwork F) (A B : N) (endA endB : bool) (sa sb : WasmRoadSegment F) :
  getRoadSegment net A = Some sa -> getRoadSegment net B = Some sb ->
  getLaneCount sa = 2 -> getLaneCount sb = 3 ->
  let r := connectWithIntersection net A endA B endB in
  exists x,
    r.1 = m_nextIntersectionId net
    /\ getIntersection r.2 r.1 = Some x
    /\ m_position x
       = mkVec (fdiv (fadd (vx (endpoint sa endA)) (vx (endpoint sb endB))) (f_lit 2 1))
               (fdiv (fadd (vy (endpoint sa endA)) (vy (endpoint sb endB))) (f_lit 2 1))
    /\ m_connectedRoads x = [A; B]
    /\ getRoadSegment r.2 A = Some (attach sa endA r.1)
    /\ getRoadSegment r.2 B = Some (attach sb endB r.1)
    /\ m_connections x
       = list_to_map
           [(connectionKey A 0, [mkConnection B 0; mkConnection B 1; mkConnection B 2]);
            (connectionKey A 1, [mkConnection B 0; mkConnection B 1; mkConnection B 2]);
            (connectionKey B 0, [mkConnection A 0; mkConnection A 1]);
            (connectionKey B 1, [mkConnection A 0; mkConnection A 1]);
            (connectionKey B 2, [mkConnection A 0; mkConnection A 1])]
    /\ size (m_connections x) = 5%nat
    /\ connectionsFrom x A 2 = 6%nat
    /\ connectionsFrom x B 3 = 6%nat.
Proof.
  intros HA HB LA LB r.
  assert (HAB : A <> B) by (intros ->; rewrite HA in HB; injection HB as ->; lia).
  set (i := m_nextIntersectionId net).
  set (mid := mkVec (fdiv (fadd (vx (endpoint sa endA)) (vx (endpoint sb endB))) (f_lit 2 1))
                    (fdiv (fadd (vy (endpoint sa endA)) (vy (endpoint sb endB))) (f_lit 2 1))).
  set (x0 := mkIntersection i mid [A; B] (∅ : gmap string (list WasmLaneConnection))).
  set (net3 := connectRoad (connectRoad (createIntersection net (vx mid) (vy mid)).2
                                        i A (negb endA)) i B (negb endB)).
  assert (Hx0 : m_intersections net3 !! i = Some x0).
  { unfold net3, connectRoad, createIntersection. simpl.
    rewrite !lookup_alter, !decide_True by reflexivity. fold i.
    rewrite lookup_insert_eq. reflexivity. }
  assert (Er : r = (i, mkNetwork (m_roadSegments net3)
                        (<[i := connectLanes x0 A B [0; 1] [0; 1; 2]]> (m_intersections net3))
                        (m_nextRoadId net3) (m_nextIntersectionId net3))).
  { unfold r, connectWithIntersection. rewrite HA, HB, LA, LB.
    change (idsBelow 2) with [0; 1]. change (idsBelow 3) with [0; 1; 2].
    cbv zeta. change (createIntersection net _ _) with (i, (createIntersection net (vx mid) (vy mid)).2).
    cbv iota beta. fold net3. rewrite (connectLanes_fold net3 i A B _ _ x0 Hx0). reflexivity. }
  assert (K : forall r1 l1 r2 l2, (r1, l1) <> (r2, l2) ->
                connectionKey r1 l1 <> connectionKey r2 l2).
  { intros r1 l1 r2 l2 Hne E. apply connectionKey_inj in E as [-> ->]. congruence. }
  assert (HsegA : m_roadSegments net3 !! A = Some (attach sa endA i)).
  { unfold net3, connectRoad, createIntersection. simpl.
    rewrite lookup_alter, decide_False by congruence.
    rewrite lookup_alter, decide_True by reflexivity.
    unfold getRoadSegment in HA. rewrite HA. simpl. unfold attach.
    destruct endA; reflexivity. }
  assert (HsegB : m_roadSegments net3 !! B = Some (attach sb endB i)).
  { unfold net3, connectRoad, createIntersection. simpl.
    rewrite lookup_alter, decide_True by reflexivity.
    rewrite lookup_alter, decide_False by congruence.
    unfold getRoadSegment in HB. rewrite HB. simpl. unfold attach.
    destruct endB; reflexivity. }
  set (x := connectLanes x0 A B [0; 1] [0; 1; 2]) in *.
  assert (Hpos : m_position x = mid) by reflexivity.
  assert (Hroads : m_connectedRoads x = [A; B]) by reflexivity.
  assert (Hlook : forall k, m_connections x !! k =
     (list_to_map
           [(connectionKey A 0, [mkConnection B 0; mkConnection B 1; mkConnection B 2]);
            (connectionKey A 1, [mkConnection B 0; mkConnection B 1; mkConnection B 2]);
            (connectionKey B 0, [mkConnection A 0; mkConnection A 1]);
            (connectionKey B 1, [mkConnection A 0; mkConnection A 1]);
            (connectionKey B 2, [mkConnection A 0; mkConnection A 1])]
        : gmap string (list WasmLaneConnection)) !! k).
  { intros k. unfold x, connectLanes, defineConnection, x0.
    cbn [foldl m_connections m_position m_connectedRoads intersection_m_id].
    assert (KA01 := K A 0 A 1). assert (KAB00 := K A 0 B 0). assert (KAB01 := K A 0 B 1).
    assert (KAB02 := K A 0 B 2). assert (KAB10 := K A 1 B 0). assert (KAB11 := K A 1 B 1).
    assert (KAB12 := K A 1 B 2). assert (KB01 := K B 0 B 1). assert (KB02 := K B 0 B 2).
    assert (KB12 := K B 1 B 2).
    generalize dependent (connectionKey A 0). intros kA0.
    generalize dependent (connectionKey A 1). intros kA1.
    generalize dependent (connectionKey B 0). intros kB0.
    generalize dependent (connectionKey B 1). intros kB1.
    generalize dependent (connectionKey B 2). intros kB2. intros.
    assert (kA0 <> kA1) by (apply KA01; congruence).
    assert (kA0 <> kB0) by (apply KAB00; congruence).
    assert (kA0 <> kB1) by (apply KAB01; congruence).
    assert (kA0 <> kB2) by (apply KAB02; congruence).
    assert (kA1 <> kB0) by (apply KAB10; congruence).
    assert (kA1 <> kB1) by (apply KAB11; congruence).
    assert (kA1 <> kB2) by (apply KAB12; congruence).
    assert (kB0 <> kB1) by (apply KB01; congruence).
    assert (kB0 <> kB2) by (apply KB02; congruence).
    assert (kB1 <> kB2) by (apply KB12; congruence).
    clear KA01 KAB00 KAB01 KAB02 KAB10 KAB11 KAB12 KB01 KB02 KB12.
    unfold list_to_map. cbn [foldr fst snd curry uncurry].
    repeat first [rewrite lookup_insert_eq | rewrite lookup_insert_ne by congruence
                 | rewrite lookup_empty | progress cbn [default app]].
    destruct (decide (k = kA0)) as [->|];
      [repeat first [rewrite lookup_insert_eq | rewrite lookup_insert_ne by congruence];
       reflexivity|].
    destruct (decide (k = kA1)) as [->|];
      [repeat first [rewrite lookup_insert_eq | rewrite lookup_insert_ne by congruence];
       reflexivity|].
    destruct (decide (k = kB0)) as [->|];
      [repeat first [rewrite lookup_insert_eq | rewrite lookup_insert_ne by congruence];
       reflexivity|].
    destruct (decide (k = kB1)) as [->|];
      [repeat first [rewrite lookup_insert_eq | rewrite lookup_insert_ne by congruence];
       reflexivity|].
    destruct (decide (k = kB2)) as [->|];
      [repeat first [rewrite lookup_insert_eq | rewrite lookup_insert_ne by congruence];
       reflexivity|].
    repeat (rewrite lookup_insert_ne by congruence). reflexivity. }
  assert (Hmap := map_eq _ _ Hlook). clearbody x.
  exists x. rewrite Er. cbn [fst snd].
  split; [reflexivity|]. split; [unfold getIntersection; simpl; apply lookup_insert_eq|].
  split; [exact Hpos|]. split; [exact Hroads|].
  split; [exact HsegA|]. split; [exact HsegB|]. split; [exact Hmap|].
  assert (KK : NoDup [connectionKey A 0; connectionKey A 1; connectionKey B 0;
                      connectionKey B 1; connectionKey B 2]).
  { repeat (apply NoDup_cons; split;
            [rewrite ?elem_of_cons, elem_of_nil;
             intros Hin; repeat destruct Hin as [Hin|Hin];
             try (apply connectionKey_inj in Hin as [? ?]; congruence); exact Hin|]).
    apply NoDup_nil. trivial. }
  split.
  - rewrite Hmap. rewrite map_size_list_to_map; [reflexivity | exact KK].
  - unfold connectionsFrom. change (idsBelow 2) with [0; 1].
    change (idsBelow 3) with [0; 1; 2]. simpl. rewrite !Hlook.
    pose proof (K A 0 A 1 ltac:(congruence)). pose proof (K A 0 B 0 ltac:(congruence)).
    pose proof (K A 0 B 1 ltac:(congruence)). pose proof (K A 0 B 2 ltac:(congruence)).
    pose proof (K A 1 B 0 ltac:(congruence)). pose proof (K A 1 B 1 ltac:(congruence)).
    pose proof (K A 1 B 2 ltac:(congruence)). pose proof (K B 0 B 1 ltac:(congruence)).
    pose proof (K B 0 B 2 ltac:(congruence)). pose proof (K B 1 B 2 ltac:(congruence)).
    unfold list_to_map. cbn [foldr fst snd curry uncurry fmap list_fmap].
    repeat first [rewrite lookup_insert_eq | rewrite lookup_insert_ne by congruence].
    split; reflexivity.
Qed.

End ConnectProof.

(** ** The order of single-precision numbers

    [SFltb] compares sign, exponent and mantissa in turn: a strict order
    on the numbers, in which a NaN is not related to anything. *)

Section SinglePrecision.

Lemma SFltb_irrefl (x : spec_float) : SFltb x x = false.
Proof.
  unfold SFltb, SFcompare. destruct x as [[]|[]| |[] m e]; try reflexivity;
    rewrite Z.compare_refl, Pos.compare_cont_refl; reflexivity.
Qed.

Lemma SFltb_trans (x y z : spec_float) :
  SFltb x y = true -> SFltb y z = true -> SFltb x z = true.
Proof.
  unfold SFltb, SFcompare.
  destruct x as [[]|[]| |[] mx ex], y as [[]|[]| |[] my ey], z as [[]|[]| |[] mz ez];
    try reflexivity; try discriminate;
    change (Pos.compare_cont Eq mx my) with (mx ?= my)%positive;
    change (Pos.compare_cont Eq my mz) with (my ?= mz)%positive;
    change (Pos.compare_cont Eq mx mz) with (mx ?= mz)%positive;
    destruct (Z.compare_spec ex ey), (Z.compare_spec ey ez), (Z.compare_spec ex ez);
    try lia; try reflexivity; try discriminate;
    destruct (Pos.compare_spec mx my), (Pos.compare_spec my mz), (Pos.compare_spec mx mz);
    try lia; try reflexivity; try discriminate.
Qed.

Lemma SFltb_asym (x y : spec_float) : SFltb x y = true -> SFltb y x = false.
Proof.
  intros H. destruct (SFltb y x) eqn:E; [|reflexivity].
  rewrite <- (SFltb_irrefl x). symmetry. exact (SFltb_trans x y x H E).
Qed.

(** A number equals itself; a NaN does not. *)
Lemma SFeqb_refl (x : spec_float) : x <> S754_nan -> SFeqb x x = true.
Proof.
  unfold SFeqb, SFcompare. destruct x as [[]|[]| |[] m e]; try reflexivity; try congruence;
    intros _; rewrite Z.compare_refl, Pos.compare_cont_refl; reflexivity.
Qed.

(** A finite number divided by itself is exactly 1. *)
Lemma SFdiv_same (s : bool) (m : positive) (e : Z) :
  SFdiv Binary32.prec Binary32.emax (S754_finite s m e) (S754_finite s m e)
  = Binary32.of_Z 1.
Proof.
  unfold SFdiv, SFdiv_core_binary.
  replace (Zdigits2 (Z.pos m) + e - (Zdigits2 (Z.pos m) + e))%Z with 0%Z by lia.
  rewrite Z.sub_diag.
  change (Z.min (fexp Binary32.prec Binary32.emax 0) 0) with (-24)%Z.
  change (0 - -24)%Z with 24%Z. cbv iota.
  rewrite Z.shiftl_mul_pow2 by lia.
  destruct (Z.div_eucl (Z.pos m * 2 ^ 24) (Z.pos m)) as [q r] eqn:E.
  assert (Hq : q = (2 ^ 24)%Z).
  { replace q with ((Z.pos m * 2 ^ 24) / Z.pos m)%Z by (unfold Z.div; rewrite E; reflexivity).
    rewrite Z.mul_comm. apply Z.div_mul. lia. }
  assert (Hr : r = 0%Z).
  { replace r with ((Z.pos m * 2 ^ 24) mod Z.pos m)%Z
      by (unfold Z.modulo; rewrite E; reflexivity).
    rewrite Z.mul_comm. apply Z.mod_mul. lia. }
  subst q r.
  assert (Hloc : new_location (Z.pos m) 0 = loc_Exact).
  { unfold new_location, new_location_even, new_location_odd.
    destruct (Z.even (Z.pos m)); reflexivity. }
  rewrite Hloc. destruct s; vm_compute; reflexivity.
Qed.

Lemma mul_pow2_23 (m : positive) : Pos.mul 8388608 m = Pos.iter xO m 23.
Proof. reflexivity. Qed.

Lemma digits2_shift (m : positive) :
  Z.pos (digits2_pos (Pos.mul 8388608 m)) = (Z.pos (digits2_pos m) + 23)%Z.
Proof.
  assert (Hd : forall p, Z.pos (digits2_pos (xO p)) = (Z.pos (digits2_pos p) + 1)%Z).
  { intros p. cbn [digits2_pos]. lia. }
  rewrite mul_pow2_23. cbv [Pos.iter]. rewrite !Hd. lia.
Qed.

(** A valid number multiplied by 1 is that number. *)
Lemma SFmul_one (x : spec_float) :
  valid_binary Binary32.prec Binary32.emax x = true ->
  SFmul Binary32.prec Binary32.emax x (Binary32.of_Z 1) = x.
Proof.
  change (Binary32.of_Z 1) with (S754_finite false 8388608 (-23)).
  unfold Binary32.prec, Binary32.emax.
  destruct x as [[]|[]| |s m e]; try reflexivity. cbn [valid_binary].
  unfold bounded, canonical_mantissa. intros H. apply andb_true_iff in H as [Hc Hb].
  apply Z.eqb_eq in Hc. apply Z.leb_le in Hb.
  cbn [SFmul]. rewrite xorb_false_r. rewrite (Pos.mul_comm m).
  unfold binary_round_aux, shr_fexp. cbn [Zdigits2].
  rewrite digits2_shift.
  replace (Z.pos (digits2_pos m) + 23 + (e + -23))%Z with (Z.pos (digits2_pos m) + e)%Z
    by lia.
  rewrite Hc. replace (e - (e + -23))%Z with 23%Z by lia.
  rewrite mul_pow2_23. cbv [Pos.iter].
  cbn [shr shr_record_of_loc SpecFloat.iter_pos shr_1 orb].
  replace (e + -23 + 23)%Z with e by lia.
  cbn [shr_m loc_of_shr_record round_nearest_even Zdigits2].
  rewrite Hc, Z.sub_diag. cbn [shr shr_m shr_record_of_loc].
  apply Z.leb_le in Hb. rewrite Hb. reflexivity.
Qed.

End SinglePrecision.

(** ** Rounding to single precision

    [binary_round_aux] shifts a mantissa to the right bit by bit and keeps
    a round bit and a sticky bit.  The lemmas below describe the shift by
    a quotient, a remainder and the position of the remainder in its unit,
    give every valid number an integer value in units of [2 ^ E0], and show
    that the rounded result of an operation does not decrease when the
    exact result grows. *)

Section Rounding.
Local Open Scope Z_scope.
Ltac div_lia := Z.div_mod_to_equations; lia.

Lemma iter_pos_nat {A : Type} (f : A -> A) (p : positive) (x : A) :
  SpecFloat.iter_pos f p x = Nat.iter (Pos.to_nat p) f x.
Proof.
  revert x. induction p as [p IH|p IH|]; intros x; cbn [SpecFloat.iter_pos].
  - rewrite !IH. rewrite Pos2Nat.inj_xI.
    replace (S (2 * Pos.to_nat p))%nat with (Pos.to_nat p + S (Pos.to_nat p))%nat by lia.
    rewrite Nat.iter_add. f_equal. symmetry. apply Nat.iter_succ_r.
  - rewrite !IH. rewrite Pos2Nat.inj_xO.
    replace (2 * Pos.to_nat p)%nat with (Pos.to_nat p + Pos.to_nat p)%nat by lia.
    rewrite Nat.iter_add. reflexivity.
  - reflexivity.
Qed.

Lemma shr_1_spec (m : Z) (r s : bool) :
  0 <= m ->
  shr_1 {| shr_m := m; shr_r := r; shr_s := s |}
  = {| shr_m := m / 2; shr_r := Z.odd m; shr_s := r || s |}.
Proof.
  intros Hm. destruct m as [|p|p]; [reflexivity | | lia].
  destruct p as [p|p|]; cbn [shr_1 Z.odd].
  - replace (Z.pos p~1 / 2) with (Z.pos p) by (change (Z.pos p~1) with (2 * Z.pos p + 1); div_lia). reflexivity.
  - replace (Z.pos p~0 / 2) with (Z.pos p) by (change (Z.pos p~0) with (2 * Z.pos p); div_lia). reflexivity.
  - reflexivity.
Qed.

Lemma shr_record_of_loc_rs (m : Z) (l : location) :
  shr_record_of_loc m l
  = {| shr_m := m;
       shr_r := (loc_rank l =? 2) || (loc_rank l =? 3);
       shr_s := (loc_rank l =? 1) || (loc_rank l =? 3) |}.
Proof. destruct l as [|[]]; reflexivity. Qed.

(** One shift. *)
Lemma shr_1_loc (m : Z) (l : location) :
  0 <= m ->
  shr_1 (shr_record_of_loc m l) = shr_record_of_loc (m / 2) (shr_loc 1 (m mod 2) l).
Proof.
  intros Hm. rewrite shr_record_of_loc_rs, (shr_1_spec _ _ _ Hm).
  rewrite Zodd_mod. unfold shr_loc.
  assert (H2 : m mod 2 = 0 \/ m mod 2 = 1) by div_lia.
  destruct H2 as [-> | ->]; destruct l as [|[]]; reflexivity.
Qed.

(** Shifts compose. *)
Lemma shr_loc_succ (k m : Z) (l : location) :
  1 <= k -> 0 <= m ->
  shr_loc 1 ((m / 2 ^ k) mod 2) (shr_loc k (m mod 2 ^ k) l)
  = shr_loc (k + 1) (m mod 2 ^ (k + 1)) l.
Proof.
  intros Hk Hm.
  assert (Hp : 0 < 2 ^ k) by (apply Z.pow_pos_nonneg; lia).
  assert (Hpow : 2 ^ (k + 1) = 2 * 2 ^ k) by (rewrite Z.pow_add_r by lia; lia).
  assert (Hr0 : 0 <= m mod 2 ^ k < 2 ^ k) by (apply Z.mod_pos_bound; lia).
  assert (Hb : (m / 2 ^ k) mod 2 = 0 \/ (m / 2 ^ k) mod 2 = 1) by div_lia.
  assert (Hr : m mod 2 ^ (k + 1) = (m / 2 ^ k) mod 2 * 2 ^ k + m mod 2 ^ k).
  { rewrite Hpow. rewrite Z.mul_comm. rewrite Z.rem_mul_r by lia. lia. }
  rewrite Hr. set (r0 := m mod 2 ^ k) in *. unfold shr_loc at 2 3.
  destruct Hb as [-> | ->].
  - rewrite Z.mul_0_l, Z.add_0_l.
    destruct ((r0 =? 0) && (loc_rank l =? 0)) eqn:E.
    + reflexivity.
    + assert (Hlt : 2 * r0 < 2 ^ (k + 1)) by lia.
      rewrite (proj2 (Z.compare_lt_iff _ _) Hlt).
      unfold shr_loc. cbn [Z.eqb andb].
      destruct (2 * r0 ?= 2 ^ k); [destruct (loc_rank l =? 0)| |]; reflexivity.
  - rewrite Z.mul_1_l.
    assert (Hne : (2 ^ k + r0 =? 0) = false) by (apply Z.eqb_neq; lia).
    rewrite Hne. cbn [andb].
    destruct (Z.eq_dec r0 0) as [E0|E0].
    + rewrite E0, Z.add_0_r. rewrite <- Hpow, Z.compare_refl.
      rewrite Z.eqb_refl. cbn [andb].
      destruct (loc_rank l =? 0) eqn:El.
      * reflexivity.
      * assert (Hlt : 2 * 0 < 2 ^ k) by lia.
        rewrite (proj2 (Z.compare_lt_iff _ _) Hlt). reflexivity.
    + assert (Hgt : 2 ^ (k + 1) < 2 * (2 ^ k + r0)) by lia.
      rewrite (proj2 (Z.compare_gt_iff _ _) Hgt).
      rewrite (proj2 (Z.eqb_neq r0 0) E0). cbn [andb].
      destruct (2 * r0 ?= 2 ^ k); [destruct (loc_rank l =? 0)| |]; reflexivity.
Qed.

(** [k] shifts, [k >= 1]. *)
Lemma shr_iter_loc (k : nat) (m : Z) (l : location) :
  0 <= m ->
  Nat.iter (S k) shr_1 (shr_record_of_loc m l)
  = shr_record_of_loc (m / 2 ^ Z.of_nat (S k))
                      (shr_loc (Z.of_nat (S k)) (m mod 2 ^ Z.of_nat (S k)) l).
Proof.
  intros Hm. induction k as [|k IH].
  - cbn [Nat.iter]. change (2 ^ Z.of_nat 1) with 2. apply shr_1_loc, Hm.
  - rewrite Nat.iter_succ, IH.
    assert (Hq : 0 <= m / 2 ^ Z.of_nat (S k)) by (apply Z.div_pos; lia).
    rewrite (shr_1_loc _ _ Hq).
    replace (Z.of_nat (S (S k))) with (Z.of_nat (S k) + 1) by lia.
    rewrite <- (shr_loc_succ (Z.of_nat (S k)) m l) by lia.
    f_equal. rewrite Z.pow_add_r by lia. rewrite Z.div_div by lia. reflexivity.
Qed.

Lemma shr_pos_loc (p : positive) (m e : Z) (l : location) :
  0 <= m ->
  shr (shr_record_of_loc m l) e (Z.pos p)
  = (shr_record_of_loc (m / 2 ^ Z.pos p) (shr_loc (Z.pos p) (m mod 2 ^ Z.pos p) l),
     e + Z.pos p).
Proof.
  intros Hm. cbn [shr]. rewrite iter_pos_nat.
  destruct (Pos2Nat.is_succ p) as [k Hk]. rewrite Hk, (shr_iter_loc k m l Hm).
  rewrite <- Hk, positive_nat_Z. reflexivity.
Qed.

End Rounding.

(** *** The number of binary digits *)

Section Digits.
Local Open Scope Z_scope.
Ltac div_lia := Z.div_mod_to_equations; lia.

Lemma pow2_pos (k : Z) : 0 <= k -> 0 < 2 ^ k.
Proof. intros Hk. apply Z.pow_pos_nonneg; lia. Qed.

Lemma pow2_le (a b : Z) : 0 <= a <= b -> 2 ^ a <= 2 ^ b.
Proof. intros H. apply Z.pow_le_mono_r; lia. Qed.

Lemma pow2_lt (a b : Z) : 0 <= a < b -> 2 ^ a < 2 ^ b.
Proof. intros H. apply Z.pow_lt_mono_r; lia. Qed.

Lemma pow2_succ (k : Z) : 0 <= k -> 2 ^ (k + 1) = 2 * 2 ^ k.
Proof. intros Hk. rewrite Z.pow_add_r by lia. lia. Qed.

(** The number of binary digits. *)
Lemma digits2_bounds (p : positive) :
  2 ^ (Z.pos (digits2_pos p) - 1) <= Z.pos p < 2 ^ Z.pos (digits2_pos p).
Proof.
  induction p as [p IH|p IH|]; cbn [digits2_pos].
  - rewrite Pos2Z.inj_succ. change (Z.pos p~1) with (2 * Z.pos p + 1).
    replace (Z.succ (Z.pos (digits2_pos p)) - 1) with (Z.succ (Z.pos (digits2_pos p) - 1))
      by lia.
    rewrite !Z.pow_succ_r by lia. lia.
  - rewrite Pos2Z.inj_succ. change (Z.pos p~0) with (2 * Z.pos p).
    replace (Z.succ (Z.pos (digits2_pos p)) - 1) with (Z.succ (Z.pos (digits2_pos p) - 1))
      by lia.
    rewrite !Z.pow_succ_r by lia. lia.
  - cbn. lia.
Qed.

Lemma Zdigits2_bounds (m : Z) :
  0 < m -> 1 <= Zdigits2 m /\ 2 ^ (Zdigits2 m - 1) <= m < 2 ^ Zdigits2 m.
Proof.
  intros Hm. destruct m as [|p|p]; try lia. cbn [Zdigits2].
  split; [lia | apply digits2_bounds].
Qed.

Lemma Zdigits2_unique (m d : Z) :
  1 <= d -> 2 ^ (d - 1) <= m < 2 ^ d -> Zdigits2 m = d.
Proof.
  intros Hd Hm.
  assert (H0 : 0 < m) by (assert (0 < 2 ^ (d - 1)) by (apply pow2_pos; lia); lia).
  destruct (Zdigits2_bounds m H0) as [H1 H2].
  destruct (Z.lt_trichotomy (Zdigits2 m) d) as [Hlt|[E|Hgt]]; [|exact E|].
  - assert (2 ^ Zdigits2 m <= 2 ^ (d - 1)) by (apply pow2_le; lia). lia.
  - assert (2 ^ d <= 2 ^ (Zdigits2 m - 1)) by (apply pow2_le; lia). lia.
Qed.

Lemma Zdigits2_shift (m0 k : Z) :
  0 <= k -> 0 < m0 / 2 ^ k -> Zdigits2 m0 = Zdigits2 (m0 / 2 ^ k) + k.
Proof.
  intros Hk Hq. destruct (Zdigits2_bounds _ Hq) as [H1 H2].
  set (d := Zdigits2 (m0 / 2 ^ k)) in *.
  assert (Hp : 0 < 2 ^ k) by (apply pow2_pos; lia).
  apply Zdigits2_unique; [lia|].
  replace (d + k - 1) with (d - 1 + k) by lia. rewrite !Z.pow_add_r by lia.
  split.
  - apply Z.le_trans with (m0 / 2 ^ k * 2 ^ k); [nia | div_lia].
  - assert (m0 / 2 ^ k + 1 <= 2 ^ d) by lia.
    apply Z.lt_le_trans with ((m0 / 2 ^ k + 1) * 2 ^ k); [div_lia | nia].
Qed.

Lemma Zdigits2_mul_pow2 (m k : Z) :
  0 < m -> 0 <= k -> Zdigits2 (m * 2 ^ k) = Zdigits2 m + k.
Proof.
  intros Hm Hk. assert (Hp : 0 < 2 ^ k) by (apply pow2_pos; lia).
  rewrite (Zdigits2_shift (m * 2 ^ k) k Hk); rewrite Z.div_mul by lia; [reflexivity | exact Hm].
Qed.

Lemma shr_record_of_loc_inj (m : Z) (l l' : location) :
  shr_record_of_loc m l = shr_record_of_loc m l' -> l = l'.
Proof.
  destruct l as [|[]], l' as [|[]]; cbn [shr_record_of_loc]; intros E;
    try reflexivity; discriminate E.
Qed.

(** Shifting by [k] and then by [n] is shifting by [n + k]. *)
Lemma shr_loc_add (n k m : Z) (l : location) :
  1 <= n -> 1 <= k -> 0 <= m ->
  shr_loc n ((m / 2 ^ k) mod 2 ^ n) (shr_loc k (m mod 2 ^ k) l)
  = shr_loc (n + k) (m mod 2 ^ (n + k)) l.
Proof.
  intros Hn Hk Hm.
  destruct (Z_of_nat_complete (n - 1)) as [n' Hn']; [lia|].
  destruct (Z_of_nat_complete (k - 1)) as [k' Hk']; [lia|].
  assert (En : n = Z.of_nat (S n')) by lia. assert (Ek : k = Z.of_nat (S k')) by lia.
  assert (Enk : n + k = Z.of_nat (S (n' + S k'))) by lia.
  assert (Hq : 0 <= m / 2 ^ k) by (apply Z.div_pos; [lia | apply pow2_pos; lia]).
  apply (shr_record_of_loc_inj (m / 2 ^ (n + k))).
  rewrite Enk, <- (shr_iter_loc (n' + S k') m l Hm).
  replace (S (n' + S k')) with (S n' + S k')%nat by lia.
  rewrite Nat.iter_add, (shr_iter_loc k' m l Hm), <- Ek.
  rewrite (shr_iter_loc n' _ _ Hq), <- En.
  assert (Hpk : 0 < 2 ^ k) by (apply pow2_pos; lia).
  assert (Hpn : 0 < 2 ^ n) by (apply pow2_pos; lia).
  f_equal. rewrite Z.div_div by lia.
  rewrite <- Z.pow_add_r by lia. f_equal. f_equal. lia.
Qed.

End Digits.

(** *** The rounded mantissa at a fixed exponent *)

Section RoundedValue.
Local Open Scope Z_scope.

Lemma loc_of_shr_record_of_loc (m : Z) (l : location) :
  loc_of_shr_record (shr_record_of_loc m l) = l.
Proof. destruct l as [|[]]; reflexivity. Qed.

Lemma shr_m_of_loc (m : Z) (l : location) : shr_m (shr_record_of_loc m l) = m.
Proof. destruct l as [|[]]; reflexivity. Qed.

Lemma round_nearest_even_bounds (q : Z) (l : location) :
  q <= round_nearest_even q l <= q + 1.
Proof. destruct l as [|[]]; cbn [round_nearest_even]; try lia. destruct (Z.even q); lia. Qed.

Lemma shift_bounds (m : Z) : 151 <= shift m /\ Zdigits2 m - 24 <= shift m.
Proof. unfold shift. lia. Qed.

Lemma quotient_bounds (m : Z) :
  0 <= m -> 0 <= m / 2 ^ shift m < 2 ^ 24.
Proof.
  intros Hm. destruct (shift_bounds m) as [H1 H2].
  assert (Hp : 0 < 2 ^ shift m) by (apply pow2_pos; lia).
  split; [apply Z.div_pos; lia|].
  apply Z.div_lt_upper_bound; [lia|].
  rewrite <- Z.pow_add_r by lia.
  destruct (Z.eq_dec m 0) as [E|Hne].
  { rewrite E at 1. apply pow2_pos. lia. }
  destruct (Zdigits2_bounds m ltac:(lia)) as [Hd1 [_ Hlt]].
  apply Z.lt_le_trans with (2 ^ Zdigits2 m); [exact Hlt | apply pow2_le; lia].
Qed.

Lemma rounded_bounds (m : Z) (l : location) :
  0 <= m -> 0 <= rounded m l <= 2 ^ 24.
Proof.
  intros Hm. unfold rounded.
  assert (H := round_nearest_even_bounds (m / 2 ^ shift m)
                 (shr_loc (shift m) (m mod 2 ^ shift m) l)).
  assert (Hq := quotient_bounds m Hm). lia.
Qed.

(** [binary_round_aux] at [E0]. *)
Lemma binary_round_aux_E0 (s : bool) (m : Z) (l : location) :
  0 <= m ->
  binary_round_aux 24 128 s m E0 l
  = if rounded m l =? 2 ^ 24 then pack s (2 ^ 23) (E0 + shift m + 1)
    else pack s (rounded m l) (E0 + shift m).
Proof.
  intros Hm. unfold binary_round_aux, shr_fexp.
  assert (Hn : fexp 24 128 (Zdigits2 m + E0) - E0 = shift m)
    by (unfold fexp, emin, shift, E0; lia).
  rewrite Hn. destruct (shift_bounds m) as [Hs1 Hs2].
  fold (rounded m l) in *.
  assert (Hr := rounded_bounds m l Hm).
  destruct (shift m) as [|p|p] eqn:Es; try lia.
  rewrite (shr_pos_loc p m E0 l Hm). rewrite <- Es in *.
  rewrite shr_m_of_loc, loc_of_shr_record_of_loc. fold (rounded m l).
  set (m1 := rounded m l) in *. set (e' := E0 + shift m).
  assert (He' : -149 <= e') by (unfold e', E0; lia).
  destruct (Z.eqb_spec m1 (2 ^ 24)) as [E|Hne].
  - rewrite E. change (Zdigits2 (2 ^ 24)) with 25.
    assert (Hn2 : fexp 24 128 (25 + e') - e' = 1) by (unfold fexp, emin; lia).
    rewrite Hn2. cbn -[Z.leb]. reflexivity.
  - assert (Hd : Zdigits2 m1 <= 24).
    { destruct (Z.eq_dec m1 0) as [->|H0]; [cbn; lia|].
      destruct (Zdigits2_bounds m1 ltac:(lia)) as [Hd1 [Hd2 _]].
      destruct (Z_le_gt_dec (Zdigits2 m1) 24) as [Hle|Hgt]; [exact Hle|].
      assert (2 ^ 24 <= 2 ^ (Zdigits2 m1 - 1)) by (apply pow2_le; lia). lia. }
    assert (Hn2 : fexp 24 128 (Zdigits2 m1 + e') - e' <= 0) by (unfold fexp, emin; lia).
    assert (Hshr : shr (shr_record_of_loc m1 loc_Exact) e'
                       (fexp 24 128 (Zdigits2 m1 + e') - e')
                   = (shr_record_of_loc m1 loc_Exact, e')).
    { destruct (fexp 24 128 (Zdigits2 m1 + e') - e'); try reflexivity. lia. }
    rewrite Hshr. cbn [shr_m shr_record_of_loc]. unfold pack.
    destruct m1; reflexivity.
Qed.

End RoundedValue.

(** *** Values and their order *)

Section ValueOrder.
Local Open Scope Z_scope.

Lemma bounded_facts (p : positive) (e : Z) :
  bounded 24 128 p e = true ->
  -149 <= e <= 104 /\ Z.pos p < 2 ^ 24 /\ (-149 < e -> 2 ^ 23 <= Z.pos p).
Proof.
  unfold bounded, canonical_mantissa, fexp, emin. intros H.
  apply andb_true_iff in H as [Hc Hb]. apply Z.eqb_eq in Hc. apply Z.leb_le in Hb.
  assert (Hd := digits2_bounds p). set (d := Z.pos (digits2_pos p)) in *.
  assert (Hd24 : d <= 24) by lia.
  split; [lia|]. split.
  - apply Z.lt_le_trans with (2 ^ d); [lia | apply pow2_le; lia].
  - intros He. assert (d = 24) by lia. subst d. replace 23 with (24 - 1) by lia.
    rewrite <- H. lia.
Qed.

Lemma bounded_intro (m e : Z) (p : positive) :
  m = Z.pos p -> -149 <= e <= 104 -> m < 2 ^ 24 -> (-149 < e -> 2 ^ 23 <= m) ->
  bounded 24 128 p e = true.
Proof.
  intros -> He Hlt Hge. unfold bounded, canonical_mantissa, fexp, emin.
  apply andb_true_iff. split; [|apply Z.leb_le; lia]. apply Z.eqb_eq.
  assert (Hd := digits2_bounds p). set (d := Z.pos (digits2_pos p)) in *.
  assert (Hd24 : d <= 24).
  { destruct (Z_le_gt_dec d 24) as [Hle|Hgt]; [exact Hle|].
    assert (2 ^ 24 <= 2 ^ (d - 1)) by (apply pow2_le; lia). lia. }
  destruct (Z.eq_dec e (-149)) as [->|Hne]; [lia|].
  assert (d = 24).
  { destruct (Z_le_gt_dec 24 d) as [Hle|Hgt]; [lia|].
    assert (2 ^ d <= 2 ^ 23) by (apply pow2_le; lia). lia. }
  lia.
Qed.

Lemma mag_finite_lt (s : bool) (p : positive) (e : Z) :
  bounded 24 128 p e = true -> 0 < mag (S754_finite s p e) < 2 ^ 428.
Proof.
  intros H. destruct (bounded_facts p e H) as (He & Hp & _). cbn [mag]. unfold E0.
  assert (H0 : 0 < 2 ^ (e - -300)) by (apply pow2_pos; lia).
  assert (H1 : 2 ^ (e - -300) <= 2 ^ 404) by (apply pow2_le; lia).
  change (2 ^ 428) with (2 ^ 24 * 2 ^ 404). nia.
Qed.

(** Numbers with the smaller exponent are the smaller ones. *)
Lemma mag_exponent_lt (s1 s2 : bool) (p1 p2 : positive) (e1 e2 : Z) :
  bounded 24 128 p1 e1 = true -> bounded 24 128 p2 e2 = true -> e1 < e2 ->
  mag (S754_finite s1 p1 e1) < mag (S754_finite s2 p2 e2).
Proof.
  intros H1 H2 He. destruct (bounded_facts p1 e1 H1) as (He1 & Hp1 & _).
  destruct (bounded_facts p2 e2 H2) as (He2 & _ & Hp2). cbn [mag]. unfold E0.
  assert (Hp2' : 2 ^ 23 <= Z.pos p2) by (apply Hp2; lia).
  assert (H0 : 0 < 2 ^ (e1 - -300)) by (apply pow2_pos; lia).
  assert (Hpow : 2 ^ (e2 - -300) = 2 ^ (e2 - e1 - 1) * (2 * 2 ^ (e1 - -300))).
  { rewrite <- pow2_succ by lia. rewrite <- Z.pow_add_r by lia. f_equal. lia. }
  assert (H3 : 1 <= 2 ^ (e2 - e1 - 1)) by (assert (0 < 2 ^ (e2 - e1 - 1)) by (apply pow2_pos; lia); lia).
  rewrite Hpow. change (2 ^ 24) with (2 * 2 ^ 23) in Hp1. nia.
Qed.

Lemma mag_mantissa_lt (s1 s2 : bool) (p1 p2 : positive) (e : Z) :
  -300 <= e -> (p1 < p2)%positive ->
  mag (S754_finite s1 p1 e) < mag (S754_finite s2 p2 e).
Proof.
  intros He Hp. cbn [mag]. unfold E0.
  assert (H0 : 0 < 2 ^ (e - -300)) by (apply pow2_pos; lia). nia.
Qed.

(** The order of [SFltb] on valid numbers is that of their values. *)
Lemma SFltb_finite (sa sb : bool) (pa pb : positive) (ea eb : Z) :
  bounded 24 128 pa ea = true -> bounded 24 128 pb eb = true ->
  SFltb (S754_finite sa pa ea) (S754_finite sb pb eb) = true ->
  sval (S754_finite sa pa ea) < sval (S754_finite sb pb eb).
Proof.
  intros Va Vb. unfold SFltb, SFcompare.
  assert (Ma := mag_finite_lt sa pa ea Va). assert (Mb := mag_finite_lt sb pb eb Vb).
  destruct (bounded_facts pa ea Va) as (Hea & _).
  change (Pos.compare_cont Eq pa pb) with (pa ?= pb)%positive.
  cbn [sval].
  destruct sa, sb; try discriminate; try (intros _; lia).
  - destruct (Z.compare_spec ea eb) as [E|Hlt|Hgt]; try discriminate.
    + subst eb. destruct (Pos.compare_spec pa pb) as [E|Hlt|Hgt]; try discriminate.
      intros _. assert (H := mag_mantissa_lt true true pb pa ea ltac:(lia) Hgt). lia.
    + intros _. assert (H := mag_exponent_lt true true pb pa eb ea Vb Va Hgt). lia.
  - destruct (Z.compare_spec ea eb) as [E|Hlt|Hgt]; try discriminate.
    + subst eb. destruct (Pos.compare_spec pa pb) as [E|Hlt|Hgt]; try discriminate.
      intros _. assert (H := mag_mantissa_lt false false pa pb ea ltac:(lia) Hlt). lia.
    + intros _. assert (H := mag_exponent_lt false false pa pb ea eb Va Vb Hlt). lia.
Qed.

(** The order of [SFltb] on valid numbers is that of their values. *)
Lemma SFltb_sval (a b : spec_float) :
  good a -> good b -> SFltb a b = true -> sval a < sval b.
Proof.
  intros [Va Na] [Vb Nb].
  destruct a as [sa|sa| |sa pa ea], b as [sb|sb| |sb pb eb]; try congruence;
    cbn [valid_binary] in Va, Vb; try (apply SFltb_finite; assumption);
    try (assert (Ma := mag_finite_lt sa pa ea Va));
    try (assert (Mb := mag_finite_lt sb pb eb Vb));
    unfold SFltb, SFcompare; cbn [sval]; cbn [mag] in *;
    try (destruct sa); try (destruct sb); intros H; try discriminate H; lia.
Qed.

(** And conversely. *)
Lemma sval_SFltb (a b : spec_float) :
  good a -> good b -> sval a < sval b -> SFltb a b = true.
Proof.
  intros [Va Na] [Vb Nb].
  destruct a as [sa|sa| |sa pa ea], b as [sb|sb| |sb pb eb]; try congruence;
    cbn [valid_binary] in Va, Vb;
    try (assert (Ma := mag_finite_lt sa pa ea Va));
    try (assert (Mb := mag_finite_lt sb pb eb Vb));
    unfold SFltb, SFcompare; cbn [sval]; cbn [mag] in *;
    try (destruct sa); try (destruct sb); intros H; try reflexivity; try lia.
  - change (Pos.compare_cont Eq pa pb) with (pa ?= pb)%positive.
    destruct (bounded_facts pa ea Va) as (Hea & _).
    destruct (Z.compare_spec ea eb) as [E|Hlt|Hgt].
    + subst eb. destruct (Pos.compare_spec pa pb) as [E|Hlt|Hgt]; try reflexivity.
      * subst pb. lia.
      * assert (H' := mag_mantissa_lt true true pa pb ea ltac:(lia) Hlt).
        cbn [mag] in H'. lia.
    + assert (H' := mag_exponent_lt true true pa pb ea eb Va Vb Hlt). cbn [mag] in H'. lia.
    + reflexivity.
  - change (Pos.compare_cont Eq pa pb) with (pa ?= pb)%positive.
    destruct (bounded_facts pa ea Va) as (Hea & _).
    destruct (Z.compare_spec ea eb) as [E|Hlt|Hgt].
    + subst eb. destruct (Pos.compare_spec pa pb) as [E|Hlt|Hgt]; try reflexivity.
      * subst pb. lia.
      * assert (H' := mag_mantissa_lt false false pb pa ea ltac:(lia) Hgt).
        cbn [mag] in H'. lia.
    + reflexivity.
    + assert (H' := mag_exponent_lt false false pb pa eb ea Vb Va Hgt). cbn [mag] in H'. lia.
Qed.

Lemma not_lt_sval_le (a b : spec_float) :
  good a -> good b -> SFltb b a = false -> sval a <= sval b.
Proof.
  intros Ga Gb H. destruct (Z_le_gt_dec (sval a) (sval b)) as [Hle|Hgt]; [exact Hle|].
  rewrite (sval_SFltb b a Gb Ga) in H by lia. discriminate.
Qed.

Lemma sval_le_not_lt (a b : spec_float) :
  good a -> good b -> sval a <= sval b -> SFltb b a = false.
Proof.
  intros Ga Gb H. destruct (SFltb b a) eqn:E; [|reflexivity].
  assert (H' := SFltb_sval b a Gb Ga E). lia.
Qed.

End ValueOrder.

(** *** Rounding is monotone *)

Section Monotone.
Local Open Scope Z_scope.

Lemma rounded_normal (m : Z) (l : location) :
  0 <= m -> 151 < shift m -> 2 ^ 23 <= rounded m l.
Proof.
  intros Hm Hs. unfold rounded.
  assert (H := round_nearest_even_bounds (m / 2 ^ shift m)
                 (shr_loc (shift m) (m mod 2 ^ shift m) l)).
  apply Z.le_trans with (m / 2 ^ shift m); [|lia].
  assert (Es : shift m = Zdigits2 m - 24) by (unfold shift in *; lia).
  assert (H0 : 0 < m) by (destruct m; try lia; cbn in Es; unfold shift in Hs; cbn in Hs; lia).
  destruct (Zdigits2_bounds m H0) as [Hd1 [Hd2 _]].
  apply Z.div_le_lower_bound; [apply pow2_pos; lia|].
  rewrite Z.mul_comm, <- Z.pow_add_r by lia.
  replace (23 + shift m) with (Zdigits2 m - 1) by lia. exact Hd2.
Qed.

Lemma binary_round_aux_value (s : bool) (m : Z) (l : location) :
  0 <= m ->
  good (binary_round_aux 24 128 s m E0 l)
  /\ sval (binary_round_aux 24 128 s m E0 l)
     = (if s then -1 else 1) * Z.min (rounded_value m l) (2 ^ 428).
Proof.
  intros Hm. rewrite (binary_round_aux_E0 s m l Hm). unfold rounded_value.
  assert (Hr := rounded_bounds m l Hm). destruct (shift_bounds m) as [Hs1 _].
  assert (Hn := rounded_normal m l Hm).
  set (m1 := rounded m l) in *. set (n := shift m) in *.
  assert (Hpn : 0 < 2 ^ n) by (apply pow2_pos; lia).
  destruct (Z.eqb_spec m1 (2 ^ 24)) as [E|Hne].
  - rewrite E. change (2 ^ 23) with (Z.pos 8388608). cbn [pack].
    destruct (Z.leb_spec (E0 + n + 1) 104) as [Hle|Hgt].
    + split.
      * split; [|discriminate]. cbn [valid_binary].
        apply (bounded_intro (2 ^ 23)); [reflexivity | unfold E0 in *; lia | lia | lia].
      * cbn [sval mag]. replace (E0 + n + 1 - E0) with (n + 1) by lia.
        rewrite pow2_succ by lia.
        assert (Hle' : 2 ^ n <= 2 ^ 403) by (apply pow2_le; unfold E0 in *; lia).
        change (Z.pos 8388608) with (2 ^ 23).
        change (2 ^ 428) with (2 ^ 24 * 2 ^ 403 * 2).
        change (2 ^ 24) with (2 * 2 ^ 23).
        rewrite Z.min_l by nia. destruct s; lia.
    + split; [split; [reflexivity | discriminate]|].
      cbn [sval mag].
      assert (Hge : 2 ^ 404 <= 2 ^ n) by (apply pow2_le; unfold E0 in *; lia).
      change (2 ^ 428) with (2 ^ 24 * 2 ^ 404). rewrite Z.min_r by nia. destruct s; lia.
  - destruct m1 as [|p|p] eqn:Em; [| |lia].
    + cbn [pack]. split; [split; [reflexivity | discriminate]|].
      cbn [sval]. rewrite Z.mul_0_l, Z.min_l by lia. destruct s; reflexivity.
    + cbn [pack].
      destruct (Z.leb_spec (E0 + n) 104) as [Hle|Hgt].
      * split.
        -- split; [|discriminate]. cbn [valid_binary].
           apply (bounded_intro (Z.pos p)); [reflexivity | unfold E0 in *; lia | lia |].
           intros He. apply Hn. unfold E0 in *. lia.
        -- cbn [sval mag]. replace (E0 + n - E0) with n by lia.
           assert (Hle' : 2 ^ n <= 2 ^ 404) by (apply pow2_le; unfold E0 in *; lia).
           change (2 ^ 428) with (2 ^ 24 * 2 ^ 404). rewrite Z.min_l by nia.
           destruct s; lia.
      * split; [split; [reflexivity | discriminate]|].
        cbn [sval mag].
        assert (Hge : 2 ^ 405 <= 2 ^ n) by (apply pow2_le; unfold E0 in *; lia).
        assert (H23 : 2 ^ 23 <= Z.pos p) by (apply Hn; unfold E0 in *; lia).
        change (2 ^ 428) with (2 ^ 23 * 2 ^ 405). rewrite Z.min_r by nia. destruct s; lia.
Qed.

Lemma Zdigits2_mono (a b : Z) : 0 <= a <= b -> Zdigits2 a <= Zdigits2 b.
Proof.
  intros H. destruct (Z.eq_dec a 0) as [->|Ha].
  - destruct b; cbn; lia.
  - destruct (Zdigits2_bounds a ltac:(lia)) as [Ha1 [Ha2 _]].
    destruct (Zdigits2_bounds b ltac:(lia)) as [Hb1 [_ Hb2]].
    destruct (Z_le_gt_dec (Zdigits2 a) (Zdigits2 b)) as [Hle|Hgt]; [exact Hle|].
    assert (2 ^ Zdigits2 b <= 2 ^ (Zdigits2 a - 1)) by (apply pow2_le; lia). lia.
Qed.

Lemma shr_loc_mono (n r1 r2 : Z) (l1 l2 : location) :
  0 <= r1 -> r1 < r2 \/ (r1 = r2 /\ loc_rank l1 <= loc_rank l2) ->
  loc_rank (shr_loc n r1 l1) <= loc_rank (shr_loc n r2 l2).
Proof.
  intros H0 H. unfold shr_loc.
  assert (R1 : 0 <= loc_rank l1 <= 3) by (destruct l1 as [|[]]; cbn; lia).
  assert (R2 : 0 <= loc_rank l2 <= 3) by (destruct l2 as [|[]]; cbn; lia).
  destruct (Z.eqb_spec r1 0), (Z.eqb_spec (loc_rank l1) 0), (Z.eqb_spec r2 0),
    (Z.eqb_spec (loc_rank l2) 0); cbn [andb];
    destruct (Z.compare_spec (2 * r1) (2 ^ n)), (Z.compare_spec (2 * r2) (2 ^ n));
    cbn [loc_rank]; lia.
Qed.

Lemma round_nearest_even_mono (q : Z) (l1 l2 : location) :
  loc_rank l1 <= loc_rank l2 -> round_nearest_even q l1 <= round_nearest_even q l2.
Proof.
  destruct l1 as [|[]], l2 as [|[]]; cbn [loc_rank round_nearest_even]; intros H;
    try lia; destruct (Z.even q); lia.
Qed.

(** Rounding is monotone. *)
Lemma rounded_value_mono (m1 m2 : Z) (l1 l2 : location) :
  0 <= m1 -> m1 < m2 \/ (m1 = m2 /\ loc_rank l1 <= loc_rank l2) ->
  rounded_value m1 l1 <= rounded_value m2 l2.
Proof.
  intros H0 H. assert (Hle : m1 <= m2) by lia. assert (H2 : 0 <= m2) by lia.
  assert (Hd := Zdigits2_mono m1 m2 ltac:(lia)).
  destruct (shift_bounds m1) as [Hs1 Hs1']. destruct (shift_bounds m2) as [Hs2 Hs2'].
  assert (Hs : shift m1 <= shift m2) by (unfold shift; lia).
  unfold rounded_value.
  destruct (Z.eq_dec (shift m1) (shift m2)) as [E|Hne].
  - unfold rounded. rewrite E. set (n := shift m2) in *.
    assert (Hp : 0 < 2 ^ n) by (apply pow2_pos; lia).
    apply Z.mul_le_mono_nonneg_r; [lia|].
    assert (B1 := round_nearest_even_bounds (m1 / 2 ^ n) (shr_loc n (m1 mod 2 ^ n) l1)).
    assert (B2 := round_nearest_even_bounds (m2 / 2 ^ n) (shr_loc n (m2 mod 2 ^ n) l2)).
    assert (Hq : m1 / 2 ^ n <= m2 / 2 ^ n) by (apply Z.div_le_mono; lia).
    destruct (Z.eq_dec (m1 / 2 ^ n) (m2 / 2 ^ n)) as [Eq|Hq']; [|lia].
    rewrite Eq. apply round_nearest_even_mono, shr_loc_mono.
    + apply Z.mod_pos_bound. exact Hp.
    + assert (M1 := Z.div_mod m1 (2 ^ n) ltac:(lia)).
      assert (M2 := Z.div_mod m2 (2 ^ n) ltac:(lia)).
      rewrite Eq in M1. destruct H as [Hlt|[Em Hl]]; [left; lia | right; split; [|exact Hl]].
      rewrite Em. reflexivity.
  - assert (Hlt : shift m1 + 1 <= shift m2) by lia.
    assert (R1 := rounded_bounds m1 l1 H0).
    assert (R2 := rounded_normal m2 l2 H2 ltac:(lia)).
    assert (Hp1 : 0 < 2 ^ shift m1) by (apply pow2_pos; lia).
    assert (Hp : 2 * 2 ^ shift m1 <= 2 ^ shift m2).
    { rewrite <- pow2_succ by lia. apply pow2_le. lia. }
    change (2 ^ 24) with (2 * 2 ^ 23) in R1. nia.
Qed.

(** The results of rounding are ordered as the exact values are. *)
Lemma binary_round_aux_mono (m1 m2 : Z) (l1 l2 : location) :
  0 <= m1 -> m1 < m2 \/ (m1 = m2 /\ loc_rank l1 <= loc_rank l2) ->
  SFltb (binary_round_aux 24 128 false m2 E0 l2) (binary_round_aux 24 128 false m1 E0 l1)
  = false
  /\ SFltb (binary_round_aux 24 128 true m1 E0 l1) (binary_round_aux 24 128 true m2 E0 l2)
     = false.
Proof.
  intros H0 H. assert (H2 : 0 <= m2) by lia.
  assert (Hv := rounded_value_mono m1 m2 l1 l2 H0 H).
  split.
  - destruct (binary_round_aux_value false m1 l1 H0) as [G1 V1].
    destruct (binary_round_aux_value false m2 l2 H2) as [G2 V2].
    apply sval_le_not_lt; [exact G1 | exact G2 | lia].
  - destruct (binary_round_aux_value true m1 l1 H0) as [G1 V1].
    destruct (binary_round_aux_value true m2 l2 H2) as [G2 V2].
    apply sval_le_not_lt; [exact G2 | exact G1 | lia].
Qed.

End Monotone.

(** *** The same value at another exponent *)

Section Refinement.
Local Open Scope Z_scope.

(** The same value seen with [k] more bits rounds to the same number. *)
Lemma binary_round_aux_refine (s : bool) (m0 : Z) (l0 : location) (k e : Z) :
  0 < k -> 0 <= m0 ->
  fexp 24 128 (Zdigits2 m0 + (e - k)) = fexp 24 128 (Zdigits2 (m0 / 2 ^ k) + e) ->
  0 <= fexp 24 128 (Zdigits2 (m0 / 2 ^ k) + e) - e ->
  binary_round_aux 24 128 s m0 (e - k) l0
  = binary_round_aux 24 128 s (m0 / 2 ^ k) e (shr_loc k (m0 mod 2 ^ k) l0).
Proof.
  intros Hk Hm Hf Hn.
  assert (Hpk : 0 < 2 ^ k) by (apply pow2_pos; lia).
  assert (Hq : 0 <= m0 / 2 ^ k) by (apply Z.div_pos; lia).
  unfold binary_round_aux, shr_fexp. rewrite Hf.
  set (f := fexp 24 128 (Zdigits2 (m0 / 2 ^ k) + e)) in *.
  assert (E : shr (shr_record_of_loc m0 l0) (e - k) (f - (e - k))
              = shr (shr_record_of_loc (m0 / 2 ^ k) (shr_loc k (m0 mod 2 ^ k) l0)) e (f - e)).
  { destruct (f - (e - k)) as [|p0|p0] eqn:E0; try lia.
    rewrite (shr_pos_loc p0 m0 _ l0 Hm).
    destruct (f - e) as [|p|p] eqn:E1; try lia.
    - cbn [shr]. assert (Ek : Z.pos p0 = k) by lia. rewrite Ek. f_equal. lia.
    - rewrite (shr_pos_loc p _ _ _ Hq).
      assert (Ek : Z.pos p0 = Z.pos p + k) by lia. rewrite Ek.
      assert (Hpp : 0 < 2 ^ Z.pos p) by (apply pow2_pos; lia).
      f_equal; [|lia]. rewrite <- (shr_loc_add (Z.pos p) k m0 l0) by lia.
      rewrite Z.div_div by lia. rewrite <- Z.pow_add_r by lia.
      replace (k + Z.pos p) with (Z.pos p + k) by lia. reflexivity. }
  rewrite E. reflexivity.
Qed.

(** An exact value [m * 2 ^ e] seen at [E0]. *)
Lemma binary_round_aux_exact (s : bool) (m e : Z) :
  0 < m -> E0 < e -> 0 <= fexp 24 128 (Zdigits2 m + e) - e ->
  binary_round_aux 24 128 s m e loc_Exact
  = binary_round_aux 24 128 s (m * 2 ^ (e - E0)) E0 loc_Exact.
Proof.
  intros Hm He Hn. remember (e - E0) as k eqn:Ek.
  assert (Hk : 0 < k) by lia.
  assert (Hpk : 0 < 2 ^ k) by (apply pow2_pos; lia).
  assert (Hdiv : m * 2 ^ k / 2 ^ k = m) by (apply Z.div_mul; lia).
  assert (Hmod : (m * 2 ^ k) mod 2 ^ k = 0) by (apply Z.mod_mul; lia).
  assert (R := binary_round_aux_refine s (m * 2 ^ k) loc_Exact k e Hk ltac:(nia)).
  rewrite Hdiv, Hmod in R. replace (e - k) with E0 in R by lia.
  symmetry. apply R; [|exact Hn].
  rewrite Zdigits2_mul_pow2 by lia. f_equal. lia.
Qed.

(** A valid number is the rounding of its own value. *)
Lemma binary_round_aux_valid (s : bool) (p : positive) (e : Z) :
  bounded 24 128 p e = true ->
  binary_round_aux 24 128 s (Z.pos p * 2 ^ (e - E0)) E0 loc_Exact = S754_finite s p e.
Proof.
  intros Hb. destruct (bounded_facts p e Hb) as (He & Hp & Hn).
  assert (Hc : fexp 24 128 (Zdigits2 (Z.pos p) + e) = e).
  { unfold bounded in Hb. apply andb_true_iff in Hb as [Hc _].
    apply Z.eqb_eq in Hc. exact Hc. }
  rewrite <- (binary_round_aux_exact s (Z.pos p) e) by (unfold E0; lia).
  unfold binary_round_aux, shr_fexp. rewrite Hc, Z.sub_diag.
  cbn [shr shr_record_of_loc shr_m loc_of_shr_record round_nearest_even].
  rewrite Hc, Z.sub_diag. cbn [shr shr_m].
  rewrite (proj2 (Z.leb_le e (128 - 24))) by lia. reflexivity.
Qed.

Lemma iter_xO_pow2 (mx d : positive) :
  Z.pos (Pos.iter xO mx d) = Z.pos mx * 2 ^ Z.pos d.
Proof.
  induction d as [|d IH] using Pos.peano_ind.
  - cbn [Pos.iter]. change (Z.pos mx~0) with (2 * Z.pos mx). lia.
  - rewrite Pos.iter_succ. change (Z.pos (Pos.iter xO mx d)~0) with (2 * Z.pos (Pos.iter xO mx d)).
    rewrite IH, Pos2Z.inj_succ, Z.pow_succ_r by lia. lia.
Qed.

Lemma shl_align_spec (mx : positive) (ex ex' : Z) :
  let '(mz, ez) := shl_align mx ex ex' in
  Z.pos mz = Z.pos mx * 2 ^ (ex - Z.min ex ex') /\ ez = Z.min ex ex'.
Proof.
  unfold shl_align. destruct (ex' - ex) as [|d|d] eqn:E.
  - rewrite Z.min_l by lia. rewrite Z.sub_diag. split; [lia | reflexivity].
  - rewrite Z.min_l by lia. rewrite Z.sub_diag. split; [lia | reflexivity].
  - rewrite Z.min_r by lia. split; [|reflexivity].
    rewrite iter_xO_pow2. f_equal. f_equal. lia.
Qed.

(** [binary_round] on the exact value [m * 2 ^ e]. *)
Lemma binary_round_E0 (s : bool) (m : positive) (e : Z) :
  E0 < e -> -149 <= e ->
  binary_round 24 128 s m e
  = binary_round_aux 24 128 s (Z.pos m * 2 ^ (e - E0)) E0 loc_Exact.
Proof.
  intros He He'. unfold binary_round.
  assert (H := shl_align_spec m e (fexp 24 128 (Z.pos (digits2_pos m) + e))).
  set (f := fexp 24 128 (Z.pos (digits2_pos m) + e)) in *.
  destruct (shl_align m e f) as [mz ez]. destruct H as [Hv Hez].
  assert (Hf : -149 <= f) by (unfold f, fexp, emin; lia).
  assert (Hpz : 0 < 2 ^ (e - ez)) by (apply pow2_pos; lia).
  assert (Emz : Z.pos mz = Z.pos m * 2 ^ (e - ez)) by (rewrite Hez; exact Hv).
  assert (Hd : Zdigits2 (Z.pos mz) + ez = Z.pos (digits2_pos m) + e).
  { rewrite Emz, Zdigits2_mul_pow2 by lia. cbn [Zdigits2]. lia. }
  rewrite (binary_round_aux_exact s (Z.pos mz) ez); [| lia | unfold E0 in *; lia |].
  - f_equal. rewrite Emz, <- Z.mul_assoc, <- Z.pow_add_r by (unfold E0 in *; lia).
    f_equal. f_equal. lia.
  - rewrite Hd. fold f. lia.
Qed.

End Refinement.

(** *** Numbers and the nearest number *)

Section Operations.
Local Open Scope Z_scope.

Lemma number_good (x : spec_float) : number x -> good x.
Proof. intros [V F]. split; [exact V|]. intros ->. discriminate. Qed.

Lemma good_number (x : spec_float) :
  good x -> - 2 ^ 428 < sval x < 2 ^ 428 -> number x.
Proof.
  intros [V N] H. split; [exact V|]. destruct x as [s|s| |s p e]; try reflexivity.
  - exfalso. cbn [sval mag] in H. destruct s; lia.
  - congruence.
Qed.

Lemma number_sval_bounds (x : spec_float) : number x -> - 2 ^ 428 < sval x < 2 ^ 428.
Proof.
  intros [V F]. destruct x as [s|s| |s p e]; try discriminate.
  - cbn. lia.
  - assert (H := mag_finite_lt s p e V). cbn [sval]. destruct s; lia.
Qed.

Lemma rounded_value_nonneg (m : Z) (l : location) : 0 <= m -> 0 <= rounded_value m l.
Proof.
  intros Hm. unfold rounded_value. assert (H := rounded_bounds m l Hm).
  destruct (shift_bounds m) as [Hs _].
  assert (0 < 2 ^ shift m) by (apply pow2_pos; lia). nia.
Qed.

Lemma rounded_value_zero (l : location) : rounded_value 0 loc_Exact = 0.
Proof. reflexivity. Qed.

Lemma nearest_mono (z1 z2 : Z) : z1 <= z2 -> nearest z1 <= nearest z2.
Proof.
  intros H. unfold nearest.
  destruct (Z.ltb_spec z1 0) as [H1|H1], (Z.ltb_spec z2 0) as [H2|H2]; try lia.
  - assert (Hm := rounded_value_mono (- z2) (- z1) loc_Exact loc_Exact ltac:(lia)
                    ltac:(destruct (Z.eq_dec z1 z2); [right; split; [lia | lia] | left; lia])).
    lia.
  - assert (Ha := rounded_value_nonneg (- z1) loc_Exact ltac:(lia)).
    assert (Hb := rounded_value_nonneg z2 loc_Exact ltac:(lia)). lia.
  - assert (Hm := rounded_value_mono z1 z2 loc_Exact loc_Exact ltac:(lia)
                    ltac:(destruct (Z.eq_dec z1 z2); [right; split; [lia | lia] | left; lia])).
    lia.
Qed.

(** The result of rounding an exact value, with its sign. *)
Lemma binary_round_aux_nearest (s : bool) (m : Z) :
  0 < m ->
  good (binary_round_aux 24 128 s m E0 loc_Exact)
  /\ sval (binary_round_aux 24 128 s m E0 loc_Exact) = nearest (if s then - m else m).
Proof.
  intros Hm. destruct (binary_round_aux_value s m loc_Exact ltac:(lia)) as [G V].
  split; [exact G|]. rewrite V. unfold nearest. destruct s.
  - rewrite (proj2 (Z.ltb_lt (- m) 0)) by lia. rewrite Z.opp_involutive. lia.
  - rewrite (proj2 (Z.ltb_ge m 0)) by lia. lia.
Qed.

(** A number is the nearest number to its own value. *)
Lemma nearest_sval (x : spec_float) : number x -> nearest (sval x) = sval x.
Proof.
  intros [V F]. destruct x as [s|s| |s p e]; try discriminate; [reflexivity|].
  cbn [valid_binary] in V.
  assert (M : 0 < Z.pos p * 2 ^ (e - E0)).
  { destruct (bounded_facts p e V) as (He & _).
    apply Z.mul_pos_pos; [lia | apply pow2_pos; unfold E0; lia]. }
  destruct (binary_round_aux_nearest s _ M) as [_ H].
  rewrite (binary_round_aux_valid s p e V) in H. cbn [sval mag] in *.
  destruct s; rewrite <- H; reflexivity.
Qed.

End Operations.

(** *** The value of a product *)

Section OperationValues.
Local Open Scope Z_scope.

Lemma sval_finite (s : bool) (p : positive) (e : Z) :
  sval (S754_finite s p e) = (if s then -1 else 1) * (Z.pos p * 2 ^ (e - E0)).
Proof. cbn [sval mag]. destruct s; lia. Qed.

Lemma product_precision (px py : positive) (ex ey : Z) :
  bounded 24 128 px ex = true -> bounded 24 128 py ey = true ->
  0 <= fexp 24 128 (Zdigits2 (Z.pos (px * py)) + (ex + ey)) - (ex + ey).
Proof.
  intros Hx Hy. destruct (bounded_facts px ex Hx) as (Hex & Hpx & Hnx).
  destruct (bounded_facts py ey Hy) as (Hey & Hpy & Hny).
  unfold fexp, emin.
  destruct (Z_le_gt_dec (ex + ey) (-149)) as [Hle|Hgt]; [lia|].
  assert (H23 : 2 ^ 23 <= Z.pos (px * py)).
  { rewrite Pos2Z.inj_mul. destruct (Z_le_gt_dec ex (-149)).
    - assert (2 ^ 23 <= Z.pos py) by (apply Hny; lia). nia.
    - assert (2 ^ 23 <= Z.pos px) by (apply Hnx; lia). nia. }
  assert (Hd := Zdigits2_mono (2 ^ 23) (Z.pos (px * py)) ltac:(lia)).
  change (Zdigits2 (2 ^ 23)) with 24 in Hd. lia.
Qed.

Lemma SFmul_value (a b : spec_float) :
  number a -> number b ->
  good (SFmul 24 128 a b) /\ sval (SFmul 24 128 a b) = nearest (sval a * sval b / 2 ^ 300).
Proof.
  intros [Va Fa] [Vb Fb].
  destruct a as [sa|sa| |sa pa ea], b as [sb|sb| |sb pb eb]; try discriminate;
    try (split; [split; [reflexivity | discriminate]|]; cbn [SFmul sval];
         rewrite ?Z.mul_0_l, ?Z.mul_0_r; reflexivity).
  cbn [valid_binary] in Va, Vb. cbn [SFmul].
  destruct (bounded_facts pa ea Va) as (Hea & _). destruct (bounded_facts pb eb Vb) as (Heb & _).
  rewrite binary_round_aux_exact;
    [| lia | unfold E0; lia | apply product_precision; assumption].
  assert (Hp : 0 < 2 ^ (ea + eb - E0)) by (apply pow2_pos; unfold E0; lia).
  assert (M : 0 < Z.pos (pa * pb) * 2 ^ (ea + eb - E0)) by (apply Z.mul_pos_pos; lia).
  destruct (binary_round_aux_nearest (xorb sa sb) _ M) as [G V].
  split; [exact G|]. rewrite V. f_equal. rewrite !sval_finite.
  assert (E : Z.pos pa * 2 ^ (ea - E0) * (Z.pos pb * 2 ^ (eb - E0))
              = Z.pos (pa * pb) * 2 ^ (ea + eb - E0) * 2 ^ 300).
  { rewrite Pos2Z.inj_mul. unfold E0.
    replace (ea - -300) with ((ea + 149) + 151) by lia.
    replace (eb - -300) with ((eb + 149) + 151) by lia.
    replace (ea + eb - -300) with ((ea + 149) + (eb + 149) + 2) by lia.
    rewrite (Z.pow_add_r 2 (ea + 149) 151), (Z.pow_add_r 2 (eb + 149) 151),
      (Z.pow_add_r 2 (ea + 149 + (eb + 149)) 2), (Z.pow_add_r 2 (ea + 149) (eb + 149)) by lia.
    generalize (2 ^ (ea + 149)) (2 ^ (eb + 149)) (Z.pos pa) (Z.pos pb). intros u v x y.
    assert (K : 2 ^ 151 * 2 ^ 151 = 2 ^ 2 * 2 ^ 300) by reflexivity.
    revert K. generalize (2 ^ 151) (2 ^ 2) (2 ^ 300). intros c d f K.
    transitivity (x * y * u * v * (c * c)); [ring|]. rewrite K. ring. }
  destruct sa, sb; cbn [xorb].
  - replace (-1 * (Z.pos pa * 2 ^ (ea - E0)) * (-1 * (Z.pos pb * 2 ^ (eb - E0))))
      with (Z.pos (pa * pb) * 2 ^ (ea + eb - E0) * 2 ^ 300) by (rewrite <- E; ring).
    rewrite Z.div_mul by lia. reflexivity.
  - replace (-1 * (Z.pos pa * 2 ^ (ea - E0)) * (1 * (Z.pos pb * 2 ^ (eb - E0))))
      with (- (Z.pos (pa * pb) * 2 ^ (ea + eb - E0)) * 2 ^ 300)
      by (rewrite Z.mul_opp_l, <- E; ring).
    rewrite Z.div_mul by lia. reflexivity.
  - replace (1 * (Z.pos pa * 2 ^ (ea - E0)) * (-1 * (Z.pos pb * 2 ^ (eb - E0))))
      with (- (Z.pos (pa * pb) * 2 ^ (ea + eb - E0)) * 2 ^ 300)
      by (rewrite Z.mul_opp_l, <- E; ring).
    rewrite Z.div_mul by lia. reflexivity.
  - replace (1 * (Z.pos pa * 2 ^ (ea - E0)) * (1 * (Z.pos pb * 2 ^ (eb - E0))))
      with (Z.pos (pa * pb) * 2 ^ (ea + eb - E0) * 2 ^ 300) by (rewrite <- E; ring).
    rewrite Z.div_mul by lia. reflexivity.
Qed.

End OperationValues.

(** *** The value of a sum and of a difference *)

Section Sums.
Local Open Scope Z_scope.

Lemma nearest_zero : nearest 0 = 0.
Proof. reflexivity. Qed.

Lemma binary_normalize_value (z e : Z) (sz : bool) :
  -149 <= e ->
  good (binary_normalize 24 128 z e sz)
  /\ sval (binary_normalize 24 128 z e sz) = nearest (z * 2 ^ (e - E0)).
Proof.
  intros He. assert (Hp : 0 < 2 ^ (e - E0)) by (apply pow2_pos; unfold E0; lia).
  destruct z as [|m|m]; cbn [binary_normalize].
  - split; [split; [reflexivity | discriminate] |]. rewrite Z.mul_0_l. reflexivity.
  - rewrite binary_round_E0 by (unfold E0; lia).
    apply (binary_round_aux_nearest false). lia.
  - rewrite binary_round_E0 by (unfold E0; lia).
    destruct (binary_round_aux_nearest true (Z.pos m * 2 ^ (e - E0)) ltac:(lia)) as [G V].
    split; [exact G|]. rewrite V. f_equal. lia.
Qed.

Lemma aligned_value (s : bool) (m : positive) (e ez : Z) :
  -149 <= ez <= e ->
  cond_Zopp s (Z.pos (fst (shl_align m e ez))) * 2 ^ (ez - E0) = sval (S754_finite s m e).
Proof.
  intros H. assert (A := shl_align_spec m e ez).
  destruct (shl_align m e ez) as [mz e']. destruct A as [A _]. cbn [fst].
  rewrite Z.min_r in A by lia.
  assert (E : Z.pos mz * 2 ^ (ez - E0) = Z.pos m * 2 ^ (e - E0)).
  { rewrite A, <- Z.mul_assoc, <- Z.pow_add_r by (unfold E0; lia).
    f_equal. f_equal. lia. }
  rewrite sval_finite. destruct s; cbn [cond_Zopp]; lia.
Qed.

Lemma SFadd_value (a b : spec_float) :
  number a -> number b ->
  good (SFadd 24 128 a b) /\ sval (SFadd 24 128 a b) = nearest (sval a + sval b).
Proof.
  intros Na Nb. assert (Ga := number_good a Na). assert (Gb := number_good b Nb).
  assert (Ea := nearest_sval a Na). assert (Eb := nearest_sval b Nb).
  destruct Na as [Va Fa], Nb as [Vb Fb].
  destruct a as [sa|sa| |sa pa ea], b as [sb|sb| |sb pb eb]; try discriminate.
  - split; [destruct sa, sb; split; (reflexivity || discriminate) |].
    destruct sa, sb; reflexivity.
  - cbn [SFadd]. split; [exact Gb|]. change (sval (S754_zero sa)) with 0.
    rewrite Z.add_0_l. symmetry. exact Eb.
  - cbn [SFadd]. split; [exact Ga|]. change (sval (S754_zero sb)) with 0.
    rewrite Z.add_0_r. symmetry. exact Ea.
  - cbn [SFadd]. cbn [valid_binary] in Va, Vb.
    destruct (bounded_facts pa ea Va) as (Hea & _).
    destruct (bounded_facts pb eb Vb) as (Heb & _).
    destruct (binary_normalize_value
                (cond_Zopp sa (Z.pos (fst (shl_align pa ea (Z.min ea eb))))
                 + cond_Zopp sb (Z.pos (fst (shl_align pb eb (Z.min ea eb)))))
                (Z.min ea eb) false ltac:(lia)) as [G V].
    split; [exact G|]. rewrite V. f_equal.
    rewrite Z.mul_add_distr_r, !aligned_value by lia. reflexivity.
Qed.

Lemma SFsub_value (a b : spec_float) :
  number a -> number b ->
  good (SFsub 24 128 a b) /\ sval (SFsub 24 128 a b) = nearest (sval a - sval b).
Proof.
  intros Na Nb. assert (Ga := number_good a Na). assert (Gb := number_good b Nb).
  assert (Ea := nearest_sval a Na). assert (Eb := nearest_sval b Nb).
  destruct Na as [Va Fa], Nb as [Vb Fb].
  destruct a as [sa|sa| |sa pa ea], b as [sb|sb| |sb pb eb]; try discriminate.
  - split; [destruct sa, sb; split; (reflexivity || discriminate) |].
    destruct sa, sb; reflexivity.
  - cbn [SFsub]. split; [split; [exact Vb | discriminate] |].
    change (sval (S754_zero sa)) with 0. rewrite Z.sub_0_l.
    assert (N' : number (S754_finite (negb sb) pb eb)) by (split; [exact Vb | reflexivity]).
    rewrite <- (nearest_sval _ N'). f_equal. rewrite !sval_finite. destruct sb; cbn [negb]; lia.
  - cbn [SFsub]. split; [exact Ga|]. change (sval (S754_zero sb)) with 0.
    rewrite Z.sub_0_r. symmetry. exact Ea.
  - cbn [SFsub]. cbn [valid_binary] in Va, Vb.
    destruct (bounded_facts pa ea Va) as (Hea & _).
    destruct (bounded_facts pb eb Vb) as (Heb & _).
    destruct (binary_normalize_value
                (cond_Zopp sa (Z.pos (fst (shl_align pa ea (Z.min ea eb))))
                 - cond_Zopp sb (Z.pos (fst (shl_align pb eb (Z.min ea eb)))))
                (Z.min ea eb) false ltac:(lia)) as [G V].
    split; [exact G|]. rewrite V. f_equal.
    rewrite Z.mul_sub_distr_r, !aligned_value by lia. reflexivity.
Qed.

End Sums.

(** *** The position of a quotient *)

Section Quotients.
Local Open Scope Z_scope.

(** The position of the fraction [r / d] in the unit interval. *)
Lemma new_location_spec (d r : Z) :
  new_location d r = if r =? 0 then loc_Exact else loc_Inexact (2 * r ?= d).
Proof.
  unfold new_location, new_location_even, new_location_odd.
  destruct (Z.even d) eqn:Ev; [reflexivity|].
  destruct (r =? 0); [reflexivity|]. f_equal.
  assert (Ho : Z.odd d = true) by (rewrite <- Z.negb_even, Ev; reflexivity).
  apply Z.odd_spec in Ho as [c Hc].
  destruct (Z.compare_spec (2 * r + 1) d), (Z.compare_spec (2 * r) d); try reflexivity; lia.
Qed.

Lemma new_location_rank_mono (d r1 r2 : Z) :
  0 <= r1 <= r2 -> loc_rank (new_location d r1) <= loc_rank (new_location d r2).
Proof.
  intros H. rewrite !new_location_spec.
  destruct (Z.eqb_spec r1 0), (Z.eqb_spec r2 0),
    (Z.compare_spec (2 * r1) d), (Z.compare_spec (2 * r2) d); cbn [loc_rank]; lia.
Qed.

(** The position of a quotient seen with [k] more bits. *)
Lemma div_loc_refine (m d k : Z) :
  0 < d -> 0 <= m -> 1 <= k ->
  (m * 2 ^ k / d) / 2 ^ k = m / d
  /\ shr_loc k ((m * 2 ^ k / d) mod 2 ^ k) (new_location d ((m * 2 ^ k) mod d))
     = new_location d (m mod d).
Proof.
  intros Hd Hm Hk.
  assert (Hp : 0 < 2 ^ (k - 1)) by (apply pow2_pos; lia).
  assert (EP : 2 ^ k = 2 * 2 ^ (k - 1)).
  { replace k with ((k - 1) + 1) at 1 by lia. apply pow2_succ. lia. }
  set (P' := 2 ^ (k - 1)) in *. rewrite EP.
  assert (Dq := Z.div_mod m d ltac:(lia)). assert (Bq := Z.mod_pos_bound m d Hd).
  set (q := m / d) in *. set (r := m mod d) in *.
  assert (Dr := Z.div_mod (r * (2 * P')) d ltac:(lia)).
  assert (Br := Z.mod_pos_bound (r * (2 * P')) d Hd).
  set (rho := r * (2 * P') / d) in *. set (r0 := (r * (2 * P')) mod d) in *.
  assert (Hrho : 0 <= rho < 2 * P').
  { split; [apply Z.div_pos; nia|]. apply Z.div_lt_upper_bound; nia. }
  assert (EN : m * (2 * P') = d * (q * (2 * P') + rho) + r0) by nia.
  assert (Ediv : m * (2 * P') / d = q * (2 * P') + rho).
  { symmetry. apply (Z.div_unique_pos _ _ _ r0); [lia | exact EN]. }
  assert (Emod : (m * (2 * P')) mod d = r0).
  { symmetry. apply (Z.mod_unique_pos _ _ (q * (2 * P') + rho)); [lia | exact EN]. }
  rewrite Ediv, Emod.
  assert (E1 : (q * (2 * P') + rho) / (2 * P') = q).
  { symmetry. apply (Z.div_unique_pos _ _ _ rho); [lia | lia]. }
  assert (E2 : (q * (2 * P') + rho) mod (2 * P') = rho).
  { symmetry. apply (Z.mod_unique_pos _ _ q); [lia | lia]. }
  rewrite E1, E2. split; [reflexivity|].
  assert (K1 : 2 * rho < 2 * P' -> 2 * r < d).
  { intros H. apply (Z.mul_lt_mono_pos_r P'); [lia|].
    assert (d * (rho + 1) <= d * P') by (apply Z.mul_le_mono_nonneg_l; lia). lia. }
  assert (K2 : 2 * P' < 2 * rho -> d < 2 * r).
  { intros H. apply (Z.mul_lt_mono_pos_r P'); [lia|].
    assert (d * (P' + 1) <= d * rho) by (apply Z.mul_le_mono_nonneg_l; lia). lia. }
  assert (K3 : 2 * rho = 2 * P' -> r0 = 0 -> 2 * r = d).
  { intros H H0. apply (Z.mul_reg_r _ _ P'); [lia|].
    assert (rho = P') by lia. subst rho. lia. }
  assert (K4 : 2 * rho = 2 * P' -> r0 <> 0 -> d < 2 * r).
  { intros H H0. apply (Z.mul_lt_mono_pos_r P'); [lia|].
    assert (E : rho = P') by lia. rewrite E in Dr. lia. }
  assert (K5 : r = 0 -> rho = 0 /\ r0 = 0).
  { intros H. rewrite H in Dr. assert (0 <= d * rho) by (apply Z.mul_nonneg_nonneg; lia).
    assert (d * rho = 0) by lia. split; [|lia].
    destruct (Z.mul_eq_0 d rho) as [[A|A] _]; [assumption | lia | exact A]. }
  assert (K6 : rho = 0 -> r0 = 0 -> r = 0).
  { intros H H0. rewrite H, H0 in Dr.
    destruct (Z.mul_eq_0 r (2 * P')) as [[A|A] _]; [lia | exact A | lia]. }
  clearbody rho r0 r q P'. clear Dr Dq EN Ediv Emod E1 E2.
  rewrite !new_location_spec. unfold shr_loc. rewrite EP.
  destruct (Z.eqb_spec rho 0) as [R0|R0], (Z.eqb_spec r0 0) as [R1|R1],
    (Z.eqb_spec r 0) as [R2|R2]; cbn [loc_rank andb Z.eqb];
    try reflexivity; try (exfalso; lia);
    destruct (Z.compare_spec (2 * r0) d), (Z.compare_spec (2 * rho) (2 * P')),
      (Z.compare_spec (2 * r) d); cbn [loc_rank Z.eqb]; try reflexivity; exfalso; lia.
Qed.

End Quotients.

(** *** The value of a quotient *)

Section Division.
Local Open Scope Z_scope.

Lemma quotient_value_zero (d : Z) : quotient_value 0 d = 0.
Proof.
  unfold quotient_value. rewrite Zdiv_0_l, Zmod_0_l, new_location_spec. reflexivity.
Qed.

Lemma quotient_value_nonneg (n d : Z) : 0 < d -> 0 <= n -> 0 <= quotient_value n d.
Proof.
  intros Hd Hn. unfold quotient_value.
  assert (H := rounded_value_nonneg (n / d) (new_location d (n mod d))
                 ltac:(apply Z.div_pos; lia)).
  assert (0 < 2 ^ 428) by (apply pow2_pos; lia). lia.
Qed.

Lemma quotient_value_mono (d n1 n2 : Z) :
  0 < d -> 0 <= n1 <= n2 -> quotient_value n1 d <= quotient_value n2 d.
Proof.
  intros Hd H. unfold quotient_value.
  assert (Hq : n1 / d <= n2 / d) by (apply Z.div_le_mono; lia).
  assert (H0 : 0 <= n1 / d) by (apply Z.div_pos; lia).
  assert (M : rounded_value (n1 / d) (new_location d (n1 mod d))
              <= rounded_value (n2 / d) (new_location d (n2 mod d))).
  { apply rounded_value_mono; [exact H0|].
    destruct (Z.eq_dec (n1 / d) (n2 / d)) as [E|N]; [right | left; lia].
    split; [exact E|]. apply new_location_rank_mono.
    assert (D1 := Z.div_mod n1 d ltac:(lia)). assert (D2 := Z.div_mod n2 d ltac:(lia)).
    assert (B1 := Z.mod_pos_bound n1 d Hd). rewrite E in D1. lia. }
  lia.
Qed.

Lemma Zdigits2_nonneg (m : Z) : 0 <= Zdigits2 m.
Proof. destruct m; cbn [Zdigits2]; lia. Qed.

Lemma Zdigits2_below (m k : Z) : 0 <= k -> 0 <= m < 2 ^ k -> Zdigits2 m <= k.
Proof.
  intros Hk [H0 H]. destruct (Z.eq_dec m 0) as [->|N]; [cbn; lia|].
  destruct (Zdigits2_bounds m ltac:(lia)) as [H1 H2].
  destruct (Z_le_gt_dec (Zdigits2 m) k) as [L|G]; [exact L|].
  assert (2 ^ k <= 2 ^ (Zdigits2 m - 1)) by (apply pow2_le; lia). lia.
Qed.

(** The quotient of two numbers, seen at [E0]. *)
Lemma SFdiv_core_value (s : bool) (pa pb : positive) (ea eb : Z) :
  bounded 24 128 pa ea = true -> bounded 24 128 pb eb = true ->
  (let '(q, e', l) := SFdiv_core_binary 24 128 (Z.pos pa) ea (Z.pos pb) eb in
   binary_round_aux 24 128 s q e' l)
  = binary_round_aux 24 128 s (Z.pos pa * 2 ^ (ea - eb - E0) / Z.pos pb) E0
      (new_location (Z.pos pb) ((Z.pos pa * 2 ^ (ea - eb - E0)) mod Z.pos pb)).
Proof.
  intros Ha Hb. destruct (bounded_facts pa ea Ha) as (Hea & Hpa & Hna).
  destruct (bounded_facts pb eb Hb) as (Heb & Hpb & Hnb).
  destruct (Zdigits2_bounds (Z.pos pa) ltac:(lia)) as [Hd1 Bd1].
  destruct (Zdigits2_bounds (Z.pos pb) ltac:(lia)) as [Hd2 Bd2].
  assert (Hd1' : Zdigits2 (Z.pos pa) <= 24) by (apply Zdigits2_below; lia).
  assert (Hd2' : Zdigits2 (Z.pos pb) <= 24) by (apply Zdigits2_below; lia).
  unfold SFdiv_core_binary.
  set (d1 := Zdigits2 (Z.pos pa)) in *. set (d2 := Zdigits2 (Z.pos pb)) in *.
  set (e' := Z.min (fexp 24 128 (d1 + ea - (d2 + eb))) (ea - eb)).
  assert (He' : e' = Z.min (Z.max (d1 + ea - (d2 + eb) - 24) (-149)) (ea - eb))
    by reflexivity.
  assert (Hs : 0 <= ea - eb - e') by lia.
  assert (Em : match ea - eb - e' with
               | 0 => Z.pos pa
               | Z.pos _ => Z.shiftl (Z.pos pa) (ea - eb - e')
               | Z.neg _ => 0
               end = Z.pos pa * 2 ^ (ea - eb - e')).
  { destruct (ea - eb - e') as [|p|p] eqn:E; [cbn; lia | | lia].
    apply Z.shiftl_mul_pow2. lia. }
  rewrite Em. clear Em. set (m := Z.pos pa * 2 ^ (ea - eb - e')).
  assert (Hps : 0 < 2 ^ (ea - eb - e')) by (apply pow2_pos; lia).
  assert (Hm : 0 < m) by (unfold m; nia).
  assert (Ed : Z.div_eucl m (Z.pos pb) = (m / Z.pos pb, m mod Z.pos pb)).
  { unfold Z.div, Z.modulo. destruct (Z.div_eucl m (Z.pos pb)). reflexivity. }
  rewrite Ed. clear Ed.
  set (k := e' - E0). assert (Hk : 1 <= k) by (unfold k, E0; lia).
  assert (Hpk : 0 < 2 ^ k) by (apply pow2_pos; lia).
  assert (EN : Z.pos pa * 2 ^ (ea - eb - E0) = m * 2 ^ k).
  { unfold m. rewrite <- Z.mul_assoc, <- Z.pow_add_r by lia. f_equal. f_equal.
    unfold k. lia. }
  rewrite EN.
  destruct (div_loc_refine m (Z.pos pb) k ltac:(lia) ltac:(lia) Hk) as [Eq El].
  assert (Hq0 : 0 <= m / Z.pos pb) by (apply Z.div_pos; lia).
  assert (HX0 : 0 <= m * 2 ^ k / Z.pos pb) by (apply Z.div_pos; nia).
  (* either the exponent is the least one, or the quotient has 24 digits *)
  assert (Hcase : e' <= -149 \/ 2 ^ 23 <= m / Z.pos pb).
  { destruct (Z_le_gt_dec e' (-149)) as [L|G]; [left; exact L | right].
    assert (Ee : ea - eb - e' = 24 + d2 - d1) by lia.
    apply Z.div_le_lower_bound; [lia|].
    unfold m. rewrite Ee.
    assert (P1 : 2 ^ (24 + d2 - d1) * 2 ^ (d1 - 1) = 2 ^ 23 * 2 ^ d2).
    { rewrite <- !Z.pow_add_r by lia. f_equal. lia. }
    assert (0 < 2 ^ 23) by (apply pow2_pos; lia).
    assert (0 < 2 ^ (24 + d2 - d1)) by (apply pow2_pos; lia).
    nia. }
  assert (R := binary_round_aux_refine s (m * 2 ^ k / Z.pos pb)
                 (new_location (Z.pos pb) ((m * 2 ^ k) mod Z.pos pb)) k e'
                 ltac:(lia) HX0).
  rewrite Eq, El in R. replace (e' - k) with E0 in R by (unfold k; lia).
  symmetry. apply R.
  - destruct (Z.eq_dec (m / Z.pos pb) 0) as [Z0|N0].
    + rewrite Z0. cbn [Zdigits2].
      assert (e' <= -149) by (destruct Hcase as [L|G]; [exact L|]; rewrite Z0 in G;
                              assert (0 < 2 ^ 23) by (apply pow2_pos; lia); lia).
      assert (Hx := Zdigits2_nonneg (m * 2 ^ k / Z.pos pb)).
      assert (Hy : Zdigits2 (m * 2 ^ k / Z.pos pb) <= k).
      { apply Zdigits2_below; [lia|]. split; [exact HX0|].
        apply Z.div_lt_upper_bound; [lia|].
        assert (m < Z.pos pb) by (apply Z.div_small_iff in Z0; lia). nia. }
      unfold fexp, emin, k, E0 in *. lia.
    + rewrite (Zdigits2_shift (m * 2 ^ k / Z.pos pb) k) by (rewrite ?Eq; lia).
      rewrite Eq. f_equal. unfold k. lia.
  - destruct Hcase as [L|G].
    + unfold fexp, emin. lia.
    + assert (Hd := Zdigits2_mono (2 ^ 23) (m / Z.pos pb) ltac:(lia)).
      change (Zdigits2 (2 ^ 23)) with 24 in Hd. unfold fexp, emin. lia.
Qed.

Lemma numerator_mono (a1 a2 : spec_float) (eb : Z) :
  -149 <= eb -> sval a1 <= sval a2 -> numerator a1 eb <= numerator a2 eb.
Proof.
  intros He H. unfold numerator.
  assert (0 < 2 ^ (eb + 149)) by (apply pow2_pos; lia).
  assert (0 < 2 ^ 149) by (apply pow2_pos; lia).
  apply Z.div_le_mono; [lia | nia].
Qed.

Lemma numerator_nonneg (a : spec_float) (eb : Z) :
  -149 <= eb -> 0 <= sval a -> 0 <= numerator a eb.
Proof.
  intros He H. unfold numerator.
  assert (0 < 2 ^ (eb + 149)) by (apply pow2_pos; lia).
  assert (0 < 2 ^ 149) by (apply pow2_pos; lia).
  apply Z.div_pos; [nia | lia].
Qed.

(** A number that is not negative, divided by a positive number. *)
Lemma SFdiv_value (a : spec_float) (pb : positive) (eb : Z) :
  number a -> 0 <= sval a -> bounded 24 128 pb eb = true ->
  good (SFdiv 24 128 a (S754_finite false pb eb))
  /\ sval (SFdiv 24 128 a (S754_finite false pb eb))
     = quotient_value (numerator a eb) (Z.pos pb).
Proof.
  intros [Va Fa] H0 Hb. destruct (bounded_facts pb eb Hb) as (Heb & Hpb & Hnb).
  destruct a as [sa|sa| |sa pa ea]; try discriminate.
  - cbn [SFdiv]. split; [split; [reflexivity | discriminate] |].
    unfold numerator. change (sval (S754_zero sa)) with 0.
    rewrite Z.mul_0_l, Zdiv_0_l, quotient_value_zero. reflexivity.
  - cbn [valid_binary] in Va. destruct (bounded_facts pa ea Va) as (Hea & Hpa & Hna).
    assert (Es : sa = false).
    { destruct sa; [|reflexivity]. rewrite sval_finite in H0.
      assert (0 < 2 ^ (ea - E0)) by (apply pow2_pos; unfold E0; lia). nia. }
    subst sa. cbn [SFdiv xorb].
    assert (C := SFdiv_core_value false pa pb ea eb Va Hb).
    destruct (SFdiv_core_binary 24 128 (Z.pos pa) ea (Z.pos pb) eb) as [[q e'] l].
    rewrite C. clear C.
    assert (EN : numerator (S754_finite false pa ea) eb = Z.pos pa * 2 ^ (ea - eb - E0)).
    { unfold numerator. rewrite sval_finite.
      assert (0 < 2 ^ (eb + 149)) by (apply pow2_pos; lia).
      replace (1 * (Z.pos pa * 2 ^ (ea - E0)) * 2 ^ 149)
        with (Z.pos pa * 2 ^ (ea - eb - E0) * 2 ^ (eb + 149)).
      - apply Z.div_mul. lia.
      - rewrite Z.mul_1_l, <- !Z.mul_assoc, <- !Z.pow_add_r by (unfold E0; lia).
        f_equal. f_equal. lia. }
    rewrite EN.
    assert (Hp : 0 < 2 ^ (ea - eb - E0)) by (apply pow2_pos; unfold E0; lia).
    destruct (binary_round_aux_value false (Z.pos pa * 2 ^ (ea - eb - E0) / Z.pos pb)
                (new_location (Z.pos pb) ((Z.pos pa * 2 ^ (ea - eb - E0)) mod Z.pos pb))
                ltac:(apply Z.div_pos; nia)) as [G V].
    split; [exact G|]. rewrite V. unfold quotient_value. lia.
Qed.

End Division.

(** *** One coordinate of an interpolated point *)

Section InterpolationChain.
Local Open Scope Z_scope.

Lemma sval_one : sval (S754_finite false 8388608 (-23)) = 2 ^ 300.
Proof. reflexivity. Qed.

(** A positive number is a finite one of positive sign. *)
Lemma positive_number (x : spec_float) :
  number x -> 0 < sval x ->
  exists p e, x = S754_finite false p e /\ bounded 24 128 p e = true.
Proof.
  intros [V F] H. destruct x as [s|s| |s p e]; try discriminate.
  cbn [valid_binary] in V. destruct (bounded_facts p e V) as (He & _).
  assert (0 < 2 ^ (e - E0)) by (apply pow2_pos; unfold E0; lia).
  destruct s; [rewrite sval_finite in H; nia|].
  exists p, e. split; [reflexivity | exact V].
Qed.

(** The quotient of two numbers grows with the numerator. *)
Lemma SFdiv_mono (c1 c2 L : spec_float) :
  number c1 -> number c2 -> number L -> 0 < sval L ->
  0 <= sval c1 -> sval c1 <= sval c2 ->
  good (SFdiv 24 128 c1 L) /\ good (SFdiv 24 128 c2 L)
  /\ 0 <= sval (SFdiv 24 128 c1 L) <= sval (SFdiv 24 128 c2 L).
Proof.
  intros N1 N2 NL HL H1 H12.
  destruct (positive_number L NL HL) as (p & e & -> & Hb).
  destruct (bounded_facts p e Hb) as (He & _).
  destruct (SFdiv_value c1 p e N1 H1 Hb) as [G1 V1].
  destruct (SFdiv_value c2 p e N2 ltac:(lia) Hb) as [G2 V2].
  split; [exact G1|]. split; [exact G2|]. rewrite V1, V2.
  assert (A := numerator_nonneg c1 e ltac:(lia) H1).
  assert (B := numerator_mono c1 c2 e ltac:(lia) H12).
  split; [apply quotient_value_nonneg; lia | apply quotient_value_mono; lia].
Qed.

(** The interpolation factor lies between 0 and 1. *)
Lemma SFdiv_factor (c L : spec_float) :
  number c -> number L -> 0 < sval L -> 0 <= sval c <= sval L ->
  number (SFdiv 24 128 c L) /\ 0 <= sval (SFdiv 24 128 c L) <= 2 ^ 300.
Proof.
  intros Nc NL HL [H0 H1].
  destruct (SFdiv_mono c L L Nc NL NL HL H0 H1) as (G1 & _ & B0 & B1).
  assert (E : sval (SFdiv 24 128 L L) = 2 ^ 300).
  { destruct (positive_number L NL HL) as (p & e & -> & _).
    rewrite SFdiv_same. exact sval_one. }
  rewrite E in B1.
  assert (2 ^ 300 < 2 ^ 428) by (apply pow2_lt; lia).
  assert (0 < 2 ^ 428) by (apply pow2_pos; lia).
  split; [apply good_number; [exact G1 | lia] | lia].
Qed.

(** A number scaled by a factor between 0 and 1 stays a number. *)
Lemma SFmul_factor (D t : spec_float) :
  number D -> number t -> 0 <= sval t <= 2 ^ 300 -> number (SFmul 24 128 D t).
Proof.
  intros ND Nt [H0 H1]. destruct (SFmul_value D t ND Nt) as [G V].
  assert (BD := number_sval_bounds D ND). assert (ED := nearest_sval D ND).
  assert (P : 0 < 2 ^ 300) by (apply pow2_pos; lia).
  apply good_number; [exact G|]. rewrite V.
  assert (Z0 : nearest 0 = 0) by apply nearest_zero.
  destruct (Z_le_gt_dec 0 (sval D)) as [Hp|Hn].
  - assert (A : 0 <= sval D * sval t / 2 ^ 300) by (apply Z.div_pos; nia).
    assert (B : sval D * sval t / 2 ^ 300 <= sval D)
      by (apply Z.div_le_upper_bound; nia).
    assert (MA := nearest_mono _ _ A). assert (MB := nearest_mono _ _ B). lia.
  - assert (A : sval D * sval t / 2 ^ 300 <= 0).
    { apply Z.lt_succ_r. apply Z.div_lt_upper_bound; nia. }
    assert (B : sval D <= sval D * sval t / 2 ^ 300)
      by (apply Z.div_le_lower_bound; nia).
    assert (MA := nearest_mono _ _ A). assert (MB := nearest_mono _ _ B). lia.
Qed.

Lemma SFmul_mono (D t1 t2 : spec_float) :
  number D -> number t1 -> number t2 -> sval t1 <= sval t2 ->
  (0 <= sval D -> sval (SFmul 24 128 D t1) <= sval (SFmul 24 128 D t2))
  /\ (sval D <= 0 -> sval (SFmul 24 128 D t2) <= sval (SFmul 24 128 D t1)).
Proof.
  intros ND N1 N2 H. destruct (SFmul_value D t1 ND N1) as [_ V1].
  destruct (SFmul_value D t2 ND N2) as [_ V2]. rewrite V1, V2.
  assert (P : 0 < 2 ^ 300) by (apply pow2_pos; lia).
  split; intros HD; apply nearest_mono, Z.div_le_mono; nia.
Qed.

Lemma SFadd_mono (a u1 u2 : spec_float) :
  number a -> number u1 -> number u2 -> sval u1 <= sval u2 ->
  SFltb (SFadd 24 128 a u2) (SFadd 24 128 a u1) = false.
Proof.
  intros Na N1 N2 H. destruct (SFadd_value a u1 Na N1) as [G1 V1].
  destruct (SFadd_value a u2 Na N2) as [G2 V2].
  apply sval_le_not_lt; [exact G1 | exact G2|]. rewrite V1, V2.
  apply nearest_mono. lia.
Qed.

(** One coordinate of the interpolated point [a + D * (c / L)], each
    operation rounded, as a function of the clamped distance [c]: it
    does not decrease when [D] is not negative, and does not increase
    when [D] is not positive. *)
Lemma coordinate_monotone (a D L c1 c2 : spec_float) :
  number a -> number D -> number L -> 0 < sval L ->
  number c1 -> number c2 -> 0 <= sval c1 -> sval c1 <= sval c2 -> sval c2 <= sval L ->
  (0 <= sval D ->
   SFltb (SFadd 24 128 a (SFmul 24 128 D (SFdiv 24 128 c2 L)))
         (SFadd 24 128 a (SFmul 24 128 D (SFdiv 24 128 c1 L))) = false)
  /\ (sval D <= 0 ->
      SFltb (SFadd 24 128 a (SFmul 24 128 D (SFdiv 24 128 c1 L)))
            (SFadd 24 128 a (SFmul 24 128 D (SFdiv 24 128 c2 L))) = false).
Proof.
  intros Na ND NL HL N1 N2 H0 H12 H2L.
  destruct (SFdiv_factor c1 L N1 NL HL ltac:(lia)) as [T1 B1].
  destruct (SFdiv_factor c2 L N2 NL HL ltac:(lia)) as [T2 B2].
  destruct (SFdiv_mono c1 c2 L N1 N2 NL HL H0 H12) as (_ & _ & _ & HT).
  assert (U1 := SFmul_factor D _ ND T1 B1). assert (U2 := SFmul_factor D _ ND T2 B2).
  destruct (SFmul_mono D _ _ ND T1 T2 HT) as [Mp Mn].
  split; intros HD; apply SFadd_mono; auto.
Qed.

End InterpolationChain.

(** ** Interpolation along a segment, in single precision *)

Section Interpolation.

Lemma getPointAtDistance_clamped (s : WasmRoadSegment spec_float) (d : spec_float) :
  getPointAtDistance s d
  = mkVec (fadd (vx (m_startPoint s))
                (fmul (fsub (vx (m_endPoint s)) (vx (m_startPoint s)))
                      (fdiv (clamped s d) (m_length s))))
          (fadd (vy (m_startPoint s))
                (fmul (fsub (vy (m_endPoint s)) (vy (m_startPoint s)))
                      (fdiv (clamped s d) (m_length s)))).
Proof. reflexivity. Qed.

(** The clamp below: a distance that is not above 0 (a NaN included)
    becomes 0. *)
Lemma clamped_low (s : WasmRoadSegment spec_float) (d : spec_float) :
  flt f0 (m_length s) = true -> flt f0 d = false -> clamped s d = f0.
Proof.
  intros HL Hd. unfold clamped, fmin, fmax.
  destruct (flt (m_length s) d) eqn:E.
  - cbn [flt binary32] in *. rewrite (SFltb_trans _ _ _ HL E) in Hd. discriminate.
  - rewrite Hd. reflexivity.
Qed.

(** The clamp above. *)
Lemma clamped_high (s : WasmRoadSegment spec_float) (d : spec_float) :
  flt f0 (m_length s) = true -> flt (m_length s) d = true -> clamped s d = m_length s.
Proof.
  intros HL Hd. unfold clamped, fmin, fmax. rewrite Hd, HL. reflexivity.
Qed.

Lemma clamped_length (s : WasmRoadSegment spec_float) :
  flt f0 (m_length s) = true -> clamped s (m_length s) = m_length s.
Proof.
  intros HL. unfold clamped, fmin, fmax.
  destruct (flt (m_length s) (m_length s)); rewrite HL; reflexivity.
Qed.

(** What the clamp returns: 0, the length, or the distance itself when
    that lies between them. *)
Lemma clamped_cases (s : WasmRoadSegment spec_float) (d : spec_float) :
  flt f0 (m_length s) = true ->
  (clamped s d = f0 /\ flt f0 d = false)
  \/ (clamped s d = m_length s /\ flt (m_length s) d = true)
  \/ (clamped s d = d /\ flt f0 d = true /\ flt (m_length s) d = false).
Proof.
  intros HL. destruct (flt f0 d) eqn:H0.
  - destruct (flt (m_length s) d) eqn:H1.
    + right. left. split; [apply clamped_high; assumption | reflexivity].
    + right. right. split; [|split; reflexivity].
      unfold clamped, fmin, fmax. rewrite H1, H0. reflexivity.
  - left. split; [apply clamped_low; assumption | reflexivity].
Qed.

Lemma clamped_range (s : WasmRoadSegment spec_float) (d : spec_float) :
  flt f0 (m_length s) = true ->
  flt (clamped s d) f0 = false /\ flt (m_length s) (clamped s d) = false.
Proof.
  intros HL. cbn [flt binary32] in *.
  destruct (clamped_cases s d HL) as [[-> _]|[[-> _]|[-> [H0 H1]]]]; cbn [flt binary32] in *.
  - split; [apply SFltb_irrefl | apply SFltb_asym, HL].
  - split; [apply SFltb_asym, HL | apply SFltb_irrefl].
  - split; [apply SFltb_asym, H0 | exact H1].
Qed.

Lemma clamped_idempotent (s : WasmRoadSegment spec_float) (d : spec_float) :
  flt f0 (m_length s) = true -> clamped s (clamped s d) = clamped s d.
Proof.
  intros HL.
  destruct (clamped_cases s d HL) as [[E _]|[[E _]|[E [H0 H1]]]]; rewrite E.
  - apply clamped_low; [exact HL | apply SFltb_irrefl].
  - apply clamped_length, HL.
  - exact E.
Qed.

Lemma clamped_monotone (s : WasmRoadSegment spec_float) (d1 d2 : spec_float) :
  flt f0 (m_length s) = true -> flt d1 d2 = true ->
  flt (clamped s d2) (clamped s d1) = false.
Proof.
  intros HL H12. cbn [flt binary32] in *.
  destruct (clamped_cases s d1 HL) as [[E1 _]|[[E1 A1]|[E1 [A1 B1]]]]; rewrite E1;
    cbn [flt binary32] in *.
  - apply (clamped_range s d2 HL).
  - rewrite (clamped_high s d2 HL (SFltb_trans _ _ _ A1 H12)). apply SFltb_irrefl.
  - destruct (clamped_cases s d2 HL) as [[E2 A2]|[[E2 A2]|[E2 [A2 B2]]]]; rewrite E2;
      cbn [flt binary32] in *.
    + rewrite (SFltb_trans _ _ _ A1 H12) in A2. discriminate.
    + exact B1.
    + apply SFltb_asym, H12.
Qed.

(** Adding a zero to a finite number gives that number. *)
Lemma SFadd_zero (x : spec_float) (z : bool) :
  is_finite x = true ->
  SFeqb (SFadd Binary32.prec Binary32.emax x (S754_zero z)) x = true.
Proof.
  destruct x as [[]| | |sx m e]; try discriminate; intros _.
  - destruct z; reflexivity.
  - destruct z; reflexivity.
  - cbn [SFadd]. apply SFeqb_refl. discriminate.
Qed.

(** A finite difference has finite operands. *)
Lemma SFsub_finite (a b : spec_float) :
  is_finite (SFsub Binary32.prec Binary32.emax a b) = true ->
  is_finite a = true /\ is_finite b = true.
Proof.
  destruct a as [[]|[]| |sa ma ea], b as [[]|[]| |sb mb eb];
    cbn [SFsub is_finite]; try discriminate; try (split; reflexivity).
Qed.

(** The coordinate at the clamped distance 0. *)
Lemma coordinate_at_zero (a b len : spec_float) :
  is_finite (fsub b a) = true -> flt f0 len = true ->
  feq (fadd a (fmul (fsub b a) (fdiv f0 len))) a = true.
Proof.
  intros Hd HL. destruct (SFsub_finite b a Hd) as [_ Ha].
  cbn [fadd fmul fsub fdiv feq flt binary32] in *.
  assert (Hz : exists z, SFmul Binary32.prec Binary32.emax
                           (SFsub Binary32.prec Binary32.emax b a)
                           (SFdiv Binary32.prec Binary32.emax f0 len) = S754_zero z).
  { destruct len as [sl|[]| |[] ml el]; try discriminate;
      destruct (SFsub Binary32.prec Binary32.emax b a) as [sd| | |sd md ed];
      try discriminate; eexists; reflexivity. }
  destruct Hz as [z ->]. apply SFadd_zero, Ha.
Qed.

(** The clamped distance is a number between 0 and the length. *)
Lemma clamped_value (s : WasmRoadSegment spec_float) (d : spec_float) :
  number (m_length s) -> flt f0 (m_length s) = true ->
  valid_binary Binary32.prec Binary32.emax d = true ->
  number (clamped s d) /\ (0 <= sval (clamped s d) <= sval (m_length s))%Z.
Proof.
  intros NL HL Vd. assert (GL := number_good _ NL).
  assert (G0 : good f0) by (split; [reflexivity | discriminate]).
  assert (PL := SFltb_sval f0 (m_length s) G0 GL HL).
  change (sval f0) with 0%Z in PL.
  assert (BL := number_sval_bounds _ NL).
  destruct (clamped_cases s d HL) as [[-> _]|[[-> _]|[-> [H0 H1]]]].
  - split; [split; reflexivity|]. change (sval f0) with 0%Z. lia.
  - split; [exact NL | lia].
  - assert (Gd : good d).
    { split; [exact Vd|]. intros ->. discriminate H0. }
    assert (Pd := SFltb_sval f0 d G0 Gd H0). change (sval f0) with 0%Z in Pd.
    assert (Ld := not_lt_sval_le d (m_length s) Gd GL H1).
    split; [apply good_number; [exact Gd | lia] | lia].
Qed.

(** One coordinate of the point, as the distance grows. *)
Lemma coordinate_along (s : WasmRoadSegment spec_float) (a b d1 d2 : spec_float) :
  valid_binary Binary32.prec Binary32.emax a = true ->
  valid_binary Binary32.prec Binary32.emax b = true ->
  is_finite (fsub b a) = true ->
  number (m_length s) -> flt f0 (m_length s) = true ->
  valid_binary Binary32.prec Binary32.emax d1 = true ->
  valid_binary Binary32.prec Binary32.emax d2 = true ->
  flt d1 d2 = true ->
  (flt (fsub b a) f0 = false ->
   flt (fadd a (fmul (fsub b a) (fdiv (clamped s d2) (m_length s))))
       (fadd a (fmul (fsub b a) (fdiv (clamped s d1) (m_length s)))) = false)
  /\ (flt f0 (fsub b a) = false ->
      flt (fadd a (fmul (fsub b a) (fdiv (clamped s d1) (m_length s))))
          (fadd a (fmul (fsub b a) (fdiv (clamped s d2) (m_length s)))) = false).
Proof.
  intros Va Vb Hd NL HL V1 V2 H12.
  destruct (SFsub_finite b a Hd) as [Fb Fa].
  assert (Na : number a) by (split; assumption).
  assert (Nb : number b) by (split; assumption).
  assert (G0 : good f0) by (split; [reflexivity | discriminate]).
  assert (GL := number_good _ NL).
  assert (PL := SFltb_sval f0 (m_length s) G0 GL HL).
  change (sval f0) with 0%Z in PL.
  destruct (SFsub_value b a Nb Na) as [GD _].
  assert (ND : number (fsub b a)) by (split; [apply GD | exact Hd]).
  destruct (clamped_value s d1 NL HL V1) as [N1 [L1 U1]].
  destruct (clamped_value s d2 NL HL V2) as [N2 [L2 U2]].
  assert (M := clamped_monotone s d1 d2 HL H12).
  assert (H := not_lt_sval_le _ _ (number_good _ N1) (number_good _ N2) M).
  destruct (coordinate_monotone a (fsub b a) (m_length s) (clamped s d1) (clamped s d2)
              Na ND NL PL N1 N2 L1 H U2) as [Cp Cn].
  split; intros HD.
  - apply Cp. apply (not_lt_sval_le f0 (fsub b a) G0 (number_good _ ND)) in HD.
    exact HD.
  - apply Cn. apply (not_lt_sval_le (fsub b a) f0 (number_good _ ND) G0) in HD.
    exact HD.
Qed.

(** C7, amended.  In single precision, for a segment whose length is a
    positive finite number and whose end points have a finite difference
    in both coordinates: at every distance that is not above 0, the point
    is the start point; at the distance [length] the interpolation factor
    is exactly 1, so that the point is start + (end - start) * 1 with each
    operation rounded, and that is start + (end - start) rounded twice
    when the differences are valid numbers; every distance above [length]
    gives that same point; the point at [d] is the point at [d] clamped,
    the clamped distance lies in [0, length] and does not decrease when
    [d] grows; the point at [d] is
    start + (end - start) * (clamped d / length), each operation rounded;
    and, when the coordinates of the end points, the length and the
    distances are valid single-precision numbers, the point moves along
    the direction of the segment as the distance grows: for [d1 < d2],
    a coordinate in which the end point is not below the start point is
    not smaller at [d2] than at [d1], and a coordinate in which the end
    point is not above the start point is not greater at [d2] than at
    [d1]. *)
Theorem pointAtDistance_single_precision_clamped (s : WasmRoadSegment spec_float) :
  flt f0 (m_length s) = true -> is_finite (m_length s) = true ->
  is_finite (fsub (vx (m_endPoint s)) (vx (m_startPoint s))) = true ->
  is_finite (fsub (vy (m_endPoint s)) (vy (m_startPoint s))) = true ->
  (forall d, flt f0 d = false ->
     feq (vx (getPointAtDistance s d)) (vx (m_startPoint s)) = true
     /\ feq (vy (getPointAtDistance s d)) (vy (m_startPoint s)) = true)
  /\ getPointAtDistance s (m_length s)
     = mkVec (fadd (vx (m_startPoint s))
                   (fmul (fsub (vx (m_endPoint s)) (vx (m_startPoint s))) (f_lit 1 1)))
             (fadd (vy (m_startPoint s))
                   (fmul (fsub (vy (m_endPoint s)) (vy (m_startPoint s))) (f_lit 1 1)))
  /\ (valid_binary Binary32.prec Binary32.emax
        (fsub (vx (m_endPoint s)) (vx (m_startPoint s))) = true ->
      valid_binary Binary32.prec Binary32.emax
        (fsub (vy (m_endPoint s)) (vy (m_startPoint s))) = true ->
      getPointAtDistance s (m_length s)
      = mkVec (fadd (vx (m_startPoint s)) (fsub (vx (m_endPoint s)) (vx (m_startPoint s))))
              (fadd (vy (m_startPoint s)) (fsub (vy (m_endPoint s)) (vy (m_startPoint s)))))
  /\ (forall d, flt (m_length s) d = true ->
        getPointAtDistance s d = getPointAtDistance s (m_length s))
  /\ (forall d, getPointAtDistance s d = getPointAtDistance s (clamped s d)
                /\ flt (clamped s d) f0 = false
                /\ flt (m_length s) (clamped s d) = false)
  /\ (forall d1 d2, flt d1 d2 = true -> flt (clamped s d2) (clamped s d1) = false)
  /\ (forall d,
        getPointAtDistance s d
        = mkVec (fadd (vx (m_startPoint s))
                      (fmul (fsub (vx (m_endPoint s)) (vx (m_startPoint s)))
                            (fdiv (clamped s d) (m_length s))))
                (fadd (vy (m_startPoint s))
                      (fmul (fsub (vy (m_endPoint s)) (vy (m_startPoint s)))
                            (fdiv (clamped s d) (m_length s)))))
  /\ (valid_binary Binary32.prec Binary32.emax (vx (m_startPoint s)) = true ->
      valid_binary Binary32.prec Binary32.emax (vy (m_startPoint s)) = true ->
      valid_binary Binary32.prec Binary32.emax (vx (m_endPoint s)) = true ->
      valid_binary Binary32.prec Binary32.emax (vy (m_endPoint s)) = true ->
      valid_binary Binary32.prec Binary32.emax (m_length s) = true ->
      forall d1 d2,
        valid_binary Binary32.prec Binary32.emax d1 = true ->
        valid_binary Binary32.prec Binary32.emax d2 = true ->
        flt d1 d2 = true ->
        (flt (fsub (vx (m_endPoint s)) (vx (m_startPoint s))) f0 = false ->
         flt (vx (getPointAtDistance s d2)) (vx (getPointAtDistance s d1)) = false)
        /\ (flt f0 (fsub (vx (m_endPoint s)) (vx (m_startPoint s))) = false ->
            flt (vx (getPointAtDistance s d1)) (vx (getPointAtDistance s d2)) = false)
        /\ (flt (fsub (vy (m_endPoint s)) (vy (m_startPoint s))) f0 = false ->
            flt (vy (getPointAtDistance s d2)) (vy (getPointAtDistance s d1)) = false)
        /\ (flt f0 (fsub (vy (m_endPoint s)) (vy (m_startPoint s))) = false ->
            flt (vy (getPointAtDistance s d1)) (vy (getPointAtDistance s d2)) = false)).
Proof.
  intros HL HF Hx Hy.
  assert (Hend : getPointAtDistance s (m_length s)
     = mkVec (fadd (vx (m_startPoint s))
                   (fmul (fsub (vx (m_endPoint s)) (vx (m_startPoint s))) (f_lit 1 1)))
             (fadd (vy (m_startPoint s))
                   (fmul (fsub (vy (m_endPoint s)) (vy (m_startPoint s))) (f_lit 1 1)))).
  { rewrite getPointAtDistance_clamped, (clamped_length s HL).
    assert (E : fdiv (m_length s) (m_length s) = f_lit 1 1).
    { destruct (m_length s) as [?|?| |sl ml el]; try discriminate. apply SFdiv_same. }
    rewrite E. reflexivity. }
  split; [|split; [|split; [|split; [|split; [|split; [|split]]]]]].
  - intros d Hd. rewrite getPointAtDistance_clamped, (clamped_low s d HL Hd). cbn [vx vy].
    split; apply coordinate_at_zero; assumption.
  - exact Hend.
  - intros Vx Vy. rewrite Hend. cbn [fmul binary32].
    change (f_lit 1 1) with (Binary32.of_Z 1).
    rewrite (SFmul_one _ Vx), (SFmul_one _ Vy). reflexivity.
  - intros d Hd.
    rewrite (getPointAtDistance_clamped s d), (getPointAtDistance_clamped s (m_length s)).
    rewrite (clamped_high s d HL Hd), (clamped_length s HL). reflexivity.
  - intros d. split; [|apply (clamped_range s d HL)].
    rewrite (getPointAtDistance_clamped s d), (getPointAtDistance_clamped s (clamped s d)).
    rewrite (clamped_idempotent s d HL). reflexivity.
  - intros d1 d2. apply (clamped_monotone s d1 d2 HL).
  - intros d. apply getPointAtDistance_clamped.
  - intros Vsx Vsy Vex Vey VL d1 d2 V1 V2 H12.
    assert (NL : number (m_length s)) by (split; assumption).
    rewrite (getPointAtDistance_clamped s d1), (getPointAtDistance_clamped s d2).
    cbn [vx vy].
    destruct (coordinate_along s _ _ d1 d2 Vsx Vex Hx NL HL V1 V2 H12) as [Xp Xn].
    destruct (coordinate_along s _ _ d1 d2 Vsy Vey Hy NL HL V1 V2 H12) as [Yp Yn].
    split; [exact Xp|]. split; [exact Xn|]. split; [exact Yp | exact Yn].
Qed.

End Interpolation.

(** ** Route search *)

(** *** The neighbour loop *)

(** *** The search loop: it ends, and what it finds was reached *)

Section Search.
Context {F : Type} {fl : FloatOps F} {pq : OpenSetOrder F}.

Lemma chained_snoc (net : WasmRoadNetwork F) (l : list N) (a b : N) :
  chained net l -> last l = Some a -> linked net a b -> chained net (l ++ [b]).
Proof.
  induction l as [|x l IH]; intros Hc Hl Hab; [discriminate|].
  destruct l as [|y l].
  - simpl in *. injection Hl as ->. tauto.
  - destruct Hc as [Hxy Hc]. change ((x :: y :: l) ++ [b]) with (x :: ((y :: l) ++ [b])).
    change (chained net (x :: (y :: l) ++ [b]))
      with (linked net x y /\ chained net ((y :: l) ++ [b])).
    split; [exact Hxy|]. apply IH; [exact Hc | exact Hl | exact Hab].
Qed.

Lemma reach_route (net : WasmRoadNetwork F) (start b : N) :
  reach net start b ->
  exists l, routeBetween net start b l /\ Forall (fun x => x < 100) (tail l).
Proof.
  induction 1 as [|a b _ (l & (Hh & Hl & Hc) & Hall) Hab Hb].
  - exists [start]. split; [repeat split|]. simpl. constructor.
  - exists (l ++ [b]). destruct l as [|x l]; [discriminate|]. split.
    + split; [exact Hh|]. split; [apply last_snoc|].
      apply (chained_snoc net (x :: l) a b Hc Hl Hab).
    + simpl in *. apply Forall_app. split; [exact Hall|]. constructor; [exact Hb | constructor].
Qed.

Lemma neighborStep_spec (net : WasmRoadNetwork F) (em : WasmVector2D F) (cur : N)
    (road : WasmRoadSegment F) (st : SearchState F) (id : N) :
  let st' := neighborStep net em cur road st id in
  closedSet st' = closedSet st
  /\ (openSet st' = openSet st
      \/ exists node nb, openSet st' = openSet st ++ [node] /\ roadId node = id
                         /\ getRoadSegment net id = Some nb /\ connected road nb = true).
Proof.
  unfold neighborStep. destruct (id =? cur); [tauto|].
  destruct (getRoadSegment net id) as [nb|] eqn:Hnb; [|tauto].
  destruct (connected road nb) eqn:Hc; simpl; [|tauto].
  destruct (bool_decide (id ∈ closedSet st)); [tauto|].
  destruct (match gScores st !! id with Some g => _ | None => false end); [tauto|].
  simpl. split; [reflexivity|]. right. eexists _, nb. repeat split; assumption.
Qed.

Lemma neighborLoop_spec (net : WasmRoadNetwork F) (em : WasmVector2D F) (cur : N)
    (road : WasmRoadSegment F) (ids : list N) (st : SearchState F) :
  let st' := foldl (neighborStep net em cur road) st ids in
  closedSet st' = closedSet st
  /\ exists pushed, openSet st' = openSet st ++ pushed
       /\ (length pushed <= length ids)%nat
       /\ Forall (fun node => In (roadId node) ids
                    /\ exists nb, getRoadSegment net (roadId node) = Some nb
                                  /\ connected road nb = true) pushed.
Proof.
  revert st. induction ids as [|id ids IH]; intros st; simpl.
  - split; [reflexivity|]. exists []. rewrite app_nil_r. repeat split; constructor.
  - destruct (IH (neighborStep net em cur road st id)) as (Hc & pushed & Ho & Hlen & Hall).
    destruct (neighborStep_spec net em cur road st id) as (Hc1 & Ho1).
    split; [congruence|].
    assert (Hall' : Forall (fun node => In (roadId node) (id :: ids)
                    /\ exists nb, getRoadSegment net (roadId node) = Some nb
                                  /\ connected road nb = true) pushed).
    { eapply Forall_impl; [exact Hall|]. intros n [? ?]. split; [right|]; assumption. }
    destruct Ho1 as [Ho1|(node & nb & Ho1 & Hid & Hnb & Hcon)].
    + exists pushed. rewrite Ho, Ho1. split; [reflexivity|]. split; [lia | exact Hall'].
    + exists (node :: pushed). rewrite Ho, Ho1, <- app_assoc. split; [reflexivity|].
      split; [simpl; lia|]. constructor; [|exact Hall'].
      split; [left; symmetry; exact Hid|]. exists nb. rewrite Hid. tauto.
Qed.

Lemma candidates_size (startRoadId : N) : (size (candidates startRoadId) <= 101)%nat.
Proof.
  unfold candidates. rewrite list_to_set_cons, size_union_alt, size_singleton.
  assert (size (list_to_set (idsBelow 100) ∖ {[startRoadId]} : gset N) <= 100)%nat; [|lia].
  etransitivity; [apply subseteq_size, subseteq_difference_l; reflexivity|].
  rewrite size_list_to_set by (apply NoDup_ListNoDup, NoDup_idsBelow). reflexivity.
Qed.

Lemma idsBelow_candidate (startRoadId id : N) :
  In id (idsBelow 100) -> id ∈ candidates startRoadId.
Proof.
  intros Hin. unfold candidates. rewrite list_to_set_cons, elem_of_union, elem_of_list_to_set.
  right. apply list_elem_of_In. exact Hin.
Qed.

Lemma searchLoop_spec (net : WasmRoadNetwork F) (em : WasmVector2D F)
    (startRoadId endRoadId : N) (fuel : nat) (st : SearchState F) :
  searchInvariant net startRoadId st ->
  (searchMeasure startRoadId st < fuel)%nat ->
  exists endNode nodes,
    searchLoop fuel net em endRoadId st = Some (endNode, nodes)
    /\ (endNode <> None -> reach net startRoadId endRoadId).
Proof.
  revert st. induction fuel as [|fuel IH]; intros st Hinv Hm; [lia|].
  cbn [searchLoop]. destruct (openSet st) as [|n0 l0] eqn:Ho.
  - rewrite pq_pop_nil. eexists _, _. split; [reflexivity | congruence].
  - destruct (pq_pop_cons (n0 :: l0)) as (cur & l1 & l2 & -> & Hl); [congruence|].
    unfold searchInvariant in Hinv. rewrite Ho, Hl in Hinv.
    apply Forall_app in Hinv as [Hinv1 Hinv2]. apply Forall_cons in Hinv2 as [[HcU Hcr] Hinv2].
    assert (Hrest : Forall (fun node => roadId node ∈ candidates startRoadId
                                        /\ reach net startRoadId (roadId node)) (l1 ++ l2))
      by (apply Forall_app; tauto).
    assert (Hlen : length (openSet st) = S (length (l1 ++ l2))).
    { rewrite Ho, Hl, !length_app. simpl. lia. }
    unfold searchMeasure in Hm. rewrite Hlen in Hm. cbn [closedSet openSet gScores nodeMap].
    destruct (bool_decide (roadId cur ∈ closedSet st)) eqn:Hcl.
    + apply IH; [exact Hrest | unfold searchMeasure; simpl; lia].
    + apply bool_decide_eq_false in Hcl.
      destruct (roadId cur =? endRoadId) eqn:He.
      * apply N.eqb_eq in He. eexists _, _. split; [reflexivity|]. intros _.
        rewrite <- He. exact Hcr.
      * assert (Hsz : (S (size (candidates startRoadId ∖ ({[roadId cur]} ∪ closedSet st)))
                       <= size (candidates startRoadId ∖ closedSet st))%nat).
        { assert (E : candidates startRoadId ∖ closedSet st
                      = {[roadId cur]} ∪ candidates startRoadId ∖ ({[roadId cur]} ∪ closedSet st)).
          { apply set_eq. intros x.
            rewrite elem_of_union, !elem_of_difference, elem_of_union, elem_of_singleton.
            destruct (decide (x = roadId cur)) as [->|Hx]; tauto. }
          assert (D : ({[roadId cur]} : gset N)
                      ## candidates startRoadId ∖ ({[roadId cur]} ∪ closedSet st)).
          { apply disjoint_singleton_l.
            rewrite elem_of_difference, elem_of_union, elem_of_singleton. tauto. }
          apply size_union in D. rewrite size_singleton in D. rewrite E, D. lia. }
        destruct (getRoadSegment net (roadId cur)) as [road|] eqn:Hroad.
        -- destruct (neighborLoop_spec net em (roadId cur) road (idsBelow 100)
                       (mkSearch (l1 ++ l2) (gScores st) ({[roadId cur]} ∪ closedSet st)
                                 (nodeMap st))) as (Hc & pushed & Hop & Hpl & Hpa).
           cbn [closedSet openSet] in Hc, Hop. apply IH.
           ++ unfold searchInvariant. rewrite Hop. apply Forall_app. split; [exact Hrest|].
              eapply Forall_impl; [exact Hpa|]. intros node [Hin (nb & Hnb & Hcon)].
              split; [apply idsBelow_candidate, Hin|].
              apply (reach_step net startRoadId (roadId cur)); [exact Hcr | | apply In_idsBelow, Hin].
              exists road, nb. tauto.
           ++ unfold searchMeasure. rewrite Hc, Hop, length_app.
              rewrite length_idsBelow in Hpl. change (N.to_nat 100) with 100%nat in Hpl. lia.
        -- apply IH; [exact Hrest | unfold searchMeasure; simpl; lia].
Qed.

Lemma searchFuel_enough (startRoadId : N) (n : Node F) (g : gmap N F) (m : gmap N (Node F)) :
  (searchMeasure startRoadId (mkSearch [n] g ∅ m) < searchFuel)%nat.
Proof.
  unfold searchMeasure, searchFuel. simpl openSet. simpl closedSet.
  assert (H := candidates_size startRoadId).
  assert (size (candidates startRoadId ∖ ∅) <= size (candidates startRoadId))%nat
    by (apply subseteq_size, subseteq_difference_l; reflexivity).
  simpl length. lia.
Qed.

(** The search finds nothing when the end segment cannot be reached. *)
Lemma findPathIn_unreached (net : WasmRoadNetwork F) (startX startY endX endY : F) :
  let a := findNearestRoadSegment net startX startY (f_lit 50 1) in
  let b := findNearestRoadSegment net endX endY (f_lit 50 1) in
  a <> b -> ~ reach net a b ->
  findPathIn net startX startY endX endY = Some [].
Proof.
  intros a b Hab Hnr. unfold findPathIn. fold a b.
  destruct ((a =? INVALID_ID) || (b =? INVALID_ID)); [reflexivity|].
  rewrite (proj2 (N.eqb_neq a b) Hab).
  destruct (getRoadSegment net a) as [ra|]; [|reflexivity].
  destruct (getRoadSegment net b) as [rb|]; [|reflexivity].
  match goal with
  | |- context [searchLoop _ _ ?em _ ?st] =>
      destruct (searchLoop_spec net em a b searchFuel st) as (endNode & nodes & -> & Hr)
  end.
  - constructor; [|constructor]. simpl. split; [|constructor].
    unfold candidates. rewrite list_to_set_cons, elem_of_union, elem_of_singleton. tauto.
  - apply searchFuel_enough.
  - simpl. destruct endNode as [node|]; [|reflexivity].
    exfalso. apply Hnr, Hr. congruence.
Qed.

End Search.

(** ** Networks built through the interface of [WasmRoadNetwork] *)

Section Built.
Context {F : Type} {fl : FloatOps F}.

Lemma connectRoad_segments (net : WasmRoadNetwork F) (i r : N) (isStart : bool) :
  dom (m_roadSegments (connectRoad net i r isStart)) = dom (m_roadSegments net)
  /\ m_nextRoadId (connectRoad net i r isStart) = m_nextRoadId net.
Proof. unfold connectRoad. simpl. rewrite dom_alter_L. tauto. Qed.

Lemma connectLoop_segments (i r1 r2 : N) (l1 l2 : list N) (net : WasmRoadNetwork F) :
  let net' :=
    foldl (fun net lane1 =>
             foldl (fun net lane2 =>
                      let net := defineConnectionIn net i r1 lane1 r2 lane2 in
                      defineConnectionIn net i r2 lane2 r1 lane1) net l2) net l1 in
  m_roadSegments net' = m_roadSegments net /\ m_nextRoadId net' = m_nextRoadId net.
Proof.
  cbv zeta. revert net. induction l1 as [|lane1 l1 IH]; intros net; cbn [foldl]; [tauto|].
  destruct (IH (foldl (fun net lane2 =>
                         defineConnectionIn (defineConnectionIn net i r1 lane1 r2 lane2)
                                            i r2 lane2 r1 lane1) net l2)) as [-> ->].
  clear IH. revert net. induction l2 as [|lane2 l2 IH]; intros net; cbn [foldl]; [tauto|].
  destruct (IH (defineConnectionIn (defineConnectionIn net i r1 lane1 r2 lane2)
                                   i r2 lane2 r1 lane1)) as [-> ->].
  simpl. tauto.
Qed.

Lemma connectWithIntersection_segments (net : WasmRoadNetwork F) (a b : N) (ea eb : bool) :
  dom (m_roadSegments (connectWithIntersection net a ea b eb).2) = dom (m_roadSegments net)
  /\ m_nextRoadId (connectWithIntersection net a ea b eb).2 = m_nextRoadId net.
Proof.
  unfold connectWithIntersection.
  destruct (getRoadSegment net a) as [ra|]; [|tauto].
  destruct (getRoadSegment net b) as [rb|]; [|tauto].
  cbv zeta. unfold createIntersection. cbv iota beta. cbn [snd].
  match goal with
  | |- context [foldl ?f ?n (idsBelow (getLaneCount ra))] =>
      destruct (connectLoop_segments (m_nextIntersectionId net) a b
                  (idsBelow (getLaneCount ra)) (idsBelow (getLaneCount rb)) n) as [E1 E2]
  end.
  cbv zeta in E1, E2. rewrite E1, E2.
  split.
  - rewrite (proj1 (connectRoad_segments _ _ _ _)), (proj1 (connectRoad_segments _ _ _ _)).
    reflexivity.
  - rewrite (proj2 (connectRoad_segments _ _ _ _)), (proj2 (connectRoad_segments _ _ _ _)).
    reflexivity.
Qed.

Lemma built_dense (net : WasmRoadNetwork F) : built net -> dense net.
Proof.
  induction 1 as [|net x1 y1 x2 y2 _ IH|net x y _ IH|net a ea b eb _ IH
                  |net i r s _ IH|net i r1 l1 r2 l2 _ IH|net r w t _ IH|net _ IH];
    unfold dense in *; intros id.
  - simpl. rewrite dom_empty_L, elem_of_empty. lia.
  - simpl. rewrite dom_insert_L, elem_of_union, elem_of_singleton, IH. lia.
  - simpl. apply IH.
  - destruct (connectWithIntersection_segments net a b ea eb) as [-> ->]. apply IH.
  - destruct (connectRoad_segments net i r s) as [-> ->]. apply IH.
  - simpl. apply IH.
  - unfold addLaneAt. simpl. rewrite dom_alter_L. apply IH.
  - simpl. rewrite dom_empty_L, elem_of_empty. lia.
Qed.

Lemma dense_size (net : WasmRoadNetwork F) :
  dense net -> size (m_roadSegments net) = N.to_nat (m_nextRoadId net).
Proof.
  intros Hd. rewrite <- size_dom.
  assert (E : dom (m_roadSegments net) = list_to_set (idsBelow (m_nextRoadId net))).
  { apply set_eq. intros id. rewrite (Hd id), elem_of_list_to_set, list_elem_of_In.
    symmetry. apply In_idsBelow. }
  rewrite E, size_list_to_set by (apply NoDup_ListNoDup, NoDup_idsBelow).
  apply length_idsBelow.
Qed.

(** In a built network of two segments these are the segments 0 and 1. *)
Lemma built_two_segments (net : WasmRoadNetwork F) (id : N) :
  built net -> size (m_roadSegments net) = 2%nat ->
  is_Some (getRoadSegment net id) -> id < 2.
Proof.
  intros Hb Hs Hid. apply built_dense in Hb. rewrite (dense_size net Hb) in Hs.
  unfold getRoadSegment in Hid. apply elem_of_dom, (Hb id) in Hid. lia.
Qed.

End Built.

(** ** The search on a chain of two segments *)

Section Chain.
Context {F : Type} {fl : FloatOps F} {pq : OpenSetOrder F}.

Lemma pq_pop_singleton (n : Node F) : pq_pop [n] = Some (n, []).
Proof.
  destruct (pq_pop_cons [n]) as (m & l1 & l2 & -> & E); [congruence|].
  destruct l1 as [|x l1].
  - simpl in E. injection E as <- <-. reflexivity.
  - destruct l1; discriminate E.
Qed.

Lemma neighborLoop_only (net : WasmRoadNetwork F) (em : WasmVector2D F) (cur : N)
    (road : WasmRoadSegment F) (b : N) (ids : list N) (st : SearchState F) :
  (forall st id, id <> b -> neighborStep net em cur road st id = st) ->
  List.NoDup ids -> In b ids ->
  foldl (neighborStep net em cur road) st ids = neighborStep net em cur road st b.
Proof.
  intros Hskip. revert st. induction ids as [|id ids IH]; intros st Hnd Hin; [destruct Hin|].
  apply List.NoDup_cons_iff in Hnd as [Hni Hnd]. simpl.
  destruct (N.eq_dec id b) as [->|Hne].
  - clear IH Hin. generalize (neighborStep net em cur road st b). intros st'.
    induction ids as [|id ids IH]; [reflexivity|]. simpl.
    rewrite Hskip by (intros ->; apply Hni; left; reflexivity).
    apply IH. intros Hin. apply Hni. right. exact Hin.
    apply List.NoDup_cons_iff in Hnd. tauto.
  - rewrite (Hskip st id Hne). apply IH; [exact Hnd|].
    destruct Hin as [->|Hin]; [congruence | exact Hin].
Qed.

Lemma searchLoop_expand (net : WasmRoadNetwork F) (em : WasmVector2D F) (e : N)
    (fuel : nat) (st : SearchState F) (cur : Node F) (rest : list (Node F))
    (road : WasmRoadSegment F) :
  pq_pop (openSet st) = Some (cur, rest) -> roadId cur ∉ closedSet st ->
  roadId cur <> e -> getRoadSegment net (roadId cur) = Some road ->
  searchLoop (S fuel) net em e st
  = searchLoop fuel net em e
      (foldl (neighborStep net em (roadId cur) road)
             (mkSearch rest (gScores st) ({[roadId cur]} ∪ closedSet st) (nodeMap st))
             (idsBelow 100)).
Proof.
  intros Hpop Hcl Hne Hroad. cbn [searchLoop]. rewrite Hpop.
  cbn [openSet gScores closedSet nodeMap].
  rewrite (bool_decide_eq_false_2 _ Hcl), (proj2 (N.eqb_neq _ _) Hne), Hroad.
  reflexivity.
Qed.

Lemma searchLoop_found (net : WasmRoadNetwork F) (em : WasmVector2D F) (e : N)
    (fuel : nat) (st : SearchState F) (cur : Node F) (rest : list (Node F)) :
  pq_pop (openSet st) = Some (cur, rest) -> roadId cur ∉ closedSet st ->
  roadId cur = e ->
  searchLoop (S fuel) net em e st = Some (nodeMap st !! e, nodeMap st).
Proof.
  intros Hpop Hcl He. cbn [searchLoop]. rewrite Hpop.
  cbn [openSet gScores closedSet nodeMap].
  rewrite (bool_decide_eq_false_2 _ Hcl), (proj2 (N.eqb_eq _ _) He), He.
  reflexivity.
Qed.

Lemma neighborStep_push (net : WasmRoadNetwork F) (em : WasmVector2D F) (A B : N)
    (ra rb : WasmRoadSegment F) (st : SearchState F) :
  A <> B -> getRoadSegment net B = Some rb -> connected ra rb = true ->
  B ∉ closedSet st -> gScores st !! B = None ->
  neighborStep net em A ra st B
  = let g := fadd (default f0 (gScores st !! A)) (m_length ra) in
    let node := mkNode B g (fadd g (heuristic em rb))
                       ((fun _ => A) <$> nodeMap st !! A) in
    mkSearch (openSet st ++ [node]) (<[B := g]> (gScores st)) (closedSet st)
             (<[B := node]> (nodeMap st)).
Proof.
  intros HAB HB Hcon Hcl Hg. unfold neighborStep.
  rewrite (proj2 (N.eqb_neq B A)) by congruence.
  rewrite HB, Hcon. cbn [negb].
  rewrite (bool_decide_eq_false_2 _ Hcl), Hg. reflexivity.
Qed.

Lemma searchLoop_chain (net : WasmRoadNetwork F) (em : WasmVector2D F) (fuel : nat)
    (A B : N) (ra rb : WasmRoadSegment F) (h : F) :
  (forall id, is_Some (getRoadSegment net id) -> id = A \/ id = B) ->
  A <> B -> B < 100 ->
  getRoadSegment net A = Some ra -> getRoadSegment net B = Some rb ->
  connected ra rb = true ->
  let startNode := mkNode A f0 h None in
  let nodeB := mkNode B (fadd f0 (m_length ra))
                      (fadd (fadd f0 (m_length ra)) (heuristic em rb)) (Some A) in
  searchLoop (S (S fuel)) net em B
             (mkSearch [startNode] ({[A := f0]} : gmap N F) (∅ : gset N)
                       ({[A := startNode]} : gmap N (Node F)))
  = Some (Some nodeB, <[B := nodeB]> ({[A := startNode]} : gmap N (Node F))).
Proof.
  intros Honly HAB HB100 HA HB Hcon startNode nodeB.
  set (st0 := mkSearch [] ({[A := f0]} : gmap N F) ({[A]} ∪ ∅ : gset N)
                       ({[A := startNode]} : gmap N (Node F))).
  set (st1 := mkSearch [nodeB] (<[B := fadd f0 (m_length ra)]> ({[A := f0]} : gmap N F))
                       ({[A]} ∪ ∅ : gset N)
                       (<[B := nodeB]> ({[A := startNode]} : gmap N (Node F)))).
  assert (HnB : B ∉ ({[A]} ∪ ∅ : gset N)).
  { intros Hin. apply elem_of_union in Hin as [Hin|Hin];
      [apply elem_of_singleton in Hin; congruence | apply elem_of_empty in Hin; exact Hin]. }
  assert (E1 : foldl (neighborStep net em A ra) st0 (idsBelow 100) = st1).
  { rewrite (neighborLoop_only net em A ra B).
    - rewrite (neighborStep_push net em A B ra rb st0 HAB HB Hcon HnB).
      + unfold st0, st1, nodeB. cbn [openSet gScores closedSet nodeMap].
        rewrite !lookup_singleton_eq. reflexivity.
      + unfold st0. cbn [gScores]. apply lookup_singleton_ne. exact HAB.
    - intros st id Hne. unfold neighborStep.
      destruct (N.eqb_spec id A) as [->|HidA]; [reflexivity|].
      destruct (getRoadSegment net id) eqn:E; [|reflexivity].
      destruct (Honly id) as [->| ->]; [eauto | congruence | congruence].
    - apply NoDup_idsBelow.
    - apply In_idsBelow. exact HB100. }
  set (stI := mkSearch [startNode] ({[A := f0]} : gmap N F) (∅ : gset N)
                       ({[A := startNode]} : gmap N (Node F))).
  rewrite (searchLoop_expand net em B (S fuel) stI startNode [] ra
             (pq_pop_singleton startNode) (not_elem_of_empty _) HAB HA).
  change (mkSearch [] (gScores stI) ({[roadId startNode]} ∪ closedSet stI) (nodeMap stI))
    with st0.
  change (roadId startNode) with A. rewrite E1.
  rewrite (searchLoop_found net em B fuel st1 nodeB [] (pq_pop_singleton nodeB) HnB eq_refl).
  unfold st1. cbn [nodeMap]. rewrite lookup_insert_eq. reflexivity.
Qed.

Lemma findPathIn_chain (net : WasmRoadNetwork F) (startX startY endX endY : F)
    (A B : N) (ra rb : WasmRoadSegment F) :
  findNearestRoadSegment net startX startY (f_lit 50 1) = A ->
  findNearestRoadSegment net endX endY (f_lit 50 1) = B ->
  (forall id, is_Some (getRoadSegment net id) -> id = A \/ id = B) ->
  A <> B -> A < 100 -> B < 100 ->
  getRoadSegment net A = Some ra -> getRoadSegment net B = Some rb ->
  connected ra rb = true ->
  findPathIn net startX startY endX endY = Some [(A, 0); (B, 0)].
Proof.
  intros HnA HnB Honly HAB HA100 HB100 HA HB Hcon.
  assert (Hinv : INVALID_ID = 4294967295) by reflexivity.
  unfold findPathIn. rewrite HnA, HnB.
  rewrite (proj2 (N.eqb_neq A INVALID_ID)) by lia.
  rewrite (proj2 (N.eqb_neq B INVALID_ID)) by lia.
  rewrite (proj2 (N.eqb_neq A B)) by exact HAB. simpl orb. cbv iota.
  rewrite HA, HB. cbv zeta.
  change searchFuel with (S (S (101 * 101))).
  rewrite (searchLoop_chain net _ _ A B ra rb _ Honly HAB HB100 HA HB Hcon).
  cbn [mbind option_bind].
  rewrite map_size_insert_None by (rewrite lookup_singleton_ne by congruence; reflexivity).
  rewrite map_size_singleton.
  cbn [followParents parent mbind option_bind roadId app].
  rewrite lookup_insert_ne by congruence. rewrite lookup_singleton_eq.
  cbn [followParents parent mbind option_bind roadId app].
  reflexivity.
Qed.

End Chain.

(** ** Routes through the facade *)

Section Routes.
Context {F : Type} {fl : FloatOps F} {reg : ComponentRegistry} {cfg : BuildConfig}
        {pq : OpenSetOrder F}.

Lemma createPath_no_route (heap : Heap F) (sim : WasmTrafficSimulation F)
    (vehicleId : N) (startX startY endX endY : F) :
  findPath heap sim startX startY endX endY = Some [] ->
  createPath heap sim vehicleId startX startY endX endY = Some (false, sim).
Proof.
  intros Hp. unfold createPath. destruct (m_roadNetwork sim); [|reflexivity].
  destruct (negb (entityExists (m_world sim) vehicleId)); [reflexivity|].
  rewrite Hp. reflexivity.
Qed.

Lemma route_end_in_tail (net : WasmRoadNetwork F) (a b : N) (l : list N) :
  routeBetween net a b l -> a <> b -> In b (tail l).
Proof.
  intros (Hh & Hl & _) Hab. destruct l as [|x l]; [discriminate|].
  simpl in Hh. injection Hh as ->. simpl.
  destruct l as [|y l]; [simpl in Hl; congruence|].
  apply list_elem_of_In. apply last_Some_elem_of. rewrite last_cons_cons in Hl. exact Hl.
Qed.

(** C4. In a built network of two segments that share an intersection, a
    query whose points resolve to the one and the other yields the two
    segments in order, each on lane 0.  When a point resolves to no
    segment within the search radius, or no route links the two segments,
    the path is empty and [createPath] returns false. *)
Theorem findPath_chain_and_failures (heap : Heap F) (sim : WasmTrafficSimulation F)
    (p : N) (net : WasmRoadNetwork F) (vehicleId : N) (startX startY endX endY : F) :
  m_roadNetwork sim = Some p -> heap !! p = Some net ->
  let A := findNearestRoadSegment net startX startY (f_lit 50 1) in
  let B := findNearestRoadSegment net endX endY (f_lit 50 1) in
  (built net -> size (m_roadSegments net) = 2%nat -> A <> B -> linked net A B ->
   findPath heap sim startX startY endX endY = Some [(A, 0); (B, 0)])
  /\ (A = INVALID_ID \/ B = INVALID_ID
      \/ (A <> B /\ forall l, ~ routeBetween net A B l) ->
      findPath heap sim startX startY endX endY = Some []
      /\ createPath heap sim vehicleId startX startY endX endY = Some (false, sim)).
Proof.
  intros Hp Hnet A B.
  assert (Hfind : findPath heap sim startX startY endX endY
                  = findPathIn net startX startY endX endY).
  { unfold findPath. rewrite Hp, Hnet. reflexivity. }
  split.
  - intros Hb Hsize HAB (ra & rb & HA & HB & Hcon). rewrite Hfind.
    assert (HA2 : A < 2) by (apply (built_two_segments net A Hb Hsize); rewrite HA; eauto).
    assert (HB2 : B < 2) by (apply (built_two_segments net B Hb Hsize); rewrite HB; eauto).
    apply (findPathIn_chain net startX startY endX endY A B ra rb);
      try reflexivity; try assumption; try lia.
    intros id Hid. apply (built_two_segments net id Hb Hsize) in Hid. lia.
  - intros Hfail.
    assert (E : findPath heap sim startX startY endX endY = Some []).
    { rewrite Hfind. destruct Hfail as [HA|[HB|[HAB Hno]]].
      - unfold findPathIn. fold A. rewrite HA. reflexivity.
      - unfold findPathIn. fold A B. rewrite HB, N.eqb_refl, orb_true_r. reflexivity.
      - apply findPathIn_unreached; [exact HAB|]. intros Hr.
        destruct (reach_route net _ _ Hr) as (l & Hl & _). exact (Hno l Hl). }
    split; [exact E | apply createPath_no_route, E].
Qed.

(** C10, amended.  The neighbour loop of the search only offers the
    identifiers 0..99: a node it queues has an identifier below 100.
    Hence, when the query resolves to two distinct segments and every
    route between them has, after its first segment, a segment whose
    identifier is 100 or more, the path is empty, whether or not such a
    route exists.  The start segment is queued before the loop and may
    have any identifier. *)
Theorem findPath_only_tries_identifiers_below_100 (heap : Heap F)
    (sim : WasmTrafficSimulation F) (p : N) (net : WasmRoadNetwork F)
    (startX startY endX endY : F) :
  m_roadNetwork sim = Some p -> heap !! p = Some net ->
  let A := findNearestRoadSegment net startX startY (f_lit 50 1) in
  let B := findNearestRoadSegment net endX endY (f_lit 50 1) in
  A <> B ->
  (forall l, routeBetween net A B l -> exists x, In x (tail l) /\ 100 <= x) ->
  (forall em cur road st node,
     In node (openSet (foldl (neighborStep net em cur road) st (idsBelow 100))) ->
     In node (openSet st) \/ roadId node < 100)
  /\ findPath heap sim startX startY endX endY = Some [].
Proof.
  intros Hp Hnet A B HAB Hroutes. split.
  - intros em cur road st node Hin.
    destruct (neighborLoop_spec net em cur road (idsBelow 100) st)
      as (_ & pushed & Ho & _ & Hall).
    cbv zeta in Ho. rewrite Ho in Hin.
    apply in_app_or in Hin as [Hin|Hin]; [left; exact Hin | right].
    rewrite Forall_forall in Hall. apply list_elem_of_In in Hin.
    destruct (Hall node Hin) as [Hid _]. apply In_idsBelow in Hid. exact Hid.
  - unfold findPath. rewrite Hp, Hnet. simpl.
    apply findPathIn_unreached; [exact HAB|]. intros Hr.
    destruct (reach_route net _ _ Hr) as (l & Hl & Hall).
    destruct (Hroutes l Hl) as (x & Hx & H100).
    rewrite Forall_forall in Hall. apply list_elem_of_In in Hx.
    specialize (Hall x Hx). simpl in Hall. lia.
Qed.

End Routes.

(** ** The loop of [clear] *)

Section Clear.
Context {F : Type} {fl : FloatOps F}.

Lemma size_decr_lt (n : N) : 0 < n -> size_decr n < n.
Proof.
  intros Hn. unfold size_decr, wrap32.
  destruct (N.lt_ge_cases n (2 ^ 32)) as [Hlt|Hge].
  - replace (n + (2 ^ 32 - 1)) with ((n - 1) + 1 * 2 ^ 32) by lia.
    rewrite N.Div0.mod_add. rewrite N.mod_small by lia. lia.
  - assert ((n + (2 ^ 32 - 1)) mod 2 ^ 32 < 2 ^ 32) by (apply N.mod_lt; discriminate). lia.
Qed.

(** The fuel of [clear] is enough: with any larger amount the loop gives
    the same world. *)
Lemma clearLoop_fuel (fuel extra : nat) (id : N) (w : WasmWorld F) :
  (N.to_nat (getEntityCount w) - N.to_nat id <= fuel)%nat ->
  clearLoop (fuel + extra) id w = clearLoop fuel id w.
Proof.
  revert id w. induction fuel as [|fuel IH]; intros id w Hf.
  - destruct extra as [|extra]; [reflexivity|]. simpl.
    rewrite (proj2 (N.ltb_ge id (getEntityCount w))) by lia. reflexivity.
  - simpl. destruct (id <? getEntityCount w) eqn:Hlt; [|reflexivity].
    apply N.ltb_lt in Hlt. apply IH.
    destruct (entityExists w id); [|lia].
    unfold destroyEntity, getEntityCount in *. rewrite Tauto.if_same || idtac.
    destruct (negb _); [lia|]. simpl.
    assert (size_decr (m_entityCount w) < m_entityCount w) by (apply size_decr_lt; lia). lia.
Qed.

End Clear.

(** ** The scenarios *)

Section Runs.
Import Scenario.
#[local] Existing Instance firstUseRegistry.
#[local] Existing Instance release_build.
#[local] Existing Instance leastFirst.

(** With assertions enabled, [initialize] stops at the assertion of
    [addComponent]: the entity it has just created does not "exist". *)
Lemma initialize_asserts_in_debug_build :
  initialize (cfg := debug_build) newSimulation (num 100) (num 100) = None.
Proof. reflexivity. Qed.

(** C1, on the code.  After initialize(100,100), createVehicle(10,10,1,0)
    and clear(), the vehicle (entity 1) is still alive and the next update
    moves it from x = 10 to x = 11; the bounds entity is gone and no bounds
    component is present; getVehicleCount() is 0 all the same. *)
Theorem clear_leaves_a_vehicle_and_no_bounds :
  exists sim sim',
    afterClear = Some sim
    /\ entityExists (m_world sim) 1 = true
    /\ getEntitiesWith (m_world sim) [KTransform; KVehicle] = [1]
    /\ getEntitiesWith (m_world sim) [KBounds] = []
    /\ getVehicleCount sim = 0
    /\ getVehiclePosition sim 1 = Some (mkVec (num 10) (num 10))
    /\ update ∅ sim (num 1) = Some sim'
    /\ getVehiclePosition sim' 1 = Some (mkVec (num 11) (num 10)).
Proof.
  eexists _, _. split; [vm_compute; reflexivity|].
  repeat split; vm_compute; reflexivity.
Qed.

(** C7, as stated, fails in single precision: on the segment from (1,0)
    to (0.1,0) the point at distance [length] is not the end point, and on
    the segment from (5,5) to (5,5) the point at distance 0 is not a
    number. *)
Lemma pointAtDistance_single_precision :
  feq (vx (getPointAtDistance roundedSegment (m_length roundedSegment)))
      (vx (m_endPoint roundedSegment)) = false
  /\ getPointAtDistance roundedSegment (m_length roundedSegment)
     <> m_endPoint roundedSegment
  /\ getPointAtDistance pointSegment f0 = mkVec S754_nan S754_nan
  /\ getPointAtDistance pointSegment f0 <> m_startPoint pointSegment.
Proof.
  split; [vm_compute; reflexivity|]. split; [vm_compute; discriminate|].
  split; [vm_compute; reflexivity | vm_compute; discriminate].
Qed.

(** C10, as stated, fails when the start segment is the one with the large
    identifier.  In the row of 101 segments in which segment 0 is joined
    to segment 100 only, the query from a point on segment 100 to a point
    on segment 0 resolves to these two segments; every route from the one
    to the other contains segment 100, and [findPath] returns the route
    all the same. *)
Lemma findPath_from_segment_100 :
  findNearestRoadSegment longRow (num 20050) (num 0) (f_lit 50 1) = 100
  /\ findNearestRoadSegment longRow (num 50) (num 0) (f_lit 50 1) = 0
  /\ routeBetween longRow 100 0 [100; 0]
  /\ (forall l, routeBetween longRow 100 0 l -> exists x, In x l /\ 100 <= x)
  /\ findPath {[0 := longRow]} (simulationOn (Some 0))
              (num 20050) (num 0) (num 50) (num 0) = Some [(100, 0); (0, 0)]
  /\ findPath {[0 := longRow]} (simulationOn (Some 0))
              (num 20050) (num 0) (num 50) (num 0) <> Some [].
Proof.
  split; [vm_compute; reflexivity|]. split; [vm_compute; reflexivity|].
  split.
  { split; [reflexivity|]. split; [reflexivity|]. split; [|exact I].
    exists (segmentOf longRow 100), (segmentOf longRow 0).
    split; [vm_compute; reflexivity|]. split; [vm_compute; reflexivity|].
    vm_compute; reflexivity. }
  split.
  { intros l (Hh & _). exists 100. split; [|lia].
    destruct l as [|x l]; [discriminate|]. injection Hh as ->. left. reflexivity. }
  assert (E : findPath {[0 := longRow]} (simulationOn (Some 0))
                       (num 20050) (num 0) (num 50) (num 0) = Some [(100, 0); (0, 0)])
    by (vm_compute; reflexivity).
  split; [exact E|]. rewrite E. discriminate.
Qed.

End Runs.

Section Order.
Context {F : Type} {fl : FloatOps F}.

(** C3, on the code.  [setRoadNetwork] appends a path-following system to
    the registered systems: it runs after the signal system, not between
    the bounds and the collision system, and after two calls there are two
    of them, so that path following runs twice per tick. *)
Theorem path_following_is_appended (p q : option N) :
  m_systems (m_world (setRoadNetwork (WasmTrafficSimulation_new (F := F)) p))
  = [MovementSystem; BoundsSystem; CollisionSystem; TrafficSignalSystem;
     PathFollowingSystem p]
  /\ m_systems (m_world (setRoadNetwork
                           (setRoadNetwork (WasmTrafficSimulation_new (F := F)) p) q))
     = [MovementSystem; BoundsSystem; CollisionSystem; TrafficSignalSystem;
        PathFollowingSystem p; PathFollowingSystem q].
Proof. split; reflexivity. Qed.

End Order.

Section BoundsClaim.
Context {F : Type} {fl : FloatOps F} {reg : ComponentRegistry} {cfg : BuildConfig}.

(** C5. The end-to-end run gives position.x = 100 and velocity.x = -25.
    In general, when the bounds system finds the bounds component and
    keepInBounds is set, the pass ends and every entity with a Transform
    and a Vehicle component has each position coordinate clamped to
    [0, width] resp. [0, height], and the velocity coordinate of a clamped
    axis negated and multiplied by 0.5. *)
Theorem bounds_clamp_and_bounce :
  Scenario.boundsRun = Some (Binary32.of_Z 100, Binary32.of_Z (-25))
  /\ forall (w : WasmWorld F) (dt : F) (b : WasmBoundsComponent F),
       wf_world w = true -> findGlobalBounds w = Some (Some b) -> keepInBounds b = true ->
       exists w', boundsSystem w dt = Some w'
         /\ forall id t, hasComponent w KTransform id = true ->
                         hasComponent w KVehicle id = true ->
                         getTransform w id = Some t ->
                         getTransform w' id = Some (keptInBounds b t).
Proof.
  split; [vm_compute; reflexivity|]. intros w dt b. apply boundsSystem_spec.
Qed.

End BoundsClaim.

(** ** The theorems at concrete inputs *)

Section Witnesses.
Import Scenario.
#[local] Existing Instance firstUseRegistry.
#[local] Existing Instance release_build.
#[local] Existing Instance leastFirst.

Lemma fresh_entity_does_not_exist_witness :
  wf_world twoVehicles = true
  /\ (createEntity twoVehicles).1 = 3
  /\ entityExists (createEntity twoVehicles).2 3 = false
  /\ destroyEntity (createEntity twoVehicles).2 3 = (createEntity twoVehicles).2.
Proof.
  split; [vm_compute; reflexivity|]. split; [vm_compute; reflexivity|].
  destruct (fresh_entity_does_not_exist twoVehicles) as (H1 & _ & H3 & _);
    [vm_compute; reflexivity|].
  split; [exact H1 | exact H3].
Defined.

Lemma bounds_clamp_and_bounce_witness :
  wf_world strayVehicle = true
  /\ findGlobalBounds strayVehicle = Some (Some (newBounds (num 100) (num 100)))
  /\ keepInBounds (newBounds (num 100) (num 100)) = true
  /\ exists w', boundsSystem strayVehicle (num 1) = Some w'
       /\ getTransform w' 1
          = Some (keptInBounds (newBounds (num 100) (num 100))
                    (newTransform (mkVec (num 145) (num 50)) (mkVec (num 50) (num 0)))).
Proof.
  split; [vm_compute; reflexivity|]. split; [vm_compute; reflexivity|].
  split; [reflexivity|].
  destruct (proj2 (bounds_clamp_and_bounce (cfg := release_build))
              strayVehicle (num 1) (newBounds (num 100) (num 100)))
    as (w' & Hw & H); [vm_compute; reflexivity | vm_compute; reflexivity | reflexivity|].
  exists w'. split; [exact Hw|].
  apply H; vm_compute; reflexivity.
Defined.

Lemma collision_lists_are_symmetric_witness :
  wf_world twoVehicles = true
  /\ getEntitiesWith twoVehicles [KTransform; KCollision] = [1; 2]
  /\ overlapping twoVehicles 1 2 = true
  /\ exists w' ci cj,
       collisionSystem twoVehicles (num 1) = Some w'
       /\ getCollision w' 1 = Some ci /\ getCollision w' 2 = Some cj
       /\ In 2 (collidingWith ci) /\ In 1 (collidingWith cj)
       /\ colliding ci = true /\ colliding cj = true.
Proof.
  assert (HL : getEntitiesWith twoVehicles [KTransform; KCollision] = [1; 2])
    by (vm_compute; reflexivity).
  assert (Ho : overlapping twoVehicles 1 2 = true) by (vm_compute; reflexivity).
  split; [vm_compute; reflexivity|]. split; [exact HL|]. split; [exact Ho|].
  destruct (collision_lists_are_symmetric (cfg := release_build) twoVehicles (num 1))
    as (w' & Hw & H & Hfirst); [vm_compute; reflexivity|].
  destruct (H 1 2) as (ci & cj & Hi & Hj & Hsym & Hdet & Hflag & _);
    try (vm_compute; reflexivity).
  assert (Hin : In 2 (collidingWith ci)).
  { apply Hdet. left. apply (Hfirst 1 2 [] HL). exact Ho. }
  exists w', ci, cj.
  split; [exact Hw|]. split; [exact Hi|]. split; [exact Hj|].
  split; [exact Hin|]. split; [apply Hsym, Hin|]. apply Hflag, Hin.
Defined.

Lemma connectWithIntersection_two_and_three_lanes_witness :
  getRoadSegment lanes23 0 = Some (segmentOf lanes23 0)
  /\ getRoadSegment lanes23 1 = Some (segmentOf lanes23 1)
  /\ getLaneCount (segmentOf lanes23 0) = 2
  /\ getLaneCount (segmentOf lanes23 1) = 3
  /\ exists x,
       getIntersection (connectWithIntersection lanes23 0 true 1 false).2 0 = Some x
       /\ m_position x = mkVec (num 100) (num 0)
       /\ m_connectedRoads x = [0; 1]
       /\ connectionsFrom x 0 2 = 6%nat
       /\ connectionsFrom x 1 3 = 6%nat
       /\ size (m_connections x) = 5%nat.
Proof.
  split; [vm_compute; reflexivity|]. split; [vm_compute; reflexivity|].
  split; [vm_compute; reflexivity|]. split; [vm_compute; reflexivity|].
  destruct (connectWithIntersection_two_and_three_lanes lanes23 0 1 true false
              (segmentOf lanes23 0) (segmentOf lanes23 1))
    as (x & Hid & Hx & Hpos & Hroads & _ & _ & _ & Hsize & HA & HB);
    try (vm_compute; reflexivity).
  exists x. rewrite Hid in Hx.
  split; [exact Hx|]. split; [rewrite Hpos; vm_compute; reflexivity|].
  split; [exact Hroads|]. split; [exact HA|]. split; [exact HB | exact Hsize].
Defined.

Lemma pointAtDistance_single_precision_clamped_witness :
  flt f0 (m_length roundedSegment) = true
  /\ is_finite (m_length roundedSegment) = true
  /\ is_finite (fsub (vx (m_endPoint roundedSegment)) (vx (m_startPoint roundedSegment)))
     = true
  /\ is_finite (fsub (vy (m_endPoint roundedSegment)) (vy (m_startPoint roundedSegment)))
     = true
  /\ feq (vx (getPointAtDistance roundedSegment (num 0)))
         (vx (m_startPoint roundedSegment)) = true
  /\ getPointAtDistance roundedSegment (num 7)
     = getPointAtDistance roundedSegment (m_length roundedSegment)
  /\ flt (vx (getPointAtDistance roundedSegment (f_lit 1 4)))
         (vx (getPointAtDistance roundedSegment (f_lit 1 2))) = false.
Proof.
  assert (H1 : flt f0 (m_length roundedSegment) = true) by (vm_compute; reflexivity).
  assert (H2 : is_finite (m_length roundedSegment) = true) by (vm_compute; reflexivity).
  assert (H3 : is_finite (fsub (vx (m_endPoint roundedSegment))
                               (vx (m_startPoint roundedSegment))) = true)
    by (vm_compute; reflexivity).
  assert (H4 : is_finite (fsub (vy (m_endPoint roundedSegment))
                               (vy (m_startPoint roundedSegment))) = true)
    by (vm_compute; reflexivity).
  split; [exact H1|]. split; [exact H2|]. split; [exact H3|]. split; [exact H4|].
  destruct (pointAtDistance_single_precision_clamped roundedSegment H1 H2 H3 H4)
    as (Hlow & _ & _ & Hhigh & _ & _ & _ & Hmono).
  split; [|split].
  - apply (Hlow (num 0)). vm_compute. reflexivity.
  - apply (Hhigh (num 7)). vm_compute. reflexivity.
  - assert (M : valid_binary Binary32.prec Binary32.emax (f_lit 1 4) = true
                -> valid_binary Binary32.prec Binary32.emax (f_lit 1 2) = true
                -> flt (f_lit 1 4) (f_lit 1 2) = true
                -> flt f0 (fsub (vx (m_endPoint roundedSegment))
                                (vx (m_startPoint roundedSegment))) = false
                -> flt (vx (getPointAtDistance roundedSegment (f_lit 1 4)))
                       (vx (getPointAtDistance roundedSegment (f_lit 1 2))) = false).
    { intros V1 V2 H12.
      apply (Hmono ltac:(vm_compute; reflexivity) ltac:(vm_compute; reflexivity)
                   ltac:(vm_compute; reflexivity) ltac:(vm_compute; reflexivity)
                   ltac:(vm_compute; reflexivity) (f_lit 1 4) (f_lit 1 2) V1 V2 H12). }
    apply M; vm_compute; reflexivity.
Defined.

Lemma built_chain : built chain.
Proof. unfold chain. cbv zeta. repeat constructor. Qed.

Lemma findPath_chain_and_failures_witness :
  m_roadNetwork (simulationOn (Some 0)) = Some 0
  /\ ({[0 := chain]} : Heap spec_float) !! 0 = Some chain
  /\ built chain /\ size (m_roadSegments chain) = 2%nat
  /\ linked chain 0 1
  /\ findPath {[0 := chain]} (simulationOn (Some 0)) (num 50) (num 0) (num 150) (num 0)
     = Some [(0, 0); (1, 0)]
  /\ findNearestRoadSegment chain (num 50) (num 500) (f_lit 50 1) = INVALID_ID
  /\ findPath {[0 := chain]} (simulationOn (Some 0)) (num 50) (num 500) (num 150) (num 0)
     = Some []
  /\ createPath {[0 := chain]} (simulationOn (Some 0)) 1 (num 50) (num 500) (num 150) (num 0)
     = Some (false, simulationOn (Some 0)).
Proof.
  assert (Hl : linked chain 0 1).
  { exists (segmentOf chain 0), (segmentOf chain 1).
    split; [vm_compute; reflexivity|]. split; [vm_compute; reflexivity|].
    vm_compute; reflexivity. }
  assert (Hh : ({[0 := chain]} : Heap spec_float) !! 0 = Some chain)
    by apply lookup_singleton_eq.
  split; [reflexivity|]. split; [exact Hh|]. split; [exact built_chain|].
  split; [vm_compute; reflexivity|]. split; [exact Hl|].
  split.
  - destruct (findPath_chain_and_failures {[0 := chain]} (simulationOn (Some 0)) 0 chain 1
                (num 50) (num 0) (num 150) (num 0) eq_refl Hh) as [H _].
    replace (findNearestRoadSegment chain (num 50) (num 0) (f_lit 50 1)) with 0 in H
      by (vm_compute; reflexivity).
    replace (findNearestRoadSegment chain (num 150) (num 0) (f_lit 50 1)) with 1 in H
      by (vm_compute; reflexivity).
    apply H; [exact built_chain | vm_compute; reflexivity | discriminate | exact Hl].
  - split; [vm_compute; reflexivity|].
    apply (findPath_chain_and_failures {[0 := chain]} (simulationOn (Some 0)) 0 chain 1
             (num 50) (num 500) (num 150) (num 0) eq_refl Hh).
    left. vm_compute. reflexivity.
Defined.

Lemma findPath_only_tries_identifiers_below_100_witness :
  m_roadNetwork (simulationOn (Some 0)) = Some 0
  /\ ({[0 := longRow]} : Heap spec_float) !! 0 = Some longRow
  /\ findNearestRoadSegment longRow (num 50) (num 0) (f_lit 50 1) = 0
  /\ findNearestRoadSegment longRow (num 20050) (num 0) (f_lit 50 1) = 100
  /\ routeBetween longRow 0 100 [0; 100]
  /\ findPath {[0 := longRow]} (simulationOn (Some 0))
              (num 50) (num 0) (num 20050) (num 0) = Some [].
Proof.
  assert (Hh : ({[0 := longRow]} : Heap spec_float) !! 0 = Some longRow)
    by apply lookup_singleton_eq.
  assert (HA : findNearestRoadSegment longRow (num 50) (num 0) (f_lit 50 1) = 0)
    by (vm_compute; reflexivity).
  assert (HB : findNearestRoadSegment longRow (num 20050) (num 0) (f_lit 50 1) = 100)
    by (vm_compute; reflexivity).
  split; [reflexivity|]. split; [exact Hh|]. split; [exact HA|]. split; [exact HB|].
  split.
  - split; [reflexivity|]. split; [reflexivity|]. split; [|exact I].
    exists (segmentOf longRow 0), (segmentOf longRow 100).
    split; [vm_compute; reflexivity|]. split; [vm_compute; reflexivity|].
    vm_compute; reflexivity.
  - apply (findPath_only_tries_identifiers_below_100 {[0 := longRow]}
             (simulationOn (Some 0)) 0 longRow (num 50) (num 0) (num 20050) (num 0)
             eq_refl Hh).
    + rewrite HA, HB. discriminate.
    + rewrite HA, HB. intros l Hl. exists 100. split; [|lia].
      apply (route_end_in_tail longRow 0 100 l Hl). discriminate.
Defined.

End Witnesses.

(** ** Adding, reading and removing components *)

Section Adding.
Context {F : Type} {fl : FloatOps F} {reg : ComponentRegistry} {cfg : BuildConfig}.

Lemma mjoin_lookup_resize {A : Type} (l : list (option A)) (n i : nat) :
  (length l <= n)%nat -> mjoin (resize n None l !! i) = mjoin (l !! i).
Proof.
  intros Hn. destruct (decide (i < length l)%nat) as [Hi|Hi].
  - rewrite lookup_resize by lia. reflexivity.
  - rewrite (lookup_ge_None_2 l i) by lia.
    destruct (decide (i < n)%nat) as [Hin|Hin].
    + rewrite lookup_resize_new by lia. reflexivity.
    + rewrite lookup_resize_old by lia. reflexivity.
Qed.

(** The component pools after [addComponent]: the slot of the entity in the
    pool of the component's type holds the new component, every other slot
    of every pool reads as before. *)
Lemma addComponent_spec (w : WasmWorld F) (id m : N) (c : WasmComponent F) :
  mask_at w id = Some m -> NDEBUG = true \/ entityExists w id = true ->
  exists w', addComponent w id c = Some w'
    /\ m_entities w' = m_entities w
    /\ m_entityMasks w'
       = <[N.to_nat id := N.setbit m (getComponentID (kindOf c))]> (m_entityMasks w)
    /\ m_freeEntities w' = m_freeEntities w /\ m_entityCount w' = m_entityCount w
    /\ m_systems w' = m_systems w
    /\ forall k id', lookupComponent w' k id'
         = if decide (k = kindOf c /\ id' = id) then Some c else lookupComponent w k id'.
Proof.
  intros Hm Hok. unfold addComponent.
  assert (Ha : assert (entityExists w id) = Some tt).
  { unfold assert. destruct Hok as [->| ->]; [reflexivity|]. destruct NDEBUG; reflexivity. }
  rewrite Ha, Hm. cbn [mbind option_bind].
  set (cid := getComponentID (kindOf c)).
  set (pools := if N.of_nat (length (m_componentPools w)) <=? cid
                then resize (N.to_nat cid + 1) None (m_componentPools w)
                else m_componentPools w).
  assert (Hlen : (N.to_nat cid < length pools)%nat).
  { unfold pools. destruct (N.leb_spec (N.of_nat (length (m_componentPools w))) cid).
    - rewrite length_resize. lia.
    - lia. }
  assert (Hpools : forall i, mjoin (pools !! i) = mjoin (m_componentPools w !! i)).
  { intros i. unfold pools.
    destruct (N.leb_spec (N.of_nat (length (m_componentPools w))) cid); [|reflexivity].
    apply mjoin_lookup_resize. lia. }
  eexists. split; [reflexivity|]. cbn [m_entities m_entityMasks m_freeEntities m_entityCount
                                       m_systems].
  repeat (split; [reflexivity|]).
  intros k id'. unfold lookupComponent. cbn [m_componentPools].
  destruct (decide (k = kindOf c)) as [->|Hk].
  - fold cid. rewrite list_lookup_insert_eq by exact Hlen. cbn [mjoin option_join mbind option_bind].
    unfold pool_createComponent, pool_getComponent.
    set (pool := default [] (mjoin (pools !! N.to_nat cid))).
    set (pool' := if N.of_nat (length pool) <=? id
                  then resize (N.to_nat id + 1) None pool else pool).
    assert (Hl' : (N.to_nat id < length pool')%nat).
    { unfold pool'. destruct (N.leb_spec (N.of_nat (length pool)) id).
      - rewrite length_resize. lia.
      - lia. }
    assert (Hp' : forall i, mjoin (pool' !! i) = mjoin (pool !! i)).
    { intros i. unfold pool'. destruct (N.leb_spec (N.of_nat (length pool)) id);
        [|reflexivity]. apply mjoin_lookup_resize. lia. }
    destruct (decide (id' = id)) as [->|Hid].
    + rewrite decide_True by (split; reflexivity).
      rewrite list_lookup_insert_eq by exact Hl'. reflexivity.
    + rewrite decide_False by (intros [_ ?]; contradiction).
      rewrite list_lookup_insert_ne by lia. rewrite Hp'.
      unfold pool. rewrite Hpools.
      destruct (mjoin (m_componentPools w !! N.to_nat cid)) as [p|]; [reflexivity|].
      cbn [default]. rewrite lookup_nil. reflexivity.
  - rewrite decide_False by (intros [? _]; contradiction).
    assert (Hne : N.to_nat (getComponentID k) <> N.to_nat cid).
    { intros E. apply Hk. apply getComponentID_inj. unfold cid in E. lia. }
    rewrite list_lookup_insert_ne by congruence. rewrite Hpools. reflexivity.
Qed.

(** [addComponent] keeps the representation invariant. *)
Lemma addComponent_wf (w w' : WasmWorld F) (id : N) (c : WasmComponent F) :
  wf_world w = true -> addComponent w id c = Some w' -> wf_world w' = true.
Proof.
  intros Hwf Hadd.
  assert (Hm : exists m, mask_at w id = Some m /\ assert (entityExists w id) = Some tt).
  { unfold addComponent in Hadd.
    destruct (assert (entityExists w id)) as [[]|]; [|discriminate].
    cbn [mbind option_bind] in Hadd.
    destruct (mask_at w id) as [m|]; [|discriminate]. exists m. split; reflexivity. }
  destruct Hm as (m & Hm & Ha).
  assert (Hok : NDEBUG = true \/ entityExists w id = true).
  { unfold assert in Ha. destruct NDEBUG; [left; reflexivity|right].
    destruct (entityExists w id); [reflexivity|discriminate]. }
  destruct (addComponent_spec w id m c Hm Hok) as (w1 & E & He & Hmask & Hf & _ & _ & Hl).
  rewrite Hadd in E. injection E as <-.
  apply wf_world_spec in Hwf as (L & Fr & P). apply wf_world_spec.
  split; [rewrite He, Hmask, length_insert; exact L|].
  split; [intros x Hx; rewrite He; apply Fr; rewrite <- Hf; exact Hx|].
  intros id' m' k Hm' Hb. rewrite Hl.
  destruct (decide (k = kindOf c /\ id' = id)) as [[-> ->]|Hn].
  - exists c. split; reflexivity.
  - unfold mask_at in Hm'. rewrite Hmask in Hm'.
    destruct (decide (id' = id)) as [->|Hid].
    + assert (Hk : k <> kindOf c) by (intros ->; apply Hn; split; reflexivity).
      rewrite list_lookup_insert_eq in Hm' by (apply lookup_lt_Some in Hm; exact Hm).
      injection Hm' as <-.
      rewrite N.setbit_neq in Hb by (intros E; apply Hk; symmetry;
                                     apply getComponentID_inj; exact E).
      apply (P id m k Hm Hb).
    + rewrite list_lookup_insert_ne in Hm' by lia. apply (P id' m' k Hm' Hb).
Qed.

(** [createEntity] keeps the representation invariant. *)
Lemma createEntity_wf (w : WasmWorld F) :
  wf_world w = true -> wf_world (createEntity w).2 = true.
Proof.
  intros Hwf. apply wf_world_spec in Hwf as (L & Fr & P). apply wf_world_spec.
  unfold createEntity. destruct (last (m_freeEntities w)) as [id|] eqn:Hlast; cbn [snd].
  - split; [cbn; rewrite length_insert; exact L|].
    split.
    + cbn. intros x Hx. apply Fr.
      destruct (m_freeEntities w) as [|y l] using rev_ind; [destruct Hx|].
      rewrite removelast_last in Hx. apply in_or_app. left. exact Hx.
    + intros id' m k Hm Hb. unfold mask_at in Hm. cbn in Hm.
      unfold lookupComponent. cbn [m_componentPools].
      destruct (decide (id' = id)) as [->|Hid].
      * assert (Hlt : (N.to_nat id < length (m_entityMasks w))%nat).
        { apply last_Some_elem_of, list_elem_of_In, Fr in Hlast. lia. }
        rewrite list_lookup_insert_eq in Hm by exact Hlt. injection Hm as <-.
        rewrite N.bits_0 in Hb. discriminate.
      * rewrite list_lookup_insert_ne in Hm by lia. apply (P id' m k Hm Hb).
  - split; [cbn; rewrite !length_app; cbn; lia|].
    split.
    + cbn. intros x Hx. apply Fr in Hx. rewrite length_app. cbn. lia.
    + intros id' m k Hm Hb. unfold mask_at in Hm. cbn in Hm.
      unfold lookupComponent. cbn [m_componentPools].
      apply lookup_app_Some in Hm as [Hm|[Hge Hm]]; [apply (P id' m k Hm Hb)|].
      apply list_lookup_singleton_Some in Hm as [_ <-].
      rewrite N.bits_0 in Hb. discriminate.
Qed.

End Adding.

Section Store.
Context {F : Type} {fl : FloatOps F} {reg : ComponentRegistry}.

Lemma entityExists_mask (w : WasmWorld F) (id m : N) :
  length (m_entities w) = length (m_entityMasks w) -> mask_at w id = Some m ->
  entityExists w id = negb (m =? 0).
Proof.
  intros L Hm. unfold entityExists. rewrite Hm.
  assert (Hlt : (N.to_nat id < length (m_entityMasks w))%nat)
    by (apply lookup_lt_Some in Hm; exact Hm).
  rewrite (proj2 (N.ltb_lt _ _)) by lia. reflexivity.
Qed.

Lemma entityExists_Some (w : WasmWorld F) (id : N) :
  entityExists w id = true -> exists m, mask_at w id = Some m /\ m <> 0.
Proof.
  unfold entityExists. intros H. apply andb_true_iff in H as [_ H].
  destruct (mask_at w id) as [m|]; [|discriminate].
  exists m. split; [reflexivity|]. apply negb_true_iff, N.eqb_neq in H. exact H.
Qed.

Lemma hasComponent_mask (w : WasmWorld F) (k : ComponentKind) (id m : N) :
  length (m_entities w) = length (m_entityMasks w) -> mask_at w id = Some m ->
  hasComponent w k id = N.testbit m (getComponentID k).
Proof.
  intros L Hm. unfold hasComponent. rewrite (entityExists_mask w id m L Hm), Hm.
  destruct (N.eqb_spec m 0) as [->|]; [|reflexivity].
  cbn [negb]. rewrite N.bits_0. reflexivity.
Qed.

Lemma hasComponent_no_mask (w : WasmWorld F) (k : ComponentKind) (id : N) :
  mask_at w id = None -> hasComponent w k id = false.
Proof.
  intros Hm. unfold hasComponent, entityExists. rewrite Hm, andb_false_r. reflexivity.
Qed.

(** What [removeComponent] writes, for an entity that exists. *)
Lemma removeComponent_spec (w : WasmWorld F) (k : ComponentKind) (id m : N) :
  mask_at w id = Some m -> entityExists w id = true ->
  let w' := removeComponent w k id in
  m_entities w' = m_entities w
  /\ m_entityMasks w' = <[N.to_nat id := N.clearbit m (getComponentID k)]> (m_entityMasks w)
  /\ m_freeEntities w' = m_freeEntities w /\ m_entityCount w' = m_entityCount w
  /\ m_systems w' = m_systems w
  /\ forall k' id', lookupComponent w' k' id'
       = if decide (k' = k /\ id' = id) then None else lookupComponent w k' id'.
Proof.
  intros Hm Hex. unfold removeComponent, set_pools, set_masks. rewrite Hex, Hm.
  cbn [negb default from_option Datatypes.id m_componentPools].
  destruct (mjoin (m_componentPools w !! N.to_nat (getComponentID k))) as [pool|] eqn:Hp.
  - cbn [m_entities m_entityMasks m_freeEntities m_entityCount m_systems].
    repeat (split; [reflexivity|]).
    intros k' id'. unfold lookupComponent. cbn [m_componentPools].
    assert (Hlt : (N.to_nat (getComponentID k) < length (m_componentPools w))%nat).
    { destruct (m_componentPools w !! N.to_nat (getComponentID k)) eqn:E; [|discriminate].
      apply lookup_lt_Some in E. exact E. }
    destruct (decide (k' = k)) as [->|Hk].
    + rewrite list_lookup_insert_eq by exact Hlt. rewrite Hp.
      cbn [mjoin option_join mbind option_bind].
      unfold pool_removeComponent, pool_getComponent.
      destruct (decide (id' = id)) as [->|Hid].
      * rewrite decide_True by (split; reflexivity).
        destruct (decide (N.to_nat id < length pool)%nat).
        -- rewrite list_lookup_insert_eq by assumption. reflexivity.
        -- rewrite lookup_ge_None_2; [reflexivity|]. rewrite length_insert. lia.
      * rewrite decide_False by (intros [_ ?]; contradiction).
        rewrite list_lookup_insert_ne by lia. reflexivity.
    + rewrite decide_False by (intros [? _]; contradiction).
      rewrite list_lookup_insert_ne; [reflexivity|].
      intros E. apply Hk. symmetry. apply getComponentID_inj. lia.
  - cbn [m_entities m_entityMasks m_freeEntities m_entityCount m_systems].
    repeat (split; [reflexivity|]).
    intros k' id'. unfold lookupComponent. cbn [m_componentPools].
    destruct (decide (k' = k /\ id' = id)) as [[-> ->]|]; [|reflexivity].
    rewrite Hp. reflexivity.
Qed.

(** What [destroyEntity] writes, for an entity that exists. *)
Lemma destroyEntity_spec (w : WasmWorld F) (id m : N) :
  mask_at w id = Some m -> entityExists w id = true ->
  let w' := destroyEntity w id in
  m_entities w' = m_entities w
  /\ m_entityMasks w' = <[N.to_nat id := 0]> (m_entityMasks w)
  /\ m_freeEntities w' = m_freeEntities w ++ [id]
  /\ m_entityCount w' = size_decr (m_entityCount w)
  /\ m_systems w' = m_systems w
  /\ forall k id', id' <> id -> lookupComponent w' k id' = lookupComponent w k id'.
Proof.
  intros Hm Hex. unfold destroyEntity. rewrite Hex, Hm.
  cbn [negb default from_option Datatypes.id].
  cbn [m_entities m_entityMasks m_freeEntities m_entityCount m_systems].
  repeat (split; [reflexivity|]).
  intros k id' Hid. unfold lookupComponent. cbn [m_componentPools].
  rewrite list_lookup_imap.
  destruct (m_componentPools w !! N.to_nat (getComponentID k)) as [[p|]|]; try reflexivity.
  cbn [fmap option_fmap option_map]. destruct (N.testbit m _); [|reflexivity].
  cbn [mjoin option_join mbind option_bind].
  unfold pool_removeComponent, pool_getComponent.
  rewrite list_lookup_insert_ne by lia. reflexivity.
Qed.

Lemma destroyEntity_wf (w : WasmWorld F) (id : N) :
  wf_world w = true -> wf_world (destroyEntity w id) = true.
Proof.
  intros Hwf. destruct (entityExists w id) eqn:Hex;
    [|rewrite destroyEntity_not_existing by exact Hex; exact Hwf].
  destruct (entityExists_Some w id Hex) as (m & Hm & _).
  destruct (destroyEntity_spec w id m Hm Hex) as (He & Hmask & Hf & _ & _ & Hl).
  apply wf_world_spec in Hwf as (L & Fr & P). apply wf_world_spec.
  assert (Hlt : (N.to_nat id < length (m_entityMasks w))%nat)
    by (apply lookup_lt_Some in Hm; exact Hm).
  split; [rewrite He, Hmask, length_insert; exact L|].
  split.
  - intros x Hx. rewrite He. rewrite Hf in Hx. apply in_app_or in Hx as [Hx|[<-|[]]].
    + apply Fr, Hx.
    + lia.
  - intros id' m' k Hm' Hb. unfold mask_at in Hm'. rewrite Hmask in Hm'.
    destruct (decide (id' = id)) as [->|Hid].
    + rewrite list_lookup_insert_eq in Hm' by exact Hlt. injection Hm' as <-.
      rewrite N.bits_0 in Hb. discriminate.
    + rewrite list_lookup_insert_ne in Hm' by lia. rewrite Hl by exact Hid.
      apply (P id' m' k Hm' Hb).
Qed.

Lemma removeComponent_wf (w : WasmWorld F) (k : ComponentKind) (id : N) :
  wf_world w = true -> wf_world (removeComponent w k id) = true.
Proof.
  intros Hwf. destruct (entityExists w id) eqn:Hex;
    [|unfold removeComponent; rewrite Hex; exact Hwf].
  destruct (entityExists_Some w id Hex) as (m & Hm & _).
  destruct (removeComponent_spec w k id m Hm Hex) as (He & Hmask & Hf & _ & _ & Hl).
  apply wf_world_spec in Hwf as (L & Fr & P). apply wf_world_spec.
  assert (Hlt : (N.to_nat id < length (m_entityMasks w))%nat)
    by (apply lookup_lt_Some in Hm; exact Hm).
  split; [rewrite He, Hmask, length_insert; exact L|].
  split; [intros x Hx; rewrite He; apply Fr; rewrite <- Hf; exact Hx|].
  intros id' m' k' Hm' Hb. unfold mask_at in Hm'. rewrite Hmask in Hm'. rewrite Hl.
  destruct (decide (id' = id)) as [->|Hid].
  - rewrite list_lookup_insert_eq in Hm' by exact Hlt. injection Hm' as <-.
    destruct (decide (k' = k)) as [->|Hk].
    + rewrite N.clearbit_eq in Hb. discriminate.
    + rewrite decide_False by (intros [? _]; contradiction).
      rewrite N.clearbit_neq in Hb
        by (intros E; apply Hk; symmetry; apply getComponentID_inj; exact E).
      apply (P id m k' Hm Hb).
  - rewrite decide_False by (intros [_ ?]; contradiction).
    rewrite list_lookup_insert_ne in Hm' by lia. apply (P id' m' k' Hm' Hb).
Qed.

End Store.

Section Lifecycle.
Context {F : Type} {fl : FloatOps F} {reg : ComponentRegistry}.

Lemma sorted_filter {A : Type} (R : A -> A -> Prop) (f : A -> bool) (l : list A) :
  StronglySorted R l -> StronglySorted R (List.filter f l).
Proof.
  induction 1 as [|a l Hs IH Ha]; [constructor|]. simpl.
  destruct (f a); [|exact IH]. constructor; [exact IH|].
  apply List.Forall_forall. intros x Hx. apply filter_In in Hx as [Hx _].
  rewrite List.Forall_forall in Ha. apply Ha, Hx.
Qed.

Lemma sorted_idsBelow (n : N) : StronglySorted N.lt (idsBelow n).
Proof.
  unfold idsBelow. generalize (N.to_nat n) as k. generalize 0%nat as a.
  intros a k. revert a. induction k as [|k IH]; intros a; [constructor|].
  cbn. constructor; [apply IH|].
  apply List.Forall_forall. intros x Hx.
  apply list_elem_of_In, list_elem_of_fmap in Hx as (y & -> & Hy).
  apply elem_of_seq in Hy. lia.
Qed.

Lemma query_skips_empty_mask (w : WasmWorld F) (ks : list ComponentKind) (id : N) :
  mask_at w id = Some 0 -> ks <> [] -> ~ In id (getEntitiesWith w ks).
Proof.
  intros Hm Hks Hin. apply In_getEntitiesWith in Hin as (m & Hm' & Hl).
  rewrite Hm in Hm'. injection Hm' as <-. rewrite N.land_0_l in Hl.
  apply (requiredMask_nonzero ks Hks). symmetry. exact Hl.
Qed.

Lemma hasComponent_frame (w w' : WasmWorld F) (k : ComponentKind) (id : N) :
  m_entities w' = m_entities w -> mask_at w' id = mask_at w id ->
  hasComponent w' k id = hasComponent w k id.
Proof.
  intros He Hm. unfold hasComponent, entityExists. rewrite He, Hm. reflexivity.
Qed.

(** The laws of [addComponent] on an identifier that was handed out. *)
Lemma addComponent_laws {cfg : BuildConfig} (w : WasmWorld F) (id m : N)
    (c : WasmComponent F) :
  wf_world w = true -> mask_at w id = Some m ->
  NDEBUG = true \/ entityExists w id = true ->
  exists w', addComponent w id c = Some w'
    /\ wf_world w' = true
    /\ entityExists w' id = true
    /\ getComponent w' (kindOf c) id = Some c
    /\ (forall k, hasComponent w' k id
                  = if decide (k = kindOf c) then true else hasComponent w k id)
    /\ (forall k id', id' <> id -> hasComponent w' k id' = hasComponent w k id')
    /\ (forall k id', lookupComponent w' k id'
           = if decide (k = kindOf c /\ id' = id) then Some c
             else lookupComponent w k id')
    /\ mask_at w' id = Some (N.setbit m (getComponentID (kindOf c)))
    /\ m_entities w' = m_entities w /\ m_freeEntities w' = m_freeEntities w
    /\ m_entityCount w' = m_entityCount w /\ m_systems w' = m_systems w.
Proof.
  intros Hwf Hm Hok.
  destruct (addComponent_spec w id m c Hm Hok) as (w' & Hadd & He & Hmask & Hf & Hc & Hs & Hl).
  assert (Hwf' := addComponent_wf w w' id c Hwf Hadd).
  assert (L' : length (m_entities w') = length (m_entityMasks w'))
    by (apply wf_readable in Hwf'; apply Hwf').
  assert (L : length (m_entities w) = length (m_entityMasks w))
    by (apply wf_readable in Hwf; apply Hwf).
  assert (Hlt : (N.to_nat id < length (m_entityMasks w))%nat)
    by (apply lookup_lt_Some in Hm; exact Hm).
  assert (Hm' : mask_at w' id = Some (N.setbit m (getComponentID (kindOf c)))).
  { unfold mask_at. rewrite Hmask. apply list_lookup_insert_eq. exact Hlt. }
  assert (Hex : entityExists w' id = true).
  { rewrite (entityExists_mask w' id _ L' Hm'). apply negb_true_iff, N.eqb_neq.
    intros Z. assert (B := N.setbit_eq m (getComponentID (kindOf c))).
    rewrite Z, N.bits_0 in B. discriminate. }
  exists w'. split; [exact Hadd|]. split; [exact Hwf'|]. split; [exact Hex|].
  split.
  - destruct (getComponent_present w' id _ (kindOf c) L'
                (proj2 (wf_readable w' Hwf')) Hm' (N.setbit_eq _ _)) as (c0 & Hc0 & _ & Hg).
    rewrite Hl, decide_True in Hc0 by (split; reflexivity). injection Hc0 as <-. exact Hg.
  - split.
    + intros k. rewrite (hasComponent_mask w' k id _ L' Hm').
      rewrite (hasComponent_mask w k id _ L Hm).
      destruct (decide (k = kindOf c)) as [->|Hk]; [apply N.setbit_eq|].
      apply N.setbit_neq. intros E. apply Hk. symmetry. apply getComponentID_inj, E.
    + split.
      * intros k id' Hid.
        apply hasComponent_frame; [exact He|]. unfold mask_at. rewrite Hmask.
        apply list_lookup_insert_ne. lia.
      * split; [exact Hl|]. split; [exact Hm'|]. repeat split; assumption.
Qed.

(** X1. In a world that satisfies the representation invariant,
    [addComponent] on an identifier that was handed out succeeds (in a
    release build, or for an entity that exists), keeps the invariant and
    makes the entity exist; reading the component back with [getComponent]
    gives what was stored; the entity has the components it had before and
    the new one; nothing changes for any other entity. *)
Theorem addComponent_then_getComponent {cfg : BuildConfig} (w : WasmWorld F) (id m : N)
    (c : WasmComponent F) :
  wf_world w = true -> mask_at w id = Some m ->
  NDEBUG = true \/ entityExists w id = true ->
  exists w', addComponent w id c = Some w'
    /\ wf_world w' = true
    /\ entityExists w' id = true
    /\ getComponent w' (kindOf c) id = Some c
    /\ (forall k, hasComponent w' k id
                  = if decide (k = kindOf c) then true else hasComponent w k id)
    /\ (forall k id', id' <> id ->
          hasComponent w' k id' = hasComponent w k id'
          /\ lookupComponent w' k id' = lookupComponent w k id').
Proof.
  intros Hwf Hm Hok.
  destruct (addComponent_laws w id m c Hwf Hm Hok)
    as (w' & Hadd & Hwf' & Hex & Hget & Hhas & Hother & Hl & _).
  exists w'. repeat (split; [assumption|]).
  intros k id' Hid. split; [apply Hother, Hid|].
  rewrite Hl. apply decide_False. intros [_ ?]. contradiction.
Qed.

(** X2. [removeComponent] on an existing entity clears exactly one slot:
    the entity no longer has the component and its pool slot is empty, its
    other components and all other entities read as before, the invariant
    is kept, and neither the free list nor the entity count changes. *)
Theorem removeComponent_clears_one_slot (w : WasmWorld F) (k : ComponentKind) (id : N) :
  wf_world w = true -> entityExists w id = true ->
  let w' := removeComponent w k id in
  wf_world w' = true
  /\ hasComponent w' k id = false
  /\ lookupComponent w' k id = None
  /\ (forall k', k' <> k -> hasComponent w' k' id = hasComponent w k' id
                            /\ lookupComponent w' k' id = lookupComponent w k' id)
  /\ (forall k' id', id' <> id -> hasComponent w' k' id' = hasComponent w k' id'
                                  /\ lookupComponent w' k' id' = lookupComponent w k' id')
  /\ m_freeEntities w' = m_freeEntities w
  /\ m_entityCount w' = m_entityCount w.
Proof.
  intros Hwf Hex w'.
  destruct (entityExists_Some w id Hex) as (m & Hm & _).
  destruct (removeComponent_spec w k id m Hm Hex) as (He & Hmask & Hf & Hc & _ & Hl).
  fold w' in He, Hmask, Hf, Hc, Hl.
  assert (Hwf' : wf_world w' = true) by (apply removeComponent_wf, Hwf).
  assert (L' : length (m_entities w') = length (m_entityMasks w'))
    by (apply wf_readable in Hwf'; apply Hwf').
  assert (L : length (m_entities w) = length (m_entityMasks w))
    by (apply wf_readable in Hwf; apply Hwf).
  assert (Hlt : (N.to_nat id < length (m_entityMasks w))%nat)
    by (apply lookup_lt_Some in Hm; exact Hm).
  assert (Hm' : mask_at w' id = Some (N.clearbit m (getComponentID k))).
  { unfold mask_at. rewrite Hmask. apply list_lookup_insert_eq. exact Hlt. }
  split; [exact Hwf'|].
  split; [rewrite (hasComponent_mask w' k id _ L' Hm'); apply N.clearbit_eq|].
  split; [rewrite Hl; apply decide_True; split; reflexivity|].
  split.
  - intros k' Hk. split.
    + rewrite (hasComponent_mask w' k' id _ L' Hm'), (hasComponent_mask w k' id _ L Hm).
      apply N.clearbit_neq. intros E. apply Hk. symmetry. apply getComponentID_inj, E.
    + rewrite Hl. apply decide_False. intros [? _]. contradiction.
  - split; [|split; assumption].
    intros k' id' Hid. split.
    + apply hasComponent_frame; [exact He|]. unfold mask_at. rewrite Hmask.
      apply list_lookup_insert_ne. lia.
    + rewrite Hl. apply decide_False. intros [_ ?]. contradiction.
Qed.


(** X4. Destroying an existing entity removes all its components, leaves
    every other entity as it was and keeps the invariant; the identifier
    is the next one [createEntity] hands out, after which the free list is
    as before the destruction. *)
Theorem destroyed_entity_is_recycled (w : WasmWorld F) (id : N) :
  wf_world w = true -> entityExists w id = true ->
  let w1 := destroyEntity w id in
  wf_world w1 = true
  /\ entityExists w1 id = false
  /\ (forall k, hasComponent w1 k id = false)
  /\ (forall ks, ks <> [] -> ~ In id (getEntitiesWith w1 ks))
  /\ (forall k id', id' <> id -> hasComponent w1 k id' = hasComponent w k id'
                                 /\ lookupComponent w1 k id' = lookupComponent w k id')
  /\ m_entityCount w1 = size_decr (m_entityCount w)
  /\ (createEntity w1).1 = id
  /\ m_freeEntities (createEntity w1).2 = m_freeEntities w
  /\ m_entities (createEntity w1).2 = m_entities w.
Proof.
  intros Hwf Hex w1.
  destruct (entityExists_Some w id Hex) as (m & Hm & _).
  destruct (destroyEntity_spec w id m Hm Hex) as (He & Hmask & Hf & Hc & _ & Hl).
  fold w1 in He, Hmask, Hf, Hc, Hl.
  assert (Hlt : (N.to_nat id < length (m_entityMasks w))%nat)
    by (apply lookup_lt_Some in Hm; exact Hm).
  assert (Hm1 : mask_at w1 id = Some 0).
  { unfold mask_at. rewrite Hmask. apply list_lookup_insert_eq. exact Hlt. }
  assert (Hex1 : entityExists w1 id = false) by (apply entityExists_zero_mask, Hm1).
  split; [apply destroyEntity_wf, Hwf|]. split; [exact Hex1|].
  split; [intros k; unfold hasComponent; rewrite Hex1; reflexivity|].
  split; [intros ks Hks; apply query_skips_empty_mask; assumption|].
  split.
  { intros k id' Hid. split; [|apply Hl, Hid].
    apply hasComponent_frame; [exact He|]. unfold mask_at. rewrite Hmask.
    apply list_lookup_insert_ne. lia. }
  split; [exact Hc|].
  unfold createEntity. rewrite Hf, last_snoc. cbn [fst snd m_freeEntities m_entities].
  split; [reflexivity|]. split; [apply removelast_last | exact He].
Qed.

(** X5. [getEntitiesWith]: for a non-empty list of component types the
    result holds exactly the identifiers that have every one of them; the
    identifiers come in ascending order, each once; for the empty list the
    result is every identifier ever handed out, destroyed ones included. *)
Theorem getEntitiesWith_members (w : WasmWorld F) (ks : list ComponentKind) :
  length (m_entities w) = length (m_entityMasks w) ->
  (ks <> [] -> forall id, In id (getEntitiesWith w ks)
                          <-> forall k, In k ks -> hasComponent w k id = true)
  /\ StronglySorted N.lt (getEntitiesWith w ks)
  /\ getEntitiesWith w [] = idsBelow (N.of_nat (length (m_entities w))).
Proof.
  intros L. split; [intros Hks id; apply getEntitiesWith_hasComponent; assumption|].
  split; [apply sorted_filter, sorted_idsBelow|].
  unfold getEntitiesWith. rewrite L. apply forallb_filter_id, forallb_forall.
  intros id Hid. apply In_idsBelow in Hid.
  destruct (mask_at w id) as [m|] eqn:Hm.
  - cbn. rewrite N.land_0_r. reflexivity.
  - apply lookup_ge_None_1 in Hm. lia.
Qed.

End Lifecycle.

Section DebugBuild.
Context {F : Type} {fl : FloatOps F} {reg : ComponentRegistry}.

(** X6. With assertions enabled (no NDEBUG), the first [addComponent] on an
    identifier fresh from [createEntity] fails its assertion "Entity does
    not exist"; [initialize] and [createVehicle], which do exactly that,
    therefore stop at the assertion in every well-formed simulation. *)
Theorem debug_build_traps_on_first_component (sim : WasmTrafficSimulation F) :
  wf_world (m_world sim) = true ->
  (forall c, addComponent (cfg := debug_build) (createEntity (m_world sim)).2
                          (createEntity (m_world sim)).1 c = None)
  /\ (forall width height, initialize (cfg := debug_build) sim width height = None)
  /\ (forall x y velx vely,
        createVehicle (cfg := debug_build) sim x y velx vely = None).
Proof.
  intros Hwf. destruct (createEntity_mask (m_world sim) Hwf) as (Hm & _ & _).
  assert (H : forall c, addComponent (cfg := debug_build) (createEntity (m_world sim)).2
                          (createEntity (m_world sim)).1 c = None).
  { intros c. apply addComponent_debug_fresh, entityExists_zero_mask, Hm. }
  split; [exact H|]. split.
  - intros width height. unfold initialize.
    destruct (createEntity (m_world sim)) as [id w1]. cbn [fst snd] in H.
    rewrite H. reflexivity.
  - intros x y velx vely. unfold createVehicle.
    destruct (createEntity (m_world sim)) as [id w1]. cbn [fst snd] in H.
    rewrite H. reflexivity.
Qed.

End DebugBuild.

(** ** The facade: clear, reserveVehicles, getVehicleCount *)

Section Facade.
Context {F : Type} {fl : FloatOps F} {reg : ComponentRegistry}.

Lemma size_decr_pred (n : N) : 0 < n -> n < 2 ^ 32 -> size_decr n = n - 1.
Proof.
  intros H0 H1. unfold size_decr, wrap32.
  replace (n + (2 ^ 32 - 1)) with (n - 1 + 1 * 2 ^ 32) by lia.
  rewrite N.Div0.mod_add. apply N.mod_small. lia.
Qed.

Lemma destroyEntity_exists (w : WasmWorld F) (id j : N) :
  entityExists w id = true ->
  entityExists (destroyEntity w id) j
  = if decide (j = id) then false else entityExists w j.
Proof.
  intros Hex. destruct (entityExists_Some w id Hex) as (m & Hm & _).
  destruct (destroyEntity_spec w id m Hm Hex) as (He & Hmask & _).
  unfold entityExists at 1. unfold mask_at. rewrite He, Hmask.
  destruct (decide (j = id)) as [->|Hj].
  - rewrite list_lookup_insert_eq by (apply lookup_lt_Some in Hm; exact Hm).
    apply andb_false_r.
  - rewrite list_lookup_insert_ne by lia. reflexivity.
Qed.

Lemma half_up (n : N) :
  n - (n + 1) / 2 = n / 2 /\ n <= 2 * ((n + 1) / 2) /\ 2 * ((n + 1) / 2) <= n + 1.
Proof.
  assert (H1 := N.div_mod n 2 ltac:(discriminate)).
  assert (H2 := N.div_mod (n + 1) 2 ltac:(discriminate)).
  assert (H3 := N.mod_lt n 2 ltac:(discriminate)).
  assert (H4 := N.mod_lt (n + 1) 2 ltac:(discriminate)).
  assert (H5 : (n + 1) mod 2 = (n mod 2 + 1) mod 2)
    by (rewrite N.Div0.add_mod_idemp_l; reflexivity).
  revert H1 H2 H3 H4 H5.
  generalize (n / 2) as q, ((n + 1) / 2) as q', ((n + 1) mod 2) as r'.
  generalize (n mod 2) as r. intros r q q' r' H1 H2 H3 H4 H5.
  assert (Hr : r = 0 \/ r = 1) by lia. destruct Hr as [-> | ->].
  - change ((0 + 1) mod 2) with 1 in H5. lia.
  - change ((1 + 1) mod 2) with 0 in H5. lia.
Qed.

(** The loop of [clear] on a store whose [n] identifiers are all alive:
    when the loop is at identifier [i], the count has dropped to [n - i]. *)
Lemma clearLoop_half (n : N) (fuel : nat) :
  n < 2 ^ 32 ->
  forall (i : N) (w : WasmWorld F),
    i <= (n + 1) / 2 -> (N.to_nat ((n + 1) / 2 - i) <= fuel)%nat ->
    m_entityCount w = n - i ->
    (forall j, j < n -> entityExists w j = (i <=? j)) ->
    let w' := clearLoop fuel i w in
    m_entityCount w' = n / 2
    /\ forall j, j < n -> entityExists w' j = ((n + 1) / 2 <=? j).
Proof.
  intros Hn. destruct (half_up n) as (Hhalf & Hup1 & Hup2).
  assert (Hstop : forall i, i <= (n + 1) / 2 -> (i <? n - i) = false -> i = (n + 1) / 2).
  { intros i Hi Hc. apply N.ltb_ge in Hc. lia. }
  assert (Hgo : forall i, (i <? n - i) = true -> i < (n + 1) / 2 /\ i < n).
  { intros i Hc. apply N.ltb_lt in Hc. lia. }
  induction fuel as [|fuel IH]; intros i w Hi Hf Hc Hex w'.
  - assert (i = (n + 1) / 2) as -> by lia. subst w'. cbn [clearLoop].
    split; [rewrite Hc; exact Hhalf | exact Hex].
  - subst w'. cbn [clearLoop]. unfold getEntityCount. rewrite Hc.
    destruct (i <? n - i) eqn:Hlt.
    + destruct (Hgo i Hlt) as [Hi1 Hi2].
      assert (Hexi : entityExists w i = true)
        by (rewrite (Hex i Hi2); apply N.leb_le; lia).
      rewrite Hexi. apply IH.
      * lia.
      * lia.
      * destruct (entityExists_Some w i Hexi) as (m & Hm & _).
        destruct (destroyEntity_spec w i m Hm Hexi) as (_ & _ & _ & Hcount & _).
        rewrite Hcount, Hc. rewrite size_decr_pred by lia. lia.
      * intros j Hj. rewrite destroyEntity_exists by exact Hexi.
        rewrite (Hex j Hj). destruct (decide (j = i)) as [->|Hne].
        -- symmetry. apply N.leb_gt. lia.
        -- destruct (N.leb_spec i j), (N.leb_spec (i + 1) j); try reflexivity; lia.
    + rewrite (Hstop i Hi Hlt) in Hc, Hex.
      split; [rewrite Hc; exact Hhalf | exact Hex].
Qed.

(** X7. [clear] on a simulation whose [n] identifiers 0..n-1 are all alive
    destroys only the lower half of them: the loop compares the identifier
    with an entity count that every destruction lowers, so it stops at
    (n+1)/2; the identifiers from there on stay alive and n/2 entities are
    left. *)
Theorem clear_destroys_the_lower_half (sim : WasmTrafficSimulation F) (n : N) :
  n < 2 ^ 32 -> getEntityCount (m_world sim) = n ->
  (forall id, id < n -> entityExists (m_world sim) id = true) ->
  getEntityCount (m_world (clear sim)) = n / 2
  /\ forall id, id < n ->
       entityExists (m_world (clear sim)) id = ((n + 1) / 2 <=? id).
Proof.
  intros Hn Hc Hex. unfold clear. cbn [set_world m_world]. rewrite Hc.
  unfold getEntityCount in *.
  destruct (half_up n) as (_ & _ & Hup).
  assert (Hle : (N.to_nat ((n + 1) / 2 - 0) <= N.to_nat n)%nat)
    by (revert Hup; generalize ((n + 1) / 2); intros q Hup; lia).
  apply (clearLoop_half n (N.to_nat n) Hn 0 (m_world sim)).
  - apply N.le_0_l.
  - exact Hle.
  - rewrite Hc. symmetry. apply N.sub_0_r.
  - intros j Hj. rewrite (Hex j Hj). symmetry. apply N.leb_le, N.le_0_l.
Qed.

Lemma createEntity_keeps_zero (w : WasmWorld F) (j : N) :
  wf_world w = true -> mask_at w j = Some 0 -> mask_at (createEntity w).2 j = Some 0.
Proof.
  intros Hwf Hj. apply wf_world_spec in Hwf as (L & Fr & _).
  unfold createEntity. destruct (last (m_freeEntities w)) as [id|] eqn:Hlast;
    unfold mask_at in *; cbn [snd m_entityMasks].
  - destruct (decide (j = id)) as [->|Hne].
    + apply list_lookup_insert_eq. apply lookup_lt_Some in Hj. exact Hj.
    + rewrite list_lookup_insert_ne by lia. exact Hj.
  - apply lookup_app_l_Some. exact Hj.
Qed.

Lemma destroy_not_existing (w : WasmWorld F) (ids : list N) :
  Forall (fun id => mask_at w id = Some 0) ids -> foldl destroyEntity w ids = w.
Proof.
  induction 1 as [|id ids Hid _ IH]; [reflexivity|]. cbn [foldl].
  rewrite destroyEntity_not_existing by (apply entityExists_zero_mask, Hid). exact IH.
Qed.

(** The creation phase of [reserveVehicles]. *)
Lemma reserve_create (w : WasmWorld F) (count : nat) :
  wf_world w = true ->
  let r := Nat.iter count (fun '(entities, w) =>
                             let '(id, w) := createEntity w in (entities ++ [id], w))
                    ([], w) in
  wf_world r.2 = true
  /\ m_freeEntities r.2 = take (length (m_freeEntities w) - count) (m_freeEntities w)
  /\ m_entityCount r.2 = Nat.iter count size_incr (m_entityCount w)
  /\ length (m_entities r.2)
     = (length (m_entities w) + (count - length (m_freeEntities w)))%nat
  /\ Forall (fun id => mask_at r.2 id = Some 0) r.1.
Proof.
  intros Hwf. induction count as [|k IH]; cbn zeta.
  - cbn [Nat.iter nat_rect fst snd]. split; [exact Hwf|].
    split; [rewrite Nat.sub_0_r, firstn_all; reflexivity|].
    split; [reflexivity|]. split; [lia | constructor].
  - cbn zeta in IH. rewrite !Nat.iter_succ.
    destruct (Nat.iter k _ ([], w)) as [es wk]. cbn [fst snd] in IH.
    destruct IH as (Hwfk & Hfk & Hck & Hlk & Hzk).
    assert (Hz := createEntity_mask wk Hwfk).
    assert (Hkeep := fun j => createEntity_keeps_zero wk j Hwfk).
    assert (Hwf1 := createEntity_wf wk Hwfk).
    assert (Hshape : m_entityCount (createEntity wk).2 = size_incr (m_entityCount wk)
       /\ m_freeEntities (createEntity wk).2 = removelast (m_freeEntities wk)
       /\ length (m_entities (createEntity wk).2)
          = (length (m_entities wk)
             + (if decide (m_freeEntities wk = []) then 1 else 0))%nat).
    { unfold createEntity. destruct (last (m_freeEntities wk)) as [id|] eqn:Hlast;
        cbn [snd m_entityCount m_freeEntities m_entities].
      - split; [reflexivity|]. split; [reflexivity|].
        rewrite decide_False by (intros E; rewrite E in Hlast; discriminate). lia.
      - apply last_None in Hlast. rewrite Hlast. cbn [removelast].
        rewrite decide_True by reflexivity. rewrite length_app. cbn [length]. 
        split; [reflexivity|]. split; [reflexivity | lia]. }
    destruct (createEntity wk) as [id w1]. cbn [fst snd] in *.
    destruct Hz as (Hz & _ & _). destruct Hshape as (Hc1 & Hf1 & Hl1).
    split; [exact Hwf1|].
    split.
    { rewrite Hf1, Hfk.
      destruct (decide (k < length (m_freeEntities w))%nat) as [Hlt|Hge].
      - replace (length (m_freeEntities w) - k)%nat
          with (S (length (m_freeEntities w) - S k)) by lia.
        apply removelast_firstn. lia.
      - replace (length (m_freeEntities w) - k)%nat with 0%nat by lia.
        replace (length (m_freeEntities w) - S k)%nat with 0%nat by lia. reflexivity. }
    split; [rewrite Hc1, Hck; reflexivity|].
    split.
    { rewrite Hl1, Hlk, Hfk.
      destruct (decide (k < length (m_freeEntities w))%nat) as [Hlt|Hge].
      - rewrite decide_False; [lia|].
        intros E. apply (f_equal length) in E. rewrite length_take in E. cbn in E. lia.
      - rewrite decide_True; [lia|].
        replace (length (m_freeEntities w) - k)%nat with 0%nat by lia. reflexivity. }
    apply Forall_app. split.
    + eapply Forall_impl; [exact Hzk|]. intros j Hj. apply Hkeep, Hj.
    + constructor; [exact Hz | constructor].
Qed.

(** X8. [reserveVehicles] does not "populate the free list": the entities
    it creates carry no component, so destroying them does nothing.  Each
    creation takes an identifier from the free list while there is one, so
    the free list loses its last [count] identifiers, the entity vector
    grows by the rest, and the entity count is [count] higher. *)
Theorem reserveVehicles_never_fills_the_free_list (sim : WasmTrafficSimulation F)
    (count : nat) :
  wf_world (m_world sim) = true ->
  let w := m_world sim in
  let w' := m_world (reserveVehicles sim count) in
  wf_world w' = true
  /\ m_freeEntities w' = take (length (m_freeEntities w) - count) (m_freeEntities w)
  /\ m_entityCount w' = Nat.iter count size_incr (m_entityCount w)
  /\ length (m_entities w')
     = (length (m_entities w) + (count - length (m_freeEntities w)))%nat.
Proof.
  intros Hwf w w'. subst w'. unfold reserveVehicles.
  assert (H := reserve_create w count Hwf). cbn zeta in H. fold w.
  destruct (Nat.iter count _ _) as [es wk]. cbn [fst snd] in H.
  destruct H as (Hwfk & Hfk & Hck & Hlk & Hzk).
  cbn [set_world m_world]. rewrite (destroy_not_existing wk es Hzk).
  repeat split; assumption.
Qed.

Lemma filter_filter {A : Type} (f g : A -> bool) (l : list A) :
  List.filter f (List.filter g l) = List.filter (fun x => g x && f x) l.
Proof.
  induction l as [|a l IH]; [reflexivity|]. cbn [List.filter].
  destruct (g a); cbn [andb List.filter]; [destruct (f a)|]; rewrite IH; reflexivity.
Qed.

Lemma filter_idsBelow (a b : N) :
  a <= b -> List.filter (fun i => i <? a) (idsBelow b) = idsBelow a.
Proof.
  intros Hab. rewrite <- (N2Nat.id b). assert (Hb : (N.to_nat a <= N.to_nat b)%nat) by lia.
  induction (N.to_nat b) as [|k IH].
  - assert (a = 0) as -> by lia. reflexivity.
  - rewrite idsBelow_succ, List.filter_app. cbn [List.filter].
    destruct (decide (N.to_nat a <= k)%nat) as [Hle|Hgt].
    + rewrite IH by exact Hle. rewrite (proj2 (N.ltb_ge _ _)) by lia. apply app_nil_r.
    + assert (a = N.of_nat (S k)) as -> by lia.
      rewrite (forallb_filter_id _ (idsBelow (N.of_nat k))).
      * rewrite (proj2 (N.ltb_lt _ _)) by lia. rewrite idsBelow_succ. reflexivity.
      * apply forallb_forall. intros x Hx. apply In_idsBelow in Hx. apply N.ltb_lt. lia.
Qed.

(** X9. [getVehicleCount] looks at the identifiers below the entity count
    only, not at all identifiers: it counts the entities with a Transform
    and a Vehicle component whose identifier is smaller than the number of
    live entities, so a vehicle with a larger identifier is not counted. *)
Theorem getVehicleCount_stops_at_the_entity_count (sim : WasmTrafficSimulation F) :
  length (m_entities (m_world sim)) = length (m_entityMasks (m_world sim)) ->
  getVehicleCount sim
  = N.of_nat (length (List.filter (fun id => id <? getEntityCount (m_world sim))
                        (getEntitiesWith (m_world sim) [KTransform; KVehicle]))).
Proof.
  intros L. unfold getVehicleCount. cbn zeta. f_equal. f_equal.
  set (w := m_world sim) in *. set (c := getEntityCount w).
  set (len := N.of_nat (length (m_entityMasks w))).
  set (P := fun id => entityExists w id && hasComponent w KTransform id
                      && hasComponent w KVehicle id).
  assert (HP : forall id, P id = true <-> In id (getEntitiesWith w [KTransform; KVehicle])).
  { intros id. rewrite getEntitiesWith_hasComponent by (assumption || discriminate).
    unfold P. split.
    - intros H. apply andb_true_iff in H as [H HV]. apply andb_true_iff in H as [_ HT].
      intros k [<-|[<-|[]]]; assumption.
    - intros H. assert (HT := H KTransform (or_introl eq_refl)).
      assert (HV := H KVehicle (or_intror (or_introl eq_refl))).
      rewrite HT, HV, !andb_true_r. unfold hasComponent in HT.
      destruct (entityExists w id); [reflexivity|discriminate]. }
  rewrite <- (filter_idsBelow c (N.max c len)) by lia.
  unfold getEntitiesWith. fold len.
  set (Q := fun i => match mask_at w i with
                     | Some m => N.land m (requiredMask [KTransform; KVehicle])
                                 =? requiredMask [KTransform; KVehicle]
                     | None => false end).
  rewrite <- (filter_idsBelow len (N.max c len)) by lia.
  rewrite !filter_filter. apply filter_ext. intros id.
  assert (HQ : P id = (id <? len) && Q id).
  { apply eq_true_iff_eq. rewrite HP. unfold getEntitiesWith. fold len Q.
    rewrite filter_In, In_idsBelow, andb_true_iff, N.ltb_lt. reflexivity. }
  rewrite HQ. destruct (id <? c), (id <? len), (Q id); reflexivity.
Qed.

End Facade.

(** ** The facade: initialize and createVehicle in a release build *)

Section Creation.
Context {F : Type} {fl : FloatOps F} {reg : ComponentRegistry}.

Lemma getComponent_lookup {cfg : BuildConfig} (w : WasmWorld F) (k : ComponentKind)
    (id : N) (c : WasmComponent F) :
  wf_world w = true -> hasComponent w k id = true -> lookupComponent w k id = Some c ->
  getComponent w k id = Some c.
Proof.
  intros Hwf Hh Hl. destruct (hasComponent_bit w k id Hh) as (m & Hm & Hb).
  apply wf_readable in Hwf as [L P].
  destruct (getComponent_present w id m k L P Hm Hb) as (c0 & Hc0 & _ & Hg).
  rewrite Hl in Hc0. injection Hc0 as <-. exact Hg.
Qed.

Lemma getComponent_inv {cfg : BuildConfig} (w : WasmWorld F) (k : ComponentKind)
    (id : N) (c : WasmComponent F) :
  getComponent w k id = Some c -> lookupComponent w k id = Some c.
Proof.
  unfold getComponent. intros H.
  destruct (assert (entityExists w id)); [|discriminate]. cbn [mbind option_bind] in H.
  destruct (assert _); [|discriminate]. cbn [mbind option_bind] in H.
  destruct (lookupComponent w k id) as [c0|]; [|discriminate]. cbn [mbind option_bind] in H.
  destruct (check _); [|discriminate]. exact H.
Qed.

(** [createEntity] leaves every other identifier as it was. *)
Lemma createEntity_frame (w : WasmWorld F) (k : ComponentKind) (id' : N) :
  wf_world w = true -> id' <> (createEntity w).1 ->
  hasComponent (createEntity w).2 k id' = hasComponent w k id'
  /\ lookupComponent (createEntity w).2 k id' = lookupComponent w k id'.
Proof.
  intros Hwf. apply wf_world_spec in Hwf as (L & _ & _).
  unfold createEntity. destruct (last (m_freeEntities w)) as [id|]; cbn [fst snd]; intros Hne.
  - split; [|reflexivity]. apply hasComponent_frame; [reflexivity|].
    unfold mask_at. cbn [m_entityMasks]. apply list_lookup_insert_ne. lia.
  - split; [|reflexivity]. unfold hasComponent, entityExists, mask_at.
    cbn [m_entities m_entityMasks]. rewrite length_app. cbn [length].
    destruct (decide (N.to_nat id' < length (m_entityMasks w))%nat) as [Hlt|Hge].
    + rewrite lookup_app_l by exact Hlt.
      rewrite !(proj2 (N.ltb_lt _ _)) by lia. reflexivity.
    + rewrite (lookup_ge_None_2 (m_entityMasks w)) by lia.
      rewrite lookup_ge_None_2 by (rewrite length_app; cbn [length]; lia).
      rewrite !andb_false_r. reflexivity.
Qed.

Lemma exists_and_has (w : WasmWorld F) (k : ComponentKind) (id : N) :
  entityExists w id && hasComponent w k id = hasComponent w k id.
Proof. unfold hasComponent. destruct (entityExists w id); reflexivity. Qed.

Lemma createEntity_count (w : WasmWorld F) :
  m_entityCount (createEntity w).2 = size_incr (m_entityCount w).
Proof. unfold createEntity. destruct (last (m_freeEntities w)); reflexivity. Qed.

(** X10. In a release build [createVehicle] on a well-formed simulation
    succeeds and returns the identifier that [createEntity] hands out;
    the position and velocity read back are the ones given; the entity has
    exactly the components Transform, Vehicle, Collision (radius 2) and
    Renderable; every other entity is as before and the invariant holds. *)
Theorem createVehicle_then_read (sim : WasmTrafficSimulation F) (x y velx vely : F) :
  wf_world (m_world sim) = true ->
  let id := (createEntity (m_world sim)).1 in
  exists sim', createVehicle (cfg := release_build) sim x y velx vely = Some (id, sim')
    /\ wf_world (m_world sim') = true
    /\ getVehiclePosition (cfg := release_build) sim' id = Some (mkVec x y)
    /\ getVehicleVelocity (cfg := release_build) sim' id = Some (mkVec velx vely)
    /\ getCollision (cfg := release_build) (m_world sim') id
       = Some (newCollision (f_lit 2 1))
    /\ (forall k, hasComponent (m_world sim') k id
                  = bool_decide (k ∈ [KTransform; KVehicle; KCollision; KRenderable]))
    /\ (forall k id', id' <> id ->
          hasComponent (m_world sim') k id' = hasComponent (m_world sim) k id'
          /\ lookupComponent (m_world sim') k id' = lookupComponent (m_world sim) k id').
Proof.
  intros Hwf id. unfold createVehicle.
  destruct (createEntity_mask (m_world sim) Hwf) as (Hm1 & _ & _).
  assert (Hwf1 := createEntity_wf (m_world sim) Hwf).
  assert (Hfr := fun k id' => createEntity_frame (m_world sim) k id' Hwf).
  fold id in Hm1, Hfr. subst id.
  destruct (createEntity (m_world sim)) as [id w1]. cbn [fst snd] in *.
  assert (H1 : forall k, hasComponent w1 k id = false).
  { intros k. unfold hasComponent. rewrite (entityExists_zero_mask w1 id Hm1). reflexivity. }
  set (t := newTransform (mkVec x y) (mkVec velx vely)).
  destruct (addComponent_laws (cfg := release_build) w1 id 0 (TransformC t)
              Hwf1 Hm1 (or_introl eq_refl))
    as (w2 & A2 & Hwf2 & _ & _ & Hh2 & Ho2 & Hl2 & Hm2 & _).
  destruct (addComponent_laws (cfg := release_build) w2 id _ (VehicleC newVehicle)
              Hwf2 Hm2 (or_introl eq_refl))
    as (w3 & A3 & Hwf3 & _ & _ & Hh3 & Ho3 & Hl3 & Hm3 & _).
  destruct (addComponent_laws (cfg := release_build) w3 id _
              (CollisionC (newCollision (f_lit 2 1))) Hwf3 Hm3 (or_introl eq_refl))
    as (w4 & A4 & Hwf4 & _ & _ & Hh4 & Ho4 & Hl4 & Hm4 & _).
  destruct (addComponent_laws (cfg := release_build) w4 id _ (RenderableC newRenderable)
              Hwf4 Hm4 (or_introl eq_refl))
    as (w5 & A5 & Hwf5 & Hex5 & _ & Hh5 & Ho5 & Hl5 & _).
  rewrite A2. cbn [mbind option_bind]. rewrite A3. cbn [mbind option_bind].
  rewrite A4. cbn [mbind option_bind]. rewrite A5. cbn [mbind option_bind].
  eexists. split; [reflexivity|]. cbn [set_world m_world].
  assert (Hhas : forall k, hasComponent w5 k id
                 = bool_decide (k ∈ [KTransform; KVehicle; KCollision; KRenderable])).
  { intros k. rewrite Hh5, Hh4, Hh3, Hh2, H1. destruct k; vm_compute; reflexivity. }
  assert (HT : getTransform (cfg := release_build) w5 id = Some t).
  { unfold getTransform. rewrite (getComponent_lookup w5 KTransform id (TransformC t)).
    - reflexivity.
    - exact Hwf5.
    - rewrite Hhas. reflexivity.
    - rewrite Hl5, Hl4, Hl3, Hl2. cbn [kindOf].
      rewrite !decide_False by (intros [? _]; discriminate).
      apply decide_True. split; reflexivity. }
  split; [exact Hwf5|].
  split; [unfold getVehiclePosition; cbn [set_world m_world]; rewrite Hex5, Hhas, HT; reflexivity|].
  split; [unfold getVehicleVelocity; cbn [set_world m_world]; rewrite Hex5, Hhas, HT; reflexivity|].
  split.
  { unfold getCollision.
    rewrite (getComponent_lookup w5 KCollision id (CollisionC (newCollision (f_lit 2 1)))).
    - reflexivity.
    - exact Hwf5.
    - rewrite Hhas. reflexivity.
    - rewrite Hl5, Hl4. cbn [kindOf].
      rewrite decide_False by (intros [? _]; discriminate).
      apply decide_True. split; reflexivity. }
  split; [exact Hhas|].
  intros k id' Hne. destruct (Hfr k id' Hne) as [Hf1 Hf2]. split.
  - rewrite Ho5, Ho4, Ho3, Ho2 by exact Hne. exact Hf1.
  - rewrite Hl5, Hl4, Hl3, Hl2.
    rewrite !decide_False by (intros [_ ?]; contradiction). exact Hf2.
Qed.

Lemma find_app {A : Type} (f : A -> bool) (l1 l2 : list A) :
  List.find f (l1 ++ l2)
  = match List.find f l1 with Some x => Some x | None => List.find f l2 end.
Proof.
  induction l1 as [|a l1 IH]; [reflexivity|]. cbn [List.find app].
  destruct (f a); [reflexivity | exact IH].
Qed.

(** The first hit of a search through [0, 1, ..., n-1]. *)
Lemma find_idsBelow (P : N -> bool) (n x : N) :
  List.find P (idsBelow n) = Some x
  <-> x < n /\ P x = true /\ forall y, y < x -> P y = false.
Proof.
  rewrite <- (N2Nat.id n). revert x. induction (N.to_nat n) as [|k IH]; intros x.
  - cbn. split; [discriminate|]. intros [H _]. lia.
  - rewrite idsBelow_succ, find_app.
    destruct (List.find P (idsBelow (N.of_nat k))) as [z|] eqn:Hz.
    + destruct (proj1 (IH z) eq_refl) as (G1 & G2 & G3). split.
      * intros E. injection E as <-. split; [lia|]. split; assumption.
      * intros (H1 & H2 & H3). f_equal.
        destruct (N.lt_trichotomy z x) as [Hlt|[->|Hgt]]; [|reflexivity|].
        -- rewrite (H3 z Hlt) in G2. discriminate.
        -- rewrite (G3 x Hgt) in H2. discriminate.
    + cbn [List.find]. destruct (P (N.of_nat k)) eqn:Hk.
      * split.
        -- intros E. injection E as <-. split; [lia|]. split; [exact Hk|].
           intros y Hy. apply (find_none _ _ Hz). apply In_idsBelow. exact Hy.
        -- intros (H1 & H2 & H3). f_equal.
           destruct (N.lt_trichotomy (N.of_nat k) x) as [Hlt|[->|Hgt]]; [lia|reflexivity|].
           assert (H : In x (idsBelow (N.of_nat k))) by (apply In_idsBelow; exact Hgt).
           rewrite (find_none _ _ Hz x H) in H2. discriminate.
      * split; [discriminate|]. intros (H1 & H2 & H3).
        destruct (N.eq_dec x (N.of_nat k)) as [->|Hne]; [congruence|].
        assert (H : In x (idsBelow (N.of_nat k))) by (apply In_idsBelow; lia).
        rewrite (find_none _ _ Hz x H) in H2. discriminate.
Qed.

(** X11. [initialize] in a release build adds a bounds entity and records
    the size, but the bounds system keeps using the bounds component it
    finds first: when bounds are already in place (and no identifier awaits
    reuse), a further [initialize] changes [m_width] and [m_height] but not
    the bounds that [findGlobalBounds] returns. *)
Theorem initialize_again_keeps_the_first_bounds (sim : WasmTrafficSimulation F)
    (width height : F) (b : WasmBoundsComponent F) :
  wf_world (m_world sim) = true -> m_freeEntities (m_world sim) = [] ->
  m_entityCount (m_world sim) + 1 < 2 ^ 32 ->
  findGlobalBounds (cfg := release_build) (m_world sim) = Some (Some b) ->
  exists sim', initialize (cfg := release_build) sim width height = Some sim'
    /\ wf_world (m_world sim') = true
    /\ m_width sim' = width /\ m_height sim' = height
    /\ getBounds (cfg := release_build) (m_world sim')
         (N.of_nat (length (m_entities (m_world sim))))
       = Some (newBounds width height)
    /\ findGlobalBounds (cfg := release_build) (m_world sim') = Some (Some b).
Proof.
  intros Hwf Hfree Hcount Hfind. unfold initialize.
  destruct (createEntity_mask (m_world sim) Hwf) as (Hm1 & _ & _).
  assert (Hwf1 := createEntity_wf (m_world sim) Hwf).
  assert (Hfr := fun k id' => createEntity_frame (m_world sim) k id' Hwf).
  assert (Hc1 := createEntity_count (m_world sim)).
  assert (Hid : (createEntity (m_world sim)).1 = N.of_nat (length (m_entities (m_world sim)))).
  { unfold createEntity. rewrite Hfree. reflexivity. }
  destruct (createEntity (m_world sim)) as [id w1]. cbn [fst snd] in *. subst id.
  set (id := N.of_nat (length (m_entities (m_world sim)))) in *.
  destruct (addComponent_laws (cfg := release_build) w1 id 0
              (BoundsC (newBounds width height)) Hwf1 Hm1 (or_introl eq_refl))
    as (w2 & A2 & Hwf2 & Hex2 & Hget2 & Hh2 & Ho2 & Hl2 & _ & _ & _ & Hc2 & _).
  rewrite A2. cbn [mbind option_bind]. eexists. split; [reflexivity|].
  cbn [m_world m_width m_height].
  split; [exact Hwf2|]. split; [reflexivity|]. split; [reflexivity|].
  cbn [kindOf] in Hget2.
  split; [unfold getBounds; rewrite Hget2; reflexivity|].
  unfold findGlobalBounds in Hfind |- *.
  destruct (List.find _ (idsBelow (getEntityCount (m_world sim)))) as [id0|] eqn:Hf;
    [|discriminate].
  apply find_idsBelow in Hf as (Hlt & Hp & Hbefore).
  apply andb_true_iff in Hp as [Hex0 Hhas0].
  assert (Hne : id0 <> id).
  { unfold entityExists in Hex0. apply andb_true_iff in Hex0 as [Hex0 _].
    apply N.ltb_lt in Hex0. unfold id. lia. }
  assert (Hsame : forall y, y <> id ->
            entityExists w2 y && hasComponent w2 KBounds y
            = entityExists (m_world sim) y && hasComponent (m_world sim) KBounds y).
  { intros y Hy. rewrite !exists_and_has.
    rewrite (Ho2 KBounds y Hy). apply (Hfr KBounds y Hy). }
  assert (Hf2 : List.find (fun y => entityExists w2 y && hasComponent w2 KBounds y)
                          (idsBelow (getEntityCount w2)) = Some id0).
  { apply find_idsBelow. unfold getEntityCount in *. rewrite Hc2, Hc1.
    unfold size_incr, wrap32. rewrite N.mod_small by exact Hcount.
    split; [lia|]. split.
    - rewrite (Hsame id0 Hne), Hex0, Hhas0. reflexivity.
    - intros y Hy. rewrite Hsame; [apply Hbefore, Hy|].
      unfold entityExists in Hex0. apply andb_true_iff in Hex0 as [Hex0 _].
      apply N.ltb_lt in Hex0. unfold id. lia. }
  rewrite Hf2.
  destruct (getBounds (m_world sim) id0) as [b0|] eqn:Hb; [|discriminate].
  cbn [mbind option_bind] in Hfind. injection Hfind as ->.
  unfold getBounds in Hb |- *.
  destruct (getComponent (m_world sim) KBounds id0) as [c|] eqn:Hg; [|discriminate].
  cbn [mbind option_bind] in Hb. apply getComponent_inv in Hg.
  rewrite (getComponent_lookup w2 KBounds id0 c).
  - cbn [mbind option_bind]. rewrite Hb. reflexivity.
  - exact Hwf2.
  - rewrite (Ho2 KBounds id0 Hne), (proj1 (Hfr KBounds id0 Hne)). exact Hhas0.
  - rewrite Hl2, decide_False by (intros [_ ?]; contradiction).
    rewrite (proj2 (Hfr KBounds id0 Hne)). exact Hg.
Qed.

End Creation.

(** ** Passes of the systems over the entities of a query *)

Section Passes.
Context {F : Type} {fl : FloatOps F} {reg : ComponentRegistry} {cfg : BuildConfig}.

(** A loop over distinct entities whose body writes to the components of
    its own entity only: the loop ends, entities and masks stay as they
    are, the components of an entity outside the list are untouched, and
    each slot of an entity of the list is related to its old content as
    one run of the body relates them. *)
Lemma foldM_entities (step : WasmWorld F -> N -> option (WasmWorld F))
    (S : N -> ComponentKind -> option (WasmComponent F) -> option (WasmComponent F)
         -> Prop)
    (L : list N) (w0 : WasmWorld F) :
  (forall w id, sameEntities w0 w -> readable w -> In id L ->
     exists w', step w id = Some w' /\ sameEntities w w' /\ readable w'
       /\ (forall k id', id' <> id -> lookupComponent w' k id' = lookupComponent w k id')
       /\ (forall k, S id k (lookupComponent w k id) (lookupComponent w' k id))) ->
  List.NoDup L -> readable w0 ->
  exists w', foldM step w0 L = Some w' /\ sameEntities w0 w' /\ readable w'
    /\ (forall k id, ~ In id L -> lookupComponent w' k id = lookupComponent w0 k id)
    /\ (forall k id, In id L ->
          S id k (lookupComponent w0 k id) (lookupComponent w' k id)).
Proof.
  revert w0. induction L as [|a L IH]; intros w0 Hstep Hnd Hr.
  - exists w0. split; [reflexivity|]. split; [apply sameEntities_refl|].
    split; [exact Hr|]. split; [reflexivity|]. intros k id [].
  - apply List.NoDup_cons_iff in Hnd as [Ha Hnd].
    destruct (Hstep w0 a (sameEntities_refl w0) Hr (or_introl eq_refl))
      as (w1 & E1 & S1 & R1 & Fr1 & Rel1).
    destruct (IH w1) as (w' & E' & S' & R' & Fr' & Rel'); [|exact Hnd|exact R1|].
    { intros w id Sw Rw Hin. apply Hstep; [|exact Rw|right; exact Hin].
      eapply sameEntities_trans; [exact S1 | exact Sw]. }
    exists w'. cbn [foldM]. rewrite E1. split; [exact E'|].
    split; [eapply sameEntities_trans; [exact S1 | exact S']|].
    split; [exact R'|]. split.
    + intros k id Hn. rewrite Fr' by (intros H; apply Hn; right; exact H).
      apply Fr1. intros ->. apply Hn. left. reflexivity.
    + intros k id [<-|Hin].
      * rewrite (Fr' k a Ha). apply Rel1.
      * assert (Hne : id <> a) by (intros ->; contradiction).
        rewrite <- (Fr1 k id Hne). apply Rel', Hin.
Qed.

Lemma sameEntities_wf (w w' : WasmWorld F) :
  sameEntities w w' -> wf_world w = true -> readable w' -> wf_world w' = true.
Proof.
  intros (He & Hm & Hf & _) Hwf [L' P']. apply wf_world_spec in Hwf as (_ & Fr & _).
  apply wf_world_spec. split; [exact L'|]. split; [|exact P'].
  intros id Hid. rewrite He. apply Fr. rewrite <- Hf. exact Hid.
Qed.

Lemma getTrafficSignal_present (w : WasmWorld F) (id m : N) :
  readable w -> mask_at w id = Some m ->
  N.testbit m (getComponentID KTrafficSignal) = true ->
  exists s, lookupComponent w KTrafficSignal id = Some (TrafficSignalC s)
            /\ getTrafficSignal w id = Some s.
Proof.
  intros [L P] Hm Hb.
  destruct (getComponent_present w id m KTrafficSignal L P Hm Hb) as (c & Hc & Hk & Hg).
  destruct c; try discriminate. eexists. split; [exact Hc|].
  unfold getTrafficSignal. rewrite Hg. reflexivity.
Qed.

Lemma getPathFollowing_present (w : WasmWorld F) (id m : N) :
  readable w -> mask_at w id = Some m ->
  N.testbit m (getComponentID KPathFollowing) = true ->
  exists s, lookupComponent w KPathFollowing id = Some (PathFollowingC s)
            /\ getPathFollowing w id = Some s.
Proof.
  intros [L P] Hm Hb.
  destruct (getComponent_present w id m KPathFollowing L P Hm Hb) as (c & Hc & Hk & Hg).
  destruct c; try discriminate. eexists. split; [exact Hc|].
  unfold getPathFollowing. rewrite Hg. reflexivity.
Qed.

(** Reading a typed component of an entity that has it. *)
Lemma typed_read (w : WasmWorld F) (k : ComponentKind) (id : N) :
  readable w -> hasComponent w k id = true ->
  exists c, lookupComponent w k id = Some c /\ kindOf c = k /\ getComponent w k id = Some c.
Proof.
  intros [L P] Hh. destruct (hasComponent_bit w k id Hh) as (m & Hm & Hb).
  apply (getComponent_present w id m k L P Hm Hb).
Qed.

(** A pass that rewrites one component type of every entity of a query. *)
Lemma pass_over (k : ComponentKind) (upd : WasmComponent F -> WasmComponent F)
    (step : WasmWorld F -> N -> option (WasmWorld F)) (w : WasmWorld F) :
  (forall c, kindOf c = k -> kindOf (upd c) = k) ->
  (forall w1 id c, readable w1 -> hasComponent w1 k id = true ->
                   lookupComponent w1 k id = Some c -> kindOf c = k ->
                   step w1 id = Some (storeComponent w1 id (upd c))) ->
  wf_world w = true ->
  exists w', foldM step w (getEntitiesWith w [k]) = Some w'
    /\ sameEntities w w' /\ wf_world w' = true
    /\ (forall k' id, lookupComponent w' k' id
          = if decide (k' = k /\ hasComponent w k id = true)
            then upd <$> lookupComponent w k id else lookupComponent w k' id).
Proof.
  intros Hupd Hstep Hwf. assert (Hr := wf_readable w Hwf).
  assert (Hmem : forall id, In id (getEntitiesWith w [k]) <-> hasComponent w k id = true).
  { intros id. rewrite getEntitiesWith_hasComponent by (apply Hr || discriminate).
    split; [intros H; apply H; left; reflexivity | intros H k' [<-|[]]; exact H]. }
  destruct (foldM_entities step
              (fun _ k' a b => b = if decide (k' = k) then upd <$> a else a)
              (getEntitiesWith w [k]) w) as (w' & E & S' & R' & Fr & Rel).
  - intros w1 id S1 R1 Hin. apply Hmem in Hin.
    rewrite <- (sameEntities_hasComponent _ _ _ _ S1) in Hin.
    destruct (typed_read w1 k id R1 Hin) as (c & Hc & Hk & _).
    exists (storeComponent w1 id (upd c)). split; [apply Hstep; assumption|].
    assert (Hc' : lookupComponent w1 (kindOf (upd c)) id = Some c)
      by (rewrite (Hupd c Hk); exact Hc).
    split; [apply storeComponent_shape|].
    split; [eapply storeComponent_readable; [exact Hc' | exact R1]|].
    split.
    + intros k' id' Hne. rewrite (lookup_storeComponent _ _ _ _ _ _ Hc').
      apply decide_False. intros [_ ?]. contradiction.
    + intros k'. rewrite (lookup_storeComponent _ _ _ _ _ _ Hc'), (Hupd c Hk).
      destruct (decide (k' = k)) as [->|Hne].
      * rewrite decide_True by (split; reflexivity). rewrite Hc. reflexivity.
      * apply decide_False. intros [? _]. contradiction.
  - apply NoDup_getEntitiesWith.
  - exact Hr.
  - exists w'. split; [exact E|]. split; [exact S'|].
    split; [apply (sameEntities_wf w w' S' Hwf R')|].
    intros k' id. destruct (hasComponent w k id) eqn:Hh.
    + rewrite (Rel k' id) by (apply Hmem; exact Hh).
      destruct (decide (k' = k)) as [->|Hne].
      * rewrite decide_True by (split; reflexivity). reflexivity.
      * rewrite decide_False by (intros [? _]; contradiction). reflexivity.
    + rewrite decide_False by (intros [_ ?]; discriminate).
      apply Fr. intros Hin. apply Hmem in Hin. congruence.
Qed.

(** The movement pass rewrites the Transform components of the entities
    that have one. *)
Lemma movementSystem_pass (w : WasmWorld F) (dt : F) :
  wf_world w = true ->
  exists w', movementSystem w dt = Some w'
    /\ sameEntities w w' /\ wf_world w' = true
    /\ (forall k' id, lookupComponent w' k' id
          = if decide (k' = KTransform /\ hasComponent w KTransform id = true)
            then onTransform (moved dt) <$> lookupComponent w KTransform id
            else lookupComponent w k' id).
Proof.
  intros Hwf. unfold movementSystem.
  apply (pass_over KTransform (onTransform (moved dt))
           (fun w id => movementStep w dt id) w).
  - intros c Hk. destruct c; try discriminate. reflexivity.
  - intros w1 id c R1 Hh Hc Hk. destruct c as [t| | | | | | |]; try discriminate.
    destruct (typed_read w1 KTransform id R1 Hh) as (c & Hc' & _ & Hg).
    rewrite Hc in Hc'. injection Hc' as <-.
    unfold movementStep, getTransform. rewrite Hg. reflexivity.
  - exact Hwf.
Qed.

(** X12. A pass of the movement system over a well-formed world ends;
    every entity with a Transform component has its velocity times [dt]
    added to its position, keeps its velocity, and has its rotation set to
    the direction of the velocity when a velocity coordinate exceeds 0.1
    in absolute value; no other component, mask or list changes. *)
Theorem movementSystem_integrates_velocity (w : WasmWorld F) (dt : F) :
  wf_world w = true ->
  exists w', movementSystem w dt = Some w'
    /\ sameEntities w w' /\ wf_world w' = true
    /\ (forall id t, hasComponent w KTransform id = true -> getTransform w id = Some t ->
          getTransform w' id = Some (moved dt t))
    /\ (forall k id, k <> KTransform -> lookupComponent w' k id = lookupComponent w k id)
    /\ (forall id, hasComponent w KTransform id = false ->
          lookupComponent w' KTransform id = lookupComponent w KTransform id).
Proof.
  intros Hwf. destruct (movementSystem_pass w dt Hwf) as (w' & E & S' & Hwf' & Hl).
  - exists w'. split; [exact E|]. split; [exact S'|]. split; [exact Hwf'|].
    split; [|split].
    + intros id t Hh Hg. unfold getTransform in Hg.
      destruct (getComponent w KTransform id) as [c|] eqn:Hgc; [|discriminate].
      apply getComponent_inv in Hgc. destruct c; try discriminate.
      cbn [mbind option_bind] in Hg. injection Hg as ->.
      unfold getTransform. rewrite (getComponent_lookup w' KTransform id
                                       (TransformC (moved dt t))).
      * reflexivity.
      * exact Hwf'.
      * rewrite (sameEntities_hasComponent _ _ _ _ S'). exact Hh.
      * rewrite Hl, decide_True by (split; [reflexivity | exact Hh]).
        rewrite Hgc. reflexivity.
    + intros k id Hk. rewrite Hl. apply decide_False. intros [? _]. contradiction.
    + intros id Hh. rewrite Hl. apply decide_False. intros [_ ?]. congruence.
Qed.

Lemma signal_update_cycle (s : WasmTrafficSignalComponent F) (dt : F) :
  let s' := signal_update s dt in
  greenDuration s' = greenDuration s /\ yellowDuration s' = yellowDuration s
  /\ redDuration s' = redDuration s
  /\ (if fle (fsub (timeRemaining s) dt) f0
      then state s' = nextState (state s)
           /\ timeRemaining s' = durationOf s (nextState (state s))
      else state s' = state s /\ timeRemaining s' = fsub (timeRemaining s) dt).
Proof.
  unfold signal_update. destruct (fle (fsub (timeRemaining s) dt) f0).
  - destruct (state s); repeat split; reflexivity.
  - repeat split; reflexivity.
Qed.

(** The signal pass rewrites the signal components of the entities that
    have one. *)
Lemma trafficSignalSystem_pass (w : WasmWorld F) (dt : F) :
  wf_world w = true ->
  exists w', trafficSignalSystem w dt = Some w'
    /\ sameEntities w w' /\ wf_world w' = true
    /\ (forall k' id, lookupComponent w' k' id
          = if decide (k' = KTrafficSignal /\ hasComponent w KTrafficSignal id = true)
            then onSignal (fun s => signal_update s dt)
                 <$> lookupComponent w KTrafficSignal id
            else lookupComponent w k' id).
Proof.
  intros Hwf. unfold trafficSignalSystem.
  apply (pass_over KTrafficSignal (onSignal (fun s => signal_update s dt))
           (fun w id => signal ← getTrafficSignal w id;
                        Some (storeComponent w id
                                (TrafficSignalC (signal_update signal dt)))) w).
  - intros c Hk. destruct c; try discriminate. reflexivity.
  - intros w1 id c R1 Hh Hc Hk. destruct c as [| | | | | |t|]; try discriminate.
    destruct (typed_read w1 KTrafficSignal id R1 Hh) as (c & Hc' & _ & Hg).
    rewrite Hc in Hc'. injection Hc' as <-.
    unfold getTrafficSignal. rewrite Hg. reflexivity.
  - exact Hwf.
Qed.

(** X13. A pass of the signal system over a well-formed world ends and
    advances every traffic signal once: the three durations never change;
    when the remaining time minus [dt] is at most 0 the state moves on in
    the cycle green, yellow, red, green and the timer restarts at the
    duration of the new state; otherwise the state stays and the timer
    drops by [dt].  Nothing else in the world changes. *)
Theorem trafficSignalSystem_cycles (w : WasmWorld F) (dt : F) :
  wf_world w = true ->
  exists w', trafficSignalSystem w dt = Some w'
    /\ sameEntities w w' /\ wf_world w' = true
    /\ (forall id s, hasComponent w KTrafficSignal id = true ->
          getTrafficSignal w id = Some s ->
          exists s', getTrafficSignal w' id = Some s'
            /\ greenDuration s' = greenDuration s
            /\ yellowDuration s' = yellowDuration s
            /\ redDuration s' = redDuration s
            /\ (if fle (fsub (timeRemaining s) dt) f0
                then state s' = nextState (state s)
                     /\ timeRemaining s' = durationOf s (nextState (state s))
                else state s' = state s
                     /\ timeRemaining s' = fsub (timeRemaining s) dt))
    /\ (forall k id, k <> KTrafficSignal ->
          lookupComponent w' k id = lookupComponent w k id).
Proof.
  intros Hwf. destruct (trafficSignalSystem_pass w dt Hwf) as (w' & E & S' & Hwf' & Hl).
  - exists w'. split; [exact E|]. split; [exact S'|]. split; [exact Hwf'|]. split.
    + intros id s Hh Hg. unfold getTrafficSignal in Hg.
      destruct (getComponent w KTrafficSignal id) as [c|] eqn:Hgc; [|discriminate].
      apply getComponent_inv in Hgc. destruct c; try discriminate.
      cbn [mbind option_bind] in Hg. injection Hg as ->.
      exists (signal_update s dt). split; [|apply signal_update_cycle].
      unfold getTrafficSignal.
      rewrite (getComponent_lookup w' KTrafficSignal id
                 (TrafficSignalC (signal_update s dt))).
      * reflexivity.
      * exact Hwf'.
      * rewrite (sameEntities_hasComponent _ _ _ _ S'). exact Hh.
      * rewrite Hl, decide_True by (split; [reflexivity | exact Hh]).
        rewrite Hgc. reflexivity.
    + intros k id Hk. rewrite Hl. apply decide_False. intros [? _]. contradiction.
Qed.

End Passes.

Section Following.
Context {F : Type} {fl : FloatOps F} {reg : ComponentRegistry} {cfg : BuildConfig}.

(** Writing components of an entity that has them, one after the other. *)
Lemma stores_frame (id : N) (cs : list (WasmComponent F)) (w : WasmWorld F) :
  readable w ->
  Forall (fun c => is_Some (lookupComponent w (kindOf c) id)) cs ->
  let w' := foldl (fun w c => storeComponent w id c) w cs in
  sameEntities w w' /\ readable w'
  /\ (forall k id', id' <> id -> lookupComponent w' k id' = lookupComponent w k id')
  /\ (forall k, (forall c, In c cs -> kindOf c <> k) ->
                lookupComponent w' k id = lookupComponent w k id)
  /\ (forall k c, last (List.filter (fun c => bool_decide (kindOf c = k)) cs) = Some c ->
                  lookupComponent w' k id = Some c).
Proof.
  revert w. induction cs as [|c cs IH]; intros w Hr Hall; cbn zeta.
  - cbn [foldl]. split; [apply sameEntities_refl|]. split; [exact Hr|].
    split; [reflexivity|]. split; [reflexivity|]. intros k c. discriminate.
  - apply Forall_cons in Hall as [[c0 Hc0] Hall]. cbn [foldl].
    assert (Hl := lookup_storeComponent w id c c0).
    assert (R1 := storeComponent_readable w id c c0 Hc0 Hr).
    destruct (IH (storeComponent w id c) R1) as (S' & R' & Fr & Keep & Last).
    { eapply Forall_impl; [exact Hall|]. intros c' [x Hx]. cbn beta.
      rewrite (Hl _ _ Hc0). destruct (decide _); eauto. }
    split; [eapply sameEntities_trans; [apply storeComponent_shape | exact S']|].
    split; [exact R'|]. split; [|split].
    + intros k id' Hne. rewrite (Fr k id' Hne), (Hl _ _ Hc0).
      apply decide_False. intros [_ ?]. contradiction.
    + intros k Hk. rewrite Keep by (intros c' Hc'; apply Hk; right; exact Hc').
      rewrite (Hl _ _ Hc0). apply decide_False. intros [E _].
      apply (Hk c (or_introl eq_refl)). symmetry. exact E.
    + intros k c1. cbn [List.filter]. destruct (bool_decide (kindOf c = k)) eqn:Hk.
      * apply bool_decide_eq_true in Hk.
        destruct (List.filter (fun c => bool_decide (kindOf c = k)) cs) as [|d l] eqn:Hf.
        -- cbn. intros E. injection E as <-.
           rewrite Keep.
           ++ rewrite (Hl _ _ Hc0). apply decide_True. split; [symmetry; exact Hk|reflexivity].
           ++ intros c' Hc' Hk'. assert (Hin : In c' (List.filter (fun c => bool_decide (kindOf c = k)) cs)).
              { apply filter_In. split; [exact Hc'|]. apply bool_decide_eq_true. exact Hk'. }
              rewrite Hf in Hin. destruct Hin.
        -- intros E. apply Last. rewrite Hf. rewrite last_cons_cons in E. exact E.
      * apply Last.
Qed.

Lemma not_reached_lookup (p : WasmPathFollowingComponent F) :
  hasReachedDestination p = false ->
  exists x, path p !! N.to_nat (currentPathIndex p) = Some x.
Proof.
  unfold hasReachedDestination. intros H. apply orb_false_iff in H as [_ H].
  apply N.leb_gt in H. apply lookup_lt_is_Some. lia.
Qed.

(** One run of the body of the path-following loop, for an entity with
    the three components: it ends, and writes to that entity's Transform,
    Vehicle and PathFollowing components only. *)
Lemma pathFollowingStep_writes (net : WasmRoadNetwork F) (dt : F) (w : WasmWorld F)
    (id : N) (t : WasmTransformComponent F) (v : WasmVehicleComponent F)
    (p : WasmPathFollowingComponent F) :
  getTransform w id = Some t -> getVehicle w id = Some v ->
  getPathFollowing w id = Some p ->
  exists cs, pathFollowingStep net dt w id
             = Some (foldl (fun w c => storeComponent w id c) w cs)
    /\ Forall (fun c => kindOf c = KTransform \/ kindOf c = KVehicle
                        \/ kindOf c = KPathFollowing) cs
    /\ followed (Some (PathFollowingC p))
         (Some (default (PathFollowingC p)
            (last (List.filter (fun c => bool_decide (kindOf c = KPathFollowing)) cs)))).
Proof.
  intros Ht Hv Hp. unfold pathFollowingStep. rewrite Ht, Hv, Hp. cbn [mbind option_bind].
  destruct (hasReachedDestination p) eqn:Hreach.
  { eexists [VehicleC _]. split; [reflexivity|]. split; [repeat constructor; tauto|].
    cbn. split; [reflexivity | left; reflexivity]. }
  destruct (not_reached_lookup p Hreach) as ([roadID laneID] & Hx). rewrite Hx.
  cbn [mbind option_bind].
  destruct (getRoadSegment net roadID) as [road|].
  2:{ eexists [PathFollowingC _]. split; [reflexivity|]. split; [repeat constructor; tauto|].
      cbn. split; [reflexivity | right; reflexivity]. }
  destruct (flt (m_length road) _).
  - destruct (hasReachedDestination (mkPathFollowing _ _ _)) eqn:Hreach2.
    { eexists [PathFollowingC _; VehicleC _]. split; [reflexivity|].
      split; [repeat constructor; tauto|].
      cbn. split; [reflexivity | right; reflexivity]. }
    destruct (not_reached_lookup _ Hreach2) as ([roadID2 laneID2] & Hx2).
    cbn [path currentPathIndex] in Hx2. rewrite Hx2. cbn [mbind option_bind].
    destruct (getRoadSegment net roadID2) as [road2|].
    2:{ eexists [PathFollowingC _]. split; [reflexivity|].
        split; [repeat constructor; tauto|].
        cbn. split; [reflexivity | right; reflexivity]. }
    destruct (flt (maxSpeed v) _);
      (eexists [TransformC _; VehicleC _; PathFollowingC _]; split; [reflexivity|];
       split; [repeat constructor; tauto|];
       cbn; split; [reflexivity | right; reflexivity]).
  - destruct (flt (maxSpeed v) _);
      (eexists [TransformC _; VehicleC _; PathFollowingC _]; split; [reflexivity|];
       split; [repeat constructor; tauto|];
       cbn; split; [reflexivity | left; reflexivity]).
Qed.

Lemma getVehicle_inv (w : WasmWorld F) (id : N) (v : WasmVehicleComponent F) :
  getVehicle w id = Some v -> lookupComponent w KVehicle id = Some (VehicleC v).
Proof.
  unfold getVehicle. intros H. destruct (getComponent w KVehicle id) as [c|] eqn:Hg;
    [|discriminate]. apply getComponent_inv in Hg. destruct c; try discriminate.
  cbn in H. congruence.
Qed.

(** The path-following pass. *)
Lemma pathFollowingSystem_pass (w : WasmWorld F) (dt : F)
    (net : WasmRoadNetwork F) :
  wf_world w = true ->
  exists w', pathFollowingSystem w dt (Some net) = Some w'
    /\ sameEntities w w' /\ wf_world w' = true
    /\ (forall id, followed (lookupComponent w KPathFollowing id)
                            (lookupComponent w' KPathFollowing id))
    /\ (forall k id, ~ In id (getEntitiesWith w [KTransform; KVehicle; KPathFollowing]) ->
          lookupComponent w' k id = lookupComponent w k id)
    /\ (forall k id, k <> KTransform -> k <> KVehicle -> k <> KPathFollowing ->
          lookupComponent w' k id = lookupComponent w k id).
Proof.
  intros Hwf. assert (Hr := wf_readable w Hwf). unfold pathFollowingSystem.
  set (L := getEntitiesWith w [KTransform; KVehicle; KPathFollowing]).
  destruct (foldM_entities (pathFollowingStep net dt)
              (fun _ k a b => (k = KPathFollowing -> followed a b)
                            /\ (k <> KTransform -> k <> KVehicle -> k <> KPathFollowing ->
                                b = a))
              L w) as (w' & E & S' & R' & Fr & Rel).
  - intros w1 id S1 R1 Hin.
    destruct (query_bit w _ id KTransform Hin) as (m & Hm & HbT); [simpl; tauto|].
    destruct (query_bit w _ id KVehicle Hin) as (m1 & Hm1 & HbV); [simpl; tauto|].
    destruct (query_bit w _ id KPathFollowing Hin) as (m2 & Hm2 & HbP); [simpl; tauto|].
    rewrite <- (sameEntities_mask _ _ _ S1) in Hm, Hm1, Hm2.
    destruct (getTransform_present w1 id m R1 Hm HbT) as (t & Hlt & Hgt).
    destruct (getVehicle_present w1 id m1 R1 Hm1 HbV) as (v & Hlv & Hgv).
    destruct (getPathFollowing_present w1 id m2 R1 Hm2 HbP) as (p & Hlp & Hgp).
    destruct (pathFollowingStep_writes net dt w1 id t v p Hgt Hgv Hgp)
      as (cs & Hstep & Hkinds & Hfol).
    destruct (stores_frame id cs w1 R1) as (S2 & R2 & Fr2 & Keep2 & Last2).
    { eapply Forall_impl; [exact Hkinds|]. intros c [->|[->| ->]]; eauto. }
    eexists. split; [exact Hstep|]. split; [exact S2|]. split; [exact R2|].
    split; [exact Fr2|]. intros k. split.
    + intros ->. rewrite Hlp.
      destruct (last (List.filter (fun c => bool_decide (kindOf c = KPathFollowing)) cs))
        as [c|] eqn:Hlast.
      * rewrite (Last2 KPathFollowing c Hlast). exact Hfol.
      * rewrite Keep2, Hlp; [cbn; split; [reflexivity | left; reflexivity]|].
        intros c Hc Hk. apply last_None in Hlast.
        assert (Hin' : In c (List.filter (fun c => bool_decide (kindOf c = KPathFollowing)) cs)).
        { apply filter_In. split; [exact Hc|]. apply bool_decide_eq_true. exact Hk. }
        rewrite Hlast in Hin'. destruct Hin'.
    + intros H1 H2 H3. apply Keep2. intros c Hc Hk.
      rewrite List.Forall_forall in Hkinds. destruct (Hkinds c Hc) as [E|[E|E]]; congruence.
  - apply NoDup_getEntitiesWith.
  - exact Hr.
  - exists w'. split; [exact E|]. split; [exact S'|].
    split; [apply (sameEntities_wf w w' S' Hwf R')|]. split; [|split].
    + intros id. destruct (In_dec N.eq_dec id L) as [Hin|Hout].
      * apply (Rel KPathFollowing id Hin). reflexivity.
      * rewrite (Fr _ _ Hout). unfold followed.
        destruct (lookupComponent w KPathFollowing id) as [[]|]; try reflexivity.
        split; [reflexivity | left; reflexivity].
    + intros k id Hout. apply Fr, Hout.
    + intros k id H1 H2 H3. destruct (In_dec N.eq_dec id L) as [Hin|Hout].
      * apply (Rel k id Hin); assumption.
      * apply Fr, Hout.
Qed.

(** X14. A pass of the path-following system with a road network present
    ends on every well-formed world: no step reads past the end of a path
    or through a missing component.  Entities and masks stay as they are;
    a follower's path is never changed and its index into the path stays
    or moves on by one per pass; entities without the three components
    Transform, Vehicle and PathFollowing are not touched; only components
    of these three types are written. *)
Theorem pathFollowingSystem_keeps_paths (w : WasmWorld F) (dt : F)
    (net : WasmRoadNetwork F) :
  wf_world w = true ->
  exists w', pathFollowingSystem w dt (Some net) = Some w'
    /\ sameEntities w w' /\ wf_world w' = true
    /\ (forall id, followed (lookupComponent w KPathFollowing id)
                            (lookupComponent w' KPathFollowing id))
    /\ (forall k id, ~ In id (getEntitiesWith w [KTransform; KVehicle; KPathFollowing]) ->
          lookupComponent w' k id = lookupComponent w k id)
    /\ (forall k id, k <> KTransform -> k <> KVehicle -> k <> KPathFollowing ->
          lookupComponent w' k id = lookupComponent w k id).
Proof. apply pathFollowingSystem_pass. Qed.

End Following.

Section Routed.
Context {F : Type} {fl : FloatOps F} {reg : ComponentRegistry} {cfg : BuildConfig}
        {pq : OpenSetOrder F}.

Lemma setPath_not_reached (c : WasmPathFollowingComponent F) (p : list (N * N)) :
  hasReachedDestination (setPath c p) = bool_decide (p = []).
Proof.
  unfold hasReachedDestination, setPath. cbn [path currentPathIndex].
  destruct p as [|x p]; [reflexivity|].
  rewrite bool_decide_eq_false_2 by discriminate. cbn [orb length].
  apply N.leb_gt. lia.
Qed.

(** X15. When [findPath] returns a non-empty route for an existing
    vehicle, [createPath] returns true and the vehicle's path-following
    component holds exactly this route, at index 0 and distance 0, whether
    the vehicle had such a component before or it was added now; the
    vehicle has not reached its destination; no other component of any
    entity changes and the invariant is kept. *)
Theorem createPath_sets_the_route (heap : Heap F) (sim : WasmTrafficSimulation F)
    (p vehicleId : N) (startX startY endX endY : F) (route : list (N * N)) :
  wf_world (m_world sim) = true -> m_roadNetwork sim = Some p ->
  entityExists (m_world sim) vehicleId = true ->
  findPath heap sim startX startY endX endY = Some route -> route <> [] ->
  exists sim', createPath heap sim vehicleId startX startY endX endY = Some (true, sim')
    /\ wf_world (m_world sim') = true
    /\ getPathFollowing (m_world sim') vehicleId = Some (mkPathFollowing route 0 f0)
    /\ hasReachedDestination (mkPathFollowing route 0 f0) = false
    /\ m_roadNetwork sim' = m_roadNetwork sim
    /\ (forall k id, (k, id) <> (KPathFollowing, vehicleId) ->
          lookupComponent (m_world sim') k id = lookupComponent (m_world sim) k id).
Proof.
  intros Hwf Hp Hex Hfind Hne. unfold createPath. rewrite Hp, Hex, Hfind.
  cbn [negb mbind option_bind]. destruct route as [|x route]; [contradiction|].
  set (r := x :: route) in *.
  assert (Hstore : forall w1 pc,
            wf_world w1 = true -> hasComponent w1 KPathFollowing vehicleId = true ->
            lookupComponent w1 KPathFollowing vehicleId = Some (PathFollowingC pc) ->
            (forall k id, (k, id) <> (KPathFollowing, vehicleId) ->
               lookupComponent w1 k id = lookupComponent (m_world sim) k id) ->
            let w2 := storeComponent w1 vehicleId (PathFollowingC (setPath pc r)) in
            wf_world w2 = true
            /\ getPathFollowing w2 vehicleId = Some (mkPathFollowing r 0 f0)
            /\ (forall k id, (k, id) <> (KPathFollowing, vehicleId) ->
                  lookupComponent w2 k id = lookupComponent (m_world sim) k id)).
  { intros w1 pc Hwf1 Hh1 Hl1 Hfr w2.
    assert (Hl2 := lookup_storeComponent w1 vehicleId (PathFollowingC (setPath pc r))
                     (PathFollowingC pc)).
    cbn [kindOf] in Hl2. fold w2 in Hl2.
    assert (S2 : sameEntities w1 w2) by apply storeComponent_shape.
    assert (R2 : readable w2).
    { eapply storeComponent_readable; [exact Hl1 | apply wf_readable, Hwf1]. }
    assert (Hwf2 := sameEntities_wf w1 w2 S2 Hwf1 R2).
    split; [exact Hwf2|]. split.
    - unfold getPathFollowing.
      rewrite (getComponent_lookup w2 KPathFollowing vehicleId
                 (PathFollowingC (setPath pc r))).
      + reflexivity.
      + exact Hwf2.
      + rewrite (sameEntities_hasComponent _ _ _ _ S2). exact Hh1.
      + rewrite (Hl2 _ _ Hl1). apply decide_True. split; reflexivity.
    - intros k id Hn. rewrite (Hl2 _ _ Hl1).
      rewrite decide_False by (intros [-> ->]; apply Hn; reflexivity).
      apply Hfr, Hn. }
  destruct (hasComponent (m_world sim) KPathFollowing vehicleId) eqn:Hh.
  - cbn [mbind option_bind].
    destruct (typed_read (m_world sim) KPathFollowing vehicleId (wf_readable _ Hwf) Hh)
      as (c & Hc & Hk & Hg).
    destruct c as [| |pc| | | | |]; try discriminate.
    unfold getPathFollowing at 1. rewrite Hg. cbn [mbind option_bind].
    destruct (Hstore (m_world sim) pc Hwf Hh Hc (fun _ _ _ => eq_refl)) as (H1 & H2 & H3).
    eexists. split; [reflexivity|]. cbn [set_world m_world m_roadNetwork].
    split; [exact H1|]. split; [exact H2|].
    split; [apply (setPath_not_reached newPathFollowing r)|]. split; [exact Hp | exact H3].
  - destruct (entityExists_Some (m_world sim) vehicleId Hex) as (m & Hm & _).
    destruct (addComponent_laws (m_world sim) vehicleId m (PathFollowingC newPathFollowing)
                Hwf Hm (or_intror Hex))
      as (w1 & A1 & Hwf1 & _ & Hg1 & Hh1 & _ & Hl1 & _).
    rewrite A1. cbn [mbind option_bind]. cbn [kindOf] in Hg1.
    unfold getPathFollowing at 1. rewrite Hg1. cbn [mbind option_bind].
    destruct (Hstore w1 newPathFollowing Hwf1) as (H1 & H2 & H3).
    + rewrite Hh1. apply decide_True. reflexivity.
    + rewrite Hl1. apply decide_True. split; reflexivity.
    + intros k id Hn. rewrite Hl1. apply decide_False.
      intros [-> ->]. apply Hn. reflexivity.
    + eexists. split; [reflexivity|]. cbn [set_world m_world m_roadNetwork].
      split; [exact H1|]. split; [exact H2|].
      split; [apply (setPath_not_reached newPathFollowing r)|].
      split; [exact Hp | exact H3].
Qed.

End Routed.

(** ** Invariants of the road network *)

Section Tidy.
Context {F : Type} {fl : FloatOps F}.

Lemma tidy_addLane (id : N) (s : WasmRoadSegment F) (width : F) (type : WasmLaneType) :
  segment_m_id s = id ->
  (forall i lane, m_lanes s !! i = Some lane ->
                  lane_m_id lane = N.of_nat i /\ lane_m_parent lane = id) ->
  tidySegment id (addLane s width type).2.
Proof.
  intros Hid Hl. unfold addLane, tidySegment. cbn [snd segment_m_id m_lanes].
  split; [exact Hid|]. split; [intros E; apply app_eq_nil in E as [_ E]; discriminate|].
  intros i lane Hi. apply lookup_app_Some in Hi as [Hi|[Hge Hi]]; [apply Hl, Hi|].
  apply list_lookup_singleton_Some in Hi as [Hi <-]. cbn [lane_m_id lane_m_parent].
  unfold getLaneCount. split; [f_equal; lia | exact Hid].
Qed.

Lemma tidy_createRoadSegment (net : WasmRoadNetwork F) (x1 y1 x2 y2 : F) :
  tidy net -> tidy (createRoadSegment net x1 y1 x2 y2).2.
Proof.
  intros (Hs & Hx & Hd). unfold createRoadSegment, tidy, getRoadSegment, getIntersection.
  cbn [snd m_roadSegments m_intersections m_nextIntersectionId].
  split; [|split; assumption].
  intros id s Hl. apply lookup_insert_Some in Hl as [[<- <-]|[_ Hl]]; [|apply Hs, Hl].
  apply tidy_addLane; [reflexivity|]. intros i lane Hi. cbn in Hi.
  rewrite lookup_nil in Hi. discriminate.
Qed.

Lemma tidy_createIntersection (net : WasmRoadNetwork F) (x y : F) :
  tidy net -> tidy (createIntersection net x y).2.
Proof.
  intros (Hs & Hx & Hd). unfold createIntersection, tidy, getRoadSegment, getIntersection.
  cbn [snd m_roadSegments m_intersections m_nextIntersectionId].
  split; [exact Hs|]. split.
  - intros id i Hl. apply lookup_insert_Some in Hl as [[<- <-]|[_ Hl]]; [reflexivity|].
    apply Hx, Hl.
  - intros id. rewrite dom_insert_L, elem_of_union, elem_of_singleton, Hd. lia.
Qed.

Lemma tidy_connectRoad (net : WasmRoadNetwork F) (i r : N) (isStart : bool) :
  tidy net -> tidy (connectRoad net i r isStart).
Proof.
  intros (Hs & Hx & Hd). unfold connectRoad, tidy, getRoadSegment, getIntersection.
  cbn [m_roadSegments m_intersections m_nextIntersectionId].
  split; [|split].
  - intros id s Hl. apply lookup_alter_Some in Hl as [[<- (s0 & Hl & ->)]|[_ Hl]];
      [|apply Hs, Hl]. apply (Hs _ _ Hl).
  - intros id x Hl. apply lookup_alter_Some in Hl as [[<- (x0 & Hl & ->)]|[_ Hl]];
      [|apply Hx, Hl]. apply (Hx _ _ Hl).
  - intros id. rewrite dom_alter_L. apply Hd.
Qed.

Lemma tidy_defineConnectionIn (net : WasmRoadNetwork F) (i r1 l1 r2 l2 : N) :
  tidy net -> tidy (defineConnectionIn net i r1 l1 r2 l2).
Proof.
  intros (Hs & Hx & Hd). unfold defineConnectionIn, tidy, getRoadSegment, getIntersection.
  cbn [m_roadSegments m_intersections m_nextIntersectionId].
  split; [exact Hs|]. split.
  - intros id x Hl. apply lookup_alter_Some in Hl as [[<- (x0 & Hl & ->)]|[_ Hl]];
      [|apply Hx, Hl]. apply (Hx _ _ Hl).
  - intros id. rewrite dom_alter_L. apply Hd.
Qed.

Lemma tidy_addLaneAt (net : WasmRoadNetwork F) (r : N) (width : F) (type : WasmLaneType) :
  tidy net -> tidy (addLaneAt net r width type).
Proof.
  intros (Hs & Hx & Hd). unfold addLaneAt, tidy, getRoadSegment, getIntersection.
  cbn [m_roadSegments m_intersections m_nextIntersectionId].
  split; [|split; assumption].
  intros id s Hl. apply lookup_alter_Some in Hl as [[<- (s0 & Hl & ->)]|[_ Hl]];
    [|apply Hs, Hl]. destruct (Hs _ _ Hl) as (H1 & _ & H3). apply tidy_addLane; assumption.
Qed.

Lemma tidy_connectLoop (i r1 r2 : N) (l1 l2 : list N) (net : WasmRoadNetwork F) :
  tidy net ->
  tidy (foldl (fun net lane1 =>
                 foldl (fun net lane2 =>
                          let net := defineConnectionIn net i r1 lane1 r2 lane2 in
                          defineConnectionIn net i r2 lane2 r1 lane1) net l2) net l1).
Proof.
  revert net. induction l1 as [|lane1 l1 IH]; intros net Ht; cbn [foldl]; [exact Ht|].
  apply IH. clear IH. revert net Ht.
  induction l2 as [|lane2 l2 IH]; intros net Ht; cbn [foldl]; [exact Ht|].
  apply IH. cbv zeta. apply tidy_defineConnectionIn, tidy_defineConnectionIn, Ht.
Qed.

Lemma tidy_connectWithIntersection (net : WasmRoadNetwork F) (a b : N) (ea eb : bool) :
  tidy net -> tidy (connectWithIntersection net a ea b eb).2.
Proof.
  intros Ht. unfold connectWithIntersection.
  destruct (getRoadSegment net a) as [ra|]; [|exact Ht].
  destruct (getRoadSegment net b) as [rb|]; [|exact Ht].
  cbv zeta.
  match goal with
  | |- context [createIntersection net ?x ?y] =>
      assert (H := tidy_createIntersection net x y Ht);
      destruct (createIntersection net x y) as [i net1]
  end.
  cbn [snd] in *. apply tidy_connectLoop, tidy_connectRoad, tidy_connectRoad, H.
Qed.

Lemma tidy_empty : tidy (WasmRoadNetwork_new (F := F)).
Proof.
  unfold tidy, getRoadSegment, getIntersection. cbn. split; [|split].
  - intros id s. rewrite lookup_empty. discriminate.
  - intros id x. rewrite lookup_empty. discriminate.
  - intros id. rewrite dom_empty_L, elem_of_empty. lia.
Qed.

Lemma built_tidy (net : WasmRoadNetwork F) : built net -> tidy net.
Proof.
  induction 1 as [|net x1 y1 x2 y2 _ IH|net x y _ IH|net a ea b eb _ IH
                  |net i r s _ IH|net i r1 l1 r2 l2 _ IH|net r w t _ IH|net _ IH].
  - apply tidy_empty.
  - apply tidy_createRoadSegment, IH.
  - apply tidy_createIntersection, IH.
  - apply tidy_connectWithIntersection, IH.
  - apply tidy_connectRoad, IH.
  - apply tidy_defineConnectionIn, IH.
  - apply tidy_addLaneAt, IH.
  - apply tidy_empty.
Qed.

(** X20. In every network built with the operations of the road network
    (creating segments and intersections, connecting, defining
    connections, adding lanes, clearing): the segments are stored under
    the identifiers 0 .. nextRoadId-1 and the intersections under 0 ..
    nextIntersectionId-1, each under its own identifier; every segment has
    at least one lane, lane [i] has identifier [i] and names its segment as
    parent; and a newly created segment never replaces an existing one. *)
Theorem built_networks_are_tidy (net : WasmRoadNetwork F) :
  built net ->
  (forall id, is_Some (getRoadSegment net id) <-> id < m_nextRoadId net)
  /\ (forall id, is_Some (getIntersection net id) <-> id < m_nextIntersectionId net)
  /\ (forall id s, getRoadSegment net id = Some s ->
        segment_m_id s = id /\ 1 <= getLaneCount s
        /\ forall i lane, m_lanes s !! i = Some lane ->
                          lane_m_id lane = N.of_nat i /\ lane_m_parent lane = id)
  /\ (forall id x, getIntersection net id = Some x -> intersection_m_id x = id)
  /\ (forall x1 y1 x2 y2,
        getRoadSegment net (createRoadSegment net x1 y1 x2 y2).1 = None).
Proof.
  intros Hb. assert (Hd := built_dense net Hb). destruct (built_tidy net Hb) as (Hs & Hx & Hi).
  assert (Hseg : forall id, is_Some (getRoadSegment net id) <-> id < m_nextRoadId net).
  { intros id. unfold getRoadSegment. rewrite <- elem_of_dom. apply Hd. }
  split; [exact Hseg|]. split.
  { intros id. unfold getIntersection. rewrite <- elem_of_dom. apply Hi. }
  split.
  { intros id s Hl. destruct (Hs id s Hl) as (H1 & H2 & H3). split; [exact H1|].
    split; [|exact H3]. unfold getLaneCount. destruct (m_lanes s); [contradiction|].
    cbn [length]. lia. }
  split; [exact Hx|].
  intros x1 y1 x2 y2. cbn [createRoadSegment fst].
  destruct (getRoadSegment net (m_nextRoadId net)) eqn:E; [|reflexivity].
  assert (H : is_Some (getRoadSegment net (m_nextRoadId net))) by (rewrite E; eauto).
  apply Hseg in H. lia.
Qed.

(** X21. [defineConnection] adds the target at the end of the list kept
    under the key of the incoming (road, lane) pair and leaves the lists of
    all other pairs alone: the text key "road_lane" is different for
    different pairs. *)
Theorem defineConnection_touches_one_key (x : WasmIntersection F)
    (inRoad inLane outRoad outLane : N) :
  let x' := defineConnection x inRoad inLane outRoad outLane in
  m_connections x' !! connectionKey inRoad inLane
  = Some (default [] (m_connections x !! connectionKey inRoad inLane)
          ++ [mkConnection outRoad outLane])
  /\ (forall road lane, (road, lane) <> (inRoad, inLane) ->
        m_connections x' !! connectionKey road lane
        = m_connections x !! connectionKey road lane)
  /\ intersection_m_id x' = intersection_m_id x
  /\ m_position x' = m_position x
  /\ m_connectedRoads x' = m_connectedRoads x.
Proof.
  cbv zeta. unfold defineConnection.
  cbn [m_connections intersection_m_id m_position m_connectedRoads].
  split; [apply lookup_insert_eq|]. split; [|repeat split].
  intros road lane Hne. apply lookup_insert_ne. intros E.
  apply connectionKey_inj in E as [-> ->]. apply Hne. reflexivity.
Qed.

(** X22. Adding a lane: the new lane gets the previous lane count as its
    identifier, the count goes up by one, and the width of the segment
    grows by the width of the lane.  A segment made by [createRoadSegment]
    has the one driving lane of width 3.5 that it adds. *)
Theorem addLane_extends_the_width (s : WasmRoadSegment F) (width : F)
    (type : WasmLaneType) (net : WasmRoadNetwork F) (x1 y1 x2 y2 : F) :
  (addLane s width type).1 = getLaneCount s
  /\ getLaneCount (addLane s width type).2 = getLaneCount s + 1
  /\ getWidth (addLane s width type).2 = fadd (getWidth s) width
  /\ m_lanes (addLane s width type).2 !! N.to_nat (getLaneCount s)
     = Some (mkLane (getLaneCount s) (segment_m_id s) width type)
  /\ exists r, getRoadSegment (createRoadSegment net x1 y1 x2 y2).2
                 (createRoadSegment net x1 y1 x2 y2).1 = Some r
       /\ getLaneCount r = 1
       /\ getWidth r = fadd f0 (f_lit 35 10)
       /\ m_startPoint r = mkVec x1 y1 /\ m_endPoint r = mkVec x2 y2.
Proof.
  unfold addLane, getLaneCount, getWidth. cbn [fst snd m_lanes].
  split; [reflexivity|]. split; [rewrite length_app; cbn [length]; lia|].
  split; [rewrite foldl_snoc; reflexivity|].
  split.
  { rewrite Nat2N.id. rewrite lookup_app_r by lia. rewrite Nat.sub_diag. reflexivity. }
  unfold createRoadSegment, getRoadSegment. cbn [fst snd m_roadSegments].
  eexists. split; [apply lookup_insert_eq|]. repeat split.
Qed.

End Tidy.

(** ** Nearest segment, nearest intersection *)

Section Nearest.
Context {F : Type} {fl : FloatOps F}.

(** The running minimum of the two search loops. *)
Lemma nearest_fold {A : Type} (dist : A -> F) (maxDistance : F) (l : list (N * A)) :
  let r := foldl (fun '(nearestDistance, nearestId) '(id, a) =>
                    if flt (dist a) nearestDistance then (dist a, id)
                    else (nearestDistance, nearestId))
                 (maxDistance, INVALID_ID) l in
  (r = (maxDistance, INVALID_ID)
   /\ Forall (fun '(id, a) => flt (dist a) maxDistance = false) l)
  \/ (exists a, In (r.2, a) l /\ r.1 = dist a).
Proof.
  induction l as [|[id a] l IH] using rev_ind; cbv zeta.
  - left. split; [reflexivity | constructor].
  - rewrite foldl_snoc. cbv zeta in IH.
    destruct (foldl _ _ l) as [nd nid]. cbn [fst snd] in *.
    destruct (flt (dist a) nd) eqn:Hlt.
    + right. exists a. cbn [fst snd]. split; [apply in_or_app; right; left|]; reflexivity.
    + destruct IH as [[E Hall]|(a0 & Hin & E)].
      * left. split; [exact E|]. injection E as -> ->.
        apply Forall_app. split; [exact Hall|]. constructor; [exact Hlt | constructor].
      * right. exists a0. split; [apply in_or_app; left; exact Hin | exact E].
Qed.

(** X23. [findNearestRoadSegment] and [findNearestIntersection] return the
    identifier of a stored segment (intersection), or else the sentinel
    INVALID_ID after having found no segment (intersection) nearer than
    the search radius; in an empty network they return the sentinel. *)
Theorem findNearest_returns_a_stored_identifier (net : WasmRoadNetwork F)
    (x y maxDistance : F) :
  ((findNearestRoadSegment net x y maxDistance = INVALID_ID
    /\ forall id road, getRoadSegment net id = Some road ->
                       flt (distanceToSegment road x y) maxDistance = false)
   \/ is_Some (getRoadSegment net (findNearestRoadSegment net x y maxDistance)))
  /\ ((findNearestIntersection net x y maxDistance = INVALID_ID
       /\ forall id c, getIntersection net id = Some c ->
                       flt (distanceToPosition c x y) maxDistance = false)
      \/ is_Some (getIntersection net (findNearestIntersection net x y maxDistance)))
  /\ findNearestRoadSegment WasmRoadNetwork_new x y maxDistance = INVALID_ID
  /\ findNearestIntersection WasmRoadNetwork_new x y maxDistance = INVALID_ID.
Proof.
  split; [|split; [|split; reflexivity]].
  - unfold findNearestRoadSegment, getRoadSegment.
    destruct (nearest_fold (fun road => distanceToSegment road x y) maxDistance
                (map_to_list (m_roadSegments net))) as [[E Hall]|(a & Hin & _)];
      cbv zeta in *.
    + left. rewrite E. split; [reflexivity|]. intros id road Hl.
      apply elem_of_map_to_list in Hl. rewrite Forall_forall in Hall.
      apply (Hall (id, road) Hl).
    + right. apply list_elem_of_In, elem_of_map_to_list in Hin. rewrite Hin. eauto.
  - unfold findNearestIntersection, getIntersection.
    destruct (nearest_fold (fun c => distanceToPosition c x y) maxDistance
                (map_to_list (m_intersections net))) as [[E Hall]|(a & Hin & _)];
      cbv zeta in *.
    + left. unfold distanceToPosition in E. rewrite E. split; [reflexivity|].
      intros id c Hl.
      apply elem_of_map_to_list in Hl. rewrite Forall_forall in Hall.
      apply (Hall (id, c) Hl).
    + right. unfold distanceToPosition in Hin.
      apply list_elem_of_In, elem_of_map_to_list in Hin. rewrite Hin. eauto.
Qed.

End Nearest.

Section NearestSinglePrecision.

(** The running minimum under the order of single-precision numbers: the
    distance kept is below the search radius and no element seen has a
    distance below it. *)
Lemma nearest_fold_least {A : Type} (dist : A -> spec_float) (maxDistance : spec_float)
    (l : list (N * A)) :
  let r := foldl (fun '(nearestDistance, nearestId) '(id, a) =>
                    if flt (dist a) nearestDistance then (dist a, id)
                    else (nearestDistance, nearestId))
                 (maxDistance, INVALID_ID) l in
  (r = (maxDistance, INVALID_ID)
   /\ Forall (fun '(id, a) => flt (dist a) maxDistance = false) l)
  \/ (exists a, In (r.2, a) l /\ r.1 = dist a /\ flt (dist a) maxDistance = true
                /\ Forall (fun '(id, a') => flt (dist a') (dist a) = false) l).
Proof.
  induction l as [|[id a] l IH] using rev_ind; cbv zeta.
  - left. split; [reflexivity | constructor].
  - rewrite foldl_snoc. cbv zeta in IH.
    destruct (foldl _ _ l) as [nd nid]. cbn [fst snd] in *.
    cbn [flt binary32] in *.
    destruct (SFltb (dist a) nd) eqn:Hlt.
    + right. exists a. cbn [fst snd].
      split; [apply in_or_app; right; left; reflexivity|]. split; [reflexivity|].
      assert (Hold : SFltb (dist a) maxDistance = true
                     /\ Forall (fun '(_, a') => SFltb (dist a') nd = false) l).
      { destruct IH as [[E Hall]|(a0 & Hin & E & Hm & Hall)].
        - injection E as -> ->. split; [exact Hlt | exact Hall].
        - subst nd. split; [exact (SFltb_trans _ _ _ Hlt Hm) | exact Hall]. }
      destruct Hold as [Hm Hall]. split; [exact Hm|].
      apply Forall_app. split; [|constructor; [apply SFltb_irrefl | constructor]].
      eapply Forall_impl; [exact Hall|]. intros [i b] Hb. cbn beta iota in *.
      destruct (SFltb (dist b) (dist a)) eqn:Hba; [|reflexivity].
      rewrite (SFltb_trans _ _ _ Hba Hlt) in Hb. discriminate.
    + destruct IH as [[E Hall]|(a0 & Hin & E & Hm & Hall)].
      * left. split; [exact E|]. injection E as -> ->.
        apply Forall_app. split; [exact Hall|]. constructor; [exact Hlt | constructor].
      * right. exists a0. subst nd. split; [apply in_or_app; left; exact Hin|].
        split; [reflexivity|]. split; [exact Hm|].
        apply Forall_app. split; [exact Hall|]. constructor; [exact Hlt | constructor].
Qed.

(** X24. In single precision [findNearestRoadSegment] finds a nearest
    segment by the distances it computes: either no segment has a distance
    below the search radius and the result is INVALID_ID, or the result
    names a stored segment whose distance is below the radius and no
    stored segment has a distance below that one.  The same holds of
    [findNearestIntersection].  (A distance that is a NaN is below
    nothing, so that such a segment is never the result.) *)
Theorem findNearestRoadSegment_is_nearest (net : WasmRoadNetwork spec_float)
    (x y maxDistance : spec_float) :
  ((findNearestRoadSegment net x y maxDistance = INVALID_ID
    /\ forall id road, getRoadSegment net id = Some road ->
                       flt (distanceToSegment road x y) maxDistance = false)
   \/ exists road,
        getRoadSegment net (findNearestRoadSegment net x y maxDistance) = Some road
        /\ flt (distanceToSegment road x y) maxDistance = true
        /\ forall id other, getRoadSegment net id = Some other ->
              flt (distanceToSegment other x y) (distanceToSegment road x y) = false)
  /\ ((findNearestIntersection net x y maxDistance = INVALID_ID
       /\ forall id c, getIntersection net id = Some c ->
                       flt (distanceToPosition c x y) maxDistance = false)
      \/ exists c,
           getIntersection net (findNearestIntersection net x y maxDistance) = Some c
           /\ flt (distanceToPosition c x y) maxDistance = true
           /\ forall id other, getIntersection net id = Some other ->
                 flt (distanceToPosition other x y) (distanceToPosition c x y) = false).
Proof.
  split.
  - unfold findNearestRoadSegment, getRoadSegment.
    destruct (nearest_fold_least (fun road => distanceToSegment road x y) maxDistance
                (map_to_list (m_roadSegments net)))
      as [[E Hall]|(a & Hin & _ & Hm & Hall)]; cbv zeta in *.
    + left. rewrite E. split; [reflexivity|]. intros id road Hl.
      apply elem_of_map_to_list in Hl. rewrite Forall_forall in Hall.
      apply (Hall (id, road) Hl).
    + right. exists a. apply list_elem_of_In, elem_of_map_to_list in Hin.
      split; [exact Hin|]. split; [exact Hm|]. intros id other Hl.
      apply elem_of_map_to_list in Hl. rewrite Forall_forall in Hall.
      apply (Hall (id, other) Hl).
  - unfold findNearestIntersection, getIntersection.
    destruct (nearest_fold_least (fun c => distanceToPosition c x y) maxDistance
                (map_to_list (m_intersections net)))
      as [[E Hall]|(a & Hin & _ & Hm & Hall)]; cbv zeta in *.
    + left. unfold distanceToPosition in E. rewrite E. split; [reflexivity|].
      intros id c Hl.
      apply elem_of_map_to_list in Hl. rewrite Forall_forall in Hall.
      apply (Hall (id, c) Hl).
    + right. exists a. unfold distanceToPosition in Hin.
      apply list_elem_of_In, elem_of_map_to_list in Hin.
      split; [exact Hin|]. split; [exact Hm|]. intros id other Hl.
      apply elem_of_map_to_list in Hl. rewrite Forall_forall in Hall.
      apply (Hall (id, other) Hl).
Qed.

End NearestSinglePrecision.

(** ** The search loop *)

Section SearchEnds.
Context {F : Type} {fl : FloatOps F} {pq : OpenSetOrder F}.

(** X25. The A* loop of [findPath] ends: from the start state, with any
    queue discipline and any network, it returns within 101 * 101 + 2
    iterations, and when it returns an end node the end segment can be
    reached from the start segment.  A non-empty result of the search is
    therefore the start segment alone (when both points resolve to it) or
    comes with a route of linked segments from the start to the end
    segment in which every segment after the first has an identifier
    below 100. *)
Theorem search_ends_and_routes_exist (net : WasmRoadNetwork F)
    (startX startY endX endY : F) :
  let A := findNearestRoadSegment net startX startY (f_lit 50 1) in
  let B := findNearestRoadSegment net endX endY (f_lit 50 1) in
  (forall endMidpoint h,
     let startNode := mkNode A f0 h None in
     exists endNode nodes,
       searchLoop searchFuel net endMidpoint B
         (mkSearch [startNode] ({[A := f0]} : gmap N F) (∅ : gset N)
                   ({[A := startNode]} : gmap N (Node F)))
       = Some (endNode, nodes))
  /\ (forall route, findPathIn net startX startY endX endY = Some route ->
        route <> [] ->
        A <> INVALID_ID /\ B <> INVALID_ID
        /\ ((A = B /\ route = [(A, 0)])
            \/ (A <> B /\ exists l, routeBetween net A B l
                                    /\ Forall (fun x => x < 100) (tail l)))).
Proof.
  intros A B.
  assert (Hloop : forall endMidpoint h,
     let startNode := mkNode A f0 h None in
     exists endNode nodes,
       searchLoop searchFuel net endMidpoint B
         (mkSearch [startNode] ({[A := f0]} : gmap N F) (∅ : gset N)
                   ({[A := startNode]} : gmap N (Node F)))
       = Some (endNode, nodes)
       /\ (endNode <> None -> reach net A B)).
  { intros em h startNode. apply (searchLoop_spec net em A B).
    - constructor; [|constructor]. cbn [roadId]. split; [|constructor].
      unfold candidates. apply elem_of_list_to_set. left.
    - apply searchFuel_enough. }
  split.
  { intros em h. destruct (Hloop em h) as (e & n & E & _). exists e, n. exact E. }
  intros route Hfind Hne. unfold findPathIn in Hfind. fold A B in Hfind.
  destruct (A =? INVALID_ID) eqn:HA;
    [cbn in Hfind; injection Hfind as <-; contradiction|].
  destruct (B =? INVALID_ID) eqn:HB;
    [cbn in Hfind; injection Hfind as <-; contradiction|].
  cbn [orb] in Hfind. apply N.eqb_neq in HA, HB.
  split; [exact HA|]. split; [exact HB|].
  destruct (N.eqb_spec A B) as [E|Hab].
  { left. injection Hfind as <-. split; [exact E | reflexivity]. }
  right. split; [exact Hab|].
  destruct (getRoadSegment net A) as [ra|]; [|injection Hfind as <-; contradiction].
  destruct (getRoadSegment net B) as [rb|]; [|injection Hfind as <-; contradiction].
  cbv zeta in Hfind.
  destruct (Hloop (midpoint rb) (heuristic (midpoint rb) ra)) as (e & n & E & Hreach).
  cbv zeta in E. rewrite E in Hfind. cbn [mbind option_bind] in Hfind.
  destruct e as [e|].
  - apply reach_route, Hreach. discriminate.
  - cbn in Hfind. injection Hfind as <-. contradiction.
Qed.

End SearchEnds.

(** ** The tick as a whole, and switching the bounds off *)

Section Tick.
Context {F : Type} {fl : FloatOps F} {reg : ComponentRegistry} {cfg : BuildConfig}.

Lemma getBounds_present (w : WasmWorld F) (id : N) :
  readable w -> hasComponent w KBounds id = true ->
  exists b, lookupComponent w KBounds id = Some (BoundsC b) /\ getBounds w id = Some b.
Proof.
  intros Hr Hh. destruct (typed_read w KBounds id Hr Hh) as (c & Hc & Hk & Hg).
  destruct c; try discriminate. eexists. split; [exact Hc|].
  unfold getBounds. rewrite Hg. reflexivity.
Qed.

Lemma findGlobalBounds_total (w : WasmWorld F) :
  readable w -> exists r, findGlobalBounds w = Some r.
Proof.
  intros Hr. unfold findGlobalBounds.
  destruct (List.find _ _) as [id|] eqn:Hf; [|eauto].
  apply find_some in Hf as [_ Hp]. apply andb_true_iff in Hp as [_ Hh].
  destruct (getBounds_present w id Hr Hh) as (b & _ & Hg). rewrite Hg. cbn. eauto.
Qed.

(** The bounds pass ends and keeps entities and invariant. *)
Lemma boundsSystem_safe (w : WasmWorld F) (dt : F) :
  wf_world w = true ->
  exists w', boundsSystem w dt = Some w' /\ sameEntities w w' /\ wf_world w' = true.
Proof.
  intros Hwf. assert (Hr := wf_readable w Hwf). unfold boundsSystem.
  destruct (findGlobalBounds_total w Hr) as (r & ->). cbn [mbind option_bind].
  destruct r as [b|]; [|exists w; split; [reflexivity|]; split;
                         [apply sameEntities_refl | exact Hwf]].
  destruct (keepInBounds b); cbn [negb];
    [|exists w; split; [reflexivity|]; split; [apply sameEntities_refl | exact Hwf]].
  destruct (foldM_entities (boundsStep b) (fun _ _ _ _ => True)
              (getEntitiesWith w [KTransform; KVehicle]) w) as (w' & E & S' & R' & _).
  - intros w1 id S1 R1 Hin.
    destruct (query_bit w _ id KTransform Hin) as (m & Hm & HbT); [simpl; tauto|].
    destruct (query_bit w _ id KVehicle Hin) as (m' & Hm' & HbV); [simpl; tauto|].
    rewrite <- (sameEntities_mask _ _ _ S1) in Hm, Hm'.
    destruct (getTransform_present w1 id m R1 Hm HbT) as (t & Ht & Hgt).
    destruct (getVehicle_present w1 id m' R1 Hm' HbV) as (v & _ & Hgv).
    unfold boundsStep. rewrite Hgt, Hgv. cbn [mbind option_bind].
    destruct (boundsAxis _ _ (bounds_width b)) as [px velx].
    destruct (boundsAxis _ _ (bounds_height b)) as [py vely].
    eexists. split; [reflexivity|].
    split; [apply storeComponent_shape|].
    split; [apply (storeComponent_readable w1 id (TransformC _) (TransformC t) Ht R1)|].
    split; [|intros; exact I].
    intros k id' Hne.
    rewrite (lookup_storeComponent w1 id (TransformC _) (TransformC t) k id' Ht).
    apply decide_False. intros [_ ?]. contradiction.
  - apply NoDup_getEntitiesWith.
  - exact Hr.
  - exists w'. split; [exact E|]. split; [exact S'|].
    apply (sameEntities_wf w w' S' Hwf R').
Qed.

Lemma runSystem_safe (heap : Heap F) (s : System) (w : WasmWorld F) (dt : F) :
  wf_world w = true ->
  (forall p, s = PathFollowingSystem (Some p) -> is_Some (heap !! p)) ->
  exists w', runSystem heap s w dt = Some w' /\ sameEntities w w' /\ wf_world w' = true.
Proof.
  intros Hwf Hp. destruct s as [| | | |[p|]]; cbn [runSystem].
  - destruct (movementSystem_pass w dt Hwf) as (w' & E & S' & W' & _).
    eauto.
  - apply boundsSystem_safe, Hwf.
  - destruct (collisionSystem_detected w dt Hwf) as (w' & E & S' & R' & _).
    exists w'. split; [exact E|]. split; [exact S'|]. apply (sameEntities_wf w w' S' Hwf R').
  - destruct (trafficSignalSystem_pass w dt Hwf) as (w' & E & S' & W' & _). eauto.
  - destruct (Hp p eq_refl) as (net & ->). cbn [mbind option_bind].
    destruct (pathFollowingSystem_pass w dt net Hwf) as (w' & E & S' & W' & _).
    eauto.
  - exists w. split; [reflexivity|]. split; [apply sameEntities_refl | exact Hwf].
Qed.

Lemma systems_safe (heap : Heap F) (dt : F) (l : list System) (w : WasmWorld F) :
  wf_world w = true ->
  (forall p, In (PathFollowingSystem (Some p)) l -> is_Some (heap !! p)) ->
  exists w', foldM (fun w s => runSystem heap s w dt) w l = Some w'
             /\ sameEntities w w' /\ wf_world w' = true.
Proof.
  revert w. induction l as [|s l IH]; intros w Hwf Hp.
  - exists w. split; [reflexivity|]. split; [apply sameEntities_refl | exact Hwf].
  - destruct (runSystem_safe heap s w dt Hwf) as (w1 & E1 & S1 & W1).
    { intros p ->. apply Hp. left. reflexivity. }
    destruct (IH w1 W1) as (w' & E' & S' & W').
    { intros p Hin. apply Hp. right. exact Hin. }
    exists w'. cbn [foldM]. rewrite E1. split; [exact E'|].
    split; [eapply sameEntities_trans; [exact S1 | exact S'] | exact W'].
Qed.

(** X26. A tick on a well-formed simulation never fails an assertion or
    reads a missing component: provided every registered path-following
    system holds the null pointer or a pointer to a live road network,
    [update] runs all registered systems to the end, creates or destroys
    no entity, and leaves the invariant intact, so that the next tick is
    safe as well. *)
Theorem update_is_safe (heap : Heap F) (sim : WasmTrafficSimulation F) (dt : F) :
  wf_world (m_world sim) = true ->
  (forall p, In (PathFollowingSystem (Some p)) (m_systems (m_world sim)) ->
             is_Some (heap !! p)) ->
  exists sim', update heap sim dt = Some sim'
    /\ wf_world (m_world sim') = true
    /\ sameEntities (m_world sim) (m_world sim')
    /\ m_roadNetwork sim' = m_roadNetwork sim
    /\ (forall p, In (PathFollowingSystem (Some p)) (m_systems (m_world sim')) ->
                  is_Some (heap !! p)).
Proof.
  intros Hwf Hp. unfold update, WasmWorld_update.
  destruct (systems_safe heap dt _ _ Hwf Hp) as (w' & E & S' & W').
  rewrite E. cbn [mbind option_bind]. eexists. split; [reflexivity|].
  split; [exact W'|]. split; [exact S'|]. split; [reflexivity|].
  cbn [set_world m_world]. destruct S' as (_ & _ & _ & _ & ->). exact Hp.
Qed.

Lemma find_ext {A : Type} (f g : A -> bool) (l : list A) :
  (forall x, f x = g x) -> List.find f l = List.find g l.
Proof.
  intros H. induction l as [|a l IH]; [reflexivity|]. cbn [List.find].
  rewrite (H a), IH. reflexivity.
Qed.

(** The loop of [setKeepInBounds]. *)
Lemma setKeepInBounds_pass (w : WasmWorld F) (keep : bool) :
  wf_world w = true ->
  exists w',
    foldM (fun w id =>
             if entityExists w id && hasComponent w KBounds id
             then bounds ← getBounds w id;
                  Some (storeComponent w id
                          (BoundsC (mkBounds (bounds_width bounds) (bounds_height bounds)
                                             keep)))
             else Some w) w (idsBelow (getEntityCount w)) = Some w'
    /\ sameEntities w w' /\ wf_world w' = true
    /\ (forall k id, lookupComponent w' k id
          = if decide (k = KBounds /\ hasComponent w KBounds id = true
                       /\ id < getEntityCount w)
            then withKeep keep <$> lookupComponent w KBounds id
            else lookupComponent w k id).
Proof.
  intros Hwf. assert (Hr := wf_readable w Hwf).
  match goal with |- exists w', foldM ?f _ _ = _ /\ _ => set (step := f) end.
  destruct (foldM_entities step
              (fun id k a b => b = if decide (k = KBounds /\ hasComponent w KBounds id = true)
                                   then withKeep keep <$> a else a)
              (idsBelow (getEntityCount w)) w) as (w' & E & S' & R' & Fr & Rel).
  - intros w1 id S1 R1 Hin. unfold step. rewrite exists_and_has.
    rewrite (sameEntities_hasComponent _ _ _ _ S1).
    destruct (hasComponent w KBounds id) eqn:Hh.
    + rewrite <- (sameEntities_hasComponent _ _ _ _ S1) in Hh.
      destruct (getBounds_present w1 id R1 Hh) as (b & Hb & Hg). rewrite Hg.
      cbn [mbind option_bind]. eexists. split; [reflexivity|].
      split; [apply storeComponent_shape|].
      split; [apply (storeComponent_readable w1 id (BoundsC _) (BoundsC b) Hb R1)|].
      split.
      * intros k id' Hne.
        rewrite (lookup_storeComponent w1 id (BoundsC _) (BoundsC b) k id' Hb).
        apply decide_False. intros [_ ?]. contradiction.
      * intros k. rewrite (lookup_storeComponent w1 id (BoundsC _) (BoundsC b) k id Hb).
        cbn [kindOf]. destruct (decide (k = KBounds)) as [->|Hk].
        -- rewrite !decide_True by (split; reflexivity). rewrite Hb. reflexivity.
        -- rewrite !decide_False by (intros [? _]; contradiction). reflexivity.
    + exists w1. split; [reflexivity|]. split; [apply sameEntities_refl|].
      split; [exact R1|]. split; [reflexivity|]. intros k.
      rewrite decide_False by (intros [_ ?]; discriminate). reflexivity.
  - apply NoDup_idsBelow.
  - exact Hr.
  - exists w'. split; [exact E|]. split; [exact S'|].
    split; [apply (sameEntities_wf w w' S' Hwf R')|].
    intros k id. destruct (decide (id < getEntityCount w)) as [Hlt|Hge].
    + rewrite (Rel k id) by (apply In_idsBelow; exact Hlt).
      destruct (decide (k = KBounds /\ hasComponent w KBounds id = true)) as [[-> Hh]|Hn].
      * rewrite decide_True by (repeat split; assumption). reflexivity.
      * rewrite decide_False by (intros (? & ? & _); apply Hn; split; assumption).
        reflexivity.
    + rewrite decide_False by (intros (_ & _ & ?); contradiction).
      apply Fr. intros Hin. apply In_idsBelow in Hin. contradiction.
Qed.

(** X27. [setKeepInBounds] records the flag in the facade and writes it to
    the bounds component of every entity whose identifier is below the
    entity count; a bounds component of an entity with a larger identifier
    keeps its flag.  The bounds component that the bounds system finds is
    always among those written, so after [setKeepInBounds(false)] a pass of
    the bounds system changes nothing. *)
Theorem setKeepInBounds_reaches_the_bounds_in_use (sim : WasmTrafficSimulation F)
    (keep : bool) :
  wf_world (m_world sim) = true ->
  exists sim', setKeepInBounds sim keep = Some sim'
    /\ getKeepInBounds sim' = keep
    /\ sameEntities (m_world sim) (m_world sim') /\ wf_world (m_world sim') = true
    /\ (forall id b, hasComponent (m_world sim) KBounds id = true ->
          getBounds (m_world sim) id = Some b ->
          getBounds (m_world sim') id
          = Some (mkBounds (bounds_width b) (bounds_height b)
                    (if id <? getEntityCount (m_world sim) then keep
                     else keepInBounds b)))
    /\ (forall b, findGlobalBounds (m_world sim) = Some (Some b) ->
          findGlobalBounds (m_world sim')
          = Some (Some (mkBounds (bounds_width b) (bounds_height b) keep)))
    /\ (keep = false -> forall dt, boundsSystem (m_world sim') dt = Some (m_world sim')).
Proof.
  intros Hwf. unfold setKeepInBounds. cbv zeta.
  destruct (setKeepInBounds_pass (m_world sim) keep Hwf) as (w' & E & S' & W' & Hl).
  rewrite E. cbn [mbind option_bind]. eexists. split; [reflexivity|].
  cbn [m_world getKeepInBounds m_keepInBounds].
  split; [reflexivity|]. split; [exact S'|]. split; [exact W'|].
  set (w := m_world sim) in *.
  assert (Hget : forall id b, hasComponent w KBounds id = true -> getBounds w id = Some b ->
            getBounds w' id
            = Some (mkBounds (bounds_width b) (bounds_height b)
                      (if id <? getEntityCount w then keep else keepInBounds b))).
  { intros id b Hh Hg. unfold getBounds in Hg.
    destruct (getComponent w KBounds id) as [c|] eqn:Hgc; [|discriminate].
    apply getComponent_inv in Hgc. destruct c; try discriminate.
    cbn [mbind option_bind] in Hg. injection Hg as ->.
    assert (Hh' : hasComponent w' KBounds id = true)
      by (rewrite (sameEntities_hasComponent _ _ _ _ S'); exact Hh).
    unfold getBounds. destruct (N.ltb_spec id (getEntityCount w)) as [Hlt|Hge].
    - rewrite (getComponent_lookup w' KBounds id
                 (BoundsC (mkBounds (bounds_width b) (bounds_height b) keep)) W' Hh').
      + reflexivity.
      + rewrite Hl, decide_True by (repeat split; assumption). rewrite Hgc. reflexivity.
    - rewrite (getComponent_lookup w' KBounds id (BoundsC b) W' Hh').
      + destruct b. reflexivity.
      + rewrite Hl, decide_False by (intros (_ & _ & ?); lia). exact Hgc. }
  assert (Hfind : forall b, findGlobalBounds w = Some (Some b) ->
            findGlobalBounds w'
            = Some (Some (mkBounds (bounds_width b) (bounds_height b) keep))).
  { intros b Hf. unfold findGlobalBounds in Hf |- *.
    assert (Hc : getEntityCount w' = getEntityCount w) by apply S'.
    rewrite Hc.
    rewrite (find_ext _ (fun id => entityExists w id && hasComponent w KBounds id)).
    2:{ intros x. rewrite (sameEntities_exists _ _ _ S'),
                          (sameEntities_hasComponent _ _ _ _ S'). reflexivity. }
    destruct (List.find _ _) as [id0|] eqn:Hf0; [|discriminate].
    destruct (getBounds w id0) as [b0|] eqn:Hb0; [|discriminate].
    cbn [mbind option_bind] in Hf. injection Hf as ->.
    apply find_some in Hf0 as [Hin Hp]. apply In_idsBelow in Hin.
    apply andb_true_iff in Hp as [_ Hh].
    rewrite (Hget id0 b Hh Hb0). rewrite (proj2 (N.ltb_lt _ _) Hin). reflexivity. }
  split; [exact Hget|]. split; [exact Hfind|].
  intros -> dt. unfold boundsSystem.
  destruct (findGlobalBounds_total w (wf_readable w Hwf)) as ([b|] & Hf).
  - rewrite (Hfind b Hf). reflexivity.
  - assert (Hf' : findGlobalBounds w' = Some None).
    { unfold findGlobalBounds in Hf |- *.
      assert (Hc : getEntityCount w' = getEntityCount w) by apply S'. rewrite Hc.
      rewrite (find_ext _ (fun id => entityExists w id && hasComponent w KBounds id)).
      2:{ intros x. rewrite (sameEntities_exists _ _ _ S'),
                            (sameEntities_hasComponent _ _ _ _ S'). reflexivity. }
      destruct (List.find _ _) as [id0|]; [|reflexivity].
      destruct (getBounds w id0); discriminate. }
    rewrite Hf'. reflexivity.
Qed.

End Tick.

(** ** The simple simulation *)

Section SimpleFacade.
Context {F : Type} {fl : FloatOps F}.

Lemma firstInactive_Some (l : list (Simple.WasmVehicle F)) (i : nat) :
  Simple.firstInactive l = Some i ->
  (i < length l)%nat
  /\ (exists v, l !! i = Some v /\ Simple.active v = false)
  /\ List.filter Simple.active (take i l) = take i l.
Proof.
  revert i. induction l as [|v l IH]; intros i; [discriminate|]. cbn [Simple.firstInactive].
  destruct (Simple.active v) eqn:Hv.
  - destruct (Simple.firstInactive l) as [j|]; [|discriminate]. cbn. intros E.
    injection E as <-. destruct (IH j eq_refl) as (H1 & H2 & H3).
    split; [cbn; lia|]. split; [exact H2|]. cbn. rewrite Hv, H3. reflexivity.
  - intros E. injection E as <-. split; [cbn; lia|]. split; [exists v; split; [reflexivity | exact Hv]|].
    reflexivity.
Qed.

Lemma firstInactive_None (l : list (Simple.WasmVehicle F)) :
  Simple.firstInactive l = None <-> List.filter Simple.active l = l.
Proof.
  induction l as [|v l IH]; [split; reflexivity|]. cbn [Simple.firstInactive List.filter].
  destruct (Simple.active v) eqn:Hv.
  - destruct (Simple.firstInactive l) as [j|]; cbn.
    + split; [discriminate|]. intros E. injection E as E. apply IH in E. discriminate.
    + split; [intros _; f_equal; apply IH; reflexivity | reflexivity].
  - split; [discriminate|]. intros E.
    assert (H := filter_length_le Simple.active l). apply (f_equal length) in E.
    cbn in E. lia.
Qed.

(** Activating an inactive slot raises the number of active vehicles by
    one. *)
Lemma count_insert_active (l : list (Simple.WasmVehicle F)) (i : nat)
    (v v' : Simple.WasmVehicle F) :
  l !! i = Some v -> Simple.active v = false -> Simple.active v' = true ->
  length (List.filter Simple.active (<[i := v']> l))
  = S (length (List.filter Simple.active l)).
Proof.
  revert i. induction l as [|a l IH]; intros i Hl Hv Hv'; [discriminate|].
  destruct i as [|i]; cbn [insert list_insert List.filter].
  - injection Hl as ->. rewrite Hv, Hv'. reflexivity.
  - change ((a :: l) !! S i) with (l !! i) in Hl. specialize (IH i Hl Hv Hv').
    destruct (Simple.active a); cbn [length]; [f_equal|]; exact IH.
Qed.

Lemma activeVehicle_spec (sim : Simple.WasmTrafficSimulation F) (id : Z) :
  Simple.activeVehicle sim id
  = if (0 <=? id)%Z
    then v ← Simple.m_vehicles sim !! Z.to_nat id;
         if Simple.active v then Some v else None
    else None.
Proof.
  unfold Simple.activeVehicle. destruct (Z.leb_spec 0 id) as [H0|H0]; [|reflexivity].
  destruct (Z.ltb_spec id (Z.of_nat (length (Simple.m_vehicles sim)))) as [H1|H1];
    [reflexivity|].
  rewrite lookup_ge_None_2 by lia. reflexivity.
Qed.

Lemma activeVehicle_lookup (sim : Simple.WasmTrafficSimulation F) (i : nat)
    (v : Simple.WasmVehicle F) :
  Simple.m_vehicles sim !! i = Some v -> Simple.active v = true ->
  Simple.activeVehicle sim (Z.of_nat i) = Some v.
Proof.
  intros Hl Hv. rewrite activeVehicle_spec.
  rewrite (proj2 (Z.leb_le _ _)) by lia. rewrite Nat2Z.id, Hl. cbn. rewrite Hv. reflexivity.
Qed.

(** Two states that agree on slot [id] answer alike for [id]. *)
Lemma activeVehicle_frame (sim sim' : Simple.WasmTrafficSimulation F) (id : Z) :
  ((0 <= id)%Z ->
   Simple.m_vehicles sim' !! Z.to_nat id = Simple.m_vehicles sim !! Z.to_nat id) ->
  Simple.getVehiclePosition sim' id = Simple.getVehiclePosition sim id
  /\ Simple.getVehicleVelocity sim' id = Simple.getVehicleVelocity sim id.
Proof.
  intros H. unfold Simple.getVehiclePosition, Simple.getVehicleVelocity.
  rewrite !activeVehicle_spec. destruct (Z.leb_spec 0 id) as [H0|H0]; [|split; reflexivity].
  rewrite (H H0). split; reflexivity.
Qed.

(** X28. [createVehicle] of the simple simulation never indexes outside
    the vector: the identifier it returns is a valid index, and position
    and velocity read back under it are the ones given.  While [m_nextId]
    equals the size of the vector (as it does from construction until the
    first [clear]) this stays so, the vehicle count goes up by one, and
    what is read under any other identifier does not change. *)
Theorem simple_createVehicle_then_read (sim : Simple.WasmTrafficSimulation F)
    (x y velx vely : F) :
  (0 <= Simple.m_nextId sim)%Z ->
  let id := (Simple.createVehicle sim x y velx vely).1 in
  let sim' := (Simple.createVehicle sim x y velx vely).2 in
  (0 <= id < Z.of_nat (length (Simple.m_vehicles sim')))%Z
  /\ Simple.getVehiclePosition sim' id = mkVec x y
  /\ Simple.getVehicleVelocity sim' id = mkVec velx vely
  /\ (0 <= Simple.m_nextId sim')%Z
  /\ (Simple.m_nextId sim = Z.of_nat (length (Simple.m_vehicles sim)) ->
      Simple.m_nextId sim' = Z.of_nat (length (Simple.m_vehicles sim'))
      /\ Simple.getVehicleCount sim' = (Simple.getVehicleCount sim + 1)%Z
      /\ forall other, other <> id ->
           Simple.getVehiclePosition sim' other = Simple.getVehiclePosition sim other
           /\ Simple.getVehicleVelocity sim' other = Simple.getVehicleVelocity sim other).
Proof.
  intros Hn id sim'. subst id sim'. unfold Simple.createVehicle.
  set (nv := Simple.mkWasmVehicle (mkVec x y) (mkVec velx vely) (f_lit 100 1) true).
  destruct (Simple.firstInactive (Simple.m_vehicles sim)) as [i|] eqn:Hf; cbn [fst snd].
  - destruct (firstInactive_Some _ _ Hf) as (Hlt & (v & Hv & Ha) & _).
    set (sim' := Simple.mkSimulation _ _ _ _ _).
    assert (Hl : Simple.m_vehicles sim' !! i = Some nv).
    { cbn. rewrite Nat2Z.id. apply list_lookup_insert_eq. exact Hlt. }
    assert (Hlen : length (Simple.m_vehicles sim') = length (Simple.m_vehicles sim))
      by (cbn; apply length_insert).
    split; [rewrite Hlen; lia|].
    unfold Simple.getVehiclePosition, Simple.getVehicleVelocity.
    rewrite (activeVehicle_lookup _ i nv Hl eq_refl).
    split; [reflexivity|]. split; [reflexivity|]. split; [exact Hn|].
    intros Hc. rewrite Hlen. split; [exact Hc|]. split.
    + unfold Simple.getVehicleCount. cbn [Simple.m_vehicles sim']. rewrite Nat2Z.id.
      rewrite (count_insert_active _ i v nv Hv Ha eq_refl). lia.
    + intros other Hne. apply activeVehicle_frame. intros H0. cbn.
      apply list_lookup_insert_ne. lia.
  - set (m := Simple.m_nextId sim) in *. set (sim' := Simple.mkSimulation _ _ _ _ _).
    assert (Hlen : length (Simple.m_vehicles sim') = Z.to_nat (m + 1)).
    { cbn. rewrite length_insert, length_resize. reflexivity. }
    assert (Hl : Simple.m_vehicles sim' !! Z.to_nat m = Some nv).
    { cbn. apply list_lookup_insert_eq. rewrite length_resize. lia. }
    split; [rewrite Hlen; lia|].
    unfold Simple.getVehiclePosition, Simple.getVehicleVelocity.
    rewrite <- (Z2Nat.id m Hn) at 1 2.
    rewrite (activeVehicle_lookup _ _ nv Hl eq_refl).
    split; [reflexivity|]. split; [reflexivity|]. split; [cbn; lia|].
    intros Hc. cbn [Simple.m_nextId sim']. split; [rewrite Hlen; lia|].
    assert (Hres : resize (Z.to_nat (m + 1)) Simple.newWasmVehicle (Simple.m_vehicles sim)
                   = Simple.m_vehicles sim ++ [Simple.newWasmVehicle]).
    { rewrite resize_ge by lia.
      replace (Z.to_nat (m + 1) - length (Simple.m_vehicles sim))%nat with 1%nat by lia.
      reflexivity. }
    assert (Hm : Z.to_nat m = length (Simple.m_vehicles sim)) by lia.
    split.
    + unfold Simple.getVehicleCount. cbn [Simple.m_vehicles sim']. rewrite Hres.
      rewrite (count_insert_active _ _ Simple.newWasmVehicle nv).
      * rewrite List.filter_app. cbn. rewrite app_nil_r. lia.
      * rewrite Hm. apply list_lookup_middle. reflexivity.
      * reflexivity.
      * reflexivity.
    + intros other Hne. apply activeVehicle_frame. intros H0. cbn. rewrite Hres.
      rewrite list_lookup_insert_ne by lia.
      destruct (decide (Z.to_nat other < length (Simple.m_vehicles sim))%nat).
      * apply lookup_app_l. assumption.
      * rewrite !lookup_ge_None_2; [reflexivity|lia|rewrite length_app; cbn; lia].
Qed.

(** The refill after [clear]: with [m_nextId] at 0, active vehicles in
    front and inactive ones behind, each [createVehicle] takes the first
    inactive slot. *)
Lemma refill (args : list (F * F * F * F)) :
  forall (front back : list (Simple.WasmVehicle F)) (width height : F) (keep : bool),
    List.filter Simple.active front = front ->
    List.filter Simple.active back = [] ->
    length args = length back ->
    exists front',
      Simple.createVehicles args (Simple.mkSimulation (front ++ back) width height keep 0)
      = ((fun i => Z.of_nat (length front + i)) <$> seq 0 (length args),
         Simple.mkSimulation (front ++ front') width height keep 0)
      /\ List.filter Simple.active front' = front' /\ length front' = length args.
Proof.
  induction args as [|[[[x y] velx] vely] args IH]; intros front back width height keep Hf Hb Hl.
  - destruct back; [|discriminate]. exists []. split; [reflexivity|]. split; reflexivity.
  - destruct back as [|b back]; [discriminate|]. cbn [Simple.createVehicles].
    assert (Hbi : Simple.active b = false /\ List.filter Simple.active back = []).
    { cbn in Hb. destruct (Simple.active b); [discriminate|]. split; [reflexivity | exact Hb]. }
    destruct Hbi as [Hbi Hback].
    assert (Hfirst : Simple.firstInactive (front ++ b :: back) = Some (length front)).
    { clear -Hf Hbi. induction front as [|a front IHf]; cbn.
      - rewrite Hbi. reflexivity.
      - cbn in Hf. destruct (Simple.active a) eqn:Ha.
        + injection Hf as Hf. rewrite (IHf Hf). reflexivity.
        + assert (H := filter_length_le Simple.active front).
          apply (f_equal length) in Hf. cbn in Hf. lia. }
    unfold Simple.createVehicle. cbn [Simple.m_vehicles Simple.m_nextId Simple.m_width
                                      Simple.m_height Simple.m_keepInBounds].
    rewrite Hfirst. rewrite Nat2Z.id.
    set (nv := Simple.mkWasmVehicle (mkVec x y) (mkVec velx vely) (f_lit 100 1) true).
    assert (Hins : <[length front := nv]> (front ++ b :: back) = (front ++ [nv]) ++ back).
    { rewrite insert_app_r_alt by lia. rewrite Nat.sub_diag. cbn.
      rewrite <- app_assoc. reflexivity. }
    rewrite Hins.
    destruct (IH (front ++ [nv]) back width height keep) as (front' & E & Hf' & Hl').
    + rewrite List.filter_app, Hf. reflexivity.
    + exact Hback.
    + cbn in Hl. lia.
    + rewrite E. exists (nv :: front'). split.
      * cbn [length seq fmap list_fmap]. f_equal.
        -- f_equal; [f_equal; lia|]. rewrite <- fmap_S_seq, <- list_fmap_compose.
           apply list_fmap_ext. intros i j _. cbn. rewrite length_app. cbn. lia.
        -- rewrite <- app_assoc. reflexivity.
      * split; [cbn; rewrite Hf'; reflexivity | cbn; lia].
Qed.

(** X29. [clear] of the simple simulation marks every vehicle inactive and
    resets [m_nextId] to 0 but keeps the vector: the vehicle count is 0,
    and the next [createVehicle] calls reuse the slots 0, 1, ... in order.
    Once all [n] slots are active again, one more [createVehicle] takes
    the identifier [m_nextId] = 0, which is in use, and resizes the vector
    to one element: it returns 0, and of the [n] vehicles just created
    only the new one is left. *)
Theorem simple_clear_then_overfill (sim : Simple.WasmTrafficSimulation F)
    (args : list (F * F * F * F)) (x y velx vely : F) :
  length args = length (Simple.m_vehicles sim) -> (1 <= length args)%nat ->
  let cleared := Simple.clear sim in
  let refilled := Simple.createVehicles args cleared in
  let last := Simple.createVehicle refilled.2 x y velx vely in
  Simple.getVehicleCount cleared = 0%Z
  /\ refilled.1 = Z.of_nat <$> seq 0 (length args)
  /\ Simple.getVehicleCount refilled.2 = Z.of_nat (length args)
  /\ last.1 = 0%Z
  /\ length (Simple.m_vehicles last.2) = 1%nat
  /\ Simple.getVehicleCount last.2 = 1%Z
  /\ Simple.getVehiclePosition last.2 0 = mkVec x y
  /\ forall id, id <> 0%Z -> Simple.getVehiclePosition last.2 id = newVector2D.
Proof.
  intros Hl Hn cleared refilled last.
  assert (Hback : List.filter Simple.active (Simple.deactivate <$> Simple.m_vehicles sim) = []).
  { clear. induction (Simple.m_vehicles sim) as [|v l IH]; [reflexivity|]. cbn. exact IH. }
  destruct (refill args [] (Simple.deactivate <$> Simple.m_vehicles sim)
              (Simple.m_width sim) (Simple.m_height sim) (Simple.m_keepInBounds sim)
              eq_refl Hback) as (front' & E & Hf' & Hl').
  { rewrite length_fmap. exact Hl. }
  cbn [app length Nat.add] in E.
  assert (Er : refilled = (Z.of_nat <$> seq 0 (length args),
                           Simple.mkSimulation front' (Simple.m_width sim)
                             (Simple.m_height sim) (Simple.m_keepInBounds sim) 0)).
  { subst refilled cleared. unfold Simple.clear. rewrite E. reflexivity. }
  split.
  { subst cleared. unfold Simple.getVehicleCount, Simple.clear. cbn [Simple.m_vehicles].
    rewrite Hback. reflexivity. }
  split; [rewrite Er; reflexivity|].
  split.
  { rewrite Er. unfold Simple.getVehicleCount. cbn [snd Simple.m_vehicles].
    rewrite Hf', Hl'. reflexivity. }
  subst last. rewrite Er. cbn [snd]. unfold Simple.createVehicle.
  cbn [Simple.m_vehicles Simple.m_nextId Simple.m_width Simple.m_height
       Simple.m_keepInBounds].
  rewrite (proj2 (firstInactive_None front') Hf').
  destruct front' as [|a front']; [cbn in Hl'; lia|].
  cbn [fst snd Simple.m_vehicles]. change (Z.to_nat (0 + 1)) with 1%nat.
  change (Z.to_nat 0) with 0%nat. cbn [resize insert list_insert]. rewrite resize_0.
  split; [reflexivity|]. split; [reflexivity|]. split; [reflexivity|].
  split; [reflexivity|].
  intros id Hid. unfold Simple.getVehiclePosition. rewrite activeVehicle_spec.
  destruct (Z.leb_spec 0 id) as [H0|H0]; [|reflexivity].
  cbn [Simple.m_vehicles]. rewrite lookup_ge_None_2 by (cbn; lia). reflexivity.
Qed.

End SimpleFacade.

Section SimpleSinglePrecision.

(** What the two bounds checks leave is neither below 0 nor above the
    limit. *)
Lemma boundsAxis_range (p v limit : spec_float) :
  flt limit f0 = false ->
  flt (boundsAxis p v limit).1 f0 = false /\ flt limit (boundsAxis p v limit).1 = false.
Proof.
  intros Hl. unfold boundsAxis.
  destruct (flt p f0) eqn:H0; cbn [fst].
  - split; [apply SFltb_irrefl | exact Hl].
  - destruct (flt limit p) eqn:H1; cbn [fst].
    + split; [exact Hl | apply SFltb_irrefl].
    + split; [exact H0 | exact H1].
Qed.

(** X30. A tick of the simple simulation, in single precision: every
    vehicle stays at its index; an inactive vehicle is left as it is; an
    active vehicle stays active and keeps its maximum speed; and with
    keepInBounds set and a width and height that are not below 0, no
    coordinate of its new position is below 0 or above the width resp.
    the height. *)
Theorem simple_update_keeps_vehicles_in_range
    (sim : Simple.WasmTrafficSimulation spec_float) (dt : spec_float) (i : nat)
    (v : Simple.WasmVehicle spec_float) :
  Simple.m_vehicles sim !! i = Some v ->
  length (Simple.m_vehicles (Simple.update sim dt)) = length (Simple.m_vehicles sim)
  /\ exists v', Simple.m_vehicles (Simple.update sim dt) !! i = Some v'
    /\ Simple.active v' = Simple.active v
    /\ Simple.maxSpeed v' = Simple.maxSpeed v
    /\ (Simple.active v = false -> v' = v)
    /\ (Simple.active v = true -> Simple.m_keepInBounds sim = true ->
        flt (Simple.m_width sim) f0 = false -> flt (Simple.m_height sim) f0 = false ->
        flt (vx (Simple.position v')) f0 = false
        /\ flt (Simple.m_width sim) (vx (Simple.position v')) = false
        /\ flt (vy (Simple.position v')) f0 = false
        /\ flt (Simple.m_height sim) (vy (Simple.position v')) = false).
Proof.
  intros Hl. split; [unfold Simple.update; cbn [Simple.m_vehicles]; apply length_fmap|].
  exists (Simple.updateVehicle sim dt v). split.
  { unfold Simple.update. cbn [Simple.m_vehicles]. rewrite list_lookup_fmap, Hl. reflexivity. }
  unfold Simple.updateVehicle. destruct (Simple.active v) eqn:Ha; cbn [negb].
  2:{ split; [exact Ha|]. split; [reflexivity|]. split; [reflexivity|].
      intros; discriminate. }
  set (p := Simple.vec_add _ _).
  destruct (Simple.m_keepInBounds sim) eqn:Hk.
  - assert (Bx := boundsAxis_range (vx p) (vx (Simple.velocity v)) (Simple.m_width sim)).
    assert (By := boundsAxis_range (vy p) (vy (Simple.velocity v)) (Simple.m_height sim)).
    destruct (boundsAxis (vx p) _ _) as [px velx].
    destruct (boundsAxis (vy p) _ _) as [py vely]. cbn [fst] in Bx, By.
    cbn [Simple.active Simple.maxSpeed Simple.position Simple.velocity vx vy].
    split; [reflexivity|]. split; [reflexivity|]. split; [intros; discriminate|].
    intros _ _ Hw Hh. destruct (Bx Hw) as [B1 B2]. destruct (By Hh) as [B3 B4].
    split; [exact B1|]. split; [exact B2|]. split; [exact B3 | exact B4].
  - cbn [Simple.active Simple.maxSpeed Simple.position Simple.velocity].
    split; [reflexivity|]. split; [reflexivity|]. split; [intros; discriminate|].
    intros _ E; discriminate.
Qed.

End SimpleSinglePrecision.

(** ** The further properties at concrete inputs *)

Section Instances.
Import Scenario Fixtures.
#[local] Existing Instance firstUseRegistry.
#[local] Existing Instance release_build.
#[local] Existing Instance leastFirst.

Lemma addComponent_then_getComponent_witness :
  wf_world (m_world twoCars) = true
  /\ mask_at (m_world twoCars) 1 = Some 30
  /\ entityExists (m_world twoCars) 1 = true
  /\ exists w', addComponent (m_world twoCars) 1 (SelectableC (mkSelectable true)) = Some w'
       /\ getComponent w' KSelectable 1 = Some (SelectableC (mkSelectable true))
       /\ wf_world w' = true.
Proof.
  assert (H1 : wf_world (m_world twoCars) = true) by (vm_compute; reflexivity).
  assert (H2 : mask_at (m_world twoCars) 1 = Some 30) by (vm_compute; reflexivity).
  assert (H3 : entityExists (m_world twoCars) 1 = true) by (vm_compute; reflexivity).
  split; [exact H1|]. split; [exact H2|]. split; [exact H3|].
  destruct (addComponent_then_getComponent (cfg := release_build) (m_world twoCars) 1 30
              (SelectableC (mkSelectable true)) H1 H2 (or_intror H3))
    as (w' & A & W & _ & G & _).
  exists w'. split; [exact A|]. split; [exact G | exact W].
Defined.

Lemma removeComponent_clears_one_slot_witness :
  wf_world (m_world twoCars) = true
  /\ entityExists (m_world twoCars) 1 = true
  /\ hasComponent (removeComponent (m_world twoCars) KVehicle 1) KVehicle 1 = false
  /\ lookupComponent (removeComponent (m_world twoCars) KVehicle 1) KVehicle 1 = None
  /\ m_entityCount (removeComponent (m_world twoCars) KVehicle 1) = 3.
Proof.
  assert (H1 : wf_world (m_world twoCars) = true) by (vm_compute; reflexivity).
  assert (H2 : entityExists (m_world twoCars) 1 = true) by (vm_compute; reflexivity).
  split; [exact H1|]. split; [exact H2|].
  destruct (removeComponent_clears_one_slot (m_world twoCars) KVehicle 1 H1 H2)
    as (_ & A & B & _ & _ & _ & C).
  split; [exact A|]. split; [exact B|]. rewrite C. vm_compute. reflexivity.
Defined.


Lemma destroyed_entity_is_recycled_witness :
  wf_world (m_world twoCars) = true
  /\ entityExists (m_world twoCars) 1 = true
  /\ entityExists (destroyEntity (m_world twoCars) 1) 1 = false
  /\ (createEntity (destroyEntity (m_world twoCars) 1)).1 = 1
  /\ m_freeEntities (createEntity (destroyEntity (m_world twoCars) 1)).2
     = m_freeEntities (m_world twoCars).
Proof.
  assert (H1 : wf_world (m_world twoCars) = true) by (vm_compute; reflexivity).
  assert (H2 : entityExists (m_world twoCars) 1 = true) by (vm_compute; reflexivity).
  split; [exact H1|]. split; [exact H2|].
  destruct (destroyed_entity_is_recycled (m_world twoCars) 1 H1 H2)
    as (_ & A & _ & _ & _ & _ & B & C & _).
  split; [exact A|]. split; [exact B | exact C].
Defined.

Lemma getEntitiesWith_members_witness :
  length (m_entities (m_world twoCars)) = length (m_entityMasks (m_world twoCars))
  /\ getEntitiesWith (m_world twoCars) []
     = idsBelow (N.of_nat (length (m_entities (m_world twoCars))))
  /\ (In 1 (getEntitiesWith (m_world twoCars) [KTransform; KVehicle])
      <-> forall k, In k [KTransform; KVehicle] -> hasComponent (m_world twoCars) k 1 = true).
Proof.
  assert (H1 : length (m_entities (m_world twoCars))
               = length (m_entityMasks (m_world twoCars))) by (vm_compute; reflexivity).
  split; [exact H1|].
  destruct (getEntitiesWith_members (m_world twoCars) [KTransform; KVehicle] H1)
    as (A & _ & C).
  split; [exact C|]. apply A. discriminate.
Defined.

Lemma debug_build_traps_on_first_component_witness :
  wf_world (m_world twoCars) = true
  /\ initialize (cfg := debug_build) twoCars (num 100) (num 100) = None
  /\ createVehicle (cfg := debug_build) twoCars (num 1) (num 1) (num 0) (num 0) = None.
Proof.
  assert (H1 : wf_world (m_world twoCars) = true) by (vm_compute; reflexivity).
  split; [exact H1|].
  destruct (debug_build_traps_on_first_component twoCars H1) as (_ & A & B).
  split; [apply A | apply B].
Defined.

Lemma clear_destroys_the_lower_half_witness :
  3 < 2 ^ 32 /\ getEntityCount (m_world twoCars) = 3
  /\ (forall id, id < 3 -> entityExists (m_world twoCars) id = true)
  /\ getEntityCount (m_world (clear twoCars)) = 1
  /\ entityExists (m_world (clear twoCars)) 2 = true.
Proof.
  assert (H1 : 3 < 2 ^ 32) by reflexivity.
  assert (H2 : getEntityCount (m_world twoCars) = 3) by (vm_compute; reflexivity).
  assert (H3 : forall id, id < 3 -> entityExists (m_world twoCars) id = true).
  { intros id Hid. assert (E : id = 0 \/ id = 1 \/ id = 2) by lia.
    destruct E as [->|[->| ->]]; vm_compute; reflexivity. }
  split; [exact H1|]. split; [exact H2|]. split; [exact H3|].
  destruct (clear_destroys_the_lower_half twoCars 3 H1 H2 H3) as [A B].
  split; [exact A|]. apply (B 2). reflexivity.
Defined.

Lemma reserveVehicles_never_fills_the_free_list_witness :
  wf_world (m_world twoCars) = true
  /\ m_freeEntities (m_world (reserveVehicles twoCars 2)) = []
  /\ length (m_entities (m_world (reserveVehicles twoCars 2))) = 5%nat.
Proof.
  assert (H1 : wf_world (m_world twoCars) = true) by (vm_compute; reflexivity).
  split; [exact H1|].
  destruct (reserveVehicles_never_fills_the_free_list twoCars 2 H1) as (_ & A & _ & B).
  split; [rewrite A | rewrite B]; vm_compute; reflexivity.
Defined.

Lemma getVehicleCount_stops_at_the_entity_count_witness :
  length (m_entities (m_world twoCars)) = length (m_entityMasks (m_world twoCars))
  /\ getVehicleCount twoCars
     = N.of_nat (length (List.filter (fun id => id <? getEntityCount (m_world twoCars))
                           (getEntitiesWith (m_world twoCars) [KTransform; KVehicle]))).
Proof.
  assert (H1 : length (m_entities (m_world twoCars))
               = length (m_entityMasks (m_world twoCars))) by (vm_compute; reflexivity).
  split; [exact H1 | apply (getVehicleCount_stops_at_the_entity_count twoCars H1)].
Defined.

Lemma createVehicle_then_read_witness :
  wf_world (m_world initialized) = true
  /\ exists sim',
       createVehicle initialized (num 10) (num 10) (num 1) (num 0)
       = Some ((createEntity (m_world initialized)).1, sim')
       /\ getVehiclePosition sim' (createEntity (m_world initialized)).1
          = Some (mkVec (num 10) (num 10))
       /\ getVehicleVelocity sim' (createEntity (m_world initialized)).1
          = Some (mkVec (num 1) (num 0)).
Proof.
  assert (H1 : wf_world (m_world initialized) = true) by (vm_compute; reflexivity).
  split; [exact H1|].
  destruct (createVehicle_then_read initialized (num 10) (num 10) (num 1) (num 0) H1)
    as (sim' & A & _ & B & C & _).
  exists sim'. split; [exact A|]. split; [exact B | exact C].
Defined.

Lemma initialize_again_keeps_the_first_bounds_witness :
  wf_world (m_world initialized) = true
  /\ m_freeEntities (m_world initialized) = []
  /\ m_entityCount (m_world initialized) + 1 < 2 ^ 32
  /\ findGlobalBounds (m_world initialized) = Some (Some (newBounds (num 100) (num 100)))
  /\ exists sim', initialize initialized (num 50) (num 60) = Some sim'
       /\ m_width sim' = num 50
       /\ findGlobalBounds (m_world sim') = Some (Some (newBounds (num 100) (num 100))).
Proof.
  assert (H1 : wf_world (m_world initialized) = true) by (vm_compute; reflexivity).
  assert (H2 : m_freeEntities (m_world initialized) = []) by (vm_compute; reflexivity).
  assert (H3 : m_entityCount (m_world initialized) + 1 < 2 ^ 32) by (vm_compute; reflexivity).
  assert (H4 : findGlobalBounds (m_world initialized)
               = Some (Some (newBounds (num 100) (num 100)))) by (vm_compute; reflexivity).
  split; [exact H1|]. split; [exact H2|]. split; [exact H3|]. split; [exact H4|].
  destruct (initialize_again_keeps_the_first_bounds initialized (num 50) (num 60)
              (newBounds (num 100) (num 100)) H1 H2 H3 H4)
    as (sim' & A & _ & B & _ & _ & C).
  exists sim'. split; [exact A|]. split; [exact B | exact C].
Defined.

Lemma movementSystem_integrates_velocity_witness :
  wf_world (m_world twoCars) = true
  /\ hasComponent (m_world twoCars) KTransform 1 = true
  /\ getTransform (m_world twoCars) 1
     = Some (newTransform (mkVec (num 10) (num 10)) (mkVec (num 1) (num 0)))
  /\ exists w', movementSystem (m_world twoCars) (num 1) = Some w'
       /\ getTransform w' 1
          = Some (moved (num 1)
                    (newTransform (mkVec (num 10) (num 10)) (mkVec (num 1) (num 0)))).
Proof.
  assert (H1 : wf_world (m_world twoCars) = true) by (vm_compute; reflexivity).
  assert (H2 : hasComponent (m_world twoCars) KTransform 1 = true)
    by (vm_compute; reflexivity).
  assert (H3 : getTransform (m_world twoCars) 1
               = Some (newTransform (mkVec (num 10) (num 10)) (mkVec (num 1) (num 0))))
    by (vm_compute; reflexivity).
  split; [exact H1|]. split; [exact H2|]. split; [exact H3|].
  destruct (movementSystem_integrates_velocity (cfg := release_build)
              (m_world twoCars) (num 1) H1) as (w' & A & _ & _ & B & _).
  exists w'. split; [exact A | apply (B 1 _ H2 H3)].
Defined.

Lemma trafficSignalSystem_cycles_witness :
  wf_world oneSignal = true
  /\ hasComponent oneSignal KTrafficSignal 0 = true
  /\ getTrafficSignal oneSignal 0 = Some newTrafficSignal
  /\ exists w' s', trafficSignalSystem oneSignal (num 1) = Some w'
       /\ getTrafficSignal w' 0 = Some s'
       /\ redDuration s' = redDuration (newTrafficSignal (F := spec_float)).
Proof.
  assert (H1 : wf_world oneSignal = true) by (vm_compute; reflexivity).
  assert (H2 : hasComponent oneSignal KTrafficSignal 0 = true) by (vm_compute; reflexivity).
  assert (H3 : getTrafficSignal oneSignal 0 = Some newTrafficSignal)
    by (vm_compute; reflexivity).
  split; [exact H1|]. split; [exact H2|]. split; [exact H3|].
  destruct (trafficSignalSystem_cycles (cfg := release_build) oneSignal (num 1) H1)
    as (w' & A & _ & _ & B & _).
  destruct (B 0 _ H2 H3) as (s' & G & _ & _ & R & _).
  exists w', s'. split; [exact A|]. split; [exact G | exact R].
Defined.

Lemma pathFollowingSystem_keeps_paths_witness :
  wf_world (m_world following) = true
  /\ exists w', pathFollowingSystem (m_world following) (num 1) (Some chain) = Some w'
       /\ wf_world w' = true
       /\ followed (lookupComponent (m_world following) KPathFollowing 1)
                   (lookupComponent w' KPathFollowing 1).
Proof.
  assert (H1 : wf_world (m_world following) = true) by (vm_compute; reflexivity).
  split; [exact H1|].
  destruct (pathFollowingSystem_keeps_paths (cfg := release_build)
              (m_world following) (num 1) chain H1) as (w' & A & _ & W & B & _).
  exists w'. split; [exact A|]. split; [exact W | apply B].
Defined.

Lemma createPath_sets_the_route_witness :
  wf_world (m_world routed) = true
  /\ m_roadNetwork routed = Some 0
  /\ entityExists (m_world routed) 1 = true
  /\ findPath roads routed (num 50) (num 0) (num 150) (num 0) = Some [(0, 0); (1, 0)]
  /\ exists sim', createPath roads routed 1 (num 50) (num 0) (num 150) (num 0)
                  = Some (true, sim')
       /\ getPathFollowing (m_world sim') 1
          = Some (mkPathFollowing [(0, 0); (1, 0)] 0 f0).
Proof.
  assert (H1 : wf_world (m_world routed) = true) by (vm_compute; reflexivity).
  assert (H2 : m_roadNetwork routed = Some 0) by reflexivity.
  assert (H3 : entityExists (m_world routed) 1 = true) by (vm_compute; reflexivity).
  assert (H4 : findPath roads routed (num 50) (num 0) (num 150) (num 0)
               = Some [(0, 0); (1, 0)]) by (vm_compute; reflexivity).
  split; [exact H1|]. split; [exact H2|]. split; [exact H3|]. split; [exact H4|].
  destruct (createPath_sets_the_route (cfg := release_build) roads routed 0 1
              (num 50) (num 0) (num 150) (num 0) [(0, 0); (1, 0)] H1 H2 H3 H4)
    as (sim' & A & _ & B & _); [discriminate|].
  exists sim'. split; [exact A | exact B].
Defined.

Lemma built_networks_are_tidy_witness :
  built chain
  /\ (forall id, is_Some (getRoadSegment chain id) <-> id < m_nextRoadId chain)
  /\ getRoadSegment chain (createRoadSegment chain (num 0) (num 0) (num 1) (num 1)).1
     = None.
Proof.
  split; [exact built_chain|].
  destruct (built_networks_are_tidy chain built_chain) as (A & _ & _ & _ & B).
  split; [exact A | apply B].
Defined.

Lemma update_is_safe_witness :
  wf_world (m_world following) = true
  /\ (forall p, In (PathFollowingSystem (Some p)) (m_systems (m_world following)) ->
                is_Some (roads !! p))
  /\ exists sim', update roads following (num 1) = Some sim'
                  /\ wf_world (m_world sim') = true.
Proof.
  assert (H1 : wf_world (m_world following) = true) by (vm_compute; reflexivity).
  assert (H2 : forall p, In (PathFollowingSystem (Some p)) (m_systems (m_world following)) ->
                         is_Some (roads !! p)).
  { intros p Hin. vm_compute in Hin.
    destruct Hin as [E|[E|[E|[E|[E|[]]]]]]; try discriminate E.
    injection E as <-. exists chain. reflexivity. }
  split; [exact H1|]. split; [exact H2|].
  destruct (update_is_safe (cfg := release_build) roads following (num 1) H1 H2)
    as (sim' & E & W & _).
  exists sim'. split; [exact E | exact W].
Defined.

Lemma setKeepInBounds_reaches_the_bounds_in_use_witness :
  wf_world (m_world twoCars) = true
  /\ exists sim', setKeepInBounds twoCars false = Some sim'
       /\ getKeepInBounds sim' = false
       /\ boundsSystem (m_world sim') (num 1) = Some (m_world sim').
Proof.
  assert (H1 : wf_world (m_world twoCars) = true) by (vm_compute; reflexivity).
  split; [exact H1|].
  destruct (setKeepInBounds_reaches_the_bounds_in_use (cfg := release_build)
              twoCars false H1) as (sim' & A & B & _ & _ & _ & _ & C).
  exists sim'. split; [exact A|]. split; [exact B | apply C; reflexivity].
Defined.

Lemma simple_createVehicle_then_read_witness :
  (0 <= Simple.m_nextId (Simple.WasmTrafficSimulation_new (F := spec_float)))%Z
  /\ Simple.getVehiclePosition
       (Simple.createVehicle Simple.WasmTrafficSimulation_new
          (num 10) (num 20) (num 1) (num 0)).2
       (Simple.createVehicle Simple.WasmTrafficSimulation_new
          (num 10) (num 20) (num 1) (num 0)).1
     = mkVec (num 10) (num 20).
Proof.
  assert (H1 : (0 <= Simple.m_nextId (Simple.WasmTrafficSimulation_new (F := spec_float)))%Z)
    by (cbn; lia).
  split; [exact H1|].
  exact (proj1 (proj2 (simple_createVehicle_then_read Simple.WasmTrafficSimulation_new
                         (num 10) (num 20) (num 1) (num 0) H1))).
Defined.

Lemma simple_clear_then_overfill_witness :
  length twoMore = length (Simple.m_vehicles simpleFilled)
  /\ (1 <= length twoMore)%nat
  /\ (Simple.createVehicle
        (Simple.createVehicles twoMore (Simple.clear simpleFilled)).2
        (num 3) (num 3) (num 0) (num 0)).1 = 0%Z
  /\ Simple.getVehicleCount
       (Simple.createVehicle
          (Simple.createVehicles twoMore (Simple.clear simpleFilled)).2
          (num 3) (num 3) (num 0) (num 0)).2 = 1%Z.
Proof.
  assert (H1 : length twoMore = length (Simple.m_vehicles simpleFilled))
    by (vm_compute; reflexivity).
  assert (H2 : (1 <= length twoMore)%nat) by (cbn; lia).
  split; [exact H1|]. split; [exact H2|].
  destruct (simple_clear_then_overfill simpleFilled twoMore (num 3) (num 3) (num 0) (num 0)
              H1 H2) as (_ & _ & _ & A & _ & B & _).
  split; [exact A | exact B].
Defined.

Lemma simple_update_keeps_vehicles_in_range_witness :
  Simple.m_vehicles oneVehicle !! 0%nat
  = Some (Simple.mkWasmVehicle (mkVec (num 95) (num 50)) (mkVec (num 50) (num 0))
                               (num 100) true)
  /\ exists v',
       Simple.m_vehicles (Simple.update oneVehicle (num 1)) !! 0%nat = Some v'
       /\ Simple.active v' = true
       /\ flt (Simple.m_width oneVehicle) (vx (Simple.position v')) = false
       /\ vx (Simple.position v') = num 100.
Proof.
  assert (H1 : Simple.m_vehicles oneVehicle !! 0%nat
               = Some (Simple.mkWasmVehicle (mkVec (num 95) (num 50))
                                            (mkVec (num 50) (num 0)) (num 100) true))
    by reflexivity.
  split; [exact H1|].
  destruct (simple_update_keeps_vehicles_in_range oneVehicle (num 1) 0%nat _ H1)
    as (_ & v' & A & B & _ & _ & C).
  exists v'. split; [exact A|]. split; [exact B|].
  destruct C as (_ & C & _); try (vm_compute; reflexivity).
  split; [exact C|].
  assert (E : Some v' = Simple.m_vehicles (Simple.update oneVehicle (num 1)) !! 0%nat)
    by (symmetry; exact A).
  vm_compute in E. injection E as ->. vm_compute. reflexivity.
Defined.

End Instances.
